(** * The fsearch query parser (src/fsearch_query_parser.c)

    A shallow embedding of the infix-to-postfix query parser: the numeric
    range parser, the field dispatcher with its modifier and function tables,
    macro expansion with its cycle check, and the shunting-yard main loop.
    The C functions mutate one [FsearchQueryParseContext]; here they are
    computations in a small state-and-abort monad over that record.  The
    recursion between the expression parser, the field dispatcher and the
    macro expander is driven by a step budget, and a closed formula for a
    sufficient budget is proved further down. *)

From Stdlib Require Import ZArith List String Ascii Bool Lia Arith.
Import ListNotations.

Local Open Scope string_scope.
Local Open Scope Z_scope.
Local Open Scope list_scope.

Set Implicit Arguments.

(** ** Tokens, comparisons, operators *)

(** The token kinds of fsearch_query_lexer.h, as the parser's switch
    statements name them. *)
Inductive FsearchQueryToken : Type :=
| FSEARCH_QUERY_TOKEN_NONE
| FSEARCH_QUERY_TOKEN_EOS
| FSEARCH_QUERY_TOKEN_WORD
| FSEARCH_QUERY_TOKEN_FIELD
| FSEARCH_QUERY_TOKEN_FIELD_EMPTY
| FSEARCH_QUERY_TOKEN_AND
| FSEARCH_QUERY_TOKEN_OR
| FSEARCH_QUERY_TOKEN_NOT
| FSEARCH_QUERY_TOKEN_BRACKET_OPEN
| FSEARCH_QUERY_TOKEN_BRACKET_CLOSE
| FSEARCH_QUERY_TOKEN_EQUAL
| FSEARCH_QUERY_TOKEN_SMALLER
| FSEARCH_QUERY_TOKEN_SMALLER_EQ
| FSEARCH_QUERY_TOKEN_GREATER
| FSEARCH_QUERY_TOKEN_GREATER_EQ.

Definition token_eqb (a b : FsearchQueryToken) : bool :=
  match a, b with
  | FSEARCH_QUERY_TOKEN_NONE, FSEARCH_QUERY_TOKEN_NONE
  | FSEARCH_QUERY_TOKEN_EOS, FSEARCH_QUERY_TOKEN_EOS
  | FSEARCH_QUERY_TOKEN_WORD, FSEARCH_QUERY_TOKEN_WORD
  | FSEARCH_QUERY_TOKEN_FIELD, FSEARCH_QUERY_TOKEN_FIELD
  | FSEARCH_QUERY_TOKEN_FIELD_EMPTY, FSEARCH_QUERY_TOKEN_FIELD_EMPTY
  | FSEARCH_QUERY_TOKEN_AND, FSEARCH_QUERY_TOKEN_AND
  | FSEARCH_QUERY_TOKEN_OR, FSEARCH_QUERY_TOKEN_OR
  | FSEARCH_QUERY_TOKEN_NOT, FSEARCH_QUERY_TOKEN_NOT
  | FSEARCH_QUERY_TOKEN_BRACKET_OPEN, FSEARCH_QUERY_TOKEN_BRACKET_OPEN
  | FSEARCH_QUERY_TOKEN_BRACKET_CLOSE, FSEARCH_QUERY_TOKEN_BRACKET_CLOSE
  | FSEARCH_QUERY_TOKEN_EQUAL, FSEARCH_QUERY_TOKEN_EQUAL
  | FSEARCH_QUERY_TOKEN_SMALLER, FSEARCH_QUERY_TOKEN_SMALLER
  | FSEARCH_QUERY_TOKEN_SMALLER_EQ, FSEARCH_QUERY_TOKEN_SMALLER_EQ
  | FSEARCH_QUERY_TOKEN_GREATER, FSEARCH_QUERY_TOKEN_GREATER
  | FSEARCH_QUERY_TOKEN_GREATER_EQ, FSEARCH_QUERY_TOKEN_GREATER_EQ => true
  | _, _ => false
  end.

Inductive FsearchQueryNodeComparison : Type :=
| FSEARCH_QUERY_NODE_COMPARISON_EQUAL
| FSEARCH_QUERY_NODE_COMPARISON_SMALLER
| FSEARCH_QUERY_NODE_COMPARISON_SMALLER_EQ
| FSEARCH_QUERY_NODE_COMPARISON_GREATER
| FSEARCH_QUERY_NODE_COMPARISON_GREATER_EQ
| FSEARCH_QUERY_NODE_COMPARISON_RANGE.

Inductive FsearchQueryNodeOperator : Type :=
| FSEARCH_QUERY_NODE_OPERATOR_AND
| FSEARCH_QUERY_NODE_OPERATOR_OR
| FSEARCH_QUERY_NODE_OPERATOR_NOT.

(** ** Flags and nodes *)

(** [FsearchQueryFlags] is a C bit set; [|=] is [Z.lor] and [&= ~f] is
    [Z.land] with [Z.lnot]. *)
Definition FsearchQueryFlags : Type := Z.

Definition flags_add (flags f : FsearchQueryFlags) : FsearchQueryFlags :=
  Z.lor flags f.

Definition flags_remove (flags f : FsearchQueryFlags) : FsearchQueryFlags :=
  Z.land flags (Z.lnot f).

Definition flags_test (flags f : FsearchQueryFlags) : bool :=
  negb (Z.land flags f =? 0).

(** Modelled from the spec: the node factory of fsearch_query_node.h is not
    among the sources; section 3.3 and 6.3 of the specification list its
    constructors, one per leaf kind, the two sentinels and the operator
    node.  A constructor is named after the C function the parser calls.
    [fsearch_query_node_new_extension] takes NULL for "no extension". *)
Inductive FsearchQueryNode : Type :=
| fsearch_query_node_new (search_term : string) (flags : FsearchQueryFlags)
| fsearch_query_node_new_size
    (flags : FsearchQueryFlags) (size_start size_end : Z)
    (comp_type : FsearchQueryNodeComparison)
| fsearch_query_node_new_depth
    (flags : FsearchQueryFlags) (depth_start depth_end : Z)
    (comp_type : FsearchQueryNodeComparison)
| fsearch_query_node_new_childcount
    (flags : FsearchQueryFlags) (count_start count_end : Z)
    (comp_type : FsearchQueryNodeComparison)
| fsearch_query_node_new_childfilecount
    (flags : FsearchQueryFlags) (count_start count_end : Z)
    (comp_type : FsearchQueryNodeComparison)
| fsearch_query_node_new_childfoldercount
    (flags : FsearchQueryFlags) (count_start count_end : Z)
    (comp_type : FsearchQueryNodeComparison)
| fsearch_query_node_new_date_modified
    (flags : FsearchQueryFlags) (dm_start dm_end : Z)
    (comp_type : FsearchQueryNodeComparison)
| fsearch_query_node_new_extension
    (search_term : option string) (flags : FsearchQueryFlags)
| fsearch_query_node_new_contenttype
    (search_term : string) (flags : FsearchQueryFlags)
| fsearch_query_node_new_parent
    (search_term : string) (flags : FsearchQueryFlags)
| fsearch_query_node_new_match_everything (flags : FsearchQueryFlags)
| fsearch_query_node_new_match_nothing
| fsearch_query_node_new_operator (op : FsearchQueryNodeOperator).

Definition FsearchQueryComparisonNewNodeFunc : Type :=
  FsearchQueryFlags -> Z -> Z -> FsearchQueryNodeComparison -> FsearchQueryNode.

(** A value parser writes through two out-pointers and answers [true], or
    answers [false]; [Some (a, b)] holds what it stores in [*num_out] and
    [*num_2_out]. *)
Definition FsearchQueryIntegerParserFunc : Type := string -> option (Z * Z).

(** [new_list (element)] is a one-element list; the factory never hands out
    NULL, so the C test for it has one live branch. *)
Definition new_list (element : FsearchQueryNode) : list FsearchQueryNode :=
  [element].

Definition append_to_list_if_nonnull
  (l : list FsearchQueryNode) (element : option FsearchQueryNode)
  : list FsearchQueryNode :=
  match element with
  | Some e => l ++ [e]
  | None => l
  end.

(** ** The numeric range parser *)

Definition INT32_MAX : Z := 2147483647.
Definition INT64_MAX : Z := 9223372036854775807.
Definition INT64_MIN : Z := -9223372036854775808.

(** Modelled from the spec: [fsearch_string_is_empty] belongs to
    fsearch_string_utils, which is not among the sources; the specification
    speaks of an empty part and an empty query. *)
Definition fsearch_string_is_empty (s : string) : bool :=
  match s with
  | EmptyString => true
  | String _ _ => false
  end.

(** [strsplit_first s] cuts [s] at the first occurrence of the two
    characters [..]: what precedes it and what follows it. *)
Fixpoint strsplit_first (s : string) : option (string * string) :=
  match s with
  | EmptyString => None
  | String c rest =>
      match c, rest with
      | "."%char, String "."%char rest' => Some (EmptyString, rest')
      | _, _ =>
          match strsplit_first rest with
          | Some (l, r) => Some (String c l, r)
          | None => None
          end
      end
  end.

(** GLib's [g_strsplit (s, "..", 2)]: the empty string gives the empty
    vector, a string without the separator gives itself, otherwise the part
    before the first separator and the whole remainder. *)
Definition g_strsplit (s : string) : list string :=
  match s with
  | EmptyString => []
  | _ =>
      match strsplit_first s with
      | Some (l, r) => [l; r]
      | None => [s]
      end
  end.

(** The body of [parse_numeric_field_with_optional_range] up to the call of
    [new_node_func]: [None] is the [fail] label, [Some (start, end, comp)]
    are the three values handed to the constructor. *)
Definition numeric_range_values
  (parse_value_func : FsearchQueryIntegerParserFunc) (str : string)
  : option (Z * Z * FsearchQueryNodeComparison) :=
  match g_strsplit str with
  | [] => None
  | e0 :: tl =>
      let first :=
        if fsearch_string_is_empty e0
        then Some (0, 0, FSEARCH_QUERY_NODE_COMPARISON_RANGE)
        else match parse_value_func e0 with
             | Some (a, b) => Some (a, b, FSEARCH_QUERY_NODE_COMPARISON_RANGE)
             | None => None
             end in
      match first with
      | None => None
      | Some (start, end0, comp0) =>
          let second :=
            match tl with
            | [] => Some (end0, comp0)
            | e1 :: _ =>
                if fsearch_string_is_empty e1
                then Some (INT32_MAX, FSEARCH_QUERY_NODE_COMPARISON_GREATER_EQ)
                else match parse_value_func e1 with
                     | Some (_, b) =>
                         Some (b, FSEARCH_QUERY_NODE_COMPARISON_RANGE)
                     | None => None
                     end
            end in
          match second with
          | None => None
          | Some (end1, comp1) =>
              let comp_type :=
                if start =? end1
                then FSEARCH_QUERY_NODE_COMPARISON_EQUAL
                else comp1 in
              Some (start, end1, comp_type)
          end
      end
  end.

Definition parse_numeric_field_with_optional_range
  (parse_value_func : FsearchQueryIntegerParserFunc)
  (new_node_func : FsearchQueryComparisonNewNodeFunc)
  (str : string) (flags : FsearchQueryFlags) : FsearchQueryNode :=
  match numeric_range_values parse_value_func str with
  | Some (start, end1, comp_type) => new_node_func flags start end1 comp_type
  | None => fsearch_query_node_new_match_nothing
  end.

(** *** [parse_integer] over C's [strtoll] *)

Definition is_space (c : ascii) : bool :=
  let n := nat_of_ascii c in
  (Nat.eqb n 32 || (Nat.leb 9 n && Nat.leb n 13))%bool.

Definition digit_value (c : ascii) : option Z :=
  let n := nat_of_ascii c in
  if (Nat.leb 48 n && Nat.leb n 57)%bool
  then Some (Z.of_nat (n - 48))
  else None.

Fixpoint skip_spaces (s : string) : string :=
  match s with
  | String c rest => if is_space c then skip_spaces rest else s
  | EmptyString => s
  end.

(** The run of decimal digits at the head of [s], accumulated onto [acc],
    and the unread suffix. *)
Fixpoint read_digits (acc : Z) (s : string) : Z * string :=
  match s with
  | String c rest =>
      match digit_value c with
      | Some d => read_digits (10 * acc + d) rest
      | None => (acc, s)
      end
  | EmptyString => (acc, s)
  end.

Definition starts_with_digit (s : string) : bool :=
  match s with
  | String c _ => match digit_value c with Some _ => true | None => false end
  | EmptyString => false
  end.

(** [strtoll (str, &end, 10)]: leading white space, an optional sign, a
    non-empty run of digits; out-of-range values are clamped to the ends of
    [int64_t].  [None] is "no conversion", where C sets [end] to [str]. *)
Definition strtoll (str : string) : option (Z * string) :=
  let s := skip_spaces str in
  let '(negative, body) :=
    match s with
    | String "-"%char rest => (true, rest)
    | String "+"%char rest => (false, rest)
    | _ => (false, s)
    end in
  if starts_with_digit body
  then
    let '(magnitude, suffix) := read_digits 0 body in
    let value := if negative then - magnitude else magnitude in
    Some (Z.max INT64_MIN (Z.min INT64_MAX value), suffix)
  else None.

Definition parse_integer : FsearchQueryIntegerParserFunc :=
  fun str =>
    match strtoll str with
    | None => None
    | Some (num, num_suffix) =>
        match num_suffix with
        | EmptyString => Some (num, num)
        | String _ _ => None
        end
    end.

(** ** What the parser takes from the rest of the program *)

(** The lexer state: the lexemes not yet read, each a token kind with its
    text. *)
Definition FsearchQueryLexer : Type := list (FsearchQueryToken * string).

(** The flag constants of the query-flags header, the two value parsers of
    fsearch_size_utils and fsearch_time_utils and the lexer constructor are
    declared outside the parser; the parser is verified for every choice of
    them. *)
Class External : Type := {
  QUERY_FLAG_MATCH_CASE : FsearchQueryFlags;
  QUERY_FLAG_EXACT_MATCH : FsearchQueryFlags;
  QUERY_FLAG_FILES_ONLY : FsearchQueryFlags;
  QUERY_FLAG_FOLDERS_ONLY : FsearchQueryFlags;
  QUERY_FLAG_SEARCH_IN_PATH : FsearchQueryFlags;
  QUERY_FLAG_REGEX : FsearchQueryFlags;
  fsearch_size_parse : FsearchQueryIntegerParserFunc;
  fsearch_date_time_parse_interval : FsearchQueryIntegerParserFunc;
  fsearch_query_lexer_new : string -> FsearchQueryLexer
}.

(** Modelled from the spec: the lexer of fsearch_query_lexer.c is not among
    the sources.  Section 6.2: [next] consumes and returns the next token
    with its text, [peek] returns the next token without consuming, and past
    the end of the input the answer is [Eos], again and again. *)
Definition fsearch_query_lexer_get_next_token (lexer : FsearchQueryLexer)
  : FsearchQueryToken * option string * FsearchQueryLexer :=
  match lexer with
  | [] => (FSEARCH_QUERY_TOKEN_EOS, None, lexer)
  | (FSEARCH_QUERY_TOKEN_EOS, _) :: _ => (FSEARCH_QUERY_TOKEN_EOS, None, lexer)
  | (token, text) :: rest => (token, Some text, rest)
  end.

Definition fsearch_query_lexer_peek_next_token (lexer : FsearchQueryLexer)
  : FsearchQueryToken :=
  fst (fst (fsearch_query_lexer_get_next_token lexer)).

(** ** The parse context and the monad of the parser *)

Record FsearchFilter : Type := {
  filter_macro : string;
  filter_query : string;
  filter_flags : FsearchQueryFlags
}.

(** Both GQueues are lists with the queue's tail (the top of the stack) at
    the head.  [macro_filters] is the pointer array of the registry; a filter
    record is identified by its position in it, which is what the pointer
    comparison of [g_queue_find] decides for the records the scan of
    [parse_filter_macros] can reach (the first one of each name). *)
Record FsearchQueryParseContext : Type := {
  lexer : FsearchQueryLexer;
  operator_stack : list FsearchQueryToken;
  macro_stack : list nat;
  macro_filters : list FsearchFilter;
  last_token : FsearchQueryToken
}.

(** How a call ends: it returns, the process aborts (a failed [g_assert]
    or a NULL string dereferenced), or the step budget of the embedding is
    used up. *)
Inductive result (A : Type) : Type :=
| Done (a : A)
| Abort
| Timeout.

Arguments Abort {A}.
Arguments Timeout {A}.

Definition M (A : Type) : Type :=
  FsearchQueryParseContext -> result (A * FsearchQueryParseContext).

Definition ret {A : Type} (a : A) : M A := fun ctx => Done (a, ctx).

Definition bind {A B : Type} (m : M A) (k : A -> M B) : M B :=
  fun ctx =>
    match m ctx with
    | Done (a, ctx') => k a ctx'
    | Abort => Abort
    | Timeout => Timeout
    end.

Definition abort {A : Type} : M A := fun _ => Abort.
Definition timeout {A : Type} : M A := fun _ => Timeout.

Declare Scope parser_scope.
Delimit Scope parser_scope with parser.
Notation "x <- m ;; k" := (bind m (fun x => k))
  (at level 61, m at next level, right associativity) : parser_scope.
Notation "' p <- m ;; k" := (bind m (fun p => k))
  (at level 61, p pattern, m at next level, right associativity)
  : parser_scope.
Notation "m ;;; k" := (bind m (fun _ => k))
  (at level 61, right associativity) : parser_scope.
Local Open Scope parser_scope.

Definition get_ctx : M FsearchQueryParseContext := fun ctx => Done (ctx, ctx).

(** Assignments to the fields of [*parse_ctx]. *)
Definition with_lexer (ctx : FsearchQueryParseContext) (l : FsearchQueryLexer)
  : FsearchQueryParseContext :=
  {| lexer := l;
     operator_stack := operator_stack ctx;
     macro_stack := macro_stack ctx;
     macro_filters := macro_filters ctx;
     last_token := last_token ctx |}.

Definition with_operator_stack
  (ctx : FsearchQueryParseContext) (s : list FsearchQueryToken)
  : FsearchQueryParseContext :=
  {| lexer := lexer ctx;
     operator_stack := s;
     macro_stack := macro_stack ctx;
     macro_filters := macro_filters ctx;
     last_token := last_token ctx |}.

Definition with_macro_stack (ctx : FsearchQueryParseContext) (s : list nat)
  : FsearchQueryParseContext :=
  {| lexer := lexer ctx;
     operator_stack := operator_stack ctx;
     macro_stack := s;
     macro_filters := macro_filters ctx;
     last_token := last_token ctx |}.

Definition with_last_token
  (ctx : FsearchQueryParseContext) (t : FsearchQueryToken)
  : FsearchQueryParseContext :=
  {| lexer := lexer ctx;
     operator_stack := operator_stack ctx;
     macro_stack := macro_stack ctx;
     macro_filters := macro_filters ctx;
     last_token := t |}.

Definition set_lexer (l : FsearchQueryLexer) : M unit :=
  fun ctx => Done (tt, with_lexer ctx l).

Definition set_operator_stack (s : list FsearchQueryToken) : M unit :=
  fun ctx => Done (tt, with_operator_stack ctx s).

Definition set_macro_stack (s : list nat) : M unit :=
  fun ctx => Done (tt, with_macro_stack ctx s).

Definition set_last_token (t : FsearchQueryToken) : M unit :=
  fun ctx => Done (tt, with_last_token ctx t).

(** [fsearch_query_lexer_get_next_token (parse_ctx->lexer, &value)]. *)
Definition lexer_next : M (FsearchQueryToken * option string) :=
  ctx <- get_ctx ;;
  let '(token, value, rest) := fsearch_query_lexer_get_next_token (lexer ctx) in
  set_lexer rest ;;;
  ret (token, value).

Definition lexer_peek : M FsearchQueryToken :=
  ctx <- get_ctx ;;
  ret (fsearch_query_lexer_peek_next_token (lexer ctx)).

(** [value->str] on a [GString *] that may be NULL. *)
Definition deref (value : option string) : M string :=
  match value with
  | Some s => ret s
  | None => abort
  end.

Definition expect_word : M (bool * option string) :=
  '(token, value) <- lexer_next ;;
  ret (token_eqb token FSEARCH_QUERY_TOKEN_WORD, value).

(** ** The operator stack and the token categories *)

Definition top_query_token (stack : list FsearchQueryToken)
  : FsearchQueryToken :=
  match stack with
  | [] => FSEARCH_QUERY_TOKEN_NONE
  | t :: _ => t
  end.

Definition pop_query_token (stack : list FsearchQueryToken)
  : FsearchQueryToken * list FsearchQueryToken :=
  match stack with
  | [] => (FSEARCH_QUERY_TOKEN_NONE, [])
  | t :: rest => (t, rest)
  end.

Definition push_query_token
  (stack : list FsearchQueryToken) (token : FsearchQueryToken)
  : list FsearchQueryToken :=
  token :: stack.

Definition get_operator_precedence (operator : FsearchQueryToken) : Z :=
  match operator with
  | FSEARCH_QUERY_TOKEN_NOT => 3
  | FSEARCH_QUERY_TOKEN_AND => 2
  | FSEARCH_QUERY_TOKEN_OR => 1
  | _ => 0
  end.

Definition get_operator_node_for_query_token (token : FsearchQueryToken)
  : option FsearchQueryNode :=
  match token with
  | FSEARCH_QUERY_TOKEN_AND =>
      Some (fsearch_query_node_new_operator FSEARCH_QUERY_NODE_OPERATOR_AND)
  | FSEARCH_QUERY_TOKEN_OR =>
      Some (fsearch_query_node_new_operator FSEARCH_QUERY_NODE_OPERATOR_OR)
  | FSEARCH_QUERY_TOKEN_NOT =>
      Some (fsearch_query_node_new_operator FSEARCH_QUERY_NODE_OPERATOR_NOT)
  | _ => None
  end.

Definition is_operand_token (token : FsearchQueryToken) : bool :=
  match token with
  | FSEARCH_QUERY_TOKEN_WORD
  | FSEARCH_QUERY_TOKEN_FIELD
  | FSEARCH_QUERY_TOKEN_FIELD_EMPTY => true
  | _ => false
  end.

Definition is_binary_operator_token (token : FsearchQueryToken) : bool :=
  token_eqb token FSEARCH_QUERY_TOKEN_AND
  || token_eqb token FSEARCH_QUERY_TOKEN_OR.

Definition is_operator_token (token : FsearchQueryToken) : bool :=
  is_binary_operator_token token || token_eqb token FSEARCH_QUERY_TOKEN_NOT.

(** [g_assert (cond)]. *)
Definition g_assert (cond : bool) : M unit :=
  if cond then ret tt else abort.

Definition is_operator_token_followed_by_operand
  (op_token : FsearchQueryToken) : M bool :=
  g_assert (is_operator_token op_token) ;;;
  next_token <- lexer_peek ;;
  if is_binary_operator_token op_token
     && token_eqb next_token FSEARCH_QUERY_TOKEN_NOT
  then ret true
  else ret (is_operand_token next_token
            || token_eqb next_token FSEARCH_QUERY_TOKEN_BRACKET_OPEN).

(** The [while] loop of [parse_operator]: pop and emit while the stack is
    not empty and its top binds at least as tightly as [token]. *)
Fixpoint parse_operator_loop
  (token : FsearchQueryToken) (res : list FsearchQueryNode)
  (stack : list FsearchQueryToken)
  : list FsearchQueryNode * list FsearchQueryToken :=
  match stack with
  | [] => (res, stack)
  | top :: rest =>
      if get_operator_precedence token <=? get_operator_precedence top
      then parse_operator_loop token
             (append_to_list_if_nonnull res
                (get_operator_node_for_query_token top))
             rest
      else (res, stack)
  end.

Definition parse_operator (token : FsearchQueryToken)
  : M (list FsearchQueryNode) :=
  g_assert (is_operator_token token) ;;;
  set_last_token token ;;;
  ctx <- get_ctx ;;
  let '(res, stack) := parse_operator_loop token [] (operator_stack ctx) in
  set_operator_stack (push_query_token stack token) ;;;
  ret res.

Definition get_implicit_and_if_necessary
  (last next_token : FsearchQueryToken) : M (list FsearchQueryNode) :=
  if is_operand_token last
     || token_eqb last FSEARCH_QUERY_TOKEN_BRACKET_CLOSE
  then
    if is_operand_token next_token
       || token_eqb next_token FSEARCH_QUERY_TOKEN_BRACKET_OPEN
       || token_eqb next_token FSEARCH_QUERY_TOKEN_NOT
    then parse_operator FSEARCH_QUERY_TOKEN_AND
    else ret []
  else ret [].

(** The loop of [consume_consecutive_not_token]: every NOT at the head of
    the lexer is read and flips the parity. *)
Fixpoint consume_consecutive_not_token_loop
  (uneven_number_of_not_tokens : bool) (l : FsearchQueryLexer)
  : bool * FsearchQueryLexer :=
  match l with
  | (FSEARCH_QUERY_TOKEN_NOT, _) :: rest =>
      consume_consecutive_not_token_loop
        (negb uneven_number_of_not_tokens) rest
  | _ => (uneven_number_of_not_tokens, l)
  end.

Definition consume_consecutive_not_token : M bool :=
  ctx <- get_ctx ;;
  let '(uneven, rest) := consume_consecutive_not_token_loop true (lexer ctx) in
  set_lexer rest ;;;
  ret uneven.

(** The loop of [discard_consecutive_binary_operator_tokens]. *)
Fixpoint discard_consecutive_binary_operator_tokens_loop
  (l : FsearchQueryLexer) : FsearchQueryLexer :=
  match l with
  | (token, _) :: rest =>
      if is_binary_operator_token token
      then discard_consecutive_binary_operator_tokens_loop rest
      else l
  | [] => l
  end.

Definition discard_consecutive_binary_operator_tokens : M unit :=
  ctx <- get_ctx ;;
  set_lexer (discard_consecutive_binary_operator_tokens_loop (lexer ctx)).

(** The loop of [parse_close_bracket]: [None] is the branch that ends in
    [g_assert_not_reached]. *)
Fixpoint parse_close_bracket_loop
  (res : list FsearchQueryNode) (stack : list FsearchQueryToken)
  : option (list FsearchQueryNode * list FsearchQueryToken) :=
  match stack with
  | [] => None
  | FSEARCH_QUERY_TOKEN_BRACKET_OPEN :: rest => Some (res, rest)
  | FSEARCH_QUERY_TOKEN_NONE :: _ => None
  | t :: rest =>
      parse_close_bracket_loop
        (append_to_list_if_nonnull res (get_operator_node_for_query_token t))
        rest
  end.

Definition parse_close_bracket : M (list FsearchQueryNode) :=
  ctx <- get_ctx ;;
  match parse_close_bracket_loop [] (operator_stack ctx) with
  | None => abort
  | Some (res, stack) =>
      set_operator_stack stack ;;;
      set_last_token FSEARCH_QUERY_TOKEN_BRACKET_CLOSE ;;;
      ret res
  end.

Definition parse_open_bracket : M (list FsearchQueryNode) :=
  ctx <- get_ctx ;;
  res <- get_implicit_and_if_necessary
           (last_token ctx) FSEARCH_QUERY_TOKEN_BRACKET_OPEN ;;
  set_last_token FSEARCH_QUERY_TOKEN_BRACKET_OPEN ;;;
  ctx' <- get_ctx ;;
  set_operator_stack
    (push_query_token (operator_stack ctx') FSEARCH_QUERY_TOKEN_BRACKET_OPEN) ;;;
  ret res.

(** The flush loop after the [out] label. *)
Fixpoint flush_operator_stack
  (res : list FsearchQueryNode) (stack : list FsearchQueryToken)
  : list FsearchQueryNode :=
  match stack with
  | [] => res
  | t :: rest =>
      flush_operator_stack
        (append_to_list_if_nonnull res (get_operator_node_for_query_token t))
        rest
  end.

Definition parse_word (field_name : option string) (flags : FsearchQueryFlags)
  : list FsearchQueryNode :=
  match field_name with
  | None => []
  | Some str => new_list (fsearch_query_node_new str flags)
  end.

(** ** Functions and modifiers *)

Inductive FsearchQueryFlagOperation : Type :=
| ADD_FLAG
| REMOVE_FLAG.

Definition FsearchTokenFunctionParser : Type :=
  bool -> FsearchQueryFlags -> M (list FsearchQueryNode).

Section Parser.

Context {ext : External}.

Definition supported_modifiers
  : list (string * FsearchQueryFlags * FsearchQueryFlagOperation) :=
  [ ("case", QUERY_FLAG_MATCH_CASE, ADD_FLAG);
    ("nocase", QUERY_FLAG_MATCH_CASE, REMOVE_FLAG);
    ("exact", QUERY_FLAG_EXACT_MATCH, ADD_FLAG);
    ("file", QUERY_FLAG_FILES_ONLY, ADD_FLAG);
    ("nofileonly", QUERY_FLAG_FILES_ONLY, REMOVE_FLAG);
    ("files", QUERY_FLAG_FILES_ONLY, ADD_FLAG);
    ("nofilesonly", QUERY_FLAG_FILES_ONLY, REMOVE_FLAG);
    ("folder", QUERY_FLAG_FOLDERS_ONLY, ADD_FLAG);
    ("nofolderonly", QUERY_FLAG_FOLDERS_ONLY, REMOVE_FLAG);
    ("folders", QUERY_FLAG_FOLDERS_ONLY, ADD_FLAG);
    ("nofoldersonly", QUERY_FLAG_FOLDERS_ONLY, REMOVE_FLAG);
    ("path", QUERY_FLAG_SEARCH_IN_PATH, ADD_FLAG);
    ("nopath", QUERY_FLAG_SEARCH_IN_PATH, REMOVE_FLAG);
    ("regex", QUERY_FLAG_REGEX, ADD_FLAG);
    ("noregex", QUERY_FLAG_REGEX, REMOVE_FLAG) ].

Definition parse_numeric_function
  (is_empty_field : bool) (flags : FsearchQueryFlags)
  (new_node_func : FsearchQueryComparisonNewNodeFunc)
  (parse_value_func : FsearchQueryIntegerParserFunc)
  : M (list FsearchQueryNode) :=
  if is_empty_field
  then ret (new_list (fsearch_query_node_new_match_everything flags))
  else
    '(token, token_value) <- lexer_next ;;
    let with_comparison (comp_type : FsearchQueryNodeComparison) :=
      '(is_word, next_token_value) <- expect_word ;;
      if is_word
      then
        str <- deref next_token_value ;;
        match parse_value_func str with
        | Some (val_1, val_2) =>
            ret (new_list (new_node_func flags val_1 val_2 comp_type))
        | None => ret (new_list fsearch_query_node_new_match_nothing)
        end
      else ret (new_list fsearch_query_node_new_match_nothing) in
    match token with
    | FSEARCH_QUERY_TOKEN_EQUAL =>
        with_comparison FSEARCH_QUERY_NODE_COMPARISON_EQUAL
    | FSEARCH_QUERY_TOKEN_SMALLER =>
        with_comparison FSEARCH_QUERY_NODE_COMPARISON_SMALLER
    | FSEARCH_QUERY_TOKEN_SMALLER_EQ =>
        with_comparison FSEARCH_QUERY_NODE_COMPARISON_SMALLER_EQ
    | FSEARCH_QUERY_TOKEN_GREATER =>
        with_comparison FSEARCH_QUERY_NODE_COMPARISON_GREATER
    | FSEARCH_QUERY_TOKEN_GREATER_EQ =>
        with_comparison FSEARCH_QUERY_NODE_COMPARISON_GREATER_EQ
    | FSEARCH_QUERY_TOKEN_WORD =>
        str <- deref token_value ;;
        ret (new_list
               (parse_numeric_field_with_optional_range
                  parse_value_func new_node_func str flags))
    | _ => ret (new_list fsearch_query_node_new_match_nothing)
    end.

Definition parse_function_size : FsearchTokenFunctionParser :=
  fun is_empty_field flags =>
    parse_numeric_function is_empty_field flags
      fsearch_query_node_new_size fsearch_size_parse.

Definition parse_function_empty : FsearchTokenFunctionParser :=
  fun is_empty_field flags =>
    ret (new_list
           (fsearch_query_node_new_childcount flags 0 0
              FSEARCH_QUERY_NODE_COMPARISON_EQUAL)).

Definition parse_function_depth : FsearchTokenFunctionParser :=
  fun is_empty_field flags =>
    parse_numeric_function is_empty_field flags
      fsearch_query_node_new_depth parse_integer.

Definition parse_function_childcount : FsearchTokenFunctionParser :=
  fun is_empty_field flags =>
    parse_numeric_function is_empty_field flags
      fsearch_query_node_new_childcount parse_integer.

Definition parse_function_childfilecount : FsearchTokenFunctionParser :=
  fun is_empty_field flags =>
    parse_numeric_function is_empty_field flags
      fsearch_query_node_new_childfilecount parse_integer.

Definition parse_function_childfoldercount : FsearchTokenFunctionParser :=
  fun is_empty_field flags =>
    parse_numeric_function is_empty_field flags
      fsearch_query_node_new_childfoldercount parse_integer.

Definition parse_function_date_modified : FsearchTokenFunctionParser :=
  fun is_empty_field flags =>
    parse_numeric_function is_empty_field flags
      fsearch_query_node_new_date_modified fsearch_date_time_parse_interval.

Definition parse_function_extension : FsearchTokenFunctionParser :=
  fun is_empty_field flags =>
    if is_empty_field
    then ret (new_list (fsearch_query_node_new_extension None flags))
    else
      '(is_word, token_value) <- expect_word ;;
      if is_word
      then
        str <- deref token_value ;;
        ret (new_list (fsearch_query_node_new_extension (Some str) flags))
      else ret (new_list fsearch_query_node_new_match_nothing).

Definition parse_function_contenttype : FsearchTokenFunctionParser :=
  fun is_empty_field flags =>
    if is_empty_field
    then ret (new_list (fsearch_query_node_new_match_everything flags))
    else
      '(is_word, token_value) <- expect_word ;;
      if is_word
      then
        str <- deref token_value ;;
        ret (new_list (fsearch_query_node_new_contenttype str flags))
      else ret (new_list fsearch_query_node_new_match_nothing).

Definition parse_function_parent : FsearchTokenFunctionParser :=
  fun is_empty_field flags =>
    let parent_flags := flags_add flags QUERY_FLAG_EXACT_MATCH in
    if is_empty_field
    then ret (new_list (fsearch_query_node_new_parent "" parent_flags))
    else
      '(is_word, token_value) <- expect_word ;;
      if is_word
      then
        str <- deref token_value ;;
        ret (new_list (fsearch_query_node_new_parent str parent_flags))
      else ret (new_list fsearch_query_node_new_match_nothing).

Definition supported_functions : list (string * FsearchTokenFunctionParser) :=
  [ ("childcount", parse_function_childcount);
    ("childfilecount", parse_function_childfilecount);
    ("childfoldercount", parse_function_childfoldercount);
    ("contenttype", parse_function_contenttype);
    ("depth", parse_function_depth);
    ("dm", parse_function_date_modified);
    ("datemodified", parse_function_date_modified);
    ("empty", parse_function_empty);
    ("ext", parse_function_extension);
    ("parent", parse_function_parent);
    ("parents", parse_function_depth);
    ("size", parse_function_size) ].

(** The two table scans of [parse_field]: the first entry whose name equals
    the field name. *)
Fixpoint lookup_modifier
  (table : list (string * FsearchQueryFlags * FsearchQueryFlagOperation))
  (field_name : string)
  : option (FsearchQueryFlags * FsearchQueryFlagOperation) :=
  match table with
  | [] => None
  | (name, flag, flag_operation) :: rest =>
      if String.eqb name field_name
      then Some (flag, flag_operation)
      else lookup_modifier rest field_name
  end.

Fixpoint lookup_function
  (table : list (string * FsearchTokenFunctionParser)) (field_name : string)
  : option FsearchTokenFunctionParser :=
  match table with
  | [] => None
  | (name, parser) :: rest =>
      if String.eqb name field_name
      then Some parser
      else lookup_function rest field_name
  end.

(** The scan of [parse_filter_macros]: the first filter from position [i]
    on whose macro name equals [name], with its position. *)
Fixpoint lookup_macro
  (filters : list FsearchFilter) (i : nat) (name : string)
  : option (nat * FsearchFilter) :=
  match filters with
  | [] => None
  | filter :: rest =>
      if String.eqb name (filter_macro filter)
      then Some (i, filter)
      else lookup_macro rest (S i) name
  end.

(** [g_queue_find (parse_ctx->macro_stack, filter)]. *)
Definition g_queue_find (stack : list nat) (filter : nat) : bool :=
  existsb (Nat.eqb filter) stack.

(** The three [if (filter->flags & F) flags |= F] statements. *)
Definition apply_filter_flags
  (filter : FsearchFilter) (flags : FsearchQueryFlags) : FsearchQueryFlags :=
  let flags :=
    if flags_test (filter_flags filter) QUERY_FLAG_SEARCH_IN_PATH
    then flags_add flags QUERY_FLAG_SEARCH_IN_PATH else flags in
  let flags :=
    if flags_test (filter_flags filter) QUERY_FLAG_MATCH_CASE
    then flags_add flags QUERY_FLAG_MATCH_CASE else flags in
  if flags_test (filter_flags filter) QUERY_FLAG_REGEX
  then flags_add flags QUERY_FLAG_REGEX else flags.

(** [uint32_t] increment. *)
Definition uint32_incr (n : Z) : Z := (n + 1) mod 4294967296.

(** ** The expression parser, the field dispatcher and macro expansion *)

(** The four C functions [fsearch_query_parser_parse_expression],
    [parse_field], [parse_modifier] and [parse_filter_macros] call one
    another.  Each body is written once, over the functions it calls; the
    recursion is tied below by a step budget. *)
Section Bodies.

Variable parse_expression_rec :
  bool -> FsearchQueryFlags -> list FsearchQueryNode -> Z -> Z ->
  M (list FsearchQueryNode).
Variable parse_field_rec :
  string -> bool -> FsearchQueryFlags -> M (list FsearchQueryNode).
Variable parse_modifier_rec :
  bool -> FsearchQueryFlags -> M (list FsearchQueryNode).
Variable parse_filter_macros_rec :
  string -> FsearchQueryFlags -> M (list FsearchQueryNode).

(** The statements after the [switch] of the main loop, then the next
    iteration. *)
Definition next_iteration
  (in_open_bracket : bool) (flags : FsearchQueryFlags)
  (res : list FsearchQueryNode) (last token : FsearchQueryToken)
  (to_append : list FsearchQueryNode) (skip_implicit_and_check : bool)
  (num_open_brackets num_close_brackets : Z) : M (list FsearchQueryNode) :=
  res <-
    match to_append with
    | [] => ret res
    | _ :: _ =>
        implicit_and <-
          (if skip_implicit_and_check
           then ret []
           else get_implicit_and_if_necessary last token) ;;
        set_last_token token ;;;
        ret ((res ++ implicit_and) ++ to_append)
    end ;;
  parse_expression_rec in_open_bracket flags res
    num_open_brackets num_close_brackets.

(** One iteration of the [while (true)] loop of
    [fsearch_query_parser_parse_expression], with the locals [res],
    [num_open_brackets] and [num_close_brackets] as arguments. *)
Definition parse_expression_iteration
  (in_open_bracket : bool) (flags : FsearchQueryFlags)
  (res : list FsearchQueryNode) (num_open_brackets num_close_brackets : Z)
  : M (list FsearchQueryNode) :=
  '(token, token_value) <- lexer_next ;;
  ctx <- get_ctx ;;
  let last := last_token ctx in
  let continue := next_iteration in_open_bracket flags res last token in
  match token with
  | FSEARCH_QUERY_TOKEN_EOS =>
      set_operator_stack [] ;;;
      ret (flush_operator_stack res (operator_stack ctx))
  | FSEARCH_QUERY_TOKEN_NOT =>
      uneven <- consume_consecutive_not_token ;;
      if uneven
      then
        followed <- is_operator_token_followed_by_operand token ;;
        if followed
        then
          implicit_and <- get_implicit_and_if_necessary last token ;;
          operator <- parse_operator token ;;
          continue (implicit_and ++ operator) true
            num_open_brackets num_close_brackets
        else continue [] false num_open_brackets num_close_brackets
      else continue [] false num_open_brackets num_close_brackets
  | FSEARCH_QUERY_TOKEN_AND
  | FSEARCH_QUERY_TOKEN_OR =>
      followed <- is_operator_token_followed_by_operand token ;;
      if followed
      then
        to_append <- parse_operator token ;;
        continue to_append false num_open_brackets num_close_brackets
      else continue [] false num_open_brackets num_close_brackets
  | FSEARCH_QUERY_TOKEN_BRACKET_OPEN =>
      to_append <- parse_open_bracket ;;
      discard_consecutive_binary_operator_tokens ;;;
      continue to_append false
        (uint32_incr num_open_brackets) num_close_brackets
  | FSEARCH_QUERY_TOKEN_BRACKET_CLOSE =>
      if num_close_brackets <? num_open_brackets
      then
        let num_close_brackets := uint32_incr num_close_brackets in
        to_append <- parse_close_bracket ;;
        if in_open_bracket && (num_close_brackets =? num_open_brackets)
        then ret (res ++ to_append)
        else continue to_append false num_open_brackets num_close_brackets
      else ret (new_list fsearch_query_node_new_match_nothing)
  | FSEARCH_QUERY_TOKEN_WORD =>
      continue (parse_word token_value flags) false
        num_open_brackets num_close_brackets
  | FSEARCH_QUERY_TOKEN_FIELD =>
      field_name <- deref token_value ;;
      to_append <- parse_field_rec field_name false flags ;;
      continue to_append false num_open_brackets num_close_brackets
  | FSEARCH_QUERY_TOKEN_FIELD_EMPTY =>
      field_name <- deref token_value ;;
      to_append <- parse_field_rec field_name true flags ;;
      continue to_append false num_open_brackets num_close_brackets
  | _ => continue [] false num_open_brackets num_close_brackets
  end.

Definition parse_field_body
  (field_name : string) (is_empty_field : bool) (flags : FsearchQueryFlags)
  : M (list FsearchQueryNode) :=
  res <- parse_filter_macros_rec field_name flags ;;
  match res with
  | _ :: _ => ret res
  | [] =>
      match lookup_modifier supported_modifiers field_name with
      | Some (flag, ADD_FLAG) =>
          parse_modifier_rec is_empty_field (flags_add flags flag)
      | Some (flag, REMOVE_FLAG) =>
          parse_modifier_rec is_empty_field (flags_remove flags flag)
      | None =>
          match lookup_function supported_functions field_name with
          | Some parser => parser is_empty_field flags
          | None => ret (new_list fsearch_query_node_new_match_nothing)
          end
      end
  end.

Definition parse_modifier_body
  (is_empty_field : bool) (flags : FsearchQueryFlags)
  : M (list FsearchQueryNode) :=
  if is_empty_field
  then ret (new_list (fsearch_query_node_new_match_everything flags))
  else
    '(token, token_value) <- lexer_next ;;
    match token with
    | FSEARCH_QUERY_TOKEN_WORD => ret (parse_word token_value flags)
    | FSEARCH_QUERY_TOKEN_BRACKET_OPEN =>
        res <- parse_open_bracket ;;
        expression <- parse_expression_rec true flags [] 1 0 ;;
        ret (res ++ expression)
    | FSEARCH_QUERY_TOKEN_FIELD =>
        field_name <- deref token_value ;;
        parse_field_rec field_name false flags
    | FSEARCH_QUERY_TOKEN_FIELD_EMPTY =>
        field_name <- deref token_value ;;
        parse_field_rec field_name true flags
    | _ => ret (new_list fsearch_query_node_new_match_nothing)
    end.

Definition parse_filter_macros_body
  (name : string) (flags : FsearchQueryFlags) : M (list FsearchQueryNode) :=
  ctx <- get_ctx ;;
  match lookup_macro (macro_filters ctx) 0 name with
  | None => ret []
  | Some (i, filter) =>
      if g_queue_find (macro_stack ctx) i
      then ret []
      else if fsearch_string_is_empty (filter_query filter)
      then ret []
      else
        let flags := apply_filter_flags filter flags in
        set_macro_stack (i :: macro_stack ctx) ;;;
        let main_operator_stack := operator_stack ctx in
        let main_lexer := lexer ctx in
        set_lexer (fsearch_query_lexer_new (filter_query filter)) ;;;
        set_operator_stack [] ;;;
        res <- parse_expression_rec false flags [] 0 0 ;;
        set_operator_stack main_operator_stack ;;;
        set_lexer main_lexer ;;;
        ctx' <- get_ctx ;;
        set_macro_stack (tl (macro_stack ctx')) ;;;
        ret res
  end.

End Bodies.

(** One unit of [fuel] pays for one loop iteration or one call. *)
Fixpoint parse_expression_loop
  (fuel : nat) (in_open_bracket : bool) (flags : FsearchQueryFlags)
  (res : list FsearchQueryNode) (num_open_brackets num_close_brackets : Z)
  {struct fuel} : M (list FsearchQueryNode) :=
  match fuel with
  | O => timeout
  | S fuel =>
      parse_expression_iteration
        (parse_expression_loop fuel) (parse_field fuel)
        in_open_bracket flags res num_open_brackets num_close_brackets
  end

with parse_field
  (fuel : nat) (field_name : string) (is_empty_field : bool)
  (flags : FsearchQueryFlags) {struct fuel} : M (list FsearchQueryNode) :=
  match fuel with
  | O => timeout
  | S fuel =>
      parse_field_body (parse_modifier fuel) (parse_filter_macros fuel)
        field_name is_empty_field flags
  end

with parse_modifier
  (fuel : nat) (is_empty_field : bool) (flags : FsearchQueryFlags)
  {struct fuel} : M (list FsearchQueryNode) :=
  match fuel with
  | O => timeout
  | S fuel =>
      parse_modifier_body (parse_expression_loop fuel) (parse_field fuel)
        is_empty_field flags
  end

with parse_filter_macros
  (fuel : nat) (name : string) (flags : FsearchQueryFlags)
  {struct fuel} : M (list FsearchQueryNode) :=
  match fuel with
  | O => timeout
  | S fuel =>
      parse_filter_macros_body (parse_expression_loop fuel) name flags
  end.

Definition fsearch_query_parser_parse_expression
  (fuel : nat) (in_open_bracket : bool) (flags : FsearchQueryFlags)
  : M (list FsearchQueryNode) :=
  parse_expression_loop fuel in_open_bracket flags []
    (if in_open_bracket then 1 else 0) 0.

(** ** A whole parse *)

(** Modelled from the spec: the caller that builds the context lives in
    fsearch_query.c, which is not among the sources.  Section 3.4 and 6.1:
    the lexer is installed at the first token, both stacks are empty,
    [last_token] starts as [None], and the top level passes
    [in_open_bracket = false]. *)
Definition initial_context
  (filters : list FsearchFilter) (input : FsearchQueryLexer)
  : FsearchQueryParseContext :=
  {| lexer := input;
     operator_stack := [];
     macro_stack := [];
     macro_filters := filters;
     last_token := FSEARCH_QUERY_TOKEN_NONE |}.

(** The longest token stream a macro of the registry expands to. *)
Definition max_query_length (filters : list FsearchFilter) : nat :=
  fold_right Nat.max 0%nat
    (map (fun filter =>
            List.length (fsearch_query_lexer_new (filter_query filter)))
       filters).

(** The filters of the registry that are not on the macro stack. *)
Definition unexpanded (filters : list FsearchFilter) (stack : list nat)
  : nat :=
  List.length
    (filter (fun i => negb (g_queue_find stack i))
       (seq 0 (List.length filters))).

(** A step budget that suffices for the expression parser in [ctx]: three
    steps per token of the current lexer, and for every macro that can still
    be expanded three steps per token of the longest macro body, plus one. *)
Definition macro_budget (ctx : FsearchQueryParseContext) : nat :=
  (unexpanded (macro_filters ctx) (macro_stack ctx)
   * (3 * max_query_length (macro_filters ctx) + 1) + 1)%nat.

Definition expression_budget (ctx : FsearchQueryParseContext) : nat :=
  (3 * List.length (lexer ctx) + macro_budget ctx)%nat.

(** The top-level parse of a token stream under a macro registry. *)
Definition fsearch_query_parse
  (filters : list FsearchFilter) (flags : FsearchQueryFlags)
  (input : FsearchQueryLexer)
  : result (list FsearchQueryNode * FsearchQueryParseContext) :=
  let ctx := initial_context filters input in
  fsearch_query_parser_parse_expression (expression_budget ctx) false flags
    ctx.

Definition parsed_nodes
  (r : result (list FsearchQueryNode * FsearchQueryParseContext))
  : option (list FsearchQueryNode) :=
  match r with
  | Done (nodes, _) => Some nodes
  | _ => None
  end.

End Parser.

(** ** The stack evaluator of postfix lists *)

(** The depth of the evaluation stack after a node list, from depth
    [depth]: a leaf pushes one value, And and Or pop two and push one, Not
    pops one and pushes one; [None] when an operator finds too few values. *)
Fixpoint postfix_depth (nodes : list FsearchQueryNode) (depth : nat)
  : option nat :=
  match nodes with
  | [] => Some depth
  | fsearch_query_node_new_operator FSEARCH_QUERY_NODE_OPERATOR_NOT :: rest =>
      match depth with
      | S _ => postfix_depth rest depth
      | O => None
      end
  | fsearch_query_node_new_operator _ :: rest =>
      match depth with
      | S (S d) => postfix_depth rest (S d)
      | _ => None
      end
  | _ :: rest => postfix_depth rest (S depth)
  end.

Definition well_formed_postfix (nodes : list FsearchQueryNode) : bool :=
  match postfix_depth nodes 0 with
  | Some 1%nat => true
  | _ => false
  end.

(** ** Predicates on contexts used in the proofs *)

(** The operator stack holds operators and open brackets only. *)
Definition stack_entry_ok (t : FsearchQueryToken) : bool :=
  is_operator_token t || token_eqb t FSEARCH_QUERY_TOKEN_BRACKET_OPEN.

Definition stack_ok (stack : list FsearchQueryToken) : bool :=
  forallb stack_entry_ok stack.

(** The number of open brackets on the operator stack. *)
Fixpoint bracket_count (stack : list FsearchQueryToken) : Z :=
  match stack with
  | [] => 0
  | FSEARCH_QUERY_TOKEN_BRACKET_OPEN :: rest => 1 + bracket_count rest
  | _ :: rest => bracket_count rest
  end.

(** The lexer has nothing left but the end of the stream. *)
Definition at_eos (l : FsearchQueryLexer) : bool :=
  token_eqb (fsearch_query_lexer_peek_next_token l) FSEARCH_QUERY_TOKEN_EOS.

(** [wp m Q ctx]: from [ctx] the computation [m] returns, with a value and a
    context that satisfy [Q]. *)
Definition wp {A : Type} (m : M A)
  (Q : A -> FsearchQueryParseContext -> Prop) (ctx : FsearchQueryParseContext)
  : Prop :=
  match m ctx with
  | Done (a, ctx') => Q a ctx'
  | _ => False
  end.

(** [refines m1 m2]: whatever [m1] does within its budget, [m2] does too. *)
Definition refines {A : Type} (m1 m2 : M A) : Prop :=
  forall ctx, m1 ctx <> Timeout -> m2 ctx = m1 ctx.

(** ** Predicates and auxiliary functions of the proofs *)

(** [frame ctx ctx']: what every parser function leaves alone or only
    shrinks. *)
Definition frame (ctx ctx' : FsearchQueryParseContext) : Prop :=
  macro_filters ctx' = macro_filters ctx
  /\ macro_stack ctx' = macro_stack ctx
  /\ (List.length (lexer ctx') <= List.length (lexer ctx))%nat
  /\ (at_eos (lexer ctx) = true -> at_eos (lexer ctx') = true)
  /\ (stack_ok (operator_stack ctx) = true ->
      stack_ok (operator_stack ctx') = true).

(** [quiet ctx ctx' d]: a step that reads no token and changes the number
    of open brackets on the operator stack by [d]. *)
Definition quiet (ctx ctx' : FsearchQueryParseContext) (d : Z) : Prop :=
  frame ctx ctx'
  /\ lexer ctx' = lexer ctx
  /\ bracket_count (operator_stack ctx')
     = bracket_count (operator_stack ctx) + d.

(** [after B ctx ctx']: a call that returns at the end of the stream or
    with at least [B] open brackets still on the operator stack. *)
Definition after (B : Z) (ctx ctx' : FsearchQueryParseContext) : Prop :=
  frame ctx ctx'
  /\ (at_eos (lexer ctx') = true
      \/ B <= bracket_count (operator_stack ctx')).

(** [reads ctx ctx']: a step that only reads tokens. *)
Definition reads (ctx ctx' : FsearchQueryParseContext) : Prop :=
  frame ctx ctx' /\ operator_stack ctx' = operator_stack ctx.

(** [moves ctx ctx' d]: a step after which, unless the stream has ended,
    the operator stack holds at least [d] more open brackets. *)
Definition moves (ctx ctx' : FsearchQueryParseContext) (d : Z) : Prop :=
  frame ctx ctx'
  /\ (at_eos (lexer ctx') = true
      \/ bracket_count (operator_stack ctx) + d
         <= bracket_count (operator_stack ctx')).

(** The invariant of the main loop: the two [uint32_t] counters differ,
    modulo 2^32, by a number of open brackets that are on the operator stack
    above the [B] the caller left there. *)
Definition loop_inv (B num_open_brackets num_close_brackets : Z)
  (ctx : FsearchQueryParseContext) : Prop :=
  stack_ok (operator_stack ctx) = true
  /\ 0 <= num_open_brackets < 4294967296
  /\ 0 <= num_close_brackets < 4294967296
  /\ (at_eos (lexer ctx) = true
      \/ exists k,
           0 <= num_open_brackets - num_close_brackets + k * 4294967296
           /\ B + (num_open_brackets - num_close_brackets + k * 4294967296)
              <= bracket_count (operator_stack ctx)).

(** What the induction on the budget proves of each of the four functions:
    within its budget each returns, and leaves the context as [after]
    describes. *)
Definition loop_total {ext : External} (fuel : nat)
  (loop_rec : bool -> FsearchQueryFlags -> list FsearchQueryNode -> Z -> Z ->
              M (list FsearchQueryNode)) : Prop :=
  forall b f r n m B ctx,
    (expression_budget ctx <= fuel)%nat ->
    0 <= B ->
    loop_inv B n m ctx ->
    wp (loop_rec b f r n m) (fun _ ctx' => after B ctx ctx') ctx.

Definition field_total {ext : External} (fuel : nat)
  (field_rec : string -> bool -> FsearchQueryFlags ->
               M (list FsearchQueryNode)) : Prop :=
  forall s b f ctx,
    (expression_budget ctx + 1 <= fuel)%nat ->
    stack_ok (operator_stack ctx) = true ->
    wp (field_rec s b f)
       (fun _ ctx' => after (bracket_count (operator_stack ctx)) ctx ctx')
       ctx.

Definition modifier_total {ext : External} (fuel : nat)
  (modifier_rec : bool -> FsearchQueryFlags -> M (list FsearchQueryNode))
  : Prop :=
  forall b f ctx,
    (expression_budget ctx <= fuel)%nat ->
    stack_ok (operator_stack ctx) = true ->
    wp (modifier_rec b f)
       (fun _ ctx' => after (bracket_count (operator_stack ctx)) ctx ctx')
       ctx.

Definition macros_total {ext : External} (fuel : nat)
  (macros_rec : string -> FsearchQueryFlags -> M (list FsearchQueryNode))
  : Prop :=
  forall s f ctx,
    (macro_budget ctx <= fuel)%nat ->
    wp (macros_rec s f)
       (fun _ ctx' => reads ctx ctx' /\ lexer ctx' = lexer ctx) ctx.

(** An instance of the outside world for the closed examples: flag bits in
    the order of the modifier table, value parsers that read a plain
    integer, and a lexer that reads a macro body as one empty field of that
    name. *)
Definition example_external : External :=
  {| QUERY_FLAG_MATCH_CASE := 1;
     QUERY_FLAG_EXACT_MATCH := 2;
     QUERY_FLAG_FILES_ONLY := 4;
     QUERY_FLAG_FOLDERS_ONLY := 8;
     QUERY_FLAG_SEARCH_IN_PATH := 16;
     QUERY_FLAG_REGEX := 32;
     fsearch_size_parse := parse_integer;
     fsearch_date_time_parse_interval := parse_integer;
     fsearch_query_lexer_new :=
       fun query => [(FSEARCH_QUERY_TOKEN_FIELD_EMPTY, query)] |}.

Definition is_not_token (p : FsearchQueryToken * string) : bool :=
  token_eqb (fst p) FSEARCH_QUERY_TOKEN_NOT.

(** What [parse_operator] does to the context, as a function. *)
Definition parse_operator_effect
  (token : FsearchQueryToken) (ctx : FsearchQueryParseContext)
  : list FsearchQueryNode * FsearchQueryParseContext :=
  let '(res, stack) :=
    parse_operator_loop token [] (operator_stack ctx) in
  (res,
   with_operator_stack (with_last_token ctx token)
     (push_query_token stack token)).

Definition implicit_and_effect
  (last next_token : FsearchQueryToken) (ctx : FsearchQueryParseContext)
  : list FsearchQueryNode * FsearchQueryParseContext :=
  if (is_operand_token last
      || token_eqb last FSEARCH_QUERY_TOKEN_BRACKET_CLOSE)
     && (is_operand_token next_token
         || token_eqb next_token FSEARCH_QUERY_TOKEN_BRACKET_OPEN
         || token_eqb next_token FSEARCH_QUERY_TOKEN_NOT)
  then parse_operator_effect FSEARCH_QUERY_TOKEN_AND ctx
  else ([], ctx).

(** [excess_close open l]: reading [l] up to the end of the stream with
    [open] brackets open, some closing bracket finds none left to close. *)
Fixpoint excess_close (open : nat) (l : FsearchQueryLexer) : bool :=
  match l with
  | [] => false
  | (FSEARCH_QUERY_TOKEN_EOS, _) :: _ => false
  | (FSEARCH_QUERY_TOKEN_BRACKET_CLOSE, _) :: rest =>
      match open with
      | O => true
      | S k => excess_close k rest
      end
  | (FSEARCH_QUERY_TOKEN_BRACKET_OPEN, _) :: rest =>
      excess_close (S open) rest
  | _ :: rest => excess_close open rest
  end.

Definition is_field_token (p : FsearchQueryToken * string) : bool :=
  token_eqb (fst p) FSEARCH_QUERY_TOKEN_FIELD.

Definition no_field_token (l : FsearchQueryLexer) : bool :=
  forallb (fun p => negb (is_field_token p)) l.

(** The two counters of the main loop against the true number [open] of
    brackets still open: equal modulo 2^32, and that many open brackets are
    on the operator stack. *)
Definition close_inv (open : nat) (n m : Z) (ctx : FsearchQueryParseContext)
  : Prop :=
  stack_ok (operator_stack ctx) = true
  /\ 0 <= n < 4294967296
  /\ 0 <= m < 4294967296
  /\ (exists k, Z.of_nat open = n - m + k * 4294967296)
  /\ Z.of_nat open <= bracket_count (operator_stack ctx).

(** The lexer a computation leaves when it is run on the stream [l]. *)
Definition lexer_after {A : Type} (m : M A) (l : FsearchQueryLexer)
  : option FsearchQueryLexer :=
  match m (initial_context [] l) with
  | Done (_, ctx) => Some (lexer ctx)
  | _ => None
  end.

Section FieldArguments.

Context {ext : External}.

(** The argument of a modifier gives at least one node: it is not a
    bracketed group, nor a chain of modifiers that ends in one. *)
Fixpoint modifier_yields (l : FsearchQueryLexer) : bool :=
  match l with
  | (FSEARCH_QUERY_TOKEN_BRACKET_OPEN, _) :: _ => false
  | (FSEARCH_QUERY_TOKEN_FIELD, name) :: rest =>
      match lookup_modifier supported_modifiers name with
      | Some _ => modifier_yields rest
      | None => true
      end
  | _ => true
  end.

(** A token stream in which the main loop comes to an operand that gives a
    node: parsed at top level it gives at least one node. *)
Fixpoint yields_nodes (l : FsearchQueryLexer) : bool :=
  match l with
  | [] => false
  | (FSEARCH_QUERY_TOKEN_EOS, _) :: _ => false
  | (FSEARCH_QUERY_TOKEN_WORD, _) :: _ => true
  | (FSEARCH_QUERY_TOKEN_FIELD_EMPTY, _) :: _ => true
  | (FSEARCH_QUERY_TOKEN_FIELD, name) :: rest =>
      match lookup_modifier supported_modifiers name with
      | Some _ => modifier_yields rest
      | None => true
      end
  | _ :: rest => yields_nodes rest
  end.

Variable filters : list FsearchFilter.
Variable stack : list nat.

(** The macro expander finds a filter of this name and goes on to expand
    it: the three tests that open [parse_filter_macros]. *)
Definition macro_expands (name : string) : bool :=
  match lookup_macro filters 0 name with
  | Some (i, filter) =>
      negb (g_queue_find stack i)
      && negb (fsearch_string_is_empty (filter_query filter))
  | None => false
  end.

(** The body of the macro of this name gives at least one node. *)
Definition macro_yields (name : string) : bool :=
  match lookup_macro filters 0 name with
  | Some (_, filter) =>
      yields_nodes (fsearch_query_lexer_new (filter_query filter))
  | None => false
  end.

(** The streams that may be left behind an argument, collected over the
    streams in [ls]. *)
Definition all_rests
  (rests : FsearchQueryLexer -> option (list FsearchQueryLexer))
  (ls : list FsearchQueryLexer) : option (list FsearchQueryLexer) :=
  fold_right
    (fun l acc =>
       match rests l, acc with
       | Some a, Some b => Some (a ++ b)
       | _, _ => None
       end)
    (Some []) ls.

(** What the argument of a modifier takes from the stream: the next token,
    or the bracketed group or the field that the next token opens. *)
Definition modifier_argument
  (group : Z -> Z -> FsearchQueryLexer -> option (list FsearchQueryLexer))
  (field : string -> FsearchQueryLexer -> option (list FsearchQueryLexer))
  (l : FsearchQueryLexer) : option (list FsearchQueryLexer) :=
  match l with
  | [] => Some [l]
  | (FSEARCH_QUERY_TOKEN_EOS, _) :: _ => Some [l]
  | (FSEARCH_QUERY_TOKEN_BRACKET_OPEN, _) :: rest => group 1 0 rest
  | (FSEARCH_QUERY_TOKEN_FIELD, name) :: rest => field name rest
  | _ :: rest => Some [rest]
  end.

(** What a field that is not expanded as a macro takes from the stream:
    the two table scans of [parse_field]. *)
Definition native_argument
  (group : Z -> Z -> FsearchQueryLexer -> option (list FsearchQueryLexer))
  (field : string -> FsearchQueryLexer -> option (list FsearchQueryLexer))
  (name : string) (l : FsearchQueryLexer)
  : option (list FsearchQueryLexer) :=
  match lookup_modifier supported_modifiers name with
  | Some _ => modifier_argument group field l
  | None =>
      match lookup_function supported_functions name with
      | Some parser =>
          match lexer_after (parser false 0) l with
          | Some l' => Some [l']
          | None => None
          end
      | None => Some [l]
      end
  end.

(** The streams that may be left behind a bracketed group and behind the
    arguments of a field, as [fsearch_query_parser_parse_expression] with
    [in_open_bracket] set and [parse_field] leave them.  In a group the two
    bracket counters run as in the main loop.  A macro that is expanded and
    gives a node reads nothing of the caller's stream.  Where it is not seen
    from the body of the macro that it gives a node, there are two cases:
    the expansion has nodes and nothing is read, or it is empty and the
    field goes on to the tables.  [None] is the answer when [fuel], one
    unit per token, runs out. *)
Fixpoint group_rest (fuel : nat) (n m : Z) (l : FsearchQueryLexer)
  {struct fuel} : option (list FsearchQueryLexer) :=
  match fuel with
  | O => None
  | S fuel =>
      match l with
      | [] => Some [l]
      | (FSEARCH_QUERY_TOKEN_EOS, _) :: _ => Some [l]
      | (FSEARCH_QUERY_TOKEN_BRACKET_OPEN, _) :: rest =>
          group_rest fuel (uint32_incr n) m rest
      | (FSEARCH_QUERY_TOKEN_BRACKET_CLOSE, _) :: rest =>
          if m <? n
          then
            if uint32_incr m =? n
            then Some [rest]
            else group_rest fuel n (uint32_incr m) rest
          else Some [rest]
      | (FSEARCH_QUERY_TOKEN_FIELD, name) :: rest =>
          match field_rest fuel name rest with
          | Some ls => all_rests (group_rest fuel n m) ls
          | None => None
          end
      | _ :: rest => group_rest fuel n m rest
      end
  end

with field_rest (fuel : nat) (name : string) (l : FsearchQueryLexer)
  {struct fuel} : option (list FsearchQueryLexer) :=
  match fuel with
  | O => None
  | S fuel =>
      let native :=
        native_argument (group_rest fuel) (field_rest fuel) name l in
      if macro_expands name
      then
        if macro_yields name
        then Some [l]
        else
          match native with
          | Some ls => Some (l :: ls)
          | None => None
          end
      else native
  end.

(** [reads_excess_close fuel open l]: reading [l] with [open] brackets
    open, the main loop comes, before the end of the stream, to a closing
    bracket that finds none left to close, whichever of the streams a field
    may leave it goes on with.  The tokens a field reads as its argument
    are not the main loop's. *)
Fixpoint reads_excess_close (fuel : nat) (open : nat) (l : FsearchQueryLexer)
  {struct fuel} : bool :=
  match fuel with
  | O => false
  | S fuel =>
      match l with
      | [] => false
      | (FSEARCH_QUERY_TOKEN_EOS, _) :: _ => false
      | (FSEARCH_QUERY_TOKEN_BRACKET_CLOSE, _) :: rest =>
          match open with
          | O => true
          | S k => reads_excess_close fuel k rest
          end
      | (FSEARCH_QUERY_TOKEN_BRACKET_OPEN, _) :: rest =>
          reads_excess_close fuel (S open) rest
      | (FSEARCH_QUERY_TOKEN_FIELD, name) :: rest =>
          match field_rest fuel name rest with
          | Some ls => forallb (reads_excess_close fuel open) ls
          | None => false
          end
      | _ :: rest => reads_excess_close fuel open rest
      end
  end.

End FieldArguments.

(** The main loop of a top-level parse of [input] reads a closing bracket
    that has no open bracket. *)
Definition unmatched_close {ext : External}
  (filters : list FsearchFilter) (input : FsearchQueryLexer) : bool :=
  reads_excess_close filters [] (S (List.length input)) 0 input.

(** [keeps ctx ctx']: the lexer, the macro stack and the registry are the
    same in both. *)
Definition keeps (ctx ctx' : FsearchQueryParseContext) : Prop :=
  lexer ctx' = lexer ctx
  /\ macro_stack ctx' = macro_stack ctx
  /\ macro_filters ctx' = macro_filters ctx.

(** [goes_on loop b f operand n m ctx nodes ctx']: from [ctx] the main loop
    goes into its next iteration, with counters [n] and [m] and an output
    that is not empty if [operand] holds, and ends with [nodes] in [ctx']. *)
Definition goes_on
  (loop : bool -> FsearchQueryFlags -> list FsearchQueryNode -> Z -> Z ->
          M (list FsearchQueryNode))
  (b : bool) (f : FsearchQueryFlags) (operand : Prop) (n m : Z)
  (ctx : FsearchQueryParseContext)
  (nodes : list FsearchQueryNode) (ctx' : FsearchQueryParseContext) : Prop :=
  exists r c,
    keeps ctx c
    /\ (operand -> r <> [])
    /\ loop b f r n m c = Done (nodes, ctx').

(** What a run of the expression parser, of [parse_field] and of
    [parse_modifier] does to the lexer, against [group_rest] and
    [field_rest]: the lexer it leaves is one of theirs. *)
Definition group_spec {ext : External} (b : bool) (n m : Z)
  (ctx ctx' : FsearchQueryParseContext) : Prop :=
  macro_stack ctx' = macro_stack ctx
  /\ macro_filters ctx' = macro_filters ctx
  /\ (b = true ->
      forall k ls,
        group_rest (macro_filters ctx) (macro_stack ctx) k n m (lexer ctx)
        = Some ls ->
        In (lexer ctx') ls).

Definition field_spec {ext : External} (name : string) (is_empty_field : bool)
  (ctx ctx' : FsearchQueryParseContext) : Prop :=
  macro_stack ctx' = macro_stack ctx
  /\ macro_filters ctx' = macro_filters ctx
  /\ if is_empty_field
     then lexer ctx' = lexer ctx
     else
       forall k ls,
         field_rest (macro_filters ctx) (macro_stack ctx) k name (lexer ctx)
         = Some ls ->
         In (lexer ctx') ls.

Definition modifier_spec {ext : External} (is_empty_field : bool)
  (ctx ctx' : FsearchQueryParseContext) : Prop :=
  macro_stack ctx' = macro_stack ctx
  /\ macro_filters ctx' = macro_filters ctx
  /\ if is_empty_field
     then lexer ctx' = lexer ctx
     else
       forall k ls,
         modifier_argument
           (group_rest (macro_filters ctx) (macro_stack ctx) k)
           (field_rest (macro_filters ctx) (macro_stack ctx) k)
           (lexer ctx)
         = Some ls ->
         In (lexer ctx') ls.

(** The lexer after one token, and after the argument of a numeric
    function: a word, or a comparison sign and the token after it. *)
Definition next_rest (l : FsearchQueryLexer) : FsearchQueryLexer :=
  snd (fsearch_query_lexer_get_next_token l).

Definition numeric_function_rest (l : FsearchQueryLexer) : FsearchQueryLexer :=
  match fst (fst (fsearch_query_lexer_get_next_token l)) with
  | FSEARCH_QUERY_TOKEN_EQUAL
  | FSEARCH_QUERY_TOKEN_SMALLER
  | FSEARCH_QUERY_TOKEN_SMALLER_EQ
  | FSEARCH_QUERY_TOKEN_GREATER
  | FSEARCH_QUERY_TOKEN_GREATER_EQ => next_rest (next_rest l)
  | _ => next_rest l
  end.

(** How two outputs of the main loop that started from the accumulated
    lists [r1] and [r2] compare: the same nodes were appended to both, or
    both are the match-nothing leaf of the abort path. *)
Definition same_suffix (r1 r2 o1 o2 : list FsearchQueryNode) : Prop :=
  (exists t, o1 = r1 ++ t /\ o2 = r2 ++ t)
  \/ (o1 = [fsearch_query_node_new_match_nothing]
      /\ o2 = [fsearch_query_node_new_match_nothing]).

Definition suffix_related (r1 r2 : list FsearchQueryNode)
  (m1 m2 : M (list FsearchQueryNode)) : Prop :=
  forall ctx o1 ctx',
    m1 ctx = Done (o1, ctx') ->
    exists o2, m2 ctx = Done (o2, ctx') /\ same_suffix r1 r2 o1 o2.

(** The only use of [last_token] is the test that opens
    [get_implicit_and_if_necessary]; two contexts that agree on that test
    and on everything else are parsed alike.  [norm] picks one
    representative of each such class. *)
Definition and_trigger (t : FsearchQueryToken) : bool :=
  is_operand_token t || token_eqb t FSEARCH_QUERY_TOKEN_BRACKET_CLOSE.

Definition canon (t : FsearchQueryToken) : FsearchQueryToken :=
  if and_trigger t then FSEARCH_QUERY_TOKEN_WORD else FSEARCH_QUERY_TOKEN_NONE.

Definition norm (ctx : FsearchQueryParseContext) : FsearchQueryParseContext :=
  with_last_token ctx (canon (last_token ctx)).

Definition lift_norm {A : Type}
  (r : result (A * FsearchQueryParseContext))
  : result (A * FsearchQueryParseContext) :=
  match r with
  | Done (a, ctx) => Done (a, norm ctx)
  | Abort => Abort
  | Timeout => Timeout
  end.

Definition respects {A : Type} (m : M A) : Prop :=
  forall ctx, lift_norm (m ctx) = lift_norm (m (norm ctx)).

(** The token kind under which the lexer hands a field over. *)
Definition field_token (is_empty_field : bool) : FsearchQueryToken :=
  if is_empty_field
  then FSEARCH_QUERY_TOKEN_FIELD_EMPTY
  else FSEARCH_QUERY_TOKEN_FIELD.

(** ** Definitions of the further properties *)

(** The word holds no full stop. *)
Fixpoint no_dot (s : string) : bool :=
  match s with
  | EmptyString => true
  | String c rest => negb (Ascii.eqb c ".") && no_dot rest
  end.

(** The [if (modifier->flag_operation == ADD_FLAG)] statement of
    [parse_field], as a function of the table entry. *)
Definition modifier_flags
  (flags : FsearchQueryFlags)
  (modifier : FsearchQueryFlags * FsearchQueryFlagOperation)
  : FsearchQueryFlags :=
  match modifier with
  | (flag, ADD_FLAG) => flags_add flags flag
  | (flag, REMOVE_FLAG) => flags_remove flags flag
  end.

(** The test of [is_operator_token_followed_by_operand] on the token it
    peeks at. *)
Definition starts_operand (op_token next_token : FsearchQueryToken) : bool :=
  (is_binary_operator_token op_token
   && token_eqb next_token FSEARCH_QUERY_TOKEN_NOT)
  || is_operand_token next_token
  || token_eqb next_token FSEARCH_QUERY_TOKEN_BRACKET_OPEN.

(** Query expressions over words, for the statements about whole queries:
    the formula a query is meant to denote. *)
Inductive query_expression : Type :=
| expression_word (word : string)
| expression_not (e : query_expression)
| expression_and (e1 e2 : query_expression)
| expression_or (e1 e2 : query_expression).

(** The fully bracketed token stream of an expression: every operator is
    written out and has a bracket pair of its own.  [text] gives the text
    the lexer attaches to a token that is not a word. *)
Fixpoint expression_tokens
  (text : FsearchQueryToken -> string) (e : query_expression)
  : FsearchQueryLexer :=
  let token t := (t, text t) in
  match e with
  | expression_word word => [(FSEARCH_QUERY_TOKEN_WORD, word)]
  | expression_not e =>
      token FSEARCH_QUERY_TOKEN_BRACKET_OPEN
      :: token FSEARCH_QUERY_TOKEN_NOT
      :: expression_tokens text e
      ++ [token FSEARCH_QUERY_TOKEN_BRACKET_CLOSE]
  | expression_and e1 e2 =>
      token FSEARCH_QUERY_TOKEN_BRACKET_OPEN
      :: expression_tokens text e1
      ++ token FSEARCH_QUERY_TOKEN_AND
      :: expression_tokens text e2
      ++ [token FSEARCH_QUERY_TOKEN_BRACKET_CLOSE]
  | expression_or e1 e2 =>
      token FSEARCH_QUERY_TOKEN_BRACKET_OPEN
      :: expression_tokens text e1
      ++ token FSEARCH_QUERY_TOKEN_OR
      :: expression_tokens text e2
      ++ [token FSEARCH_QUERY_TOKEN_BRACKET_CLOSE]
  end.

(** The postfix form of an expression, every word under [flags]. *)
Fixpoint expression_postfix
  (flags : FsearchQueryFlags) (e : query_expression)
  : list FsearchQueryNode :=
  match e with
  | expression_word word => [fsearch_query_node_new word flags]
  | expression_not e =>
      expression_postfix flags e
      ++ [fsearch_query_node_new_operator FSEARCH_QUERY_NODE_OPERATOR_NOT]
  | expression_and e1 e2 =>
      expression_postfix flags e1 ++ expression_postfix flags e2
      ++ [fsearch_query_node_new_operator FSEARCH_QUERY_NODE_OPERATOR_AND]
  | expression_or e1 e2 =>
      expression_postfix flags e1 ++ expression_postfix flags e2
      ++ [fsearch_query_node_new_operator FSEARCH_QUERY_NODE_OPERATOR_OR]
  end.

(** The number of bracket pairs, and of tokens, of the bracketed form. *)
Fixpoint expression_brackets (e : query_expression) : nat :=
  match e with
  | expression_word _ => 0
  | expression_not e => S (expression_brackets e)
  | expression_and e1 e2 | expression_or e1 e2 =>
      S (expression_brackets e1 + expression_brackets e2)
  end.

Fixpoint expression_steps (e : query_expression) : nat :=
  match e with
  | expression_word _ => 1
  | expression_not e => S (S (expression_steps e + 1))
  | expression_and e1 e2 | expression_or e1 e2 =>
      S (expression_steps e1 + S (expression_steps e2 + 1))
  end.

(** The token the main loop has read last when the bracketed form ends. *)
Definition expression_last_token (e : query_expression) : FsearchQueryToken :=
  match e with
  | expression_word _ => FSEARCH_QUERY_TOKEN_WORD
  | _ => FSEARCH_QUERY_TOKEN_BRACKET_CLOSE
  end.

(** Queries without brackets: a disjunction of conjunctions of literals.
    A literal is a word or a negated word, the literals of a conjunction
    stand side by side, and OR separates the conjunctions. *)
Definition query_literal : Type := bool * string.

Definition query_conjunction : Type := query_literal * list query_literal.

Definition query_disjunction : Type :=
  query_conjunction * list query_conjunction.

Definition literal_tokens
  (text : FsearchQueryToken -> string) (l : query_literal)
  : FsearchQueryLexer :=
  if fst l
  then [ (FSEARCH_QUERY_TOKEN_NOT, text FSEARCH_QUERY_TOKEN_NOT);
         (FSEARCH_QUERY_TOKEN_WORD, snd l) ]
  else [ (FSEARCH_QUERY_TOKEN_WORD, snd l) ].

Definition conjunction_tokens
  (text : FsearchQueryToken -> string) (g : query_conjunction)
  : FsearchQueryLexer :=
  literal_tokens text (fst g) ++ flat_map (literal_tokens text) (snd g).

Definition disjunction_tokens
  (text : FsearchQueryToken -> string) (d : query_disjunction)
  : FsearchQueryLexer :=
  conjunction_tokens text (fst d)
  ++ flat_map
       (fun g =>
          (FSEARCH_QUERY_TOKEN_OR, text FSEARCH_QUERY_TOKEN_OR)
          :: conjunction_tokens text g)
       (snd d).

(** Their postfix forms: NOT binds tighter than AND, AND tighter than OR,
    and both binary operators associate to the left. *)
Definition literal_postfix (flags : FsearchQueryFlags) (l : query_literal)
  : list FsearchQueryNode :=
  fsearch_query_node_new (snd l) flags
  :: (if fst l
      then [fsearch_query_node_new_operator FSEARCH_QUERY_NODE_OPERATOR_NOT]
      else []).

Definition conjunction_postfix
  (flags : FsearchQueryFlags) (g : query_conjunction)
  : list FsearchQueryNode :=
  literal_postfix flags (fst g)
  ++ flat_map
       (fun l =>
          literal_postfix flags l
          ++ [fsearch_query_node_new_operator FSEARCH_QUERY_NODE_OPERATOR_AND])
       (snd g).

Definition disjunction_postfix
  (flags : FsearchQueryFlags) (d : query_disjunction)
  : list FsearchQueryNode :=
  conjunction_postfix flags (fst d)
  ++ flat_map
       (fun g =>
          conjunction_postfix flags g
          ++ [fsearch_query_node_new_operator FSEARCH_QUERY_NODE_OPERATOR_OR])
       (snd d).

(** The operator stack between two literals: the operators that wait for
    their right operand. *)
Definition pending_operators (negation conjunction disjunction : bool)
  : list FsearchQueryToken :=
  (if negation then [FSEARCH_QUERY_TOKEN_NOT] else [])
  ++ (if conjunction then [FSEARCH_QUERY_TOKEN_AND] else [])
  ++ (if disjunction then [FSEARCH_QUERY_TOKEN_OR] else []).

Definition literal_steps (l : query_literal) : nat :=
  if fst l then 2 else 1.

(** [ensures m P]: whenever [m] returns, its value and context satisfy
    [P]. *)
Definition ensures {A : Type} (m : M A)
  (P : A -> FsearchQueryParseContext -> Prop) : Prop :=
  forall ctx a ctx', m ctx = Done (a, ctx') -> P a ctx'.

(** How a top-level parse can end: at the end of the stream, after the
    flush of the [out] label, or with the leaf of the abort path. *)
Definition flushed_or_aborted
  (nodes : list FsearchQueryNode) (ctx : FsearchQueryParseContext) : Prop :=
  (at_eos (lexer ctx) = true /\ operator_stack ctx = [])
  \/ nodes = [fsearch_query_node_new_match_nothing].

(** The two counters of the main loop while they cannot wrap around: they
    differ by the number [open] of brackets still open, that many open
    brackets are on the operator stack, and the tokens left cannot take
    [num_open_brackets] to 2^32. *)
Definition balanced_inv (open : nat) (n m : Z) (ctx : FsearchQueryParseContext)
  : Prop :=
  stack_ok (operator_stack ctx) = true
  /\ 0 <= m
  /\ n - m = Z.of_nat open
  /\ n + Z.of_nat (List.length (lexer ctx)) < 4294967296
  /\ Z.of_nat open <= bracket_count (operator_stack ctx).

(** A second instance of the outside world for closed examples: its lexer
    reads a macro body as one word. *)
Definition word_external : External :=
  {| QUERY_FLAG_MATCH_CASE := 1;
     QUERY_FLAG_EXACT_MATCH := 2;
     QUERY_FLAG_FILES_ONLY := 4;
     QUERY_FLAG_FOLDERS_ONLY := 8;
     QUERY_FLAG_SEARCH_IN_PATH := 16;
     QUERY_FLAG_REGEX := 32;
     fsearch_size_parse := parse_integer;
     fsearch_date_time_parse_interval := parse_integer;
     fsearch_query_lexer_new :=
       fun query => [(FSEARCH_QUERY_TOKEN_WORD, query)] |}.

(** A small lexer for closed examples: the tokens of a macro body stand
    apart by single spaces; brackets and the three operator words are
    tokens of their own, a piece that ends in a colon is an empty field,
    every other piece is a word. *)
Fixpoint split_spaces (word s : string) : list string :=
  match s with
  | EmptyString => [word]
  | String c rest =>
      if Ascii.eqb c " "
      then word :: split_spaces "" rest
      else split_spaces (word ++ String c "") rest
  end.

Fixpoint empty_field_name (s : string) : option string :=
  match s with
  | EmptyString => None
  | String c EmptyString => if Ascii.eqb c ":" then Some "" else None
  | String c rest => option_map (String c) (empty_field_name rest)
  end.

Definition example_token (s : string) : FsearchQueryToken * string :=
  if String.eqb s "(" then (FSEARCH_QUERY_TOKEN_BRACKET_OPEN, s)
  else if String.eqb s ")" then (FSEARCH_QUERY_TOKEN_BRACKET_CLOSE, s)
  else if String.eqb s "AND" then (FSEARCH_QUERY_TOKEN_AND, s)
  else if String.eqb s "OR" then (FSEARCH_QUERY_TOKEN_OR, s)
  else if String.eqb s "NOT" then (FSEARCH_QUERY_TOKEN_NOT, s)
  else
    match empty_field_name s with
    | Some name => (FSEARCH_QUERY_TOKEN_FIELD_EMPTY, name)
    | None => (FSEARCH_QUERY_TOKEN_WORD, s)
    end.

Definition example_lexer (query : string) : FsearchQueryLexer :=
  map example_token (split_spaces "" query).

(** A third instance of the outside world for closed examples, with that
    lexer. *)
Definition lexing_external : External :=
  {| QUERY_FLAG_MATCH_CASE := 1;
     QUERY_FLAG_EXACT_MATCH := 2;
     QUERY_FLAG_FILES_ONLY := 4;
     QUERY_FLAG_FOLDERS_ONLY := 8;
     QUERY_FLAG_SEARCH_IN_PATH := 16;
     QUERY_FLAG_REGEX := 32;
     fsearch_size_parse := parse_integer;
     fsearch_date_time_parse_interval := parse_integer;
     fsearch_query_lexer_new := example_lexer |}.

(** The text of a token that is not a word, for closed examples. *)
Definition example_text (t : FsearchQueryToken) : string :=
  match t with
  | FSEARCH_QUERY_TOKEN_AND => "AND"
  | FSEARCH_QUERY_TOKEN_OR => "OR"
  | FSEARCH_QUERY_TOKEN_NOT => "NOT"
  | FSEARCH_QUERY_TOKEN_BRACKET_OPEN => "("
  | FSEARCH_QUERY_TOKEN_BRACKET_CLOSE => ")"
  | _ => ""
  end.

(** * Properties *)

(** ** More budget changes nothing *)

Lemma refines_refl {A : Type} (m : M A) : refines m m.
Proof. intros ctx _. reflexivity. Qed.

Lemma refines_bind {A B : Type} (m1 m2 : M A) (k1 k2 : A -> M B) :
  refines m1 m2 ->
  (forall a, refines (k1 a) (k2 a)) ->
  refines (bind m1 k1) (bind m2 k2).
Proof.
  intros Hm Hk ctx. unfold bind. specialize (Hm ctx).
  destruct (m1 ctx) as [[a ctx']| |] eqn:E1.
  - rewrite Hm by discriminate. apply Hk.
  - rewrite Hm by discriminate. reflexivity.
  - intros H. now elim H.
Qed.

Lemma refines_trans {A : Type} (m1 m2 m3 : M A) :
  refines m1 m2 -> refines m2 m3 -> refines m1 m3.
Proof.
  intros H12 H23 ctx H. rewrite <- (H12 ctx H). apply H23.
  rewrite (H12 ctx H). exact H.
Qed.

Lemma refines_timeout {A : Type} (m : M A) : refines timeout m.
Proof. intros ctx H. now elim H. Qed.

Ltac refines_step :=
  match goal with
  | |- refines ?m ?m => apply refines_refl
  | H : context [refines _ _] |- refines _ _ => solve [apply H]
  | |- refines (bind _ _) (bind _ _) => apply refines_bind; [ | intros ? ]
  | |- refines (match ?x with _ => _ end) _ => destruct x
  end.

Section Refinement.

Context {ext : External}.

Variables loop1 loop2 :
  bool -> FsearchQueryFlags -> list FsearchQueryNode -> Z -> Z ->
  M (list FsearchQueryNode).
Variables field1 field2 :
  string -> bool -> FsearchQueryFlags -> M (list FsearchQueryNode).
Variables modifier1 modifier2 :
  bool -> FsearchQueryFlags -> M (list FsearchQueryNode).
Variables macros1 macros2 :
  string -> FsearchQueryFlags -> M (list FsearchQueryNode).

Hypothesis loop_refines :
  forall b f r n m, refines (loop1 b f r n m) (loop2 b f r n m).
Hypothesis field_refines :
  forall s b f, refines (field1 s b f) (field2 s b f).
Hypothesis modifier_refines :
  forall b f, refines (modifier1 b f) (modifier2 b f).
Hypothesis macros_refines :
  forall s f, refines (macros1 s f) (macros2 s f).

Lemma next_iteration_refines b f r l t a s n m :
  refines (next_iteration loop1 b f r l t a s n m)
          (next_iteration loop2 b f r l t a s n m).
Proof. unfold next_iteration. repeat refines_step. Qed.

Lemma parse_expression_iteration_refines b f r n m :
  refines (parse_expression_iteration loop1 field1 b f r n m)
          (parse_expression_iteration loop2 field2 b f r n m).
Proof.
  unfold parse_expression_iteration.
  repeat first [ apply next_iteration_refines | refines_step ].
Qed.

Lemma parse_field_body_refines s b f :
  refines (parse_field_body modifier1 macros1 s b f)
          (parse_field_body modifier2 macros2 s b f).
Proof. unfold parse_field_body. repeat refines_step. Qed.

Lemma parse_modifier_body_refines b f :
  refines (parse_modifier_body loop1 field1 b f)
          (parse_modifier_body loop2 field2 b f).
Proof. unfold parse_modifier_body. repeat refines_step. Qed.

Lemma parse_filter_macros_body_refines s f :
  refines (parse_filter_macros_body loop1 s f)
          (parse_filter_macros_body loop2 s f).
Proof. unfold parse_filter_macros_body. repeat refines_step. Qed.

End Refinement.

Section Fuel.

Context {ext : External}.

Lemma fuel_step (fuel : nat) :
  (forall b f r n m,
      refines (parse_expression_loop fuel b f r n m)
              (parse_expression_loop (S fuel) b f r n m))
  /\ (forall s b f,
         refines (parse_field fuel s b f) (parse_field (S fuel) s b f))
  /\ (forall b f,
         refines (parse_modifier fuel b f) (parse_modifier (S fuel) b f))
  /\ (forall s f,
         refines (parse_filter_macros fuel s f)
                 (parse_filter_macros (S fuel) s f)).
Proof.
  induction fuel as [|fuel (IHl & IHf & IHm & IHx)].
  - repeat split; intros; apply refines_timeout.
  - repeat split; intros.
    + apply parse_expression_iteration_refines; assumption.
    + apply parse_field_body_refines; assumption.
    + apply parse_modifier_body_refines; assumption.
    + apply parse_filter_macros_body_refines; assumption.
Qed.

Lemma parse_expression_loop_fuel (fuel fuel' : nat) b f r n m :
  (fuel <= fuel')%nat ->
  refines (parse_expression_loop fuel b f r n m)
          (parse_expression_loop fuel' b f r n m).
Proof.
  induction 1 as [|k _ IH].
  - apply refines_refl.
  - eapply refines_trans; [exact IH | apply fuel_step].
Qed.

Lemma parse_field_fuel (fuel fuel' : nat) s b f :
  (fuel <= fuel')%nat ->
  refines (parse_field fuel s b f) (parse_field fuel' s b f).
Proof.
  induction 1 as [|k _ IH].
  - apply refines_refl.
  - eapply refines_trans; [exact IH | apply fuel_step].
Qed.

End Fuel.

(** ** The helpers of the main loop *)

#[local] Arguments Z.add : simpl never.
#[local] Arguments Z.sub : simpl never.
#[local] Arguments Z.mul : simpl never.
#[local] Arguments Z.modulo : simpl never.
#[local] Arguments Nat.mul : simpl never.

Lemma wp_bind {A B : Type} (m : M A) (k : A -> M B) Q ctx :
  wp m (fun a ctx' => wp (k a) Q ctx') ctx -> wp (bind m k) Q ctx.
Proof.
  unfold wp, bind. destruct (m ctx) as [[a ctx']| |]; auto.
Qed.

Lemma wp_mono {A : Type} (m : M A) (Q Q' : A -> _ -> Prop) ctx :
  wp m Q ctx -> (forall a ctx', Q a ctx' -> Q' a ctx') -> wp m Q' ctx.
Proof.
  unfold wp. destruct (m ctx) as [[a ctx']| |]; auto.
Qed.

Lemma wp_done {A : Type} (m : M A) Q ctx :
  wp m Q ctx -> exists a ctx', m ctx = Done (a, ctx') /\ Q a ctx'.
Proof.
  unfold wp. destruct (m ctx) as [[a ctx']| |]; [eauto | tauto | tauto].
Qed.

Lemma wp_ret {A : Type} (a : A) (Q : A -> _ -> Prop) ctx :
  Q a ctx -> wp (ret a) Q ctx.
Proof. auto. Qed.

Lemma wp_get_ctx {B : Type} (k : _ -> M B) Q ctx :
  wp (k ctx) Q ctx -> wp (bind get_ctx k) Q ctx.
Proof. auto. Qed.

Lemma wp_deref {B : Type} (s : string) (k : _ -> M B) Q ctx :
  wp (k s) Q ctx -> wp (bind (deref (Some s)) k) Q ctx.
Proof. auto. Qed.

Lemma bracket_count_nonneg stack : 0 <= bracket_count stack.
Proof.
  induction stack as [|t stack IH]; simpl; [lia|].
  destruct t; simpl; lia.
Qed.

Lemma operator_precedence_pos token :
  is_operator_token token = true -> 1 <= get_operator_precedence token.
Proof. destruct token; simpl; intros H; try discriminate; lia. Qed.

Lemma parse_operator_loop_stack token res stack res' stack' :
  is_operator_token token = true ->
  parse_operator_loop token res stack = (res', stack') ->
  bracket_count stack' = bracket_count stack
  /\ (stack_ok stack = true -> stack_ok stack' = true).
Proof.
  intros Hop. revert res.
  induction stack as [|top stack IH]; simpl; intros res H.
  - inversion H; subst. auto.
  - destruct (get_operator_precedence token <=? get_operator_precedence top)
      eqn:E.
    + apply IH in H. destruct H as [Hc Hok]. split.
      * rewrite Hc. apply operator_precedence_pos in Hop.
        apply Z.leb_le in E. destruct top; simpl in *; lia.
      * intros H. apply andb_prop in H. tauto.
    + inversion H; subst. auto.
Qed.

Lemma parse_close_bracket_loop_stack stack : forall res,
  stack_ok stack = true ->
  1 <= bracket_count stack ->
  exists res' stack',
    parse_close_bracket_loop res stack = Some (res', stack')
    /\ stack_ok stack' = true
    /\ bracket_count stack' = bracket_count stack - 1.
Proof.
  induction stack as [|t stack IH]; simpl; intros res Hok Hc; [lia|].
  apply andb_prop in Hok. destruct Hok as [Ht Hok].
  destruct t; simpl in Ht; try discriminate;
    solve [ apply IH; assumption
          | eexists _, _; repeat split; [assumption | lia] ].
Qed.

Lemma consume_consecutive_not_token_loop_lexer l : forall b b' l',
  consume_consecutive_not_token_loop b l = (b', l') ->
  (List.length l' <= List.length l)%nat
  /\ (at_eos l = true -> at_eos l' = true).
Proof.
  induction l as [|[t s] l IH]; simpl; intros b b' l' H.
  - inversion H; subst. auto.
  - destruct t; try (inversion H; subst; auto; fail).
    apply IH in H. destruct H as [Hlen _]. split; [lia|].
    intros E. discriminate E.
Qed.

Lemma discard_consecutive_binary_operator_tokens_loop_lexer l :
  (List.length (discard_consecutive_binary_operator_tokens_loop l)
   <= List.length l)%nat
  /\ (at_eos l = true ->
      at_eos (discard_consecutive_binary_operator_tokens_loop l) = true).
Proof.
  induction l as [|[t s] l [IHlen IHeos]]; simpl; [auto|].
  destruct (is_binary_operator_token t) eqn:E; [|auto].
  split; [lia|]. destruct t; try discriminate E; intros H; discriminate H.
Qed.

(** The two ways a token is read: at the end of the stream nothing moves. *)
Lemma lexer_next_cases (l : FsearchQueryLexer) :
  (at_eos l = true
   /\ fsearch_query_lexer_get_next_token l
      = (FSEARCH_QUERY_TOKEN_EOS, None, l))
  \/ (exists t s rest,
         l = (t, s) :: rest
         /\ t <> FSEARCH_QUERY_TOKEN_EOS
         /\ at_eos l = false
         /\ fsearch_query_lexer_get_next_token l = (t, Some s, rest)).
Proof.
  destruct l as [|[t s] rest]; [left; auto|].
  destruct t; try (right; eexists _, _, _; repeat split; congruence).
  left. auto.
Qed.

Lemma frame_refl ctx : frame ctx ctx.
Proof. unfold frame. auto. Qed.

Lemma frame_trans c1 c2 c3 : frame c1 c2 -> frame c2 c3 -> frame c1 c3.
Proof.
  unfold frame. intros (A1 & A2 & A3 & A4 & A5) (B1 & B2 & B3 & B4 & B5).
  repeat split; try congruence; try lia; auto.
Qed.

Ltac ctx_simpl :=
  cbn [lexer operator_stack macro_stack macro_filters last_token
       with_lexer with_operator_stack with_macro_stack with_last_token] in *.

Lemma wp_lexer_next
  (Q : FsearchQueryToken * option string -> FsearchQueryParseContext -> Prop)
  ctx :
  (at_eos (lexer ctx) = true ->
   Q (FSEARCH_QUERY_TOKEN_EOS, None) (with_lexer ctx (lexer ctx))) ->
  (forall t s rest,
      lexer ctx = (t, s) :: rest ->
      t <> FSEARCH_QUERY_TOKEN_EOS ->
      Q (t, Some s) (with_lexer ctx rest)) ->
  wp lexer_next Q ctx.
Proof.
  intros Heos Htok. unfold wp, lexer_next, bind, get_ctx.
  destruct (lexer_next_cases (lexer ctx))
    as [[E H]|(t & s & rest & E & Ht & _ & H)]; rewrite H; cbn; auto.
Qed.

Lemma wp_parse_operator token (Q : _ -> _ -> Prop) ctx :
  is_operator_token token = true ->
  (forall r ctx', quiet ctx ctx' 0 -> Q r ctx') ->
  wp (parse_operator token) Q ctx.
Proof.
  intros Hop HQ. unfold wp, parse_operator, bind, g_assert, get_ctx.
  rewrite Hop. cbn.
  destruct (parse_operator_loop token [] (operator_stack ctx))
    as [res stack] eqn:E.
  cbn. apply HQ.
  apply parse_operator_loop_stack in E; [|assumption].
  destruct E as [Ec Eok].
  unfold quiet, frame, push_query_token. ctx_simpl.
  repeat split; auto; try lia.
  - intros H. simpl. rewrite (Eok H).
    destruct token; try discriminate Hop; reflexivity.
  - cbn [bracket_count].
    destruct token; try discriminate Hop; lia.
Qed.

Lemma wp_get_implicit_and_if_necessary last next_token
  (Q : _ -> _ -> Prop) ctx :
  (forall r ctx', quiet ctx ctx' 0 -> Q r ctx') ->
  wp (get_implicit_and_if_necessary last next_token) Q ctx.
Proof.
  intros HQ. unfold get_implicit_and_if_necessary.
  assert (Hret : wp (ret []) Q ctx).
  { apply HQ. unfold quiet. repeat split; auto using frame_refl. lia. }
  repeat match goal with
         | |- wp (if ?b then _ else _) _ _ => destruct b
         end; auto.
  apply wp_parse_operator; auto.
Qed.

Lemma wp_is_operator_token_followed_by_operand token
  (Q : bool -> _ -> Prop) ctx :
  is_operator_token token = true ->
  (forall b, Q b ctx) ->
  wp (is_operator_token_followed_by_operand token) Q ctx.
Proof.
  intros Hop HQ.
  unfold wp, is_operator_token_followed_by_operand, bind, g_assert,
    lexer_peek, get_ctx.
  rewrite Hop. cbn.
  match goal with |- context [if ?b then _ else _] => destruct b end;
    cbn; apply HQ.
Qed.

Lemma wp_consume_consecutive_not_token (Q : bool -> _ -> Prop) ctx :
  (forall b l,
      (List.length l <= List.length (lexer ctx))%nat ->
      (at_eos (lexer ctx) = true -> at_eos l = true) ->
      Q b (with_lexer ctx l)) ->
  wp consume_consecutive_not_token Q ctx.
Proof.
  intros HQ. unfold wp, consume_consecutive_not_token, bind, get_ctx.
  destruct (consume_consecutive_not_token_loop true (lexer ctx))
    as [b l] eqn:E.
  cbn. apply consume_consecutive_not_token_loop_lexer in E.
  apply HQ; tauto.
Qed.

Lemma wp_discard_consecutive_binary_operator_tokens
  (Q : unit -> _ -> Prop) ctx :
  (forall l,
      (List.length l <= List.length (lexer ctx))%nat ->
      (at_eos (lexer ctx) = true -> at_eos l = true) ->
      Q tt (with_lexer ctx l)) ->
  wp discard_consecutive_binary_operator_tokens Q ctx.
Proof.
  intros HQ.
  unfold wp, discard_consecutive_binary_operator_tokens, bind, get_ctx.
  cbn.
  apply HQ;
    apply discard_consecutive_binary_operator_tokens_loop_lexer.
Qed.

Lemma wp_parse_open_bracket (Q : _ -> _ -> Prop) ctx :
  (forall r ctx', quiet ctx ctx' 1 -> Q r ctx') ->
  wp parse_open_bracket Q ctx.
Proof.
  intros HQ. unfold parse_open_bracket.
  apply wp_bind. cbn.
  apply wp_bind.
  apply wp_get_implicit_and_if_necessary.
  intros r c1 (Hf & Hl & Hc). cbn.
  apply HQ. unfold quiet, frame in *. ctx_simpl.
  destruct Hf as (F1 & F2 & F3 & F4 & F5).
  unfold push_query_token.
  repeat split; auto.
  cbn [bracket_count]. lia.
Qed.

Lemma wp_parse_close_bracket (Q : _ -> _ -> Prop) ctx :
  stack_ok (operator_stack ctx) = true ->
  1 <= bracket_count (operator_stack ctx) ->
  (forall r ctx',
      quiet ctx ctx' (-1) ->
      stack_ok (operator_stack ctx') = true ->
      Q r ctx') ->
  wp parse_close_bracket Q ctx.
Proof.
  intros Hok Hc HQ. unfold wp, parse_close_bracket, bind, get_ctx.
  destruct (parse_close_bracket_loop_stack (operator_stack ctx) [] Hok Hc)
    as (res & stack & E & Eok & Ec).
  rewrite E. cbn. apply HQ; [|assumption].
  unfold quiet, frame. ctx_simpl. repeat split; auto; lia.
Qed.

Lemma at_eos_cons t s (rest : FsearchQueryLexer) :
  t <> FSEARCH_QUERY_TOKEN_EOS -> at_eos ((t, s) :: rest) = false.
Proof. destruct t; intros H; try reflexivity. now elim H. Qed.

Lemma reads_with_lexer ctx l :
  (List.length l <= List.length (lexer ctx))%nat ->
  (at_eos (lexer ctx) = true -> at_eos l = true) ->
  reads ctx (with_lexer ctx l).
Proof. intros. unfold reads, frame. ctx_simpl. auto 10. Qed.

Lemma reads_refl ctx : reads ctx ctx.
Proof. split; [apply frame_refl | reflexivity]. Qed.

Lemma reads_trans c1 c2 c3 : reads c1 c2 -> reads c2 c3 -> reads c1 c3.
Proof.
  intros [F1 S1] [F2 S2]. split; [eapply frame_trans; eauto | congruence].
Qed.

Lemma wp_lexer_next_reads
  (Q : FsearchQueryToken * option string -> FsearchQueryParseContext -> Prop)
  ctx :
  (forall t v ctx',
      reads ctx ctx' ->
      (t <> FSEARCH_QUERY_TOKEN_EOS -> exists s, v = Some s) ->
      Q (t, v) ctx') ->
  wp lexer_next Q ctx.
Proof.
  intros HQ. apply wp_lexer_next.
  - intros E. apply HQ; [apply reads_with_lexer; auto | congruence].
  - intros t s rest E Ht. apply HQ; [|eauto].
    apply reads_with_lexer; rewrite E.
    + simpl. lia.
    + rewrite at_eos_cons by assumption. discriminate.
Qed.

Lemma wp_expect_word (Q : bool * option string -> _ -> Prop) ctx :
  (forall b v ctx',
      reads ctx ctx' -> (b = true -> exists s, v = Some s) -> Q (b, v) ctx') ->
  wp expect_word Q ctx.
Proof.
  intros HQ. unfold expect_word. apply wp_bind.
  apply wp_lexer_next_reads. intros t v c' Hr Hv. cbn.
  apply HQ; [assumption|].
  intros E. apply Hv. intros ->. discriminate E.
Qed.

Section FunctionParsers.

Context {ext : External}.

Lemma wp_parse_numeric_function is_empty_field flags new_node_func
  parse_value_func (Q : _ -> _ -> Prop) ctx :
  (forall r ctx', reads ctx ctx' -> Q r ctx') ->
  wp (parse_numeric_function is_empty_field flags new_node_func
        parse_value_func) Q ctx.
Proof.
  intros HQ. unfold parse_numeric_function.
  destruct is_empty_field; [apply HQ, reads_refl|].
  apply wp_bind. apply wp_lexer_next_reads. intros t v c1 H1 Hv.
  assert (Hcmp : forall comp_type,
    wp ('(is_word, next_token_value) <- expect_word ;;
        if is_word
        then
          str <- deref next_token_value ;;
          match parse_value_func str with
          | Some (val_1, val_2) =>
              ret (new_list (new_node_func flags val_1 val_2 comp_type))
          | None => ret (new_list fsearch_query_node_new_match_nothing)
          end
        else ret (new_list fsearch_query_node_new_match_nothing)) Q c1).
  { intros comp_type. apply wp_bind. apply wp_expect_word.
    intros b v2 c2 H2 Hv2.
    assert (H12 := reads_trans H1 H2).
    destruct b; [|apply HQ; assumption].
    destruct Hv2 as [s ->]; [reflexivity|].
    unfold wp, bind, deref, ret.
    destruct (parse_value_func s) as [[v1 v3]|]; apply HQ; assumption. }
  destruct t; try apply Hcmp; try (apply HQ; assumption).
  destruct Hv as [s ->]; [discriminate|]. cbn. apply HQ; assumption.
Qed.

Lemma wp_string_function (build : string -> FsearchQueryNode)
  (Q : _ -> _ -> Prop) ctx :
  (forall r ctx', reads ctx ctx' -> Q r ctx') ->
  wp ('(is_word, token_value) <- expect_word ;;
      if is_word
      then str <- deref token_value ;; ret (new_list (build str))
      else ret (new_list fsearch_query_node_new_match_nothing)) Q ctx.
Proof.
  intros HQ. apply wp_bind. apply wp_expect_word. intros b v c1 H1 Hv.
  destruct b; [|apply HQ; assumption].
  destruct Hv as [s ->]; [reflexivity|]. cbn. apply HQ; assumption.
Qed.

Lemma wp_supported_function field_name parser is_empty_field flags
  (Q : _ -> _ -> Prop) ctx :
  lookup_function supported_functions field_name = Some parser ->
  (forall r ctx', reads ctx ctx' -> Q r ctx') ->
  wp (parser is_empty_field flags) Q ctx.
Proof.
  intros Hlook HQ. unfold supported_functions in Hlook. simpl in Hlook.
  repeat match type of Hlook with
         | (if ?b then _ else _) = _ => destruct b
         end;
    inversion Hlook; subst parser;
    try (apply wp_parse_numeric_function; assumption).
  - unfold parse_function_contenttype.
    destruct is_empty_field; [apply HQ, reads_refl|].
    apply (wp_string_function
             (fun str => fsearch_query_node_new_contenttype str flags)).
    assumption.
  - apply HQ, reads_refl.
  - unfold parse_function_extension.
    destruct is_empty_field; [apply HQ, reads_refl|].
    apply (wp_string_function
             (fun str => fsearch_query_node_new_extension (Some str) flags)).
    assumption.
  - unfold parse_function_parent.
    destruct is_empty_field; [apply HQ, reads_refl|].
    apply (wp_string_function
             (fun str => fsearch_query_node_new_parent str
                           (flags_add flags QUERY_FLAG_EXACT_MATCH))).
    assumption.
Qed.

End FunctionParsers.

(** ** The budget suffices and no assertion fails *)

Lemma quiet_moves c c' d : quiet c c' d -> moves c c' d.
Proof. intros (F & L & C). split; [assumption | right; lia]. Qed.

Lemma reads_moves c c' : reads c c' -> moves c c' 0.
Proof. intros (F & S). split; [assumption | right; rewrite S; lia]. Qed.

Lemma moves_trans c1 c2 c3 d1 d2 :
  moves c1 c2 d1 -> moves c2 c3 d2 -> moves c1 c3 (d1 + d2).
Proof.
  intros (F1 & H1) (F2 & H2). split; [eapply frame_trans; eauto|].
  destruct H2 as [H2|H2]; [auto|].
  destruct H1 as [H1|H1]; [|right; lia].
  left. destruct F2 as (_ & _ & _ & F & _). auto.
Qed.

Lemma moves_after B c c' :
  moves c c' 0 -> B <= bracket_count (operator_stack c) -> after B c c'.
Proof. intros (F & H) HB. split; [assumption|]. destruct H; [auto|right; lia]. Qed.

Lemma after_moves c c' :
  after (bracket_count (operator_stack c)) c c' -> moves c c' 0.
Proof. intros (F & H). split; [assumption|]. destruct H; [auto|right; lia]. Qed.

Lemma after_frame B c0 c c' : frame c0 c -> after B c c' -> after B c0 c'.
Proof. intros F (F' & H). split; [eapply frame_trans; eauto | assumption]. Qed.

Section Budget.

Context {ext : External}.

Lemma macro_budget_frame c c' :
  frame c c' -> macro_budget c' = macro_budget c.
Proof. intros (F1 & F2 & _). unfold macro_budget. now rewrite F1, F2. Qed.

Lemma expression_budget_frame c c' :
  frame c c' -> (expression_budget c' <= expression_budget c)%nat.
Proof.
  intros F. unfold expression_budget. rewrite (macro_budget_frame F).
  destruct F as (_ & _ & F & _). lia.
Qed.

End Budget.

Lemma loop_inv_moves B n m c c' :
  loop_inv B n m c -> moves c c' 0 -> loop_inv B n m c'.
Proof.
  intros (Hok & Hn & Hm & H) ((F1 & F2 & F3 & F4 & F5) & Hc).
  repeat split; auto; try lia.
  destruct Hc as [Hc|Hc]; [auto|].
  destruct H as [H|(k & H1 & H2)]; [auto|].
  right. exists k. split; lia.
Qed.

Lemma uint32_incr_cases n :
  0 <= n < 4294967296 ->
  (uint32_incr n = n + 1 /\ n + 1 < 4294967296)
  \/ (uint32_incr n = 0 /\ n = 4294967295).
Proof.
  intros H. unfold uint32_incr.
  destruct (Z.eq_dec n 4294967295) as [->|Hne]; [right; auto|].
  left. rewrite Z.mod_small by lia. lia.
Qed.

Lemma loop_inv_open B n m c c' :
  loop_inv B n m c -> moves c c' 1 -> loop_inv B (uint32_incr n) m c'.
Proof.
  intros (Hok & Hn & Hm & H) ((F1 & F2 & F3 & F4 & F5) & Hc).
  destruct (uint32_incr_cases Hn) as [[E Hlt]|[E Hmax]]; rewrite E;
    (repeat split; auto; try lia);
    (destruct Hc as [Hc|Hc]; [auto|]);
    (destruct H as [H|(k & H1 & H2)]; [auto|]); right.
  - exists k. split; lia.
  - exists (k + 1). split; lia.
Qed.

Lemma loop_inv_close_pre B n m c :
  loop_inv B n m c ->
  0 <= B ->
  at_eos (lexer c) = false ->
  m < n ->
  1 <= bracket_count (operator_stack c).
Proof.
  intros (Hok & Hn & Hm & H) HB He Hlt.
  destruct H as [H|(k & H1 & H2)]; [congruence|]. lia.
Qed.

Lemma loop_inv_close B n m c c' :
  loop_inv B n m c ->
  at_eos (lexer c) = false ->
  m < n ->
  moves c c' (-1) ->
  loop_inv B n (uint32_incr m) c'
  /\ (uint32_incr m = n -> after B c c').
Proof.
  intros (Hok & Hn & Hm & H) He Hlt (F & Hc).
  destruct (uint32_incr_cases Hm) as [[E Hle]|[E Hmax]]; [|lia].
  rewrite E.
  destruct H as [H|(k & H1 & H2)]; [congruence|].
  split.
  - destruct F as (F1 & F2 & F3 & F4 & F5).
    repeat split; auto; try lia.
    destruct Hc as [Hc|Hc]; [auto|].
    right. exists k. split; lia.
  - intros En. split; [assumption|].
    destruct Hc as [Hc|Hc]; [auto|]. right. lia.
Qed.

Lemma filter_length_lt {A : Type} (p q : A -> bool) (l : list A) (a : A) :
  (forall x, q x = true -> p x = true) ->
  In a l -> p a = true -> q a = false ->
  (List.length (filter q l) < List.length (filter p l))%nat.
Proof.
  intros Hqp Hin Hp Hq.
  assert (Hle : forall l', (List.length (filter q l')
                            <= List.length (filter p l'))%nat).
  { induction l' as [|x l' IH]; simpl; [lia|].
    destruct (q x) eqn:Eq.
    - rewrite (Hqp x Eq). simpl. lia.
    - destruct (p x); simpl; lia. }
  induction l as [|x l IH]; simpl in *; [tauto|].
  destruct Hin as [->|Hin].
  - rewrite Hp, Hq. simpl. specialize (Hle l). lia.
  - specialize (IH Hin). destruct (q x) eqn:Eq.
    + rewrite (Hqp x Eq). simpl. lia.
    + destruct (p x); simpl; lia.
Qed.

Lemma unexpanded_push filters stack i :
  (i < List.length filters)%nat ->
  g_queue_find stack i = false ->
  (unexpanded filters (i :: stack) < unexpanded filters stack)%nat.
Proof.
  intros Hi Hfind. unfold unexpanded.
  apply filter_length_lt with (a := i).
  - intros x. unfold g_queue_find. simpl.
    destruct (Nat.eqb x i); simpl; [discriminate | auto].
  - apply in_seq. lia.
  - now rewrite Hfind.
  - unfold g_queue_find. simpl. now rewrite Nat.eqb_refl.
Qed.

Lemma lookup_macro_found filters : forall i name j filter,
  lookup_macro filters i name = Some (j, filter) ->
  (i <= j < i + List.length filters)%nat
  /\ In filter filters
  /\ filter_macro filter = name.
Proof.
  induction filters as [|f filters IH]; simpl; intros i name j filter H;
    [discriminate|].
  destruct (String.eqb name (filter_macro f)) eqn:E.
  - inversion H; subst. apply String.eqb_eq in E.
    repeat split; auto; lia.
  - apply IH in H. destruct H as (H1 & H2 & H3).
    repeat split; auto; lia.
Qed.

Section Budget2.

Context {ext : External}.

Lemma max_query_length_In filters filter :
  In filter filters ->
  (List.length (fsearch_query_lexer_new (filter_query filter))
   <= max_query_length filters)%nat.
Proof.
  unfold max_query_length.
  induction filters as [|f filters IH]; simpl; [tauto|].
  intros [->|H]; [lia|]. specialize (IH H). lia.
Qed.

(** Entering a macro costs the budget of its body and leaves a smaller
    macro budget behind. *)
Lemma macro_budget_enter ctx i filter name :
  lookup_macro (macro_filters ctx) 0 name = Some (i, filter) ->
  g_queue_find (macro_stack ctx) i = false ->
  (expression_budget
     (with_operator_stack
        (with_lexer
           (with_macro_stack ctx (i :: macro_stack ctx))
           (fsearch_query_lexer_new (filter_query filter)))
        [])
   < macro_budget ctx)%nat.
Proof.
  intros Hlook Hfind.
  apply lookup_macro_found in Hlook. destruct Hlook as (Hi & Hin & _).
  unfold expression_budget, macro_budget. ctx_simpl.
  assert (H1 := max_query_length_In _ _ Hin).
  assert (H2 : (unexpanded (macro_filters ctx) (i :: macro_stack ctx)
                < unexpanded (macro_filters ctx) (macro_stack ctx))%nat)
    by (apply unexpanded_push; [lia | assumption]).
  set (Q := max_query_length (macro_filters ctx)) in *.
  set (u' := unexpanded (macro_filters ctx) (i :: macro_stack ctx)) in *.
  set (u := unexpanded (macro_filters ctx) (macro_stack ctx)) in *.
  nia.
Qed.

End Budget2.

Section Termination.

Context {ext : External}.

Variable fuel : nat.

Variable loop_rec :
  bool -> FsearchQueryFlags -> list FsearchQueryNode -> Z -> Z ->
  M (list FsearchQueryNode).
Variable field_rec :
  string -> bool -> FsearchQueryFlags -> M (list FsearchQueryNode).
Variable modifier_rec :
  bool -> FsearchQueryFlags -> M (list FsearchQueryNode).
Variable macros_rec :
  string -> FsearchQueryFlags -> M (list FsearchQueryNode).

Hypothesis loop_rec_total : loop_total fuel loop_rec.
Hypothesis field_rec_total : field_total fuel field_rec.
Hypothesis modifier_rec_total : modifier_total fuel modifier_rec.
Hypothesis macros_rec_total : macros_total fuel macros_rec.

Lemma next_iteration_total b f r last token to_append skip n m B ctx0 ctx :
  frame ctx0 ctx ->
  (expression_budget ctx <= fuel)%nat ->
  0 <= B ->
  loop_inv B n m ctx ->
  wp (next_iteration loop_rec b f r last token to_append skip n m)
     (fun _ ctx' => after B ctx0 ctx') ctx.
Proof.
  intros F Hb HB Hi. unfold next_iteration. apply wp_bind.
  assert (Hgo : forall r' ctx1,
             moves ctx ctx1 0 ->
             wp (loop_rec b f r' n m) (fun _ ctx' => after B ctx0 ctx') ctx1).
  { intros r' c1 Hm.
    apply wp_mono with (Q := fun _ ctx' => after B c1 ctx').
    - apply loop_rec_total; [|assumption|eapply loop_inv_moves; eauto].
      pose proof (expression_budget_frame (proj1 Hm)). lia.
    - intros _ c' Ha.
      eapply after_frame; [|exact Ha].
      eapply frame_trans; [exact F | exact (proj1 Hm)]. }
  destruct to_append as [|x to_append].
  - apply Hgo. apply reads_moves, reads_refl.
  - apply wp_bind.
    assert (Hlast : forall a ctx1,
               quiet ctx ctx1 0 ->
               wp (set_last_token token ;;; ret ((r ++ a) ++ x :: to_append))
                  (fun r' ctx' =>
                     wp (loop_rec b f r' n m)
                        (fun _ ctx'' => after B ctx0 ctx'') ctx') ctx1).
    { intros a c1 Hq. cbn. apply Hgo.
      apply quiet_moves in Hq. destruct Hq as [Hf Hc].
      split; [|exact Hc]. unfold frame in *. ctx_simpl. exact Hf. }
    destruct skip.
    + apply Hlast. split; [apply frame_refl | split; [reflexivity | lia]].
    + apply wp_get_implicit_and_if_necessary. intros a c1 Hq.
      apply Hlast. assumption.
Qed.

Lemma loop_inv_bound B n m c :
  loop_inv B n m c ->
  at_eos (lexer c) = false ->
  B <= bracket_count (operator_stack c).
Proof.
  intros (Hok & Hn & Hm & H) He.
  destruct H as [H|(k & H1 & H2)]; [congruence|]. lia.
Qed.

Lemma parse_expression_iteration_total b f r n m B ctx :
  (expression_budget ctx <= S fuel)%nat ->
  0 <= B ->
  loop_inv B n m ctx ->
  wp (parse_expression_iteration loop_rec field_rec b f r n m)
     (fun _ ctx' => after B ctx ctx') ctx.
Proof.
  intros Hb HB Hi. unfold parse_expression_iteration.
  apply wp_bind. apply wp_lexer_next.
  - intros He. cbn. split; [|left; exact He].
    unfold frame. ctx_simpl. repeat split; auto.
  - intros t s rest E Ht.
    assert (He : at_eos (lexer ctx) = false)
      by (rewrite E; apply at_eos_cons; assumption).
    assert (R1 : reads ctx (with_lexer ctx rest)).
    { apply reads_with_lexer; [rewrite E; simpl; lia | congruence]. }
    assert (Hb1 : (expression_budget (with_lexer ctx rest) + 2 <= fuel)%nat).
    { unfold expression_budget in *.
      rewrite (macro_budget_frame (proj1 R1)).
      ctx_simpl. rewrite E in Hb. simpl List.length in Hb. lia. }
    remember (with_lexer ctx rest) as c1 eqn:Ec1.
    assert (Es : operator_stack c1 = operator_stack ctx) by apply R1.
    assert (Hi1 : loop_inv B n m c1)
      by (eapply loop_inv_moves; [exact Hi | apply reads_moves, R1]).
    assert (Hcont : forall ta skip n' m' c2,
               frame c1 c2 ->
               loop_inv B n' m' c2 ->
               wp (next_iteration loop_rec b f r (last_token c1) t ta skip
                     n' m')
                  (fun _ ctx' => after B ctx ctx') c2).
    { intros ta skip n' m' c2 F2 Hi2.
      apply next_iteration_total; auto.
      - eapply frame_trans; [exact (proj1 R1) | exact F2].
      - pose proof (expression_budget_frame F2). lia. }
    assert (Hquiet : forall c2, quiet c1 c2 0 -> loop_inv B n m c2).
    { intros c2 Hq. eapply loop_inv_moves; [exact Hi1|].
      apply quiet_moves, Hq. }
    apply wp_get_ctx.
    destruct t; try (apply Hcont; [apply frame_refl | exact Hi1]).
    + now elim Ht.
    + (* FIELD *)
      apply wp_deref. apply wp_bind.
      eapply wp_mono.
      * apply field_rec_total; [lia | apply Hi1].
      * intros ta c2 Ha. cbv beta in Ha.
        apply Hcont; [apply Ha|].
        eapply loop_inv_moves; [exact Hi1 | exact (after_moves Ha)].
    + (* FIELD_EMPTY *)
      apply wp_deref. apply wp_bind.
      eapply wp_mono.
      * apply field_rec_total; [lia | apply Hi1].
      * intros ta c2 Ha. cbv beta in Ha.
        apply Hcont; [apply Ha|].
        eapply loop_inv_moves; [exact Hi1 | exact (after_moves Ha)].
    + (* AND *)
      apply wp_bind.
      apply wp_is_operator_token_followed_by_operand; [reflexivity|].
      intros [|]; [|apply Hcont; [apply frame_refl | exact Hi1]].
      apply wp_bind. apply wp_parse_operator; [reflexivity|].
      intros ta c2 Hq. apply Hcont; [apply Hq | auto].
    + (* OR *)
      apply wp_bind.
      apply wp_is_operator_token_followed_by_operand; [reflexivity|].
      intros [|]; [|apply Hcont; [apply frame_refl | exact Hi1]].
      apply wp_bind. apply wp_parse_operator; [reflexivity|].
      intros ta c2 Hq. apply Hcont; [apply Hq | auto].
    + (* NOT *)
      apply wp_bind. apply wp_consume_consecutive_not_token.
      intros uneven l Hlen Heos.
      assert (R2 : reads c1 (with_lexer c1 l))
        by (apply reads_with_lexer; assumption).
      assert (Hi2 : loop_inv B n m (with_lexer c1 l))
        by (eapply loop_inv_moves; [exact Hi1 | apply reads_moves, R2]).
      destruct uneven; [|apply Hcont; [apply R2 | exact Hi2]].
      apply wp_bind.
      apply wp_is_operator_token_followed_by_operand; [reflexivity|].
      intros [|]; [|apply Hcont; [apply R2 | exact Hi2]].
      apply wp_bind. apply wp_get_implicit_and_if_necessary.
      intros ia c3 Hq3.
      apply wp_bind. apply wp_parse_operator; [reflexivity|].
      intros op c4 Hq4.
      assert (M4 : moves c1 c4 (0 + (0 + 0))).
      { eapply moves_trans; [apply reads_moves, R2|].
        eapply moves_trans; apply quiet_moves; eassumption. }
      apply Hcont; [apply M4|].
      eapply loop_inv_moves; [exact Hi1 | exact M4].
    + (* BRACKET_OPEN *)
      apply wp_bind. apply wp_parse_open_bracket. intros ta c2 Hq.
      apply wp_bind. apply wp_discard_consecutive_binary_operator_tokens.
      intros l Hlen Heos.
      assert (M3 : moves c1 (with_lexer c2 l) (1 + 0)).
      { eapply moves_trans; [apply quiet_moves, Hq|].
        apply reads_moves, reads_with_lexer; assumption. }
      apply Hcont; [apply M3|].
      eapply loop_inv_open; [exact Hi1 | exact M3].
    + (* BRACKET_CLOSE *)
      destruct (m <? n) eqn:Elt.
      * apply Z.ltb_lt in Elt.
        assert (Hc : 1 <= bracket_count (operator_stack c1)).
        { rewrite Es. eapply loop_inv_close_pre; eauto. }
        apply wp_bind. apply wp_parse_close_bracket; [apply Hi1 | exact Hc|].
        intros ta c2 Hq Hok2.
        assert (M2 : moves ctx c2 (0 + -1)).
        { eapply moves_trans; [apply reads_moves, R1 | apply quiet_moves, Hq]. }
        destruct (loop_inv_close Hi He Elt M2) as [Hi2 Hret].
        destruct (b && (uint32_incr m =? n)) eqn:Eb.
        -- apply andb_prop in Eb. destruct Eb as [_ Eb].
           apply Z.eqb_eq in Eb. apply wp_ret. apply Hret. exact Eb.
        -- apply Hcont; [apply Hq | exact Hi2].
      * apply wp_ret. split; [apply R1|]. right.
        rewrite Es. eapply loop_inv_bound; eauto.
Qed.

Lemma parse_field_body_total s b f ctx :
  (expression_budget ctx + 1 <= S fuel)%nat ->
  stack_ok (operator_stack ctx) = true ->
  wp (parse_field_body modifier_rec macros_rec s b f)
     (fun _ ctx' => after (bracket_count (operator_stack ctx)) ctx ctx') ctx.
Proof.
  intros Hb Hok. unfold parse_field_body. apply wp_bind.
  eapply wp_mono.
  { apply macros_rec_total. unfold expression_budget in Hb. lia. }
  intros res c1 [R1 L1]. cbv beta.
  assert (Hb1 : (expression_budget c1 <= fuel)%nat).
  { pose proof (expression_budget_frame (proj1 R1)). lia. }
  assert (Hok1 : stack_ok (operator_stack c1) = true) by (apply R1, Hok).
  assert (Hreads : forall c2,
             reads c1 c2 ->
             after (bracket_count (operator_stack ctx)) ctx c2).
  { intros c2 R2. apply moves_after; [|lia].
    apply reads_moves. eapply reads_trans; eauto. }
  assert (Hmod : forall flags,
             wp (modifier_rec b flags)
                (fun _ ctx' =>
                   after (bracket_count (operator_stack ctx)) ctx ctx') c1).
  { intros flags. eapply wp_mono; [apply modifier_rec_total; assumption|].
    intros r c2 Ha. cbv beta in Ha.
    rewrite (proj2 R1) in Ha.
    eapply after_frame; [apply R1 | exact Ha]. }
  destruct res as [|x res]; [|apply wp_ret, Hreads, reads_refl].
  destruct (lookup_modifier supported_modifiers s) as [[flag [|]]|].
  - apply Hmod.
  - apply Hmod.
  - destruct (lookup_function supported_functions s) as [parser|] eqn:El.
    + eapply wp_supported_function; [exact El|].
      intros r c2 R2. apply Hreads, R2.
    + apply wp_ret, Hreads, reads_refl.
Qed.

Lemma parse_modifier_body_total b f ctx :
  (expression_budget ctx <= S fuel)%nat ->
  stack_ok (operator_stack ctx) = true ->
  wp (parse_modifier_body loop_rec field_rec b f)
     (fun _ ctx' => after (bracket_count (operator_stack ctx)) ctx ctx') ctx.
Proof.
  intros Hb Hok. unfold parse_modifier_body.
  assert (Hreads : forall c2,
             reads ctx c2 ->
             after (bracket_count (operator_stack ctx)) ctx c2).
  { intros c2 R2. apply moves_after; [apply reads_moves, R2 | lia]. }
  destruct b; [apply wp_ret, Hreads, reads_refl|].
  apply wp_bind. apply wp_lexer_next.
  - intros He. apply wp_ret, Hreads.
    apply reads_with_lexer; auto.
  - intros t s rest E Ht.
    assert (R1 : reads ctx (with_lexer ctx rest)).
    { apply reads_with_lexer; [rewrite E; simpl; lia|].
      rewrite E, at_eos_cons by assumption. discriminate. }
    assert (Hb1 : (expression_budget (with_lexer ctx rest) + 2 <= fuel)%nat).
    { unfold expression_budget in *.
      rewrite (macro_budget_frame (proj1 R1)).
      ctx_simpl. rewrite E in Hb. simpl List.length in Hb. lia. }
    remember (with_lexer ctx rest) as c1 eqn:Ec1.
    assert (Es : operator_stack c1 = operator_stack ctx) by apply R1.
    assert (Hok1 : stack_ok (operator_stack c1) = true) by congruence.
    assert (Hfield : forall name e,
               wp (field_rec name e f)
                  (fun _ ctx' =>
                     after (bracket_count (operator_stack ctx)) ctx ctx') c1).
    { intros name e. eapply wp_mono.
      - apply field_rec_total; [lia | assumption].
      - intros r c2 Ha. cbv beta in Ha. rewrite Es in Ha.
        eapply after_frame; [apply R1 | exact Ha]. }
    destruct t; try (apply wp_ret, Hreads, R1).
    + apply wp_deref. apply Hfield.
    + apply wp_deref. apply Hfield.
    + apply wp_bind. apply wp_parse_open_bracket. intros res c2 Hq.
      apply wp_bind.
      apply wp_mono
        with (Q := fun _ ctx' =>
                     after (bracket_count (operator_stack ctx)) c2 ctx').
      * apply loop_rec_total.
        -- pose proof (expression_budget_frame (proj1 Hq)). lia.
        -- apply bracket_count_nonneg.
        -- destruct Hq as (Fq & Lq & Cq).
           repeat split; try lia; [apply Fq, Hok1|].
           right. exists 0. rewrite Es in Cq. lia.
      * intros expression c3 Ha. apply wp_ret.
        eapply after_frame; [|exact Ha].
        eapply frame_trans; [apply R1 | apply Hq].
Qed.

Lemma parse_filter_macros_body_total s f ctx :
  (macro_budget ctx <= S fuel)%nat ->
  wp (parse_filter_macros_body loop_rec s f)
     (fun _ ctx' => reads ctx ctx' /\ lexer ctx' = lexer ctx) ctx.
Proof.
  intros Hb. unfold parse_filter_macros_body. apply wp_get_ctx.
  assert (Hret : wp (ret (@nil FsearchQueryNode))
                    (fun _ ctx' => reads ctx ctx' /\ lexer ctx' = lexer ctx)
                    ctx)
    by (apply wp_ret; split; [apply reads_refl | reflexivity]).
  destruct (lookup_macro (macro_filters ctx) 0 s) as [[i filter]|] eqn:El;
    [|exact Hret].
  destruct (g_queue_find (macro_stack ctx) i) eqn:Ef; [exact Hret|].
  destruct (fsearch_string_is_empty (filter_query filter)); [exact Hret|].
  pose proof (macro_budget_enter ctx s El Ef) as Hlt.
  apply wp_bind. cbn [wp set_macro_stack].
  apply wp_bind. cbn [wp set_lexer].
  apply wp_bind. cbn [wp set_operator_stack].
  apply wp_bind.
  match goal with
  | |- wp _ _ ?c =>
      apply wp_mono with (Q := fun _ ctx' => after 0 c ctx')
  end.
  - apply loop_rec_total; [lia | lia |].
    repeat split; try lia. right. exists 0. cbn. lia.
  - intros res c3 ((F1 & F2 & F3 & F4 & F5) & _). ctx_simpl.
    cbn. unfold reads, frame. ctx_simpl. rewrite F1, F2. cbn.
    repeat split; auto.
Qed.

End Termination.

Section Totality.

Context {ext : External}.

Lemma parser_total (fuel : nat) :
  loop_total fuel (parse_expression_loop fuel)
  /\ field_total fuel (parse_field fuel)
  /\ modifier_total fuel (parse_modifier fuel)
  /\ macros_total fuel (parse_filter_macros fuel).
Proof.
  induction fuel as [|fuel (IHl & IHf & IHm & IHx)].
  - unfold loop_total, field_total, modifier_total, macros_total,
      expression_budget, macro_budget.
    repeat split; intros; lia.
  - repeat split.
    + intros b f r n m B ctx Hb HB Hi.
      apply (parse_expression_iteration_total IHl IHf); assumption.
    + intros s b f ctx Hb Hok.
      apply (parse_field_body_total IHm IHx); assumption.
    + intros b f ctx Hb Hok.
      apply (parse_modifier_body_total IHl IHf); assumption.
    + intros s f ctx Hb.
      apply (parse_filter_macros_body_total IHl); assumption.
Qed.

Lemma initial_context_inv filters input :
  loop_inv 0 0 0 (initial_context filters input).
Proof.
  unfold loop_inv. cbn. repeat split; try lia. right. exists 0. lia.
Qed.

(** A whole parse returns, and its result does not depend on how much
    budget beyond [expression_budget] it is given. *)
Lemma fsearch_query_parse_done filters flags input :
  exists nodes ctx',
    fsearch_query_parse filters flags input = Done (nodes, ctx')
    /\ after 0 (initial_context filters input) ctx'.
Proof.
  unfold fsearch_query_parse, fsearch_query_parser_parse_expression.
  apply wp_done
    with (Q := fun _ ctx' => after 0 (initial_context filters input) ctx').
  apply parser_total; [lia | lia | apply initial_context_inv].
Qed.

Lemma fsearch_query_parse_fuel filters flags input fuel :
  (expression_budget (initial_context filters input) <= fuel)%nat ->
  parse_expression_loop fuel false flags [] 0 0
    (initial_context filters input)
  = fsearch_query_parse filters flags input.
Proof.
  intros Hle.
  destruct (fsearch_query_parse_done filters flags input)
    as (nodes & ctx' & E & _).
  apply (parse_expression_loop_fuel false flags [] 0 0 Hle).
  unfold fsearch_query_parse, fsearch_query_parser_parse_expression in E.
  rewrite E. discriminate.
Qed.

(** Any budget that lets the loop return gives the result of the whole
    parse. *)
Lemma fsearch_query_parse_any_fuel filters flags input fuel r :
  parse_expression_loop fuel false flags [] 0 0
    (initial_context filters input) = Done r ->
  fsearch_query_parse filters flags input = Done r.
Proof.
  intros H.
  destruct (Nat.le_ge_cases fuel
              (expression_budget (initial_context filters input)))
    as [Hle|Hge].
  - unfold fsearch_query_parse, fsearch_query_parser_parse_expression.
    rewrite (parse_expression_loop_fuel false flags [] 0 0 Hle); [exact H|].
    rewrite H. discriminate.
  - rewrite <- (fsearch_query_parse_fuel filters flags input Hge). exact H.
Qed.

End Totality.

(** * The claims *)

(** ** The numeric range parser *)

(** C4, as the code has it: the word [..] splits into two empty parts, the
    first sets the start to 0, the second sets the end to [INT32_MAX] and the
    comparison to greater-or-equal; the parse does not fail. *)
Theorem numeric_range_only_separator
  (parse_value_func : FsearchQueryIntegerParserFunc)
  (new_node_func : FsearchQueryComparisonNewNodeFunc)
  (flags : FsearchQueryFlags) :
  parse_numeric_field_with_optional_range parse_value_func new_node_func
    ".." flags
  = new_node_func flags 0 INT32_MAX FSEARCH_QUERY_NODE_COMPARISON_GREATER_EQ.
Proof. reflexivity. Qed.

(** C4, as the specification states it, fails: for the depth function the
    word [..] does not give the match-nothing sentinel. *)
Lemma numeric_range_only_separator_not_nothing :
  parse_numeric_field_with_optional_range parse_integer
    fsearch_query_node_new_depth ".." 0
  <> fsearch_query_node_new_match_nothing.
Proof. discriminate. Qed.

(** C10: whenever the range parser hands equal start and end values to the
    node constructor, the comparison it hands over is [Equal], whatever the
    shape of the word was; the node is the constructor applied to these. *)
Theorem numeric_range_equal_bounds
  (parse_value_func : FsearchQueryIntegerParserFunc)
  (new_node_func : FsearchQueryComparisonNewNodeFunc)
  (str : string) (flags : FsearchQueryFlags)
  (start end1 : Z) (comp_type : FsearchQueryNodeComparison) :
  numeric_range_values parse_value_func str = Some (start, end1, comp_type) ->
  start = end1 ->
  comp_type = FSEARCH_QUERY_NODE_COMPARISON_EQUAL
  /\ parse_numeric_field_with_optional_range parse_value_func new_node_func
       str flags
     = new_node_func flags start start FSEARCH_QUERY_NODE_COMPARISON_EQUAL.
Proof.
  intros H Heq. subst end1.
  assert (Hc : comp_type = FSEARCH_QUERY_NODE_COMPARISON_EQUAL).
  { unfold numeric_range_values in H.
    destruct (g_strsplit str) as [|e0 tl]; [discriminate|].
    destruct (if fsearch_string_is_empty e0
              then Some (0, 0, FSEARCH_QUERY_NODE_COMPARISON_RANGE)
              else match parse_value_func e0 with
                   | Some (a, b) =>
                       Some (a, b, FSEARCH_QUERY_NODE_COMPARISON_RANGE)
                   | None => None
                   end) as [[[s0 e1] c0]|]; [|discriminate].
    destruct (match tl with
              | [] => Some (e1, c0)
              | e2 :: _ =>
                  if fsearch_string_is_empty e2
                  then Some (INT32_MAX,
                             FSEARCH_QUERY_NODE_COMPARISON_GREATER_EQ)
                  else match parse_value_func e2 with
                       | Some (_, b) =>
                           Some (b, FSEARCH_QUERY_NODE_COMPARISON_RANGE)
                       | None => None
                       end
              end) as [[e3 c1]|]; [|discriminate].
    inversion H; subst. now rewrite Z.eqb_refl. }
  split; [exact Hc|].
  unfold parse_numeric_field_with_optional_range. rewrite H, Hc. reflexivity.
Qed.

Lemma numeric_range_equal_bounds_witness :
  numeric_range_values parse_integer "..0"
  = Some (0, 0, FSEARCH_QUERY_NODE_COMPARISON_EQUAL)
  /\ parse_numeric_field_with_optional_range parse_integer
       fsearch_query_node_new_depth "..0" 7
     = fsearch_query_node_new_depth 7 0 0 FSEARCH_QUERY_NODE_COMPARISON_EQUAL.
Proof.
  split; [reflexivity|].
  apply (numeric_range_equal_bounds parse_integer
           fsearch_query_node_new_depth "..0" 7
           (start := 0) (end1 := 0)
           (comp_type := FSEARCH_QUERY_NODE_COMPARISON_EQUAL));
    reflexivity.
Defined.

(** The two open-ended shapes of C10. *)
Lemma numeric_range_open_start
  (parse_value_func : FsearchQueryIntegerParserFunc)
  (new_node_func : FsearchQueryComparisonNewNodeFunc)
  (flags : FsearchQueryFlags) (c : ascii) (b : string) (x : Z) :
  parse_value_func (String c b) = Some (x, 0) ->
  parse_numeric_field_with_optional_range parse_value_func new_node_func
    (".." ++ String c b) flags
  = new_node_func flags 0 0 FSEARCH_QUERY_NODE_COMPARISON_EQUAL.
Proof.
  intros H. unfold parse_numeric_field_with_optional_range,
    numeric_range_values.
  simpl. rewrite H. reflexivity.
Qed.

Lemma numeric_range_open_end
  (parse_value_func : FsearchQueryIntegerParserFunc)
  (new_node_func : FsearchQueryComparisonNewNodeFunc)
  (flags : FsearchQueryFlags) (str : string) (c : ascii) (a : string)
  (y : Z) :
  g_strsplit str = [String c a; ""] ->
  parse_value_func (String c a) = Some (INT32_MAX, y) ->
  parse_numeric_field_with_optional_range parse_value_func new_node_func
    str flags
  = new_node_func flags INT32_MAX INT32_MAX
      FSEARCH_QUERY_NODE_COMPARISON_EQUAL.
Proof.
  intros Hs H. unfold parse_numeric_field_with_optional_range,
    numeric_range_values.
  rewrite Hs. simpl. rewrite H. reflexivity.
Qed.

Example numeric_range_open_end_depth :
  parse_numeric_field_with_optional_range parse_integer
    fsearch_query_node_new_depth "2147483647.." 0
  = fsearch_query_node_new_depth 0 INT32_MAX INT32_MAX
      FSEARCH_QUERY_NODE_COMPARISON_EQUAL.
Proof. reflexivity. Qed.

(** ** The expression parser *)

Section Claims.

Context {ext : External}.

(** C1 at the query [a b (c)]: the open bracket prepends an implicit And
    once inside [parse_open_bracket] and, because that call returned the
    popped operator, once more in the statements after the switch.  The
    output has three operators for three leaves, and the stack evaluator
    runs out of values at the last one. *)
Theorem postfix_invalid_after_implicit_and_before_bracket
  (filters : list FsearchFilter) (flags : FsearchQueryFlags)
  (a b c s1 s2 : string) :
  let output :=
    [ fsearch_query_node_new a flags;
      fsearch_query_node_new b flags;
      fsearch_query_node_new_operator FSEARCH_QUERY_NODE_OPERATOR_AND;
      fsearch_query_node_new c flags;
      fsearch_query_node_new_operator FSEARCH_QUERY_NODE_OPERATOR_AND;
      fsearch_query_node_new_operator FSEARCH_QUERY_NODE_OPERATOR_AND ] in
  parsed_nodes
    (fsearch_query_parse filters flags
       [ (FSEARCH_QUERY_TOKEN_WORD, a);
         (FSEARCH_QUERY_TOKEN_WORD, b);
         (FSEARCH_QUERY_TOKEN_BRACKET_OPEN, s1);
         (FSEARCH_QUERY_TOKEN_WORD, c);
         (FSEARCH_QUERY_TOKEN_BRACKET_CLOSE, s2) ])
  = Some output
  /\ postfix_depth output 0 = None
  /\ well_formed_postfix output = false.
Proof.
  cbv zeta. split; [|split; reflexivity].
  erewrite fsearch_query_parse_any_fuel with (fuel := 6%nat);
    [|lazy; reflexivity].
  reflexivity.
Qed.

(** C2 at the query [a b )]: the abort path returns without the flush of
    the [out] label, and the implicit And pushed for [b] stays on the
    operator stack. *)
Theorem operator_stack_left_by_abort
  (filters : list FsearchFilter) (flags : FsearchQueryFlags)
  (a b s : string) :
  exists ctx',
    fsearch_query_parse filters flags
      [ (FSEARCH_QUERY_TOKEN_WORD, a);
        (FSEARCH_QUERY_TOKEN_WORD, b);
        (FSEARCH_QUERY_TOKEN_BRACKET_CLOSE, s) ]
    = Done (new_list fsearch_query_node_new_match_nothing, ctx')
    /\ operator_stack ctx' = [FSEARCH_QUERY_TOKEN_AND].
Proof.
  eexists. split.
  - apply fsearch_query_parse_any_fuel with (fuel := 3%nat).
    lazy. reflexivity.
  - reflexivity.
Qed.

(** C5: for every macro registry, self-referential or not, and every token
    stream, the parse returns a node list: the budget
    [expression_budget], which counts each filter of the registry once,
    is enough, and no assertion fails on the way. *)
Theorem parse_terminates
  (filters : list FsearchFilter) (flags : FsearchQueryFlags)
  (input : FsearchQueryLexer) :
  exists nodes ctx',
    fsearch_query_parse filters flags input = Done (nodes, ctx')
    /\ macro_stack ctx' = []
    /\ macro_filters ctx' = filters.
Proof.
  destruct (fsearch_query_parse_done filters flags input)
    as (nodes & ctx' & E & (F1 & F2 & _) & _).
  exists nodes, ctx'. auto.
Qed.

(** The cycle check behind C5: a filter that is on the macro stack is not
    expanded again, whatever its body. *)
Lemma macro_on_stack_rejected
  (fuel : nat) (name : string) (flags : FsearchQueryFlags)
  (ctx : FsearchQueryParseContext) (i : nat) (filter : FsearchFilter) :
  lookup_macro (macro_filters ctx) 0 name = Some (i, filter) ->
  g_queue_find (macro_stack ctx) i = true ->
  parse_filter_macros (S fuel) name flags ctx = Done ([], ctx).
Proof.
  intros Hl Hf. cbn [parse_filter_macros].
  unfold parse_filter_macros_body, bind, get_ctx. rewrite Hl, Hf.
  reflexivity.
Qed.

(** C9, as the code has it: where no macro is called [empty], the field
    [empty] yields the one node [ChildCount (flags, 0, 0, Equal)] and reads
    nothing: the context, and with it the rest of the token stream, is
    returned as it was. *)
Theorem empty_field_reads_nothing
  (fuel : nat) (is_empty_field : bool) (flags : FsearchQueryFlags)
  (ctx : FsearchQueryParseContext) :
  lookup_macro (macro_filters ctx) 0 "empty" = None ->
  parse_field (S (S fuel)) "empty" is_empty_field flags ctx
  = Done ([fsearch_query_node_new_childcount flags 0 0
             FSEARCH_QUERY_NODE_COMPARISON_EQUAL], ctx).
Proof.
  intros Hl. cbn [parse_field parse_filter_macros].
  unfold parse_field_body, parse_filter_macros_body, bind, get_ctx.
  rewrite Hl. reflexivity.
Qed.

End Claims.

Lemma empty_field_reads_nothing_witness :
  lookup_macro
    (macro_filters
       (initial_context [] [(FSEARCH_QUERY_TOKEN_WORD, "foo")]))
    0 "empty" = None
  /\ parse_field (ext := example_external) 2 "empty" false 0
       (initial_context [] [(FSEARCH_QUERY_TOKEN_WORD, "foo")])
     = Done ([fsearch_query_node_new_childcount 0 0 0
                FSEARCH_QUERY_NODE_COMPARISON_EQUAL],
             initial_context [] [(FSEARCH_QUERY_TOKEN_WORD, "foo")]).
Proof.
  split; [reflexivity|].
  apply (empty_field_reads_nothing (ext := example_external) 0 false 0
           (initial_context [] [(FSEARCH_QUERY_TOKEN_WORD, "foo")])).
  reflexivity.
Defined.

(** C9, as the specification states it, fails: the word after [empty:] is
    not ignored, it is parsed as the next operand and joined by an implicit
    And. *)
Lemma empty_field_argument_not_ignored :
  parsed_nodes
    (fsearch_query_parse (ext := example_external) [] 0
       [ (FSEARCH_QUERY_TOKEN_FIELD, "empty");
         (FSEARCH_QUERY_TOKEN_WORD, "foo") ])
  = Some [ fsearch_query_node_new_childcount 0 0 0
             FSEARCH_QUERY_NODE_COMPARISON_EQUAL;
           fsearch_query_node_new "foo" 0;
           fsearch_query_node_new_operator FSEARCH_QUERY_NODE_OPERATOR_AND ]
  /\ parsed_nodes
       (fsearch_query_parse (ext := example_external) [] 0
          [ (FSEARCH_QUERY_TOKEN_FIELD, "empty");
            (FSEARCH_QUERY_TOKEN_WORD, "foo") ])
     <> Some [ fsearch_query_node_new_childcount 0 0 0
                 FSEARCH_QUERY_NODE_COMPARISON_EQUAL ].
Proof. split; [reflexivity | discriminate]. Qed.

(** A registry whose only macro calls itself: the inner call is rejected
    and falls through to the match-nothing leaf. *)
Example self_referential_macro :
  parsed_nodes
    (fsearch_query_parse (ext := example_external)
       [ {| filter_macro := "loop";
            filter_query := "loop";
            filter_flags := 0 |} ]
       0 [ (FSEARCH_QUERY_TOKEN_FIELD_EMPTY, "loop") ])
  = Some [fsearch_query_node_new_match_nothing].
Proof. reflexivity. Qed.

(** ** Runs of NOT *)

Section NotParity.

Context {ext : External}.

Lemma consume_consecutive_not_token_loop_run nots : forall rest b,
  forallb is_not_token nots = true ->
  consume_consecutive_not_token_loop b (nots ++ rest)
  = consume_consecutive_not_token_loop
      (xorb b (Nat.odd (List.length nots))) rest.
Proof.
  induction nots as [|[t s] nots IH]; intros rest b H.
  - simpl. now rewrite xorb_false_r.
  - simpl in H. apply andb_prop in H. destruct H as [Ht H].
    destruct t; try discriminate Ht.
    cbn [app consume_consecutive_not_token_loop List.length].
    rewrite IH by assumption. rewrite Nat.odd_succ, <- Nat.negb_odd.
    now destruct b, (Nat.odd (List.length nots)).
Qed.

(** An iteration that reads a NOT depends on the tokens after it only
    through what the NOT-consuming loop makes of them. *)
Lemma parse_expression_iteration_not loop_rec field_rec b f r n m c
  s1 l1 s2 l2 :
  consume_consecutive_not_token_loop true l1
  = consume_consecutive_not_token_loop true l2 ->
  parse_expression_iteration loop_rec field_rec b f r n m
    (with_lexer c ((FSEARCH_QUERY_TOKEN_NOT, s1) :: l1))
  = parse_expression_iteration loop_rec field_rec b f r n m
      (with_lexer c ((FSEARCH_QUERY_TOKEN_NOT, s2) :: l2)).
Proof.
  intros H.
  unfold parse_expression_iteration, bind, lexer_next, get_ctx, set_lexer,
    consume_consecutive_not_token.
  cbn. unfold bind, get_ctx. cbn. rewrite H.
  destruct (consume_consecutive_not_token_loop true l2) as [uneven rest].
  reflexivity.
Qed.

Lemma parse_expression_loop_even_nots fuel b f r n m c nots rest x :
  forallb is_not_token nots = true ->
  Nat.even (List.length nots) = true ->
  parse_expression_loop fuel b f r n m (with_lexer c rest) = Done x ->
  parse_expression_loop (S fuel) b f r n m (with_lexer c (nots ++ rest))
  = Done x.
Proof.
  intros Hn He Hx.
  destruct nots as [|[t s] nots].
  - change ([] ++ rest) with rest. rewrite <- Hx.
    apply (proj1 (fuel_step fuel)). rewrite Hx. discriminate.
  - simpl in Hn. apply andb_prop in Hn. destruct Hn as [Ht Hn].
    destruct t; try discriminate Ht.
    cbn [List.length] in He. rewrite Nat.even_succ in He.
    assert (Hc : consume_consecutive_not_token_loop true (nots ++ rest)
                 = consume_consecutive_not_token_loop false rest).
    { rewrite consume_consecutive_not_token_loop_run by assumption.
      now rewrite He. }
    cbn [parse_expression_loop app].
    destruct rest as [|[t' s'] rest'].
    + unfold parse_expression_iteration, bind, lexer_next, get_ctx,
        set_lexer, consume_consecutive_not_token.
      cbn. unfold bind, get_ctx. cbn. rewrite Hc. cbn. exact Hx.
    + destruct t';
        try (unfold parse_expression_iteration, bind, lexer_next, get_ctx,
               set_lexer, consume_consecutive_not_token;
             cbn; unfold bind, get_ctx; cbn; rewrite Hc; cbn; exact Hx).
      rewrite (parse_expression_iteration_not _ _ b f r n m c
                 s (nots ++ (FSEARCH_QUERY_TOKEN_NOT, s') :: rest')
                 s' rest') by (rewrite Hc; reflexivity).
      destruct fuel as [|fuel]; [discriminate Hx|].
      cbn [parse_expression_loop] in Hx.
      rewrite <- Hx.
      apply parse_expression_iteration_refines; try apply fuel_step.
      rewrite Hx. discriminate.
Qed.

(** C7: a run of [2k] NOT tokens in front of anything parses as that thing
    alone, and a run of [2k + 1] parses as a single NOT in front of it. *)
Theorem not_parity
  (filters : list FsearchFilter) (flags : FsearchQueryFlags)
  (k : nat) (s : string) (rest : FsearchQueryLexer) :
  fsearch_query_parse filters flags
    (repeat (FSEARCH_QUERY_TOKEN_NOT, s) (2 * k) ++ rest)
  = fsearch_query_parse filters flags rest
  /\ fsearch_query_parse filters flags
       (repeat (FSEARCH_QUERY_TOKEN_NOT, s) (2 * k + 1) ++ rest)
     = fsearch_query_parse filters flags ((FSEARCH_QUERY_TOKEN_NOT, s) :: rest).
Proof.
  assert (Hall : forall j,
             forallb is_not_token (repeat (FSEARCH_QUERY_TOKEN_NOT, s) j)
             = true)
    by (induction j; simpl; auto).
  assert (Heven : Nat.even
                    (List.length (repeat (FSEARCH_QUERY_TOKEN_NOT, s) (2 * k)))
                  = true).
  { rewrite repeat_length. rewrite Nat.even_mul. reflexivity. }
  split.
  - destruct (fsearch_query_parse_done filters flags rest)
      as (nodes & ctx' & E & _).
    rewrite E.
    apply fsearch_query_parse_any_fuel
      with (fuel := S (expression_budget (initial_context filters rest))).
    apply (parse_expression_loop_even_nots _ false flags [] 0 0
             (initial_context filters rest) _ rest (Hall _) Heven).
    exact E.
  - destruct (fsearch_query_parse_done filters flags
                ((FSEARCH_QUERY_TOKEN_NOT, s) :: rest))
      as (nodes & ctx' & E & _).
    rewrite E.
    unfold fsearch_query_parse, fsearch_query_parser_parse_expression in E.
    remember (expression_budget
                (initial_context filters
                   ((FSEARCH_QUERY_TOKEN_NOT, s) :: rest))) as fuel eqn:Ef.
    destruct fuel as [|fuel]; [discriminate E|].
    apply fsearch_query_parse_any_fuel with (fuel := S fuel).
    rewrite <- E. cbn [parse_expression_loop].
    replace (2 * k + 1)%nat with (S (2 * k)) by lia.
    cbn [repeat app].
    apply (parse_expression_iteration_not _ _ false flags [] 0 0
             (initial_context filters rest)).
    rewrite consume_consecutive_not_token_loop_run by apply Hall.
    rewrite <- Nat.negb_even, Heven. reflexivity.
Qed.

End NotParity.

(** ** Implicit and explicit And *)

Section ImplicitAnd.

Context {ext : External}.

Lemma parse_operator_run token ctx :
  is_operator_token token = true ->
  parse_operator token ctx = Done (parse_operator_effect token ctx).
Proof.
  intros H. unfold parse_operator, parse_operator_effect, bind, g_assert,
    get_ctx.
  rewrite H. cbn.
  destruct (parse_operator_loop token [] (operator_stack ctx)).
  reflexivity.
Qed.

Lemma get_implicit_and_if_necessary_run last next_token ctx :
  get_implicit_and_if_necessary last next_token ctx
  = Done (implicit_and_effect last next_token ctx).
Proof.
  unfold get_implicit_and_if_necessary, implicit_and_effect.
  destruct (is_operand_token last
            || token_eqb last FSEARCH_QUERY_TOKEN_BRACKET_CLOSE);
    [|reflexivity].
  destruct (is_operand_token next_token
            || token_eqb next_token FSEARCH_QUERY_TOKEN_BRACKET_OPEN
            || token_eqb next_token FSEARCH_QUERY_TOKEN_NOT);
    [|reflexivity].
  apply parse_operator_run. reflexivity.
Qed.

Lemma is_operator_token_followed_by_operand_run op_token ctx :
  is_operator_token op_token = true ->
  is_operator_token_followed_by_operand op_token ctx
  = Done (starts_operand op_token
            (fsearch_query_lexer_peek_next_token (lexer ctx)), ctx).
Proof.
  intros H.
  unfold is_operator_token_followed_by_operand, bind, g_assert, lexer_peek,
    get_ctx, starts_operand.
  rewrite H. cbn.
  destruct (is_binary_operator_token op_token
            && token_eqb (fsearch_query_lexer_peek_next_token (lexer ctx))
                 FSEARCH_QUERY_TOKEN_NOT); reflexivity.
Qed.

(** One iteration on a word. *)
Lemma parse_expression_loop_word fuel b f r n m c a rest :
  lexer c = (FSEARCH_QUERY_TOKEN_WORD, a) :: rest ->
  parse_expression_loop (S fuel) b f r n m c
  = let '(implicit_and, c1) :=
      implicit_and_effect (last_token c) FSEARCH_QUERY_TOKEN_WORD
        (with_lexer c rest) in
    parse_expression_loop fuel b f
      ((r ++ implicit_and) ++ [fsearch_query_node_new a f]) n m
      (with_last_token c1 FSEARCH_QUERY_TOKEN_WORD).
Proof.
  intros E. destruct c as [lx st ms mf last]. cbn in E. subst lx.
  cbn [parse_expression_loop].
  unfold parse_expression_iteration, next_iteration, bind, lexer_next,
    get_ctx.
  cbn. unfold bind. rewrite get_implicit_and_if_necessary_run.
  match goal with
  | |- context [implicit_and_effect ?l ?t ?x] =>
      destruct (implicit_and_effect l t x)
  end.
  reflexivity.
Qed.

(** One iteration on an explicit And that a word follows. *)
Lemma parse_expression_loop_and_word fuel b f r n m c s a rest :
  lexer c
  = (FSEARCH_QUERY_TOKEN_AND, s) :: (FSEARCH_QUERY_TOKEN_WORD, a) :: rest ->
  parse_expression_loop (S fuel) b f r n m c
  = let '(popped, c1) :=
      parse_operator_effect FSEARCH_QUERY_TOKEN_AND
        (with_lexer c ((FSEARCH_QUERY_TOKEN_WORD, a) :: rest)) in
    match popped with
    | [] => parse_expression_loop fuel b f r n m c1
    | _ :: _ =>
        parse_expression_loop fuel b f ((r ++ []) ++ popped) n m
          (with_last_token c1 FSEARCH_QUERY_TOKEN_AND)
    end.
Proof.
  intros E. destruct c as [lx st ms mf last]. cbn in E. subst lx.
  cbn [parse_expression_loop].
  unfold parse_expression_iteration, next_iteration, bind, lexer_next,
    get_ctx, is_operator_token_followed_by_operand, lexer_peek.
  cbn -[parse_operator get_implicit_and_if_necessary].
  unfold bind, get_ctx.
  cbn -[parse_operator get_implicit_and_if_necessary].
  rewrite parse_operator_run by reflexivity.
  match goal with
  | |- context [parse_operator_effect ?t ?x] =>
      destruct (parse_operator_effect t x) as [popped c1]
  end.
  destruct popped as [|x popped]; [reflexivity|].
  rewrite get_implicit_and_if_necessary_run.
  unfold implicit_and_effect. cbn [is_operand_token token_eqb orb].
  rewrite andb_false_r. reflexivity.
Qed.

(** From any state of the main loop, two adjacent words and the same two
    words with an explicit And between them lead to the same state and the
    same output: the implicit And goes through [parse_operator] like the
    explicit one and pops the same operators. *)
Lemma parse_expression_loop_implicit_and fuel b f r n m c a b' s rest :
  parse_expression_loop (S (S fuel)) b f r n m
    (with_lexer c
       ((FSEARCH_QUERY_TOKEN_WORD, a) :: (FSEARCH_QUERY_TOKEN_WORD, b')
        :: rest))
  = parse_expression_loop (S (S (S fuel))) b f r n m
      (with_lexer c
         ((FSEARCH_QUERY_TOKEN_WORD, a) :: (FSEARCH_QUERY_TOKEN_AND, s)
          :: (FSEARCH_QUERY_TOKEN_WORD, b') :: rest)).
Proof.
  destruct c as [lx st ms mf last].
  rewrite (parse_expression_loop_word (S fuel) b f r n m _
             (a := a) (rest := (FSEARCH_QUERY_TOKEN_WORD, b') :: rest))
    by reflexivity.
  rewrite (parse_expression_loop_word (S (S fuel)) b f r n m _
             (a := a)
             (rest := (FSEARCH_QUERY_TOKEN_AND, s)
                      :: (FSEARCH_QUERY_TOKEN_WORD, b') :: rest))
    by reflexivity.
  unfold implicit_and_effect, parse_operator_effect.
  cbn [last_token with_lexer operator_stack lexer macro_stack macro_filters
       is_operand_token token_eqb orb andb].
  rewrite andb_true_r.
  assert (Hstep : forall r1 st1,
    parse_expression_loop (S fuel) b f r1 n m
      {| lexer := (FSEARCH_QUERY_TOKEN_WORD, b') :: rest;
         operator_stack := st1; macro_stack := ms; macro_filters := mf;
         last_token := FSEARCH_QUERY_TOKEN_WORD |}
    = parse_expression_loop (S (S fuel)) b f r1 n m
        {| lexer := (FSEARCH_QUERY_TOKEN_AND, s)
                    :: (FSEARCH_QUERY_TOKEN_WORD, b') :: rest;
           operator_stack := st1; macro_stack := ms; macro_filters := mf;
           last_token := FSEARCH_QUERY_TOKEN_WORD |}).
  { intros r1 st1.
    rewrite (parse_expression_loop_word fuel b f r1 n m _
               (a := b') (rest := rest)) by reflexivity.
    rewrite (parse_expression_loop_and_word (S fuel) b f r1 n m _
               (s := s) (a := b') (rest := rest)) by reflexivity.
    unfold implicit_and_effect, parse_operator_effect.
    cbn [last_token with_lexer operator_stack lexer macro_stack
         macro_filters is_operand_token token_eqb orb andb].
    destruct (parse_operator_loop FSEARCH_QUERY_TOKEN_AND [] st1)
      as [popped st2].
    destruct popped as [|x popped].
    - rewrite (parse_expression_loop_word fuel b f r1 n m _
                 (a := b') (rest := rest)) by reflexivity.
      reflexivity.
    - rewrite (parse_expression_loop_word fuel b f _ n m _
                 (a := b') (rest := rest)) by reflexivity.
      cbn. rewrite !app_nil_r. reflexivity. }
  destruct (is_operand_token last
            || token_eqb last FSEARCH_QUERY_TOKEN_BRACKET_CLOSE).
  - destruct (parse_operator_loop FSEARCH_QUERY_TOKEN_AND [] st)
      as [popped st1].
    apply Hstep.
  - apply Hstep.
Qed.

(** C8: two adjacent words and the same two words joined by an explicit
    And are parsed alike.  From any state of the main loop, whatever the
    operator stack holds, both streams lead to the same output and the same
    context (the explicit And costs one iteration more): the implicit And
    goes through [parse_operator] like the explicit one and pops the same
    operators.  So do two whole queries that begin with the two words,
    whatever follows them. *)
Theorem implicit_and_is_explicit_and :
  (forall (fuel : nat) (in_open_bracket : bool) (flags : FsearchQueryFlags)
          (res : list FsearchQueryNode)
          (num_open_brackets num_close_brackets : Z)
          (ctx : FsearchQueryParseContext) (a b s : string)
          (rest : FsearchQueryLexer),
      parse_expression_loop (S (S fuel)) in_open_bracket flags res
        num_open_brackets num_close_brackets
        (with_lexer ctx
           ((FSEARCH_QUERY_TOKEN_WORD, a) :: (FSEARCH_QUERY_TOKEN_WORD, b)
            :: rest))
      = parse_expression_loop (S (S (S fuel))) in_open_bracket flags res
          num_open_brackets num_close_brackets
          (with_lexer ctx
             ((FSEARCH_QUERY_TOKEN_WORD, a) :: (FSEARCH_QUERY_TOKEN_AND, s)
              :: (FSEARCH_QUERY_TOKEN_WORD, b) :: rest)))
  /\ (forall (last next_token : FsearchQueryToken)
             (ctx : FsearchQueryParseContext),
         and_trigger last = true ->
         is_operand_token next_token
         || token_eqb next_token FSEARCH_QUERY_TOKEN_BRACKET_OPEN
         || token_eqb next_token FSEARCH_QUERY_TOKEN_NOT = true ->
         get_implicit_and_if_necessary last next_token ctx
         = parse_operator FSEARCH_QUERY_TOKEN_AND ctx)
  /\ (forall (filters : list FsearchFilter) (flags : FsearchQueryFlags)
             (a b s : string) (rest : FsearchQueryLexer),
         fsearch_query_parse filters flags
           ((FSEARCH_QUERY_TOKEN_WORD, a) :: (FSEARCH_QUERY_TOKEN_WORD, b)
            :: rest)
         = fsearch_query_parse filters flags
             ((FSEARCH_QUERY_TOKEN_WORD, a) :: (FSEARCH_QUERY_TOKEN_AND, s)
              :: (FSEARCH_QUERY_TOKEN_WORD, b) :: rest)).
Proof.
  split; [|split].
  - intros. apply parse_expression_loop_implicit_and.
  - intros last next_token ctx Hl Hn.
    unfold get_implicit_and_if_necessary.
    unfold and_trigger in Hl. rewrite Hl, Hn. reflexivity.
  - intros filters flags a b s rest.
    destruct (fsearch_query_parse_done filters flags
                ((FSEARCH_QUERY_TOKEN_WORD, a)
                 :: (FSEARCH_QUERY_TOKEN_WORD, b) :: rest))
      as (nodes & ctx' & E & _).
    rewrite E. symmetry.
    unfold fsearch_query_parse, fsearch_query_parser_parse_expression in E.
    remember (expression_budget
                (initial_context filters
                   ((FSEARCH_QUERY_TOKEN_WORD, a)
                    :: (FSEARCH_QUERY_TOKEN_WORD, b) :: rest)))
      as fuel eqn:Ef.
    assert (Hfuel : (2 <= fuel)%nat).
    { subst fuel. unfold expression_budget. cbn [lexer initial_context].
      simpl List.length. lia. }
    destruct fuel as [|[|fuel]]; try lia.
    apply fsearch_query_parse_any_fuel with (fuel := S (S (S fuel))).
    rewrite <- E.
    symmetry.
    apply (parse_expression_loop_implicit_and fuel false flags [] 0 0
             (initial_context filters [])).
Qed.

End ImplicitAnd.

Lemma implicit_and_is_explicit_and_witness :
  parse_expression_loop (ext := example_external) 3 false 0 [] 0 0
    {| lexer := [ (FSEARCH_QUERY_TOKEN_WORD, "a");
                  (FSEARCH_QUERY_TOKEN_WORD, "b") ];
       operator_stack := [ FSEARCH_QUERY_TOKEN_NOT ];
       macro_stack := [];
       macro_filters := [];
       last_token := FSEARCH_QUERY_TOKEN_NOT |}
  = parse_expression_loop (ext := example_external) 4 false 0 [] 0 0
      {| lexer := [ (FSEARCH_QUERY_TOKEN_WORD, "a");
                    (FSEARCH_QUERY_TOKEN_AND, "AND");
                    (FSEARCH_QUERY_TOKEN_WORD, "b") ];
         operator_stack := [ FSEARCH_QUERY_TOKEN_NOT ];
         macro_stack := [];
         macro_filters := [];
         last_token := FSEARCH_QUERY_TOKEN_NOT |}
  /\ parse_expression_loop (ext := example_external) 3 false 0 [] 0 0
       {| lexer := [ (FSEARCH_QUERY_TOKEN_WORD, "a");
                     (FSEARCH_QUERY_TOKEN_WORD, "b") ];
          operator_stack := [ FSEARCH_QUERY_TOKEN_NOT ];
          macro_stack := [];
          macro_filters := [];
          last_token := FSEARCH_QUERY_TOKEN_NOT |}
     = Done ([ fsearch_query_node_new "a" 0;
               fsearch_query_node_new_operator
                 FSEARCH_QUERY_NODE_OPERATOR_NOT;
               fsearch_query_node_new "b" 0;
               fsearch_query_node_new_operator
                 FSEARCH_QUERY_NODE_OPERATOR_AND ],
             {| lexer := [];
                operator_stack := [];
                macro_stack := [];
                macro_filters := [];
                last_token := FSEARCH_QUERY_TOKEN_WORD |})
  /\ and_trigger FSEARCH_QUERY_TOKEN_WORD = true
  /\ get_implicit_and_if_necessary FSEARCH_QUERY_TOKEN_WORD
       FSEARCH_QUERY_TOKEN_WORD
       {| lexer := [ (FSEARCH_QUERY_TOKEN_WORD, "b") ];
          operator_stack := [ FSEARCH_QUERY_TOKEN_NOT ];
          macro_stack := [];
          macro_filters := [];
          last_token := FSEARCH_QUERY_TOKEN_WORD |}
     = parse_operator FSEARCH_QUERY_TOKEN_AND
         {| lexer := [ (FSEARCH_QUERY_TOKEN_WORD, "b") ];
            operator_stack := [ FSEARCH_QUERY_TOKEN_NOT ];
            macro_stack := [];
            macro_filters := [];
            last_token := FSEARCH_QUERY_TOKEN_WORD |}.
Proof.
  split; [|split; [reflexivity|split; [reflexivity|]]].
  - apply (proj1 (implicit_and_is_explicit_and (ext := example_external))
             1%nat false 0 [] 0 0
             {| lexer := [];
                operator_stack := [ FSEARCH_QUERY_TOKEN_NOT ];
                macro_stack := [];
                macro_filters := [];
                last_token := FSEARCH_QUERY_TOKEN_NOT |}
             "a" "b" "AND" []).
  - apply (proj1 (proj2 (implicit_and_is_explicit_and
                           (ext := example_external))));
      reflexivity.
Defined.

(** ** Unbalanced closing brackets *)

Lemma excess_close_at_eos open l : at_eos l = true -> excess_close open l = false.
Proof.
  destruct l as [|[t s] l]; [reflexivity|].
  destruct t; try discriminate. reflexivity.
Qed.

Lemma consume_consecutive_not_token_loop_suffix l : forall b open,
  excess_close open (snd (consume_consecutive_not_token_loop b l))
  = excess_close open l
  /\ (no_field_token l = true ->
      no_field_token (snd (consume_consecutive_not_token_loop b l)) = true).
Proof.
  induction l as [|[t s] l IH]; intros b open; [auto|].
  destruct t; try (split; [reflexivity | auto]).
  cbn [consume_consecutive_not_token_loop excess_close].
  destruct (IH (negb b) open) as [H1 H2]. split; [exact H1|].
  intros H. apply H2. simpl in H. exact H.
Qed.

Lemma discard_consecutive_binary_operator_tokens_loop_suffix l : forall open,
  excess_close open (discard_consecutive_binary_operator_tokens_loop l)
  = excess_close open l
  /\ (no_field_token l = true ->
      no_field_token (discard_consecutive_binary_operator_tokens_loop l)
      = true).
Proof.
  induction l as [|[t s] l IH]; intros open; [auto|].
  destruct t; try (split; [reflexivity | auto]);
    cbn [discard_consecutive_binary_operator_tokens_loop excess_close
         is_binary_operator_token token_eqb orb];
    (destruct (IH open) as [H1 H2]; split; [exact H1|]);
    intros H; apply H2; simpl in H; exact H.
Qed.

Section EmptyFields.

Context {ext : External}.

(** A macro expansion gives the lexer and the operator stack back. *)
Lemma parse_filter_macros_restores fuel name flags ctx res ctx' :
  parse_filter_macros fuel name flags ctx = Done (res, ctx') ->
  lexer ctx' = lexer ctx /\ operator_stack ctx' = operator_stack ctx.
Proof.
  destruct fuel as [|fuel]; [discriminate|].
  cbn [parse_filter_macros].
  unfold parse_filter_macros_body, bind, get_ctx.
  destruct (lookup_macro (macro_filters ctx) 0 name) as [[i filter]|];
    [|intros H; inversion H; auto].
  destruct (g_queue_find (macro_stack ctx) i);
    [intros H; inversion H; auto|].
  destruct (fsearch_string_is_empty (filter_query filter));
    [intros H; inversion H; auto|].
  cbn.
  match goal with
  | |- context [parse_expression_loop ?f ?b ?fl ?r ?n ?m ?c] =>
      destruct (parse_expression_loop f b fl r n m c) as [[res' c3]| |]
  end; try discriminate.
  cbn. intros H. inversion H; subst. auto.
Qed.

Lemma supported_function_empty_field field_name parser flags ctx :
  lookup_function supported_functions field_name = Some parser ->
  exists nodes, parser true flags ctx = Done (nodes, ctx).
Proof.
  intros Hlook. unfold supported_functions in Hlook. simpl in Hlook.
  repeat match type of Hlook with
         | (if ?b then _ else _) = _ => destruct b
         end;
    inversion Hlook; subst parser; eexists; reflexivity.
Qed.

(** An empty field reads no token and leaves the operator stack alone. *)
Lemma parse_field_empty_restores fuel name flags ctx res ctx' :
  parse_field fuel name true flags ctx = Done (res, ctx') ->
  lexer ctx' = lexer ctx /\ operator_stack ctx' = operator_stack ctx.
Proof.
  destruct fuel as [|fuel]; [discriminate|].
  cbn [parse_field]. unfold parse_field_body, bind.
  destruct (parse_filter_macros fuel name flags ctx) as [[r1 c1]| |] eqn:Em;
    try discriminate.
  apply parse_filter_macros_restores in Em. destruct Em as [El Es].
  assert (Hmod : forall fl,
             parse_modifier fuel true fl c1 = Done (res, ctx') ->
             lexer ctx' = lexer ctx /\ operator_stack ctx' = operator_stack ctx).
  { intros fl. destruct fuel as [|fuel']; [discriminate|].
    cbn. intros H. inversion H; subst. auto. }
  destruct r1 as [|x r1]; [|intros H; inversion H; subst; auto].
  destruct (lookup_modifier supported_modifiers name) as [[flag [|]]|];
    try apply Hmod.
  destruct (lookup_function supported_functions name) as [parser|] eqn:Ef.
  - destruct (supported_function_empty_field name flags c1 Ef) as [nodes E].
    rewrite E. intros H. inversion H; subst. auto.
  - intros H. inversion H; subst. auto.
Qed.

End EmptyFields.

Section BracketDrop.

Context {ext : External}.

Lemma close_inv_quiet open n m c c' :
  close_inv open n m c -> quiet c c' 0 -> close_inv open n m c'.
Proof.
  intros (Hok & Hn & Hm & Hk & Hc) ((F1 & F2 & F3 & F4 & F5) & L & C).
  repeat split; auto; try lia.
Qed.

Lemma close_inv_open open n m c c' :
  close_inv open n m c -> quiet c c' 1 ->
  close_inv (S open) (uint32_incr n) m c'.
Proof.
  intros (Hok & Hn & Hm & (k & Hk) & Hc) ((F1 & F2 & F3 & F4 & F5) & L & C).
  destruct (uint32_incr_cases Hn) as [[E Hlt]|[E Hmax]]; rewrite E;
    repeat split; auto; try lia.
  - exists k. lia.
  - exists (k + 1). lia.
Qed.

Lemma close_inv_close open n m c :
  close_inv open n m c ->
  m < n ->
  exists open',
    open = S open'
    /\ 1 <= bracket_count (operator_stack c)
    /\ forall c',
         quiet c c' (-1) ->
         stack_ok (operator_stack c') = true ->
         close_inv open' n (uint32_incr m) c'.
Proof.
  intros (Hok & Hn & Hm & (k & Hk) & Hc) Hlt.
  destruct open as [|open']; [lia|].
  exists open'. split; [reflexivity|]. split; [lia|].
  intros c' ((F1 & F2 & F3 & F4 & F5) & L & C) Hok'.
  destruct (uint32_incr_cases Hm) as [[E Hle]|[E Hmax]]; [|lia].
  rewrite E. repeat split; auto; try lia.
  exists k. lia.
Qed.

Lemma quiet_refl c : quiet c c 0.
Proof. split; [apply frame_refl | split; [reflexivity | lia]]. Qed.

Lemma quiet_trans c1 c2 c3 d1 d2 :
  quiet c1 c2 d1 -> quiet c2 c3 d2 -> quiet c1 c3 (d1 + d2).
Proof.
  intros (F1 & L1 & C1) (F2 & L2 & C2).
  split; [eapply frame_trans; eauto | split; [congruence | lia]].
Qed.

Lemma quiet_with_last_token c t : quiet c (with_last_token c t) 0.
Proof.
  unfold quiet, frame. ctx_simpl. repeat split; auto. lia.
Qed.

Lemma wp_consume_consecutive_not_token_exact (Q : bool -> _ -> Prop) ctx :
  Q (fst (consume_consecutive_not_token_loop true (lexer ctx)))
    (with_lexer ctx
       (snd (consume_consecutive_not_token_loop true (lexer ctx)))) ->
  wp consume_consecutive_not_token Q ctx.
Proof.
  unfold wp, consume_consecutive_not_token, bind, get_ctx.
  destruct (consume_consecutive_not_token_loop true (lexer ctx)). auto.
Qed.

Lemma expression_budget_with_lexer c l :
  (List.length l <= List.length (lexer c))%nat ->
  (expression_budget (with_lexer c l) <= expression_budget c)%nat.
Proof. intros H. unfold expression_budget, macro_budget. ctx_simpl. lia. Qed.

Lemma expression_budget_token c t s rest :
  lexer c = (t, s) :: rest ->
  (expression_budget (with_lexer c rest) + 3 = expression_budget c)%nat.
Proof.
  intros E. unfold expression_budget, macro_budget. ctx_simpl.
  rewrite E. simpl List.length. lia.
Qed.

Lemma close_inv_with_lexer open n m c l :
  close_inv open n m c -> close_inv open n m (with_lexer c l).
Proof. auto. Qed.

End BracketDrop.

(** ** Flags of sibling constructs *)

Lemma same_suffix_app r1 r2 x o1 o2 :
  same_suffix (r1 ++ x) (r2 ++ x) o1 o2 -> same_suffix r1 r2 o1 o2.
Proof.
  intros [(t & -> & ->)|H]; [left|right; exact H].
  exists (x ++ t). now rewrite !app_assoc.
Qed.

Lemma suffix_related_bind {A : Type} r1 r2 (m : M A) k1 k2 :
  (forall a, suffix_related r1 r2 (k1 a) (k2 a)) ->
  suffix_related r1 r2 (bind m k1) (bind m k2).
Proof.
  intros Hk ctx o1 ctx'. unfold bind.
  destruct (m ctx) as [[a c1]| |]; try discriminate. apply Hk.
Qed.

Lemma suffix_related_ret r1 r2 t :
  suffix_related r1 r2 (ret (r1 ++ t)) (ret (r2 ++ t)).
Proof.
  intros ctx o1 ctx' H. inversion H; subst.
  eexists. split; [reflexivity|]. left. eauto.
Qed.

Lemma suffix_related_nothing r1 r2 :
  suffix_related r1 r2
    (ret (new_list fsearch_query_node_new_match_nothing))
    (ret (new_list fsearch_query_node_new_match_nothing)).
Proof.
  intros ctx o1 ctx' H. inversion H; subst.
  eexists. split; [reflexivity|]. right. auto.
Qed.

Lemma flush_operator_stack_app stack : forall r,
  flush_operator_stack r stack = r ++ flush_operator_stack [] stack.
Proof.
  induction stack as [|t stack IH]; intros r; simpl.
  - now rewrite app_nil_r.
  - rewrite IH.
    rewrite (IH (append_to_list_if_nonnull []
                   (get_operator_node_for_query_token t))).
    destruct (get_operator_node_for_query_token t); simpl;
      [now rewrite <- app_assoc | reflexivity].
Qed.

Section Siblings.

Context {ext : External}.

Variable loop_rec :
  bool -> FsearchQueryFlags -> list FsearchQueryNode -> Z -> Z ->
  M (list FsearchQueryNode).
Variable field_rec :
  string -> bool -> FsearchQueryFlags -> M (list FsearchQueryNode).

Hypothesis loop_rec_suffix :
  forall b f r1 r2 n m, suffix_related r1 r2 (loop_rec b f r1 n m)
                          (loop_rec b f r2 n m).

Lemma next_iteration_suffix b f r1 r2 last t ta skip n m :
  suffix_related r1 r2
    (next_iteration loop_rec b f r1 last t ta skip n m)
    (next_iteration loop_rec b f r2 last t ta skip n m).
Proof.
  unfold next_iteration.
  destruct ta as [|x ta].
  - intros ctx o1 ctx' H. cbn in H |- *. apply loop_rec_suffix. exact H.
  - intros ctx o1 ctx'. unfold bind.
    destruct ((if skip
               then ret []
               else get_implicit_and_if_necessary last t) ctx)
      as [[ia c1]| |]; try discriminate.
    cbn. intros H.
    destruct (@loop_rec_suffix b f ((r1 ++ ia) ++ x :: ta)
                ((r2 ++ ia) ++ x :: ta) n m _ _ _ H) as (o2 & E & Hs).
    exists o2. split; [exact E|].
    rewrite <- !app_assoc in Hs. eapply same_suffix_app. exact Hs.
Qed.

Lemma parse_expression_iteration_suffix b f r1 r2 n m :
  suffix_related r1 r2
    (parse_expression_iteration loop_rec field_rec b f r1 n m)
    (parse_expression_iteration loop_rec field_rec b f r2 n m).
Proof.
  unfold parse_expression_iteration.
  apply suffix_related_bind. intros [token token_value].
  apply suffix_related_bind. intros ctx0.
  destruct token;
    repeat first
      [ apply next_iteration_suffix
      | apply suffix_related_nothing
      | apply suffix_related_ret
      | apply suffix_related_bind; intros ?
      | match goal with
        | |- suffix_related _ _ (if ?b then _ else _) _ => destruct b
        end ].
  (* EOS: the flush *)
  rewrite (flush_operator_stack_app _ r1), (flush_operator_stack_app _ r2).
  apply suffix_related_ret.
Qed.

End Siblings.

Section SiblingsFuel.

Context {ext : External}.

(** The accumulated list is only ever appended to, or dropped whole. *)
Lemma parse_expression_loop_suffix fuel : forall b f r1 r2 n m,
  suffix_related r1 r2 (parse_expression_loop fuel b f r1 n m)
                 (parse_expression_loop fuel b f r2 n m).
Proof.
  induction fuel as [|fuel IH]; intros b f r1 r2 n m.
  - intros ctx o1 ctx' H. discriminate H.
  - cbn [parse_expression_loop].
    apply parse_expression_iteration_suffix. exact IH.
Qed.

End SiblingsFuel.

Lemma and_trigger_canon t : and_trigger (canon t) = and_trigger t.
Proof. destruct t; reflexivity. Qed.

Lemma canon_idem t : canon (canon t) = canon t.
Proof. destruct t; reflexivity. Qed.

Lemma norm_idem ctx : norm (norm ctx) = norm ctx.
Proof. unfold norm. cbn. now rewrite canon_idem. Qed.

Lemma respects_ret {A : Type} (a : A) : respects (ret a).
Proof. intros ctx. cbn. now rewrite norm_idem. Qed.

Lemma respects_abort {A : Type} : respects (@abort A).
Proof. intros ctx. reflexivity. Qed.

Lemma respects_timeout {A : Type} : respects (@timeout A).
Proof. intros ctx. reflexivity. Qed.

Lemma respects_bind {A B : Type} (m : M A) (k : A -> M B) :
  respects m -> (forall a, respects (k a)) -> respects (bind m k).
Proof.
  intros Hm Hk ctx. unfold bind. specialize (Hm ctx).
  destruct (m ctx) as [[a c1]| |], (m (norm ctx)) as [[a' c1']| |];
    try discriminate Hm; try reflexivity.
  cbn [lift_norm] in Hm.
  assert (Ha : a = a') by congruence.
  assert (Hc : norm c1 = norm c1') by congruence.
  subst a'. rewrite (Hk a c1), (Hk a c1'). now rewrite Hc.
Qed.

Lemma respects_get_ctx {B : Type} (k : FsearchQueryParseContext -> M B) :
  (forall c, respects (k c)) ->
  (forall c c0, k c c0 = k (norm c) c0) ->
  respects (bind get_ctx k).
Proof.
  intros Hk Heq ctx. unfold bind, get_ctx.
  rewrite (Hk ctx ctx). now rewrite Heq.
Qed.

Lemma respects_set_lexer l : respects (set_lexer l).
Proof.
  intros ctx. unfold lift_norm, norm. cbn. now rewrite canon_idem.
Qed.

Lemma respects_set_operator_stack s : respects (set_operator_stack s).
Proof.
  intros ctx. unfold lift_norm, norm. cbn. now rewrite canon_idem.
Qed.

Lemma respects_set_macro_stack s : respects (set_macro_stack s).
Proof.
  intros ctx. unfold lift_norm, norm. cbn. now rewrite canon_idem.
Qed.

Lemma respects_set_last_token t : respects (set_last_token t).
Proof. intros ctx. reflexivity. Qed.

Lemma get_implicit_and_if_necessary_canon last next_token :
  get_implicit_and_if_necessary (canon last) next_token
  = get_implicit_and_if_necessary last next_token.
Proof.
  unfold get_implicit_and_if_necessary.
  change (is_operand_token (canon last)
          || token_eqb (canon last) FSEARCH_QUERY_TOKEN_BRACKET_CLOSE)
    with (and_trigger (canon last)).
  now rewrite and_trigger_canon.
Qed.

Ltac respects_pointwise :=
  unfold norm; ctx_simpl; cbv zeta;
  rewrite ?get_implicit_and_if_necessary_canon;
  reflexivity.

Ltac respects_step :=
  match goal with
  | |- respects (ret _) => apply respects_ret
  | |- respects abort => apply respects_abort
  | |- respects timeout => apply respects_timeout
  | |- respects (set_lexer _) => apply respects_set_lexer
  | |- respects (set_operator_stack _) => apply respects_set_operator_stack
  | |- respects (set_macro_stack _) => apply respects_set_macro_stack
  | |- respects (set_last_token _) => apply respects_set_last_token
  | H : context [respects _] |- respects _ => solve [apply H]
  | |- respects (bind get_ctx _) =>
      apply respects_get_ctx; [intros ? | intros ? ?; respects_pointwise]
  | |- respects (bind _ _) => apply respects_bind; [|intros ?]
  | |- respects (match ?x with _ => _ end) => destruct x
  | |- respects (let _ := _ in _) => cbv zeta
  end.

Lemma respects_lexer_next : respects lexer_next.
Proof. unfold lexer_next. repeat respects_step. Qed.

Lemma respects_lexer_peek : respects lexer_peek.
Proof. unfold lexer_peek. repeat respects_step. Qed.

Lemma respects_deref v : respects (deref v).
Proof. unfold deref. repeat respects_step. Qed.

Lemma respects_expect_word : respects expect_word.
Proof.
  unfold expect_word. apply respects_bind; [apply respects_lexer_next|].
  intros ?. repeat respects_step.
Qed.

Lemma respects_g_assert b : respects (g_assert b).
Proof. unfold g_assert. repeat respects_step. Qed.

Lemma respects_parse_operator token : respects (parse_operator token).
Proof.
  unfold parse_operator.
  apply respects_bind; [apply respects_g_assert|]. intros ?.
  repeat respects_step.
Qed.

Lemma respects_get_implicit_and_if_necessary last next_token :
  respects (get_implicit_and_if_necessary last next_token).
Proof.
  unfold get_implicit_and_if_necessary.
  repeat first [apply respects_parse_operator | respects_step].
Qed.

Lemma respects_is_operator_token_followed_by_operand token :
  respects (is_operator_token_followed_by_operand token).
Proof.
  unfold is_operator_token_followed_by_operand.
  apply respects_bind; [apply respects_g_assert|]. intros ?.
  apply respects_bind; [apply respects_lexer_peek|]. intros ?.
  repeat respects_step.
Qed.

Lemma respects_consume_consecutive_not_token :
  respects consume_consecutive_not_token.
Proof. unfold consume_consecutive_not_token. repeat respects_step. Qed.

Lemma respects_discard_consecutive_binary_operator_tokens :
  respects discard_consecutive_binary_operator_tokens.
Proof.
  unfold discard_consecutive_binary_operator_tokens. repeat respects_step.
Qed.

Lemma respects_parse_close_bracket : respects parse_close_bracket.
Proof. unfold parse_close_bracket. repeat respects_step. Qed.

Lemma respects_parse_open_bracket : respects parse_open_bracket.
Proof.
  unfold parse_open_bracket.
  apply respects_get_ctx; [intros c | intros c c0; respects_pointwise].
  apply respects_bind; [apply respects_get_implicit_and_if_necessary|].
  intros ?. repeat respects_step.
Qed.

Section RespectsBodies.

Context {ext : External}.

Lemma respects_parse_numeric_function is_empty_field flags new_node_func
  parse_value_func :
  respects (parse_numeric_function is_empty_field flags new_node_func
              parse_value_func).
Proof.
  unfold parse_numeric_function.
  repeat first [ apply respects_lexer_next
               | apply respects_expect_word
               | apply respects_deref
               | respects_step ].
Qed.

Lemma respects_supported_function field_name parser is_empty_field flags :
  lookup_function supported_functions field_name = Some parser ->
  respects (parser is_empty_field flags).
Proof.
  intros Hlook. unfold supported_functions in Hlook. simpl in Hlook.
  repeat match type of Hlook with
         | (if ?b then _ else _) = _ => destruct b
         end;
    inversion Hlook; subst parser;
    try apply respects_parse_numeric_function;
    unfold parse_function_contenttype, parse_function_empty,
      parse_function_extension, parse_function_parent;
    repeat first [ apply respects_expect_word
                 | apply respects_deref
                 | respects_step ].
Qed.

Variable loop_rec :
  bool -> FsearchQueryFlags -> list FsearchQueryNode -> Z -> Z ->
  M (list FsearchQueryNode).
Variable field_rec :
  string -> bool -> FsearchQueryFlags -> M (list FsearchQueryNode).
Variable modifier_rec :
  bool -> FsearchQueryFlags -> M (list FsearchQueryNode).
Variable macros_rec :
  string -> FsearchQueryFlags -> M (list FsearchQueryNode).

Hypothesis loop_rec_respects : forall b f r n m, respects (loop_rec b f r n m).
Hypothesis field_rec_respects : forall s b f, respects (field_rec s b f).
Hypothesis modifier_rec_respects : forall b f, respects (modifier_rec b f).
Hypothesis macros_rec_respects : forall s f, respects (macros_rec s f).

Lemma respects_next_iteration b f r last t ta skip n m :
  respects (next_iteration loop_rec b f r last t ta skip n m).
Proof.
  unfold next_iteration.
  repeat first [ apply respects_get_implicit_and_if_necessary
               | respects_step ].
Qed.

Lemma respects_parse_expression_iteration b f r n m :
  respects (parse_expression_iteration loop_rec field_rec b f r n m).
Proof.
  unfold parse_expression_iteration.
  apply respects_bind; [apply respects_lexer_next|].
  intros [token token_value].
  apply respects_get_ctx;
    [intros c | intros c c0; unfold next_iteration; respects_pointwise].
  cbv zeta.
  destruct token;
    repeat first [ apply respects_next_iteration
                 | apply respects_get_implicit_and_if_necessary
                 | apply respects_parse_operator
                 | apply respects_is_operator_token_followed_by_operand
                 | apply respects_consume_consecutive_not_token
                 | apply respects_discard_consecutive_binary_operator_tokens
                 | apply respects_parse_open_bracket
                 | apply respects_parse_close_bracket
                 | apply respects_deref
                 | respects_step ].
Qed.

Lemma respects_parse_field_body s b f :
  respects (parse_field_body modifier_rec macros_rec s b f).
Proof.
  unfold parse_field_body.
  apply respects_bind; [apply macros_rec_respects|]. intros res.
  destruct res as [|x res]; [|apply respects_ret].
  destruct (lookup_modifier supported_modifiers s) as [[flag [|]]|];
    try apply modifier_rec_respects.
  destruct (lookup_function supported_functions s) as [parser|] eqn:El.
  - eapply respects_supported_function. exact El.
  - apply respects_ret.
Qed.

Lemma respects_parse_modifier_body b f :
  respects (parse_modifier_body loop_rec field_rec b f).
Proof.
  unfold parse_modifier_body.
  destruct b; [apply respects_ret|].
  apply respects_bind; [apply respects_lexer_next|].
  intros [token token_value].
  destruct token;
    repeat first [ apply respects_parse_open_bracket
                 | apply respects_deref
                 | respects_step ].
Qed.

Lemma respects_parse_filter_macros_body s f :
  respects (parse_filter_macros_body loop_rec s f).
Proof.
  unfold parse_filter_macros_body.
  repeat respects_step.
Qed.

End RespectsBodies.

Section RespectsFuel.

Context {ext : External}.

Lemma parser_respects (fuel : nat) :
  (forall b f r n m, respects (parse_expression_loop fuel b f r n m))
  /\ (forall s b f, respects (parse_field fuel s b f))
  /\ (forall b f, respects (parse_modifier fuel b f))
  /\ (forall s f, respects (parse_filter_macros fuel s f)).
Proof.
  induction fuel as [|fuel (IHl & IHf & IHm & IHx)].
  - repeat split; intros; apply respects_timeout.
  - repeat split; intros.
    + apply respects_parse_expression_iteration; assumption.
    + apply respects_parse_field_body; assumption.
    + apply respects_parse_modifier_body; assumption.
    + apply respects_parse_filter_macros_body; assumption.
Qed.

End RespectsFuel.

Section SiblingFlags.

Context {ext : External}.

(** One iteration on a field that yields nodes. *)
Lemma parse_expression_loop_field fuel b f r n m c is_empty_field name rest
  x ns c1 :
  lexer c = (field_token is_empty_field, name) :: rest ->
  parse_field fuel name is_empty_field f (with_lexer c rest)
  = Done (x :: ns, c1) ->
  parse_expression_loop (S fuel) b f r n m c
  = let '(implicit_and, c2) :=
      implicit_and_effect (last_token c) (field_token is_empty_field) c1 in
    parse_expression_loop fuel b f ((r ++ implicit_and) ++ x :: ns) n m
      (with_last_token c2 (field_token is_empty_field)).
Proof.
  intros E Hf. destruct c as [lx st ms mf last]. cbn in E. subst lx.
  cbn [parse_expression_loop].
  unfold parse_expression_iteration, next_iteration, bind, lexer_next,
    get_ctx.
  destruct is_empty_field; cbn -[parse_field get_implicit_and_if_necessary];
    cbn in Hf; unfold bind; rewrite Hf;
    rewrite get_implicit_and_if_necessary_run;
    match goal with
    | |- context [implicit_and_effect ?l ?t ?y] =>
        destruct (implicit_and_effect l t y)
    end; reflexivity.
Qed.

(** From any state of the main loop: where a field yields the nodes
    [x :: ns] and leaves the stacks as they were, the loop goes on as it does
    after a plain word, under the same flags, and appends the same nodes. *)
Lemma parse_expression_loop_field_as_word fuel b f r n m c is_empty_field
  name rest w x ns ctx1 o1 c1' :
  parse_field fuel name is_empty_field f (with_lexer c rest)
  = Done (x :: ns, ctx1) ->
  operator_stack ctx1 = operator_stack c ->
  macro_stack ctx1 = macro_stack c ->
  macro_filters ctx1 = macro_filters c ->
  parse_expression_loop (S fuel) b f r n m
    (with_lexer c ((field_token is_empty_field, name) :: rest))
  = Done (o1, c1') ->
  let pre :=
    r ++ fst (implicit_and_effect (last_token c) FSEARCH_QUERY_TOKEN_WORD
                (with_lexer c (lexer ctx1))) in
  exists o2 c2',
    parse_expression_loop (S fuel) b f r n m
      (with_lexer c ((FSEARCH_QUERY_TOKEN_WORD, w) :: lexer ctx1))
    = Done (o2, c2')
    /\ norm c2' = norm c1'
    /\ ((exists tail,
            o1 = (pre ++ x :: ns) ++ tail
            /\ o2 = (pre ++ [fsearch_query_node_new w f]) ++ tail)
        \/ (o1 = [fsearch_query_node_new_match_nothing]
            /\ o2 = [fsearch_query_node_new_match_nothing])).
Proof.
  intros Hf Hst Hms Hmf E1 pre.
  rewrite (parse_expression_loop_field fuel b f r n m
             (with_lexer c ((field_token is_empty_field, name) :: rest))
             is_empty_field (name := name) (rest := rest) eq_refl Hf) in E1.
  rewrite (parse_expression_loop_word fuel b f r n m
             (with_lexer c ((FSEARCH_QUERY_TOKEN_WORD, w) :: lexer ctx1))
             (a := w) (rest := lexer ctx1) eq_refl).
  destruct c as [lx st ms mf last].
  destruct ctx1 as [l1 st1 ms1 mf1 lt1].
  cbn in Hst, Hms, Hmf. subst st1 ms1 mf1.
  subst pre. unfold with_lexer in *. ctx_simpl.
  assert (Hsame :
    exists ia cA cB,
      implicit_and_effect last (field_token is_empty_field)
        {| lexer := l1; operator_stack := st; macro_stack := ms;
           macro_filters := mf; last_token := lt1 |} = (ia, cA)
      /\ implicit_and_effect last FSEARCH_QUERY_TOKEN_WORD
           {| lexer := l1; operator_stack := st; macro_stack := ms;
              macro_filters := mf; last_token := last |} = (ia, cB)
      /\ norm (with_last_token cA (field_token is_empty_field))
         = norm (with_last_token cB FSEARCH_QUERY_TOKEN_WORD)).
  { unfold implicit_and_effect, parse_operator_effect. ctx_simpl.
    destruct (is_operand_token last
              || token_eqb last FSEARCH_QUERY_TOKEN_BRACKET_CLOSE);
      destruct is_empty_field; cbn [field_token is_operand_token orb andb];
      try (destruct (parse_operator_loop FSEARCH_QUERY_TOKEN_AND [] st));
      eexists _, _, _; repeat split; reflexivity. }
  destruct Hsame as (ia & cA & cB & EA & EB & Hnorm).
  rewrite EA in E1. rewrite EB. cbn [fst].
  destruct (parser_respects fuel) as (Hresp & _).
  pose proof (Hresp b f ((r ++ ia) ++ x :: ns) n m
                (with_last_token cA (field_token is_empty_field))) as HA.
  pose proof (Hresp b f ((r ++ ia) ++ x :: ns) n m
                (with_last_token cB FSEARCH_QUERY_TOKEN_WORD)) as HB.
  rewrite E1, Hnorm, <- HB in HA. cbn [lift_norm] in HA.
  destruct (parse_expression_loop fuel b f ((r ++ ia) ++ x :: ns) n m
              (with_last_token cB FSEARCH_QUERY_TOKEN_WORD))
    as [[o cB']| |] eqn:EB'; try discriminate HA.
  cbn [lift_norm] in HA.
  assert (o = o1) by congruence. subst o.
  assert (Hn : norm cB' = norm c1') by congruence.
  destruct (parse_expression_loop_suffix fuel b f ((r ++ ia) ++ x :: ns)
              ((r ++ ia) ++ [fsearch_query_node_new w f]) n m _ EB')
    as (o2 & E2 & Hs).
  exists o2, cB'. split; [exact E2|]. split; [exact Hn | exact Hs].
Qed.

(** A field at the head of a query: let its own parse, whatever it does to
    its copy of the flags, yield the nodes [ns] and leave the operator stack
    empty.  Then the rest of the postfix list is the one that follows a
    plain word parsed under the caller's flags. *)
Lemma field_at_head_as_word
  (filters : list FsearchFilter) (flags : FsearchQueryFlags)
  (is_empty_field : bool) (name x : string) (rest : FsearchQueryLexer)
  (fuel : nat) (ns : list FsearchQueryNode) (ctx1 : FsearchQueryParseContext) :
  parse_field fuel name is_empty_field flags (initial_context filters rest)
  = Done (ns, ctx1) ->
  ns <> [] ->
  operator_stack ctx1 = [] ->
  exists o1 o2,
    parsed_nodes
      (fsearch_query_parse filters flags
         ((field_token is_empty_field, name) :: rest)) = Some o1
    /\ parsed_nodes
         (fsearch_query_parse filters flags
            ((FSEARCH_QUERY_TOKEN_WORD, x) :: lexer ctx1)) = Some o2
    /\ ((exists tail,
            o1 = ns ++ tail
            /\ o2 = fsearch_query_node_new x flags :: tail)
        \/ (o1 = [fsearch_query_node_new_match_nothing]
            /\ o2 = [fsearch_query_node_new_match_nothing])).
Proof.
  intros Hf Hns Hst.
  set (input1 := (field_token is_empty_field, name) :: rest).
  set (F := Nat.max fuel (expression_budget (initial_context filters input1))).
  assert (HF1 : (fuel <= F)%nat) by apply Nat.le_max_l.
  assert (HF2 : (expression_budget (initial_context filters input1) <= F)%nat)
    by apply Nat.le_max_r.
  (* the field's parse at the larger budget, and what it leaves *)
  assert (Hf' : parse_field F name is_empty_field flags
                  (initial_context filters rest) = Done (ns, ctx1)).
  { rewrite <- Hf. apply (parse_field_fuel name is_empty_field flags HF1).
    rewrite Hf. discriminate. }
  assert (Hframe : frame (initial_context filters rest) ctx1).
  { destruct (parser_total F) as (_ & Hfield & _).
    assert (Hw := Hfield name is_empty_field flags
                    (initial_context filters rest)).
    unfold wp in Hw. rewrite Hf' in Hw. apply Hw; [|reflexivity].
    pose proof (expression_budget_token (initial_context filters input1)
                  (t := field_token is_empty_field) (s := name)
                  (rest := rest) eq_refl) as Hb.
    change (with_lexer (initial_context filters input1) rest)
      with (initial_context filters rest) in Hb.
    lia. }
  destruct Hframe as (Hmf & Hms & _).
  destruct ns as [|n0 ns]; [now elim Hns|].
  (* the whole parse, one iteration unfolded *)
  destruct (fsearch_query_parse_done filters flags input1)
    as (o1 & c1' & E1 & _).
  pose proof E1 as E1'.
  rewrite <- (fsearch_query_parse_fuel filters flags input1 (fuel := S F))
    in E1' by lia.
  destruct (parse_expression_loop_field_as_word F false flags [] 0 0
              (initial_context filters []) is_empty_field name rest x
              Hf' Hst Hms Hmf E1')
    as (o2 & c2' & E2 & _ & Hs).
  exists o1, o2. rewrite E1. split; [reflexivity|].
  rewrite (fsearch_query_parse_any_fuel filters flags
             ((FSEARCH_QUERY_TOKEN_WORD, x) :: lexer ctx1) (S F) E2).
  split; [reflexivity | exact Hs].
Qed.

(** C6: flags are arguments of the parser functions, never part of the
    context, so what a field does to its copy stays inside the field.  From
    any state [ctx] of the main loop, under flags [flags]: let the field
    [name] with the tokens [rest] after it yield the nodes [x :: ns] and
    leave the context [ctx1], whatever it did to its flags on the way (a
    modifier adds or removes a bit, a macro ors its bits in).  Then the loop
    goes on from there as it does after a plain word [w] parsed under
    [flags] in the state the field left: both runs end in the same context,
    up to the [last_token] test, and put the same nodes behind the field's
    nodes and behind the word.  No node of a sibling sees the change. *)
Theorem sibling_flags_isolated
  (fuel : nat) (in_open_bracket : bool) (flags : FsearchQueryFlags)
  (res : list FsearchQueryNode) (num_open_brackets num_close_brackets : Z)
  (ctx : FsearchQueryParseContext) (is_empty_field : bool)
  (name w : string) (rest : FsearchQueryLexer)
  (x : FsearchQueryNode) (ns : list FsearchQueryNode)
  (ctx1 : FsearchQueryParseContext)
  (o1 : list FsearchQueryNode) (ctx1' : FsearchQueryParseContext) :
  parse_field fuel name is_empty_field flags (with_lexer ctx rest)
  = Done (x :: ns, ctx1) ->
  parse_expression_loop (S fuel) in_open_bracket flags res
    num_open_brackets num_close_brackets
    (with_lexer ctx ((field_token is_empty_field, name) :: rest))
  = Done (o1, ctx1') ->
  let pre :=
    res ++ fst (implicit_and_effect (last_token ctx) FSEARCH_QUERY_TOKEN_WORD
                  ctx1) in
  exists o2 ctx2',
    parse_expression_loop (S fuel) in_open_bracket flags res
      num_open_brackets num_close_brackets
      (with_last_token
         (with_lexer ctx1 ((FSEARCH_QUERY_TOKEN_WORD, w) :: lexer ctx1))
         (last_token ctx))
    = Done (o2, ctx2')
    /\ norm ctx2' = norm ctx1'
    /\ ((exists tail,
            o1 = (pre ++ x :: ns) ++ tail
            /\ o2 = (pre ++ [fsearch_query_node_new w flags]) ++ tail)
        \/ (o1 = [fsearch_query_node_new_match_nothing]
            /\ o2 = [fsearch_query_node_new_match_nothing])).
Proof.
  intros Hf E1 pre.
  rewrite (parse_expression_loop_field fuel in_open_bracket flags res
             num_open_brackets num_close_brackets
             (with_lexer ctx ((field_token is_empty_field, name) :: rest))
             is_empty_field (name := name) (rest := rest) eq_refl Hf) in E1.
  rewrite (parse_expression_loop_word fuel in_open_bracket flags res
             num_open_brackets num_close_brackets
             (with_last_token
                (with_lexer ctx1
                   ((FSEARCH_QUERY_TOKEN_WORD, w) :: lexer ctx1))
                (last_token ctx))
             (a := w) (rest := lexer ctx1) eq_refl).
  destruct ctx as [lx st ms mf last].
  destruct ctx1 as [l1 st1 ms1 mf1 lt1].
  subst pre. unfold with_lexer, with_last_token in *. ctx_simpl.
  assert (Hsame :
    exists ia cA cB,
      implicit_and_effect last (field_token is_empty_field)
        {| lexer := l1; operator_stack := st1; macro_stack := ms1;
           macro_filters := mf1; last_token := lt1 |} = (ia, cA)
      /\ implicit_and_effect last FSEARCH_QUERY_TOKEN_WORD
           {| lexer := l1; operator_stack := st1; macro_stack := ms1;
              macro_filters := mf1; last_token := last |} = (ia, cB)
      /\ implicit_and_effect last FSEARCH_QUERY_TOKEN_WORD
           {| lexer := l1; operator_stack := st1; macro_stack := ms1;
              macro_filters := mf1; last_token := lt1 |} = (ia, cA)
      /\ norm (with_last_token cA (field_token is_empty_field))
         = norm (with_last_token cB FSEARCH_QUERY_TOKEN_WORD)).
  { unfold implicit_and_effect, parse_operator_effect. ctx_simpl.
    destruct (is_operand_token last
              || token_eqb last FSEARCH_QUERY_TOKEN_BRACKET_CLOSE);
      destruct is_empty_field; cbn [field_token is_operand_token orb andb];
      try (destruct (parse_operator_loop FSEARCH_QUERY_TOKEN_AND [] st1));
      eexists _, _, _; repeat split; reflexivity. }
  destruct Hsame as (ia & cA & cB & EA & EB & EC & Hnorm).
  rewrite EA in E1. rewrite EB, EC. cbn [fst].
  destruct (parser_respects fuel) as (Hresp & _).
  pose proof (Hresp in_open_bracket flags ((res ++ ia) ++ x :: ns)
                num_open_brackets num_close_brackets
                (with_last_token cA (field_token is_empty_field))) as HA.
  pose proof (Hresp in_open_bracket flags ((res ++ ia) ++ x :: ns)
                num_open_brackets num_close_brackets
                (with_last_token cB FSEARCH_QUERY_TOKEN_WORD)) as HB.
  unfold with_last_token in HA, HB. rewrite E1 in HA.
  unfold with_last_token in Hnorm. rewrite Hnorm, <- HB in HA.
  cbn [lift_norm] in HA.
  match type of HA with
  | _ = lift_norm ?run => destruct run as [[o cB']| |] eqn:EB'
  end; try discriminate HA.
  cbn [lift_norm] in HA.
  assert (o = o1) by congruence. subst o.
  assert (Hn : norm cB' = norm ctx1') by congruence.
  destruct (parse_expression_loop_suffix fuel in_open_bracket flags
              ((res ++ ia) ++ x :: ns)
              ((res ++ ia) ++ [fsearch_query_node_new w flags])
              num_open_brackets num_close_brackets _ EB')
    as (o2 & E2 & Hs).
  exists o2, cB'. split; [exact E2|]. split; [exact Hn | exact Hs].
Qed.

End SiblingFlags.

Example field_at_head_as_word_example :
  parse_field (ext := example_external) 3 "case" false 0
    (initial_context []
       [ (FSEARCH_QUERY_TOKEN_WORD, "Foo");
         (FSEARCH_QUERY_TOKEN_FIELD, "nocase");
         (FSEARCH_QUERY_TOKEN_WORD, "bar") ])
  = Done ([fsearch_query_node_new "Foo" 1],
          initial_context []
            [ (FSEARCH_QUERY_TOKEN_FIELD, "nocase");
              (FSEARCH_QUERY_TOKEN_WORD, "bar") ])
  /\ exists o1 o2,
       parsed_nodes
         (fsearch_query_parse (ext := example_external) [] 0
            [ (FSEARCH_QUERY_TOKEN_FIELD, "case");
              (FSEARCH_QUERY_TOKEN_WORD, "Foo");
              (FSEARCH_QUERY_TOKEN_FIELD, "nocase");
              (FSEARCH_QUERY_TOKEN_WORD, "bar") ]) = Some o1
       /\ parsed_nodes
            (fsearch_query_parse (ext := example_external) [] 0
               [ (FSEARCH_QUERY_TOKEN_WORD, "Foo");
                 (FSEARCH_QUERY_TOKEN_FIELD, "nocase");
                 (FSEARCH_QUERY_TOKEN_WORD, "bar") ]) = Some o2
       /\ ((exists tail,
               o1 = [fsearch_query_node_new "Foo" 1] ++ tail
               /\ o2 = fsearch_query_node_new "Foo" 0 :: tail)
           \/ (o1 = [fsearch_query_node_new_match_nothing]
               /\ o2 = [fsearch_query_node_new_match_nothing])).
Proof.
  split; [reflexivity|].
  apply (field_at_head_as_word (ext := example_external) [] 0 false
           "case" "Foo"
           [ (FSEARCH_QUERY_TOKEN_WORD, "Foo");
             (FSEARCH_QUERY_TOKEN_FIELD, "nocase");
             (FSEARCH_QUERY_TOKEN_WORD, "bar") ]
           3
           (ns := [fsearch_query_node_new "Foo" 1])
           (ctx1 := initial_context []
                      [ (FSEARCH_QUERY_TOKEN_FIELD, "nocase");
                        (FSEARCH_QUERY_TOKEN_WORD, "bar") ]));
    [reflexivity | discriminate | reflexivity].
Qed.

Lemma sibling_flags_isolated_witness :
  parse_field (ext := example_external) 3 "case" false 0
    {| lexer := [ (FSEARCH_QUERY_TOKEN_WORD, "Foo");
                  (FSEARCH_QUERY_TOKEN_WORD, "bar") ];
       operator_stack := [ FSEARCH_QUERY_TOKEN_OR ];
       macro_stack := [];
       macro_filters := [];
       last_token := FSEARCH_QUERY_TOKEN_WORD |}
  = Done ([ fsearch_query_node_new "Foo" 1 ],
          {| lexer := [ (FSEARCH_QUERY_TOKEN_WORD, "bar") ];
             operator_stack := [ FSEARCH_QUERY_TOKEN_OR ];
             macro_stack := [];
             macro_filters := [];
             last_token := FSEARCH_QUERY_TOKEN_WORD |})
  /\ parse_expression_loop (ext := example_external) 4 false 0
       [ fsearch_query_node_new "x" 0; fsearch_query_node_new "y" 0 ] 0 0
       {| lexer := [ (FSEARCH_QUERY_TOKEN_FIELD, "case");
                     (FSEARCH_QUERY_TOKEN_WORD, "Foo");
                     (FSEARCH_QUERY_TOKEN_WORD, "bar") ];
          operator_stack := [ FSEARCH_QUERY_TOKEN_OR ];
          macro_stack := [];
          macro_filters := [];
          last_token := FSEARCH_QUERY_TOKEN_WORD |}
     = Done ([ fsearch_query_node_new "x" 0;
               fsearch_query_node_new "y" 0;
               fsearch_query_node_new "Foo" 1;
               fsearch_query_node_new_operator
                 FSEARCH_QUERY_NODE_OPERATOR_AND;
               fsearch_query_node_new "bar" 0;
               fsearch_query_node_new_operator
                 FSEARCH_QUERY_NODE_OPERATOR_AND;
               fsearch_query_node_new_operator
                 FSEARCH_QUERY_NODE_OPERATOR_OR ],
             {| lexer := [];
                operator_stack := [];
                macro_stack := [];
                macro_filters := [];
                last_token := FSEARCH_QUERY_TOKEN_WORD |})
  /\ exists o2 ctx2',
       parse_expression_loop (ext := example_external) 4 false 0
         [ fsearch_query_node_new "x" 0; fsearch_query_node_new "y" 0 ] 0 0
         {| lexer := [ (FSEARCH_QUERY_TOKEN_WORD, "w");
                       (FSEARCH_QUERY_TOKEN_WORD, "bar") ];
            operator_stack := [ FSEARCH_QUERY_TOKEN_OR ];
            macro_stack := [];
            macro_filters := [];
            last_token := FSEARCH_QUERY_TOKEN_WORD |}
       = Done (o2, ctx2')
       /\ norm ctx2'
          = norm {| lexer := [];
                    operator_stack := [];
                    macro_stack := [];
                    macro_filters := [];
                    last_token := FSEARCH_QUERY_TOKEN_WORD |}
       /\ ((exists tail,
               [ fsearch_query_node_new "x" 0;
                 fsearch_query_node_new "y" 0;
                 fsearch_query_node_new "Foo" 1;
                 fsearch_query_node_new_operator
                   FSEARCH_QUERY_NODE_OPERATOR_AND;
                 fsearch_query_node_new "bar" 0;
                 fsearch_query_node_new_operator
                   FSEARCH_QUERY_NODE_OPERATOR_AND;
                 fsearch_query_node_new_operator
                   FSEARCH_QUERY_NODE_OPERATOR_OR ]
               = ([ fsearch_query_node_new "x" 0;
                    fsearch_query_node_new "y" 0 ]
                  ++ [ fsearch_query_node_new "Foo" 1 ]) ++ tail
               /\ o2
                  = ([ fsearch_query_node_new "x" 0;
                       fsearch_query_node_new "y" 0 ]
                     ++ [ fsearch_query_node_new "w" 0 ]) ++ tail)
           \/ ([ fsearch_query_node_new "x" 0;
                 fsearch_query_node_new "y" 0;
                 fsearch_query_node_new "Foo" 1;
                 fsearch_query_node_new_operator
                   FSEARCH_QUERY_NODE_OPERATOR_AND;
                 fsearch_query_node_new "bar" 0;
                 fsearch_query_node_new_operator
                   FSEARCH_QUERY_NODE_OPERATOR_AND;
                 fsearch_query_node_new_operator
                   FSEARCH_QUERY_NODE_OPERATOR_OR ]
               = [ fsearch_query_node_new_match_nothing ]
               /\ o2 = [ fsearch_query_node_new_match_nothing ])).
Proof.
  split; [reflexivity|]. split; [reflexivity|].
  apply (@sibling_flags_isolated example_external 3 false 0
           [ fsearch_query_node_new "x" 0; fsearch_query_node_new "y" 0 ]
           0 0
           {| lexer := [];
              operator_stack := [ FSEARCH_QUERY_TOKEN_OR ];
              macro_stack := [];
              macro_filters := [];
              last_token := FSEARCH_QUERY_TOKEN_WORD |}
           false "case" "w"
           [ (FSEARCH_QUERY_TOKEN_WORD, "Foo");
             (FSEARCH_QUERY_TOKEN_WORD, "bar") ]
           (fsearch_query_node_new "Foo" 1) []
           {| lexer := [ (FSEARCH_QUERY_TOKEN_WORD, "bar") ];
              operator_stack := [ FSEARCH_QUERY_TOKEN_OR ];
              macro_stack := [];
              macro_filters := [];
              last_token := FSEARCH_QUERY_TOKEN_WORD |});
    reflexivity.
Defined.

(** The scenario of C6: in [case:Foo nocase:bar] only the first word
    carries the match-case bit. *)
Example case_then_nocase :
  parsed_nodes
    (fsearch_query_parse (ext := example_external) [] 0
       [ (FSEARCH_QUERY_TOKEN_FIELD, "case");
         (FSEARCH_QUERY_TOKEN_WORD, "Foo");
         (FSEARCH_QUERY_TOKEN_FIELD, "nocase");
         (FSEARCH_QUERY_TOKEN_WORD, "bar") ])
  = Some [ fsearch_query_node_new "Foo"
             (QUERY_FLAG_MATCH_CASE (External := example_external));
           fsearch_query_node_new "bar" 0;
           fsearch_query_node_new_operator FSEARCH_QUERY_NODE_OPERATOR_AND ].
Proof. reflexivity. Qed.

(** A macro that carries the match-case bit: the bit reaches the nodes of
    its expansion and not the word after it. *)
Example macro_flags_stay_inside :
  parsed_nodes
    (fsearch_query_parse (ext := example_external)
       [ {| filter_macro := "pics";
            filter_query := "ext";
            filter_flags := 1 |} ]
       0
       [ (FSEARCH_QUERY_TOKEN_FIELD_EMPTY, "pics");
         (FSEARCH_QUERY_TOKEN_WORD, "bar") ])
  = Some [ fsearch_query_node_new_extension None 1;
           fsearch_query_node_new "bar" 0;
           fsearch_query_node_new_operator FSEARCH_QUERY_NODE_OPERATOR_AND ].
Proof. reflexivity. Qed.

(** ** Unbalanced closing brackets and the arguments of fields *)

Lemma keeps_refl c : keeps c c.
Proof. unfold keeps. auto. Qed.

Lemma keeps_trans c1 c2 c3 : keeps c1 c2 -> keeps c2 c3 -> keeps c1 c3.
Proof.
  unfold keeps. intros (A1 & A2 & A3) (B1 & B2 & B3).
  repeat split; congruence.
Qed.

Lemma parse_operator_effect_keeps token c :
  keeps c (snd (parse_operator_effect token c)).
Proof.
  unfold parse_operator_effect.
  destruct (parse_operator_loop token [] (operator_stack c)).
  unfold keeps. cbn. auto.
Qed.

Lemma implicit_and_effect_keeps last next_token c :
  keeps c (snd (implicit_and_effect last next_token c)).
Proof.
  unfold implicit_and_effect.
  match goal with |- context [if ?b then _ else _] => destruct b end;
    [apply parse_operator_effect_keeps | apply keeps_refl].
Qed.

Lemma goes_on_keeps loop b f operand n m c1 c2 ns c' :
  keeps c1 c2 ->
  goes_on loop b f operand n m c2 ns c' ->
  goes_on loop b f operand n m c1 ns c'.
Proof.
  intros K (r & c & K2 & Ho & E). exists r, c.
  split; [eapply keeps_trans; eauto | auto].
Qed.

Lemma goes_on_weaken loop b f (operand operand' : Prop) n m c ns c' :
  (operand' -> operand) ->
  goes_on loop b f operand n m c ns c' ->
  goes_on loop b f operand' n m c ns c'.
Proof.
  intros Hw (r & c3 & K & Ho & E). exists r, c3. auto.
Qed.

Section Cases.

Context {ext : External}.

Variable loop :
  bool -> FsearchQueryFlags -> list FsearchQueryNode -> Z -> Z ->
  M (list FsearchQueryNode).
Variable field :
  string -> bool -> FsearchQueryFlags -> M (list FsearchQueryNode).

Lemma next_iteration_goes_on b f r last t ta skip n m c ns c' :
  next_iteration loop b f r last t ta skip n m c = Done (ns, c') ->
  goes_on loop b f (ta <> []) n m c ns c'.
Proof.
  unfold next_iteration, bind. destruct ta as [|x ta].
  - cbn. intros H. exists r, c.
    split; [apply keeps_refl|]. split; [intros Hn; now elim Hn | exact H].
  - destruct skip.
    + cbn. intros H. eexists _, _. split; [|split; [|exact H]].
      * unfold keeps. cbn. auto.
      * intros _. destruct (r ++ []); discriminate.
    + rewrite get_implicit_and_if_necessary_run.
      pose proof (implicit_and_effect_keeps last t c) as K.
      destruct (implicit_and_effect last t c) as [ia c1]. cbn [snd] in K.
      cbn. intros H. eexists _, _. split; [|split; [|exact H]].
      * eapply keeps_trans; [exact K|]. unfold keeps. cbn. auto.
      * intros _. destruct (r ++ ia); discriminate.
Qed.

(** One iteration of the main loop, token by token: how it ends, or the
    state in which the next iteration begins. *)
Lemma parse_expression_iteration_cases b f r n m c ns c' :
  parse_expression_iteration loop field b f r n m c = Done (ns, c') ->
  match lexer c with
  | [] => keeps c c'
  | (FSEARCH_QUERY_TOKEN_EOS, _) :: _ => keeps c c'
  | (FSEARCH_QUERY_TOKEN_BRACKET_CLOSE, _) :: rest =>
      if m <? n
      then
        exists c2,
          keeps (with_lexer c rest) c2
          /\ if b && (uint32_incr m =? n)
             then c' = c2
             else goes_on loop b f False n (uint32_incr m) c2 ns c'
      else
        ns = [fsearch_query_node_new_match_nothing]
        /\ c' = with_lexer c rest
  | (FSEARCH_QUERY_TOKEN_BRACKET_OPEN, _) :: rest =>
      goes_on loop b f False (uint32_incr n) m
        (with_lexer c (discard_consecutive_binary_operator_tokens_loop rest))
        ns c'
  | (FSEARCH_QUERY_TOKEN_NOT, _) :: rest =>
      goes_on loop b f False n m
        (with_lexer c (snd (consume_consecutive_not_token_loop true rest)))
        ns c'
  | (FSEARCH_QUERY_TOKEN_WORD, _) :: rest =>
      goes_on loop b f True n m (with_lexer c rest) ns c'
  | (FSEARCH_QUERY_TOKEN_FIELD, name) :: rest =>
      exists ta c2,
        field name false f (with_lexer c rest) = Done (ta, c2)
        /\ goes_on loop b f (ta <> []) n m c2 ns c'
  | (FSEARCH_QUERY_TOKEN_FIELD_EMPTY, name) :: rest =>
      exists ta c2,
        field name true f (with_lexer c rest) = Done (ta, c2)
        /\ goes_on loop b f (ta <> []) n m c2 ns c'
  | _ :: rest => goes_on loop b f False n m (with_lexer c rest) ns c'
  end.
Proof.
  intros H.
  assert (Hplain : forall ta rest last t,
            next_iteration loop b f r last t ta false n m (with_lexer c rest)
            = Done (ns, c') ->
            goes_on loop b f False n m (with_lexer c rest) ns c').
  { intros ta rest last t E. apply next_iteration_goes_on in E.
    eapply goes_on_weaken; [|exact E]. intros []. }
  assert (Hbinary : forall op rest,
            is_operator_token op = true ->
            (followed <- is_operator_token_followed_by_operand op ;;
             if followed
             then
               to_append <- parse_operator op ;;
               next_iteration loop b f r (last_token (with_lexer c rest)) op
                 to_append false n m
             else
               next_iteration loop b f r (last_token (with_lexer c rest)) op
                 [] false n m) (with_lexer c rest) = Done (ns, c') ->
            goes_on loop b f False n m (with_lexer c rest) ns c').
  { intros op rest Hop E. unfold bind at 1 in E.
    rewrite is_operator_token_followed_by_operand_run in E by assumption.
    destruct (starts_operand op _); [|eapply Hplain; exact E].
    unfold bind in E. rewrite parse_operator_run in E by assumption.
    pose proof (parse_operator_effect_keeps op (with_lexer c rest)) as K.
    destruct (parse_operator_effect op (with_lexer c rest)) as [ta c2].
    cbn [snd] in K. apply next_iteration_goes_on in E.
    eapply goes_on_keeps; [exact K|].
    eapply goes_on_weaken; [|exact E]. intros []. }
  unfold parse_expression_iteration in H.
  unfold bind at 1, lexer_next, bind at 1, get_ctx in H.
  destruct (lexer c) as [|[t s] rest] eqn:El.
  { cbn in H. inversion H; subst. unfold keeps. cbn. auto. }
  destruct t; cbn [fsearch_query_lexer_get_next_token] in H;
    cbv beta iota zeta in H;
    unfold set_lexer, bind at 1, ret, bind at 1, get_ctx in H;
    cbv beta iota zeta in H.
  - (* NONE *) eapply Hplain; exact H.
  - (* EOS *)
    cbn in H. inversion H; subst. unfold keeps. cbn. auto.
  - (* WORD *)
    cbn [parse_word new_list] in H. apply next_iteration_goes_on in H.
    eapply goes_on_weaken; [|exact H]. intros _. discriminate.
  - (* FIELD *)
    unfold bind at 1, deref, ret in H. unfold bind at 1 in H.
    destruct (field s false f (with_lexer c rest)) as [[ta c2]| |] eqn:Ef;
      try discriminate H.
    exists ta, c2. split; [reflexivity|].
    apply next_iteration_goes_on in H. exact H.
  - (* FIELD_EMPTY *)
    unfold bind at 1, deref, ret in H. unfold bind at 1 in H.
    destruct (field s true f (with_lexer c rest)) as [[ta c2]| |] eqn:Ef;
      try discriminate H.
    exists ta, c2. split; [reflexivity|].
    apply next_iteration_goes_on in H. exact H.
  - (* AND *)
    apply (Hbinary FSEARCH_QUERY_TOKEN_AND rest); [reflexivity | exact H].
  - (* OR *)
    apply (Hbinary FSEARCH_QUERY_TOKEN_OR rest); [reflexivity | exact H].
  - (* NOT *)
    unfold bind at 1, consume_consecutive_not_token, bind at 1, get_ctx in H.
    cbn [lexer with_lexer] in H.
    destruct (consume_consecutive_not_token_loop true rest) as [uneven l].
    cbn [snd]. unfold set_lexer, bind at 1, ret in H.
    cbv beta iota zeta in H.
    change (with_lexer (with_lexer c rest) l) with (with_lexer c l) in H.
    assert (Hp : forall ta last t,
              next_iteration loop b f r last t ta false n m (with_lexer c l)
              = Done (ns, c') ->
              goes_on loop b f False n m (with_lexer c l) ns c').
    { intros ta last t E. apply next_iteration_goes_on in E.
      eapply goes_on_weaken; [|exact E]. intros []. }
    destruct uneven; [|eapply Hp; exact H].
    unfold bind at 1 in H.
    rewrite is_operator_token_followed_by_operand_run in H by reflexivity.
    destruct (starts_operand FSEARCH_QUERY_TOKEN_NOT _);
      [|eapply Hp; exact H].
    unfold bind at 1 in H. rewrite get_implicit_and_if_necessary_run in H.
    pose proof (implicit_and_effect_keeps
                  (last_token (with_lexer c rest)) FSEARCH_QUERY_TOKEN_NOT
                  (with_lexer c l)) as K1.
    destruct (implicit_and_effect _ FSEARCH_QUERY_TOKEN_NOT (with_lexer c l))
      as [ia c1].
    cbn [snd] in K1. unfold bind at 1 in H.
    rewrite parse_operator_run in H by reflexivity.
    pose proof (parse_operator_effect_keeps FSEARCH_QUERY_TOKEN_NOT c1) as K2.
    destruct (parse_operator_effect FSEARCH_QUERY_TOKEN_NOT c1) as [op c2].
    cbn [snd] in K2. apply next_iteration_goes_on in H.
    eapply goes_on_keeps; [eapply keeps_trans; eassumption|].
    eapply goes_on_weaken; [|exact H]. intros [].
  - (* BRACKET_OPEN *)
    unfold bind at 1, parse_open_bracket, bind at 1, get_ctx in H.
    unfold bind at 1 in H. rewrite get_implicit_and_if_necessary_run in H.
    pose proof (implicit_and_effect_keeps
                  (last_token (with_lexer c rest))
                  FSEARCH_QUERY_TOKEN_BRACKET_OPEN (with_lexer c rest)) as K1.
    destruct (implicit_and_effect _ FSEARCH_QUERY_TOKEN_BRACKET_OPEN
                (with_lexer c rest)) as [ia c1].
    cbn [snd] in K1. destruct K1 as (K1 & K2 & K3).
    cbn in H. apply next_iteration_goes_on in H.
    eapply goes_on_keeps; [|eapply goes_on_weaken; [|exact H]];
      [|intros []].
    unfold keeps. cbn. rewrite K1. cbn. auto.
  - (* BRACKET_CLOSE *)
    destruct (m <? n); [|inversion H; subst; auto].
    unfold bind at 1, parse_close_bracket, bind at 1, get_ctx in H.
    destruct (parse_close_bracket_loop [] (operator_stack (with_lexer c rest)))
      as [[ta st]|]; [|discriminate H].
    cbn [bind set_operator_stack set_last_token ret] in H.
    exists (with_last_token (with_operator_stack (with_lexer c rest) st)
              FSEARCH_QUERY_TOKEN_BRACKET_CLOSE).
    split; [|destruct (b && (uint32_incr m =? n))].
    + unfold keeps; cbn; auto.
    + inversion H; subst. reflexivity.
    + apply next_iteration_goes_on in H.
      eapply goes_on_weaken; [|exact H]. intros [].
  - eapply Hplain; exact H.
  - eapply Hplain; exact H.
  - eapply Hplain; exact H.
  - eapply Hplain; exact H.
  - eapply Hplain; exact H.
Qed.

End Cases.

Section FunctionRest.

Context {ext : External}.

Lemma parse_numeric_function_rest is_empty_field flags new_node_func
  parse_value_func ctx :
  exists node,
    parse_numeric_function is_empty_field flags new_node_func
      parse_value_func ctx
    = Done ([node],
            if is_empty_field
            then ctx
            else with_lexer ctx (numeric_function_rest (lexer ctx))).
Proof.
  destruct is_empty_field; [eexists; reflexivity|].
  destruct ctx as [lx st ms mf last].
  unfold parse_numeric_function, expect_word, bind, lexer_next, bind,
    get_ctx, deref, numeric_function_rest, next_rest.
  destruct lx as [|[t s] rest]; [cbn; eexists; reflexivity|].
  destruct t; cbn; try (eexists; reflexivity);
    (destruct rest as [|[t2 s2] rest2]; [cbn; eexists; reflexivity|]);
    destruct t2; cbn; try (eexists; reflexivity);
    destruct (parse_value_func s2) as [[v1 v2]|]; eexists; reflexivity.
Qed.

Lemma string_function_rest (build : string -> FsearchQueryNode) ctx :
  exists node,
    ('(is_word, token_value) <- expect_word ;;
     if is_word
     then str <- deref token_value ;; ret (new_list (build str))
     else ret (new_list fsearch_query_node_new_match_nothing)) ctx
    = Done ([node], with_lexer ctx (next_rest (lexer ctx))).
Proof.
  destruct ctx as [lx st ms mf last].
  unfold expect_word, bind, lexer_next, bind, get_ctx, deref, next_rest.
  destruct lx as [|[t s] rest]; [cbn; eexists; reflexivity|].
  destruct t; cbn; eexists; reflexivity.
Qed.

(** Every parser of the function table returns one node and leaves a
    lexer that depends on the lexer it found alone. *)
Lemma supported_function_rest field_name parser :
  lookup_function supported_functions field_name = Some parser ->
  exists g : FsearchQueryLexer -> FsearchQueryLexer,
    forall is_empty_field flags ctx,
    exists node,
      parser is_empty_field flags ctx
      = Done ([node],
              if is_empty_field
              then ctx
              else with_lexer ctx (g (lexer ctx))).
Proof.
  intros Hlook. unfold supported_functions in Hlook. simpl in Hlook.
  repeat match type of Hlook with
         | (if ?b then _ else _) = _ => destruct b
         end;
    inversion Hlook; subst parser;
    try (exists numeric_function_rest; intros;
         apply parse_numeric_function_rest).
  - exists next_rest. intros [|] flags ctx; [eexists; reflexivity|].
    apply (string_function_rest
             (fun str => fsearch_query_node_new_contenttype str flags)).
  - exists (fun l => l). intros [|] flags ctx; [eexists; reflexivity|].
    destruct ctx. eexists. reflexivity.
  - exists next_rest. intros [|] flags ctx; [eexists; reflexivity|].
    apply (string_function_rest
             (fun str => fsearch_query_node_new_extension (Some str) flags)).
  - exists next_rest. intros [|] flags ctx; [eexists; reflexivity|].
    apply (string_function_rest
             (fun str => fsearch_query_node_new_parent str
                           (flags_add flags QUERY_FLAG_EXACT_MATCH))).
Qed.

(** A field that is empty, or is no modifier, or is a modifier with an
    argument that gives a node, gives at least one node. *)
Lemma parse_field_nonempty fuel : forall name is_empty_field flags ctx ns ctx',
  parse_field fuel name is_empty_field flags ctx = Done (ns, ctx') ->
  is_empty_field = true
  \/ lookup_modifier supported_modifiers name = None
  \/ modifier_yields (lexer ctx) = true ->
  ns <> [].
Proof.
  induction fuel as [|fuel IH]; intros name e flags ctx ns ctx';
    [discriminate|].
  cbn [parse_field]. unfold parse_field_body, bind.
  destruct (parse_filter_macros fuel name flags ctx) as [[res c1]| |] eqn:Em;
    try discriminate.
  destruct res as [|x res]; [|intros H _; inversion H; discriminate].
  apply parse_filter_macros_restores in Em. destruct Em as [El _].
  assert (Hmod : forall fl,
             parse_modifier fuel e fl c1 = Done (ns, ctx') ->
             e = true \/ modifier_yields (lexer ctx) = true ->
             ns <> []).
  { intros fl. destruct fuel as [|fuel']; [discriminate|].
    cbn [parse_modifier]. unfold parse_modifier_body.
    destruct e; [intros H _; inversion H; discriminate|].
    intros H [Hy|Hy]; [discriminate Hy|].
    rewrite <- El in Hy.
    unfold bind at 1, lexer_next, bind at 1, get_ctx in H.
    destruct (lexer c1) as [|[t s] rest];
      [cbn in H; inversion H; discriminate|].
    destruct t; try discriminate Hy;
      cbn [fsearch_query_lexer_get_next_token] in H;
      cbv beta iota zeta in H;
      unfold set_lexer, bind at 1, ret in H;
      cbv beta iota zeta in H;
      try (cbn in H; inversion H; discriminate).
    - (* FIELD *)
      unfold bind at 1, deref, ret in H. cbn [modifier_yields] in Hy.
      assert (Hup : parse_field (S fuel') s false fl (with_lexer c1 rest)
                    = Done (ns, ctx')).
      { rewrite (@parse_field_fuel _ fuel' (S fuel') s false fl
                   (Nat.le_succ_diag_r _) (with_lexer c1 rest));
          [exact H | rewrite H; discriminate]. }
      eapply IH; [exact Hup|]. right. cbn [lexer with_lexer].
      destruct (lookup_modifier supported_modifiers s);
        [right; exact Hy | left; reflexivity].
    - (* FIELD_EMPTY *)
      unfold bind at 1, deref, ret in H.
      assert (Hup : parse_field (S fuel') s true fl (with_lexer c1 rest)
                    = Done (ns, ctx')).
      { rewrite (@parse_field_fuel _ fuel' (S fuel') s true fl
                   (Nat.le_succ_diag_r _) (with_lexer c1 rest));
          [exact H | rewrite H; discriminate]. }
      eapply IH; [exact Hup | left; reflexivity]. }
  destruct (lookup_modifier supported_modifiers name) as [[flag op]|].
  - intros H [->|[Hn|Hy]]; [| discriminate Hn |];
      destruct op; eapply Hmod; eauto.
  - destruct (lookup_function supported_functions name) as [parser|] eqn:Ef.
    + destruct (supported_function_rest name Ef) as [g Hg].
      destruct (Hg e flags c1) as [node E]. rewrite E.
      intros H _. inversion H. discriminate.
    + intros H _. inversion H. discriminate.
Qed.

End FunctionRest.

Section Yields.

Context {ext : External}.

Lemma yields_nodes_consume l : forall b,
  yields_nodes (snd (consume_consecutive_not_token_loop b l))
  = yields_nodes l.
Proof.
  induction l as [|[t s] l IH]; intros b; [reflexivity|].
  destruct t; try reflexivity.
  cbn [consume_consecutive_not_token_loop yields_nodes]. apply IH.
Qed.

Lemma yields_nodes_discard l :
  yields_nodes (discard_consecutive_binary_operator_tokens_loop l)
  = yields_nodes l.
Proof.
  induction l as [|[t s] l IH]; [reflexivity|].
  destruct t; try reflexivity;
    cbn [discard_consecutive_binary_operator_tokens_loop yields_nodes
         is_binary_operator_token token_eqb orb]; apply IH.
Qed.

(** A top-level run that has output already, or comes to an operand, does
    not end with an empty list. *)
Lemma parse_expression_loop_yields fuel : forall f r n m c ns c',
  parse_expression_loop fuel false f r n m c = Done (ns, c') ->
  r <> [] \/ yields_nodes (lexer c) = true ->
  ns <> [].
Proof.
  induction fuel as [|fuel IH]; intros f r n m c ns c' H Hy;
    [discriminate|].
  destruct Hy as [Hr|Hy].
  { destruct (parse_expression_loop_suffix (S fuel) false f r [] n m c H)
      as (o2 & _ & [(t & -> & _)|[-> _]]); [|discriminate].
    destruct r; [now elim Hr | discriminate]. }
  cbn [parse_expression_loop] in H.
  apply parse_expression_iteration_cases in H.
  assert (Hgo : forall (operand : Prop) n' m' cX,
             goes_on (parse_expression_loop fuel) false f operand n' m'
               cX ns c' ->
             operand \/ yields_nodes (lexer cX) = true ->
             ns <> []).
  { intros operand n' m' cX (r' & c3 & K & Ho & E) Hor.
    apply (IH _ _ _ _ _ _ _ E).
    destruct Hor as [Hop|Hyl]; [left; auto|].
    right. rewrite (proj1 K). exact Hyl. }
  destruct (lexer c) as [|[t s] rest]; [discriminate Hy|].
  destruct t; cbn [yields_nodes] in Hy; try discriminate Hy;
    try (eapply Hgo; [exact H | right; exact Hy]).
  - (* WORD *) eapply Hgo; [exact H | left; exact I].
  - (* FIELD *)
    destruct H as (ta & c2 & Ef & H).
    eapply Hgo; [exact H | left].
    eapply parse_field_nonempty; [exact Ef | right].
    cbn [lexer with_lexer].
    destruct (lookup_modifier supported_modifiers s);
      [right; exact Hy | left; reflexivity].
  - (* FIELD_EMPTY *)
    destruct H as (ta & c2 & Ef & H).
    eapply Hgo; [exact H | left].
    eapply parse_field_nonempty; [exact Ef | left; reflexivity].
  - (* NOT *)
    eapply Hgo; [exact H | right].
    cbn [lexer with_lexer]. now rewrite yields_nodes_consume.
  - (* BRACKET_OPEN *)
    eapply Hgo; [exact H | right].
    cbn [lexer with_lexer]. now rewrite yields_nodes_discard.
  - (* BRACKET_CLOSE *)
    destruct (m <? n).
    + destruct H as (c2 & K & H). cbn [andb] in H.
      eapply Hgo; [exact H | right]. rewrite (proj1 K). exact Hy.
    + destruct H as [-> _]. discriminate.
Qed.

End Yields.

Section Scan.

Context {ext : External}.

Variable filters : list FsearchFilter.
Variable stack : list nat.

Lemma group_rest_S fuel n m l :
  group_rest filters stack (S fuel) n m l
  = match l with
    | [] => Some [l]
    | (FSEARCH_QUERY_TOKEN_EOS, _) :: _ => Some [l]
    | (FSEARCH_QUERY_TOKEN_BRACKET_OPEN, _) :: rest =>
        group_rest filters stack fuel (uint32_incr n) m rest
    | (FSEARCH_QUERY_TOKEN_BRACKET_CLOSE, _) :: rest =>
        if m <? n
        then
          if uint32_incr m =? n
          then Some [rest]
          else group_rest filters stack fuel n (uint32_incr m) rest
        else Some [rest]
    | (FSEARCH_QUERY_TOKEN_FIELD, name) :: rest =>
        match field_rest filters stack fuel name rest with
        | Some ls => all_rests (group_rest filters stack fuel n m) ls
        | None => None
        end
    | _ :: rest => group_rest filters stack fuel n m rest
    end.
Proof. reflexivity. Qed.

Lemma field_rest_S fuel name l :
  field_rest filters stack (S fuel) name l
  = let native :=
      native_argument (group_rest filters stack fuel)
        (field_rest filters stack fuel) name l in
    if macro_expands filters stack name
    then
      if macro_yields filters name
      then Some [l]
      else
        match native with
        | Some ls => Some (l :: ls)
        | None => None
        end
    else native.
Proof. reflexivity. Qed.

Lemma all_rests_In rests ls : forall out l,
  all_rests rests ls = Some out ->
  In l ls ->
  exists out', rests l = Some out' /\ incl out' out.
Proof.
  induction ls as [|l0 ls IH]; intros out l H Hin; [now elim Hin|].
  cbn [all_rests fold_right] in H.
  destruct (rests l0) as [a|] eqn:Ea; [|discriminate H].
  fold (all_rests rests ls) in H.
  destruct (all_rests rests ls) as [b|] eqn:Eb; [|discriminate H].
  inversion H; subst out.
  destruct Hin as [->|Hin].
  - exists a. split; [exact Ea | apply incl_appl, incl_refl].
  - destruct (IH b l eq_refl Hin) as (out' & E & Hi).
    exists out'. split; [exact E | apply incl_appr, Hi].
Qed.

Lemma group_rest_consume l : forall b k n m ls,
  group_rest filters stack k n m l = Some ls ->
  exists k',
    group_rest filters stack k' n m
      (snd (consume_consecutive_not_token_loop b l)) = Some ls.
Proof.
  induction l as [|[t s] l IH]; intros b k n m ls H; [eauto|].
  destruct t; try (exists k; exact H).
  destruct k as [|k]; [discriminate H|].
  rewrite group_rest_S in H. cbn [consume_consecutive_not_token_loop].
  eapply IH. exact H.
Qed.

Lemma group_rest_discard l : forall k n m ls,
  group_rest filters stack k n m l = Some ls ->
  exists k',
    group_rest filters stack k' n m
      (discard_consecutive_binary_operator_tokens_loop l) = Some ls.
Proof.
  induction l as [|[t s] l IH]; intros k n m ls H; [eauto|].
  destruct t; try (exists k; exact H);
    (destruct k as [|k]; [discriminate H|]);
    rewrite group_rest_S in H;
    cbn [discard_consecutive_binary_operator_tokens_loop
         is_binary_operator_token token_eqb orb];
    eapply IH; exact H.
Qed.

Lemma reads_excess_close_consume l : forall b k open,
  reads_excess_close filters stack k open l = true ->
  exists k',
    reads_excess_close filters stack k' open
      (snd (consume_consecutive_not_token_loop b l)) = true.
Proof.
  induction l as [|[t s] l IH]; intros b k open H; [eauto|].
  destruct t; try (exists k; exact H).
  destruct k as [|k]; [discriminate H|].
  cbn [reads_excess_close] in H. cbn [consume_consecutive_not_token_loop].
  eapply IH. exact H.
Qed.

Lemma reads_excess_close_discard l : forall k open,
  reads_excess_close filters stack k open l = true ->
  exists k',
    reads_excess_close filters stack k' open
      (discard_consecutive_binary_operator_tokens_loop l) = true.
Proof.
  induction l as [|[t s] l IH]; intros k open H; [eauto|].
  destruct t; try (exists k; exact H);
    (destruct k as [|k]; [discriminate H|]);
    cbn [reads_excess_close] in H;
    cbn [discard_consecutive_binary_operator_tokens_loop
         is_binary_operator_token token_eqb orb];
    eapply IH; exact H.
Qed.

Lemma reads_excess_close_at_eos k open l :
  at_eos l = true -> reads_excess_close filters stack k open l = false.
Proof.
  destruct k as [|k]; [reflexivity|].
  destruct l as [|[t s] l]; [reflexivity|].
  destruct t; try discriminate. reflexivity.
Qed.

(** On a stream without fields that take an argument the main loop reads
    every bracket. *)
Lemma excess_close_reads l : forall k open,
  (List.length l < k)%nat ->
  no_field_token l = true ->
  excess_close open l = true ->
  reads_excess_close filters stack k open l = true.
Proof.
  induction l as [|[t s] l IH]; intros k open Hk Hnf Hex;
    [discriminate Hex|].
  destruct k as [|k]; [lia|].
  cbn [List.length] in Hk.
  cbn [no_field_token forallb] in Hnf. apply andb_prop in Hnf.
  destruct Hnf as [Ht Hnf].
  destruct t; try discriminate Ht; try discriminate Hex;
    cbn [reads_excess_close excess_close] in *;
    try (apply IH; [lia | exact Hnf | exact Hex]).
  destruct open as [|open]; [reflexivity|].
  apply IH; [lia | exact Hnf | exact Hex].
Qed.

End Scan.

Section Lexer.

Context {ext : External}.

Lemma group_spec_goes_on loop b f operand n m n' m' c cX ns c' :
  (forall b f r n m c ns c',
      loop b f r n m c = Done (ns, c') -> group_spec b n m c c') ->
  macro_stack cX = macro_stack c ->
  macro_filters cX = macro_filters c ->
  (b = true ->
   forall k ls,
     group_rest (macro_filters c) (macro_stack c) k n m (lexer c)
     = Some ls ->
     exists k' ls',
       group_rest (macro_filters c) (macro_stack c) k' n' m' (lexer cX)
       = Some ls'
       /\ incl ls' ls) ->
  goes_on loop b f operand n' m' cX ns c' ->
  group_spec b n m c c'.
Proof.
  intros Hloop Hs Hf Hscan (r' & c3 & (K1 & K2 & K3) & _ & E).
  apply Hloop in E. destruct E as (E1 & E2 & E3).
  split; [congruence|]. split; [congruence|].
  intros Hb k ls Hk. destruct (Hscan Hb k ls Hk) as (k' & ls' & Hk' & Hi).
  apply Hi. apply (E3 Hb k'). rewrite K1, K2, K3, Hs, Hf. exact Hk'.
Qed.

(** The field that goes on to the tables. *)
Lemma native_argument_spec fuel name f c ns c' :
  (forall e f c ns c',
      parse_modifier fuel e f c = Done (ns, c') -> modifier_spec e c c') ->
  match lookup_modifier supported_modifiers name with
  | Some (flag, ADD_FLAG) => parse_modifier fuel false (flags_add f flag)
  | Some (flag, REMOVE_FLAG) =>
      parse_modifier fuel false (flags_remove f flag)
  | None =>
      match lookup_function supported_functions name with
      | Some parser => parser false f
      | None => ret (new_list fsearch_query_node_new_match_nothing)
      end
  end c = Done (ns, c') ->
  macro_stack c' = macro_stack c
  /\ macro_filters c' = macro_filters c
  /\ forall k ls,
       native_argument (group_rest (macro_filters c) (macro_stack c) k)
         (field_rest (macro_filters c) (macro_stack c) k) name (lexer c)
       = Some ls ->
       In (lexer c') ls.
Proof.
  intros IHm H. unfold native_argument.
  destruct (lookup_modifier supported_modifiers name) as [[flag op]|].
  - assert (Hmod : forall fl,
               parse_modifier fuel false fl c = Done (ns, c') ->
               modifier_spec false c c') by (intros fl; apply IHm).
    destruct op; apply Hmod in H; exact H.
  - destruct (lookup_function supported_functions name) as [parser|] eqn:Elf.
    + destruct (supported_function_rest name Elf) as [g Hg].
      destruct (Hg false f c) as [node E1]. rewrite E1 in H.
      inversion H; subst ns c'.
      split; [reflexivity|]. split; [reflexivity|].
      intros k ls E. unfold lexer_after in E.
      destruct (Hg false 0 (initial_context [] (lexer c))) as [node0 E0].
      rewrite E0 in E. cbn in E. inversion E; subst ls. left. reflexivity.
    + inversion H; subst ns c'.
      split; [reflexivity|]. split; [reflexivity|].
      intros k ls E. inversion E; subst ls. left. reflexivity.
Qed.

Lemma parser_lexer (fuel : nat) :
  (forall b f r n m c ns c',
      parse_expression_loop fuel b f r n m c = Done (ns, c') ->
      group_spec b n m c c')
  /\ (forall name e f c ns c',
         parse_field fuel name e f c = Done (ns, c') ->
         field_spec name e c c')
  /\ (forall e f c ns c',
         parse_modifier fuel e f c = Done (ns, c') ->
         modifier_spec e c c')
  /\ (forall name f c res c',
         parse_filter_macros fuel name f c = Done (res, c') ->
         keeps c c'
         /\ (macro_expands (macro_filters c) (macro_stack c) name = false ->
             res = [])
         /\ (macro_expands (macro_filters c) (macro_stack c) name = true ->
             macro_yields (macro_filters c) name = true ->
             res <> [])).
Proof.
  induction fuel as [|fuel (IHl & IHf & IHm & IHx)];
    [repeat split; intros; discriminate|].
  split; [|split; [|split]].
  - (* the expression parser *)
    intros b f r n m c ns c' H.
    cbn [parse_expression_loop] in H.
    apply parse_expression_iteration_cases in H.
    assert (Hend : keeps c c' ->
                   match lexer c with
                   | [] => True
                   | (FSEARCH_QUERY_TOKEN_EOS, _) :: _ => True
                   | _ => False
                   end ->
                   group_spec b n m c c').
    { intros (K1 & K2 & K3) Hl. split; [exact K2|]. split; [exact K3|].
      intros _ k ls Hk. rewrite K1.
      destruct k as [|k]; [cbn in Hk; discriminate Hk|].
      destruct (lexer c) as [|[t s] rest];
        [cbn in Hk; inversion Hk; left; reflexivity|].
      destruct t; try now elim Hl.
      cbn in Hk. inversion Hk. left. reflexivity. }
    assert (Hskip : forall t s rest operand,
               lexer c = (t, s) :: rest ->
               (forall k n0 m0,
                   group_rest (macro_filters c) (macro_stack c) (S k) n0 m0
                     ((t, s) :: rest)
                   = group_rest (macro_filters c) (macro_stack c) k n0 m0
                       rest) ->
               goes_on (parse_expression_loop fuel) b f operand n m
                 (with_lexer c rest) ns c' ->
               group_spec b n m c c').
    { intros t s rest operand El Hk Hgo.
      eapply group_spec_goes_on; [exact IHl | | | | exact Hgo];
        try reflexivity.
      intros Hb k ls E. rewrite El in E.
      destruct k as [|k]; [cbn in E; discriminate E|].
      rewrite Hk in E. exists k, ls. split; [exact E | apply incl_refl]. }
    destruct (lexer c) as [|[t s] rest] eqn:El; [apply Hend; auto|].
    destruct t;
      try (eapply Hskip; [reflexivity | reflexivity | exact H]).
    + (* EOS *) apply Hend; auto.
    + (* FIELD *)
      destruct H as (ta & c2 & Ef & H).
      apply IHf in Ef. destruct Ef as (F1 & F2 & F3).
      cbn [macro_stack macro_filters lexer with_lexer] in F1, F2, F3.
      eapply group_spec_goes_on; [exact IHl | exact F1 | exact F2 |
                                  | exact H].
      intros Hb k ls E. rewrite El in E.
      destruct k as [|k]; [cbn in E; discriminate E|].
      rewrite group_rest_S in E.
      destruct (field_rest (macro_filters c) (macro_stack c) k s rest)
        as [ls2|] eqn:E2; [|discriminate E].
      destruct (@all_rests_In _ _ _ _ E (F3 k ls2 E2)) as (ls' & E' & Hi).
      exists k, ls'. split; [exact E' | exact Hi].
    + (* FIELD_EMPTY *)
      destruct H as (ta & c2 & Ef & H).
      apply IHf in Ef. destruct Ef as (F1 & F2 & F3).
      cbn [macro_stack macro_filters lexer with_lexer] in F1, F2, F3.
      eapply group_spec_goes_on; [exact IHl | exact F1 | exact F2 |
                                  | exact H].
      intros Hb k ls E. rewrite El in E.
      destruct k as [|k]; [cbn in E; discriminate E|].
      rewrite group_rest_S in E. rewrite F3.
      exists k, ls. split; [exact E | apply incl_refl].
    + (* NOT *)
      eapply group_spec_goes_on; [exact IHl | | | | exact H];
        try reflexivity.
      intros Hb k ls E. rewrite El in E.
      destruct k as [|k]; [cbn in E; discriminate E|].
      rewrite group_rest_S in E. cbn [lexer with_lexer].
      destruct (group_rest_consume _ _ rest true _ _ _ E) as [k' E'].
      exists k', ls. split; [exact E' | apply incl_refl].
    + (* BRACKET_OPEN *)
      eapply group_spec_goes_on; [exact IHl | | | | exact H];
        try reflexivity.
      intros Hb k ls E. rewrite El in E.
      destruct k as [|k]; [cbn in E; discriminate E|].
      rewrite group_rest_S in E. cbn [lexer with_lexer].
      destruct (group_rest_discard _ _ rest _ _ _ E) as [k' E'].
      exists k', ls. split; [exact E' | apply incl_refl].
    + (* BRACKET_CLOSE *)
      destruct (m <? n) eqn:Elt.
      * destruct H as (c2 & (K1 & K2 & K3) & H).
        cbn [macro_stack macro_filters lexer with_lexer] in K1, K2, K3.
        destruct (b && (uint32_incr m =? n)) eqn:Eb.
        -- subst c'. split; [exact K2|]. split; [exact K3|].
           intros -> k ls E. rewrite El in E.
           destruct k as [|k]; [cbn in E; discriminate E|].
           rewrite group_rest_S in E. cbn [andb] in Eb.
           rewrite Elt, Eb in E. inversion E. left. auto.
        -- eapply group_spec_goes_on; [exact IHl | exact K2 | exact K3 |
                                       | exact H].
           intros Hb k ls E. rewrite El in E.
           destruct k as [|k]; [cbn in E; discriminate E|].
           rewrite group_rest_S in E. rewrite Elt in E.
           subst b. cbn [andb] in Eb. rewrite Eb in E. rewrite K1.
           exists k, ls. split; [exact E | apply incl_refl].
      * destruct H as [-> ->]. split; [reflexivity|]. split; [reflexivity|].
        intros _ k ls E. rewrite El in E.
        destruct k as [|k]; [cbn in E; discriminate E|].
        rewrite group_rest_S in E. rewrite Elt in E. cbn.
        inversion E. left. reflexivity.
  - (* the field dispatcher *)
    intros name e f c ns c' H.
    cbn [parse_field] in H. unfold parse_field_body, bind at 1 in H.
    destruct (parse_filter_macros fuel name f c) as [[res c1]| |] eqn:Em;
      try discriminate H.
    apply IHx in Em. destruct Em as ((K1 & K2 & K3) & Hno & Hyes).
    destruct res as [|x res].
    + destruct e.
      * (* an empty field reads nothing *)
        assert (Hmod : forall fl,
                   parse_modifier fuel true fl c1 = Done (ns, c') ->
                   field_spec name true c c').
        { intros fl Hp. apply IHm in Hp. destruct Hp as (M1 & M2 & M3).
          split; [congruence|]. split; [congruence|]. cbn in *. congruence. }
        destruct (lookup_modifier supported_modifiers name)
          as [[flag op]|].
        { destruct op; eapply Hmod; exact H. }
        destruct (lookup_function supported_functions name) as [parser|]
          eqn:Elf.
        -- destruct (supported_function_rest name Elf) as [g Hg].
           destruct (Hg true f c1) as [node E1]. rewrite E1 in H.
           inversion H; subst ns c'. split; [|split]; assumption.
        -- inversion H; subst ns c'. split; [|split]; assumption.
      * destruct (native_argument_spec fuel name f c1 IHm H)
          as (N1 & N2 & N3).
        split; [congruence|]. split; [congruence|].
        intros k ls E. destruct k as [|k]; [cbn in E; discriminate E|].
        rewrite field_rest_S in E. cbv zeta in E.
        rewrite K1, K2, K3 in N3.
        destruct (macro_expands (macro_filters c) (macro_stack c) name)
          eqn:Ex; [|exact (N3 k ls E)].
        destruct (macro_yields (macro_filters c) name) eqn:Ey;
          [now elim (Hyes eq_refl eq_refl)|].
        destruct (native_argument _ _ name (lexer c)) as [ls0|] eqn:En;
          [|discriminate E].
        inversion E; subst ls. right. exact (N3 k ls0 En).
    + inversion H; subst ns c'.
      split; [exact K2|]. split; [exact K3|].
      destruct e; [exact K1|].
      intros k ls E. destruct k as [|k]; [cbn in E; discriminate E|].
      rewrite field_rest_S in E. cbv zeta in E.
      destruct (macro_expands (macro_filters c) (macro_stack c) name);
        [|now discriminate (Hno eq_refl)].
      destruct (macro_yields (macro_filters c) name).
      * inversion E. left. auto.
      * destruct (native_argument _ _ name (lexer c)); [|discriminate E].
        inversion E. left. auto.
  - (* the modifier *)
    intros e f c ns c' H.
    cbn [parse_modifier] in H. unfold parse_modifier_body in H.
    destruct e.
    { inversion H; subst. repeat split; reflexivity. }
    unfold bind at 1, lexer_next, bind at 1, get_ctx in H.
    unfold modifier_spec.
    destruct (lexer c) as [|[t s] rest] eqn:El.
    { cbn in H. inversion H; subst.
      split; [reflexivity|]. split; [reflexivity|].
      intros k ls E. cbn in E. cbn. inversion E. left. reflexivity. }
    destruct t; cbn [fsearch_query_lexer_get_next_token] in H;
      cbv beta iota zeta in H;
      unfold set_lexer, bind at 1, ret in H;
      cbv beta iota zeta in H;
      try (inversion H; subst;
           split; [reflexivity|]; split; [reflexivity|];
           intros k ls E; cbn in E; cbn; inversion E; left; reflexivity).
    + (* FIELD *)
      unfold bind at 1, deref, ret in H.
      apply IHf in H. destruct H as (F1 & F2 & F3).
      cbn [macro_stack macro_filters lexer with_lexer] in F1, F2, F3.
      split; [exact F1|]. split; [exact F2|].
      intros k ls E. cbn [modifier_argument] in E. eapply F3. exact E.
    + (* FIELD_EMPTY *)
      unfold bind at 1, deref, ret in H.
      apply IHf in H. destruct H as (F1 & F2 & F3).
      cbn [macro_stack macro_filters lexer with_lexer] in F1, F2, F3.
      split; [exact F1|]. split; [exact F2|].
      intros k ls E. cbn [modifier_argument] in E.
      inversion E. left. auto.
    + (* BRACKET_OPEN *)
      unfold bind at 1, parse_open_bracket, bind at 1, get_ctx in H.
      unfold bind at 1 in H. rewrite get_implicit_and_if_necessary_run in H.
      pose proof (implicit_and_effect_keeps
                    (last_token (with_lexer c rest))
                    FSEARCH_QUERY_TOKEN_BRACKET_OPEN (with_lexer c rest))
        as K.
      destruct (implicit_and_effect _ FSEARCH_QUERY_TOKEN_BRACKET_OPEN
                  (with_lexer c rest)) as [ia c1].
      cbn [snd] in K. destruct K as (K1 & K2 & K3).
      cbn [macro_stack macro_filters lexer with_lexer] in K1, K2, K3.
      cbn [bind set_last_token get_ctx set_operator_stack ret] in H.
      unfold bind at 1 in H.
      match type of H with
      | context [parse_expression_loop fuel true f [] 1 0 ?cb] =>
          destruct (parse_expression_loop fuel true f [] 1 0 cb)
            as [[expression c3]| |] eqn:Eb; try discriminate H
      end.
      inversion H; subst ns c'.
      apply IHl in Eb. destruct Eb as (B1 & B2 & B3).
      cbn [macro_stack macro_filters lexer with_lexer with_last_token
           with_operator_stack] in B1, B2, B3.
      split; [congruence|]. split; [congruence|].
      intros k ls E. cbn [modifier_argument] in E.
      apply (B3 eq_refl k). rewrite K1, K2, K3. exact E.
  - (* the macro expander *)
    intros name f c res c' H.
    cbn [parse_filter_macros] in H.
    unfold parse_filter_macros_body, bind at 1, get_ctx in H.
    unfold macro_expands, macro_yields.
    destruct (lookup_macro (macro_filters c) 0 name) as [[i filter]|];
      [|inversion H; subst; split; [apply keeps_refl|];
        split; [reflexivity | discriminate]].
    destruct (g_queue_find (macro_stack c) i);
      [inversion H; subst; split; [apply keeps_refl|];
       split; [reflexivity | discriminate]|].
    destruct (fsearch_string_is_empty (filter_query filter));
      [inversion H; subst; split; [apply keeps_refl|];
       split; [reflexivity | discriminate]|].
    cbn [bind set_macro_stack set_lexer set_operator_stack get_ctx ret] in H.
    unfold bind at 1 in H.
    match type of H with
    | context [parse_expression_loop fuel false ?fl [] 0 0 ?cb] =>
        destruct (parse_expression_loop fuel false fl [] 0 0 cb)
          as [[res' c3]| |] eqn:Eb; try discriminate H
    end.
    cbn in H. inversion H; subst res c'.
    pose proof (IHl _ _ _ _ _ _ _ _ Eb) as (B1 & B2 & _).
    cbn [macro_stack macro_filters lexer with_lexer with_macro_stack
         with_operator_stack] in B1, B2.
    split; [|split; [discriminate|]].
    + unfold keeps. cbn. rewrite B1. cbn. auto.
    + intros _ Hy. eapply parse_expression_loop_yields; [exact Eb|].
      right. exact Hy.
Qed.

End Lexer.

Section UnmatchedBrackets.

Context {ext : External}.

(** From a state of the top-level loop in which the loop's own reading of
    the remaining tokens comes to a closing bracket that was never opened,
    the loop returns the single match-nothing leaf. *)
Lemma parse_expression_loop_reads_excess_close fuel :
  forall flags r n m open c k,
  (expression_budget c <= fuel)%nat ->
  reads_excess_close (macro_filters c) (macro_stack c) k open (lexer c)
  = true ->
  close_inv open n m c ->
  wp (parse_expression_loop fuel false flags r n m)
     (fun nodes _ => nodes = [fsearch_query_node_new_match_nothing]) c.
Proof.
  induction fuel as [|fuel IH]; intros flags r n m open c k Hb Hex Hi.
  { unfold expression_budget, macro_budget in Hb. lia. }
  cbn [parse_expression_loop]. unfold parse_expression_iteration.
  apply wp_bind. apply wp_lexer_next.
  { intros He.
    rewrite (reads_excess_close_at_eos _ _ k open _ He) in Hex.
    discriminate. }
  intros t s rest E Ht.
  destruct k as [|k]; [discriminate Hex|].
  assert (Hb1 : forall l,
             (List.length l <= List.length rest)%nat ->
             forall c2,
               frame (with_lexer c l) c2 ->
               (expression_budget c2 <= fuel)%nat).
  { intros l Hl c2 Hf.
    pose proof (expression_budget_frame Hf) as H1.
    pose proof (expression_budget_token c E) as H2.
    pose proof (expression_budget_with_lexer (with_lexer c rest) l Hl) as H3.
    change (with_lexer (with_lexer c rest) l) with (with_lexer c l) in H3.
    lia. }
  (* the next iteration, from a context that reads [l] *)
  assert (Hcont : forall l open' k' ta skip n' m' c2,
             (List.length l <= List.length rest)%nat ->
             reads_excess_close (macro_filters c) (macro_stack c) k' open' l
             = true ->
             frame (with_lexer c l) c2 ->
             lexer c2 = l ->
             close_inv open' n' m' c2 ->
             wp (next_iteration (parse_expression_loop fuel) false flags r
                   (last_token (with_lexer c rest)) t ta skip n' m')
                (fun nodes _ => nodes = [fsearch_query_node_new_match_nothing])
                c2).
  { intros l open' k' ta skip n' m' c2 Hl Hex2 Hf El Hi2.
    unfold next_iteration. apply wp_bind.
    assert (Hgo : forall r' c3,
               quiet c2 c3 0 ->
               wp (parse_expression_loop fuel false flags r' n' m')
                  (fun nodes _ =>
                     nodes = [fsearch_query_node_new_match_nothing]) c3).
    { intros r' c3 Hq3.
      assert (El3 : lexer c3 = l)
        by (rewrite (proj1 (proj2 Hq3)); exact El).
      assert (Hf3 : frame (with_lexer c l) c3)
        by (eapply frame_trans; [exact Hf | apply Hq3]).
      apply IH with (open := open') (k := k').
      - apply (Hb1 l Hl). exact Hf3.
      - destruct Hf3 as (F1 & F2 & _).
        cbn [macro_filters macro_stack with_lexer] in F1, F2.
        rewrite El3, F1, F2. exact Hex2.
      - eapply close_inv_quiet; eauto. }
    destruct ta as [|x ta]; [apply wp_ret, Hgo, quiet_refl|].
    apply wp_bind.
    assert (Hset : forall ia c3,
               quiet c2 c3 0 ->
               wp (set_last_token t ;;; ret ((r ++ ia) ++ x :: ta))
                  (fun r' c4 =>
                     wp (parse_expression_loop fuel false flags r' n' m')
                        (fun nodes _ =>
                           nodes = [fsearch_query_node_new_match_nothing])
                        c4) c3).
    { intros ia c3 Hq3. cbn. apply Hgo.
      replace 0 with (0 + 0) by lia.
      eapply quiet_trans; [exact Hq3 | apply quiet_with_last_token]. }
    destruct skip; [apply wp_ret, Hset, quiet_refl|].
    apply wp_get_implicit_and_if_necessary. intros ia c3 Hq3.
    apply Hset. exact Hq3. }
  assert (Hi1 : close_inv open n m (with_lexer c rest)) by exact Hi.
  assert (Hquiet : forall c2 d,
             quiet (with_lexer c rest) c2 d ->
             frame (with_lexer c rest) c2 /\ lexer c2 = rest).
  { intros c2 d (Hf & Hl & _). auto. }
  apply wp_get_ctx.
  rewrite E in Hex.
  destruct t; cbn [reads_excess_close] in Hex;
    try (apply (Hcont rest open k); auto using frame_refl; fail).
  - now elim Ht.
  - (* FIELD *)
    destruct (field_rest (macro_filters c) (macro_stack c) k s rest)
      as [ls|] eqn:E2; [|discriminate Hex].
    apply wp_deref. apply wp_bind.
    destruct (parser_total fuel) as (_ & Hfield & _).
    assert (Hw := Hfield s false flags (with_lexer c rest)).
    assert (Hb2 : (expression_budget (with_lexer c rest) + 1 <= fuel)%nat)
      by (pose proof (expression_budget_token c E); lia).
    specialize (Hw Hb2 (proj1 Hi)).
    unfold wp in Hw |- *.
    destruct (parse_field fuel s false flags (with_lexer c rest))
      as [[ta c2]| |] eqn:Ef; try exact Hw.
    destruct (parser_lexer fuel) as (_ & Hlex & _).
    apply Hlex in Ef. destruct Ef as (_ & _ & Ef).
    cbn [macro_filters macro_stack lexer with_lexer] in Ef.
    specialize (Ef k ls E2).
    assert (Hex2 : reads_excess_close (macro_filters c) (macro_stack c) k
                     open (lexer c2) = true).
    { rewrite forallb_forall in Hex. apply Hex. exact Ef. }
    destruct Hw as [Hf Hc].
    assert (Hc2 : bracket_count (operator_stack (with_lexer c rest))
                  <= bracket_count (operator_stack c2)).
    { destruct Hc as [He|Hc]; [|exact Hc].
      rewrite (reads_excess_close_at_eos _ _ k open _ He) in Hex2.
      discriminate Hex2. }
    assert (Hl2 : (List.length (lexer c2) <= List.length rest)%nat).
    { destruct Hf as (_ & _ & F3 & _). exact F3. }
    apply (Hcont (lexer c2) open k); auto.
    + destruct Hf as (F1 & F2 & F3 & F4 & F5).
      unfold frame. cbn [macro_filters macro_stack lexer operator_stack
                         with_lexer] in *.
      repeat split; auto.
    + destruct Hi as (Hok & Hn & Hm & Hk & Hbc).
      destruct Hf as (F1 & F2 & F3 & F4 & F5).
      cbn [operator_stack with_lexer] in *.
      repeat split; auto; lia.
  - (* FIELD_EMPTY *)
    apply wp_deref. apply wp_bind.
    destruct (parser_total fuel) as (_ & Hfield & _).
    assert (Hw := Hfield s true flags (with_lexer c rest)).
    assert (Hb2 : (expression_budget (with_lexer c rest) + 1 <= fuel)%nat)
      by (pose proof (expression_budget_token c E); lia).
    specialize (Hw Hb2 (proj1 Hi)).
    unfold wp in Hw |- *.
    destruct (parse_field fuel s true flags (with_lexer c rest))
      as [[ta c2]| |] eqn:Ef; try exact Hw.
    apply parse_field_empty_restores in Ef. destruct Ef as [El Es].
    assert (Hq : quiet (with_lexer c rest) c2 0).
    { split; [apply Hw|]. split; [exact El | rewrite Es; lia]. }
    apply (Hcont rest open k); auto; [apply Hq|].
    eapply close_inv_quiet; eauto.
  - (* AND *)
    apply wp_bind.
    apply wp_is_operator_token_followed_by_operand; [reflexivity|].
    intros [|]; [|apply (Hcont rest open k); auto using frame_refl].
    apply wp_bind. apply wp_parse_operator; [reflexivity|].
    intros ta c2 Hq. destruct (Hquiet _ _ Hq).
    apply (Hcont rest open k); auto.
    eapply close_inv_quiet; eauto.
  - (* OR *)
    apply wp_bind.
    apply wp_is_operator_token_followed_by_operand; [reflexivity|].
    intros [|]; [|apply (Hcont rest open k); auto using frame_refl].
    apply wp_bind. apply wp_parse_operator; [reflexivity|].
    intros ta c2 Hq. destruct (Hquiet _ _ Hq).
    apply (Hcont rest open k); auto.
    eapply close_inv_quiet; eauto.
  - (* NOT *)
    apply wp_bind. apply wp_consume_consecutive_not_token_exact.
    cbn [lexer with_lexer].
    destruct (reads_excess_close_consume _ _ rest true _ _ Hex)
      as [k' Hex2].
    destruct (consume_consecutive_not_token_loop true rest) as [uneven l]
      eqn:Ec.
    pose proof (consume_consecutive_not_token_loop_lexer _ _ Ec) as [Hl _].
    cbn [fst snd] in *.
    change (with_lexer (with_lexer c rest) l) with (with_lexer c l).
    destruct uneven;
      [|apply (Hcont l open k'); auto using frame_refl].
    apply wp_bind.
    apply wp_is_operator_token_followed_by_operand; [reflexivity|].
    intros [|]; [|apply (Hcont l open k'); auto using frame_refl].
    apply wp_bind. apply wp_get_implicit_and_if_necessary.
    intros ia c3 Hq3.
    apply wp_bind. apply wp_parse_operator; [reflexivity|].
    intros op c4 Hq4.
    pose proof (quiet_trans Hq3 Hq4) as Hq.
    apply (Hcont l open k'); auto; [apply Hq | apply Hq|].
    eapply close_inv_quiet; [|exact Hq]. exact Hi.
  - (* BRACKET_OPEN *)
    apply wp_bind. apply wp_parse_open_bracket. intros ta c2 Hq.
    apply wp_bind.
    unfold wp at 1, discard_consecutive_binary_operator_tokens, bind,
      get_ctx, set_lexer.
    destruct (Hquiet _ _ Hq) as [Hf Hl2]. rewrite Hl2.
    destruct (reads_excess_close_discard _ _ rest _ _ Hex) as [k' Hex2].
    destruct (discard_consecutive_binary_operator_tokens_loop_lexer rest)
      as [Hl _].
    set (l := discard_consecutive_binary_operator_tokens_loop rest) in *.
    apply (Hcont l (S open) k'); auto; try congruence.
    + unfold frame in *. ctx_simpl.
      destruct Hf as (F1 & F2 & F3 & F4 & F5). repeat split; auto.
    + apply close_inv_with_lexer. eapply close_inv_open; eauto.
  - (* BRACKET_CLOSE *)
    destruct (m <? n) eqn:Elt; [|apply wp_ret; reflexivity].
    apply Z.ltb_lt in Elt.
    destruct (close_inv_close Hi1 Elt) as (open' & -> & Hc & Hnext).
    apply wp_bind. apply wp_parse_close_bracket; [apply Hi1 | exact Hc|].
    intros ta c2 Hq Hok2. destruct (Hquiet _ _ Hq).
    cbn [andb].
    apply (Hcont rest open' k); auto.
Qed.

(** C3, as the code has it: a top-level parse in which the main loop
    itself comes, before the end of the stream, to a closing bracket while
    no bracket it has opened is left open returns exactly the match-nothing
    leaf.  What a field reads as its argument is not read by the main loop:
    the token after a function (two after a comparison sign), the token
    after a modifier, or the bracketed group or the field that this token
    opens.  A macro that is expanded to nodes reads nothing of the stream;
    where the body of a macro does not show that it gives a node and its
    name is also a modifier or a function, the closing bracket is to be
    reached in both cases. *)
Theorem bracket_drop
  (filters : list FsearchFilter) (flags : FsearchQueryFlags)
  (input : FsearchQueryLexer) :
  unmatched_close filters input = true ->
  parsed_nodes (fsearch_query_parse filters flags input)
  = Some [fsearch_query_node_new_match_nothing].
Proof.
  intros Hex.
  unfold fsearch_query_parse, fsearch_query_parser_parse_expression.
  pose proof (@parse_expression_loop_reads_excess_close
                (expression_budget (initial_context filters input))
                flags [] 0 0 0%nat (initial_context filters input)
                (S (List.length input))) as H.
  assert (Hi : close_inv 0 0 0 (initial_context filters input)).
  { unfold close_inv. cbn. repeat split; try lia. exists 0. lia. }
  specialize (H (Nat.le_refl _) Hex Hi).
  unfold wp in H.
  destruct (parse_expression_loop _ false flags [] 0 0 _) as [[nodes c']| |];
    [cbn; now f_equal | now elim H | now elim H].
Qed.

(** On a stream without fields that take an argument, the main loop reads
    every token itself, and an excess of closing brackets in a prefix of
    the stream is an unmatched bracket of the loop. *)
Lemma excess_close_unmatched filters input :
  no_field_token input = true ->
  excess_close 0 input = true ->
  unmatched_close filters input = true.
Proof.
  intros Hnf Hex. unfold unmatched_close.
  apply excess_close_reads; [lia | exact Hnf | exact Hex].
Qed.

End UnmatchedBrackets.

Lemma bracket_drop_witness :
  unmatched_close (ext := example_external) []
    [ (FSEARCH_QUERY_TOKEN_FIELD, "case");
      (FSEARCH_QUERY_TOKEN_WORD, "a");
      (FSEARCH_QUERY_TOKEN_BRACKET_CLOSE, ")");
      (FSEARCH_QUERY_TOKEN_WORD, "b") ] = true
  /\ parsed_nodes
       (fsearch_query_parse (ext := example_external) [] 0
          [ (FSEARCH_QUERY_TOKEN_FIELD, "case");
            (FSEARCH_QUERY_TOKEN_WORD, "a");
            (FSEARCH_QUERY_TOKEN_BRACKET_CLOSE, ")");
            (FSEARCH_QUERY_TOKEN_WORD, "b") ])
     = Some [fsearch_query_node_new_match_nothing].
Proof.
  split; [reflexivity|].
  apply (bracket_drop (ext := example_external) [] 0
           [ (FSEARCH_QUERY_TOKEN_FIELD, "case");
             (FSEARCH_QUERY_TOKEN_WORD, "a");
             (FSEARCH_QUERY_TOKEN_BRACKET_CLOSE, ")");
             (FSEARCH_QUERY_TOKEN_WORD, "b") ]).
  reflexivity.
Defined.

(** The closing bracket behind the argument of a field is the main
    loop's, in [size:5 )] and behind the group of [case:( a ) )]; the one
    that is the argument, in [ext:) a], is not. *)
Example brackets_behind_field_arguments :
  unmatched_close (ext := example_external) []
    [ (FSEARCH_QUERY_TOKEN_FIELD, "size");
      (FSEARCH_QUERY_TOKEN_WORD, "5");
      (FSEARCH_QUERY_TOKEN_BRACKET_CLOSE, ")") ] = true
  /\ unmatched_close (ext := example_external) []
       [ (FSEARCH_QUERY_TOKEN_FIELD, "case");
         (FSEARCH_QUERY_TOKEN_BRACKET_OPEN, "(");
         (FSEARCH_QUERY_TOKEN_WORD, "a");
         (FSEARCH_QUERY_TOKEN_BRACKET_CLOSE, ")");
         (FSEARCH_QUERY_TOKEN_BRACKET_CLOSE, ")") ] = true
  /\ unmatched_close (ext := example_external) []
       [ (FSEARCH_QUERY_TOKEN_FIELD, "ext");
         (FSEARCH_QUERY_TOKEN_BRACKET_CLOSE, ")");
         (FSEARCH_QUERY_TOKEN_WORD, "a") ] = false.
Proof. repeat split. Qed.

(** A name that is a macro and a modifier: the expansion of [case:] to
    the body [NOT] is empty, the field goes on to the modifier and reads
    [a]; the closing bracket behind it is the main loop's whether the
    expansion is empty or not. *)
Example bracket_behind_macro_and_modifier :
  unmatched_close (ext := lexing_external)
    [ {| filter_macro := "case"; filter_query := "NOT";
         filter_flags := 0 |} ]
    [ (FSEARCH_QUERY_TOKEN_FIELD, "case");
      (FSEARCH_QUERY_TOKEN_WORD, "a");
      (FSEARCH_QUERY_TOKEN_BRACKET_CLOSE, ")") ] = true
  /\ parsed_nodes
       (fsearch_query_parse (ext := lexing_external)
          [ {| filter_macro := "case"; filter_query := "NOT";
               filter_flags := 0 |} ] 0
          [ (FSEARCH_QUERY_TOKEN_FIELD, "case");
            (FSEARCH_QUERY_TOKEN_WORD, "a");
            (FSEARCH_QUERY_TOKEN_BRACKET_CLOSE, ")") ])
     = Some [fsearch_query_node_new_match_nothing]
  /\ parsed_nodes
       (fsearch_query_parse (ext := lexing_external)
          [ {| filter_macro := "case"; filter_query := "NOT";
               filter_flags := 0 |} ] 0
          [ (FSEARCH_QUERY_TOKEN_FIELD, "case");
            (FSEARCH_QUERY_TOKEN_WORD, "a") ])
     = Some [fsearch_query_node_new "a" 1].
Proof. repeat split. Qed.

(** C3, as the specification states it, fails: in [ext:) a] the closing
    bracket is read as the argument of [ext], the main loop never sees it,
    and the parse goes on to the word. *)
Lemma bracket_drop_fails_after_field :
  excess_close 0
    [ (FSEARCH_QUERY_TOKEN_FIELD, "ext");
      (FSEARCH_QUERY_TOKEN_BRACKET_CLOSE, ")");
      (FSEARCH_QUERY_TOKEN_WORD, "a") ] = true
  /\ parsed_nodes
       (fsearch_query_parse (ext := example_external) [] 0
          [ (FSEARCH_QUERY_TOKEN_FIELD, "ext");
            (FSEARCH_QUERY_TOKEN_BRACKET_CLOSE, ")");
            (FSEARCH_QUERY_TOKEN_WORD, "a") ])
     = Some [ fsearch_query_node_new_match_nothing;
              fsearch_query_node_new "a" 0;
              fsearch_query_node_new_operator FSEARCH_QUERY_NODE_OPERATOR_AND ]
  /\ parsed_nodes
       (fsearch_query_parse (ext := example_external) [] 0
          [ (FSEARCH_QUERY_TOKEN_FIELD, "ext");
            (FSEARCH_QUERY_TOKEN_BRACKET_CLOSE, ")");
            (FSEARCH_QUERY_TOKEN_WORD, "a") ])
     <> Some [fsearch_query_node_new_match_nothing].
Proof. split; [reflexivity | split; [reflexivity | discriminate]]. Qed.

(** * Further properties *)

(** ** Integers and ranges *)

Lemma string_app_assoc (a b c : string) :
  ((a ++ b) ++ c)%string = (a ++ b ++ c)%string.
Proof. induction a as [|x a IH]; simpl; [reflexivity | now rewrite IH]. Qed.

Lemma strsplit_first_separator (rest : string) :
  strsplit_first (String "." (String "." rest)) = Some (EmptyString, rest).
Proof. reflexivity. Qed.

Lemma strsplit_first_other (c : ascii) (rest : string) :
  Ascii.eqb c "." = false ->
  strsplit_first (String c rest)
  = match strsplit_first rest with
    | Some (l, r) => Some (String c l, r)
    | None => None
    end.
Proof.
  intros H. destruct c as [[|] [|] [|] [|] [|] [|] [|] [|]];
    try reflexivity; discriminate H.
Qed.

Lemma strsplit_first_dot_other (c : ascii) (rest : string) :
  Ascii.eqb c "." = false ->
  strsplit_first (String "." (String c rest))
  = match strsplit_first (String c rest) with
    | Some (l, r) => Some (String "." l, r)
    | None => None
    end.
Proof.
  intros H. destruct c as [[|] [|] [|] [|] [|] [|] [|] [|]];
    try reflexivity; discriminate H.
Qed.

Lemma strsplit_first_join (s l r : string) :
  strsplit_first s = Some (l, r) -> s = (l ++ ".." ++ r)%string.
Proof.
  revert l r. induction s as [|c s IH]; intros l r H; [discriminate|].
  destruct (Ascii.eqb c ".") eqn:Ec.
  - apply Ascii.eqb_eq in Ec. subst c.
    destruct s as [|c2 s2]; [discriminate|].
    destruct (Ascii.eqb c2 ".") eqn:Ec2.
    + apply Ascii.eqb_eq in Ec2. subst c2.
      rewrite strsplit_first_separator in H. inversion H; subst. reflexivity.
    + rewrite strsplit_first_dot_other in H by assumption.
      destruct (strsplit_first (String c2 s2)) as [[l' r']|] eqn:E;
        [|discriminate].
      inversion H; subst. simpl. f_equal. now apply IH.
  - rewrite strsplit_first_other in H by assumption.
    destruct (strsplit_first s) as [[l' r']|] eqn:E; [|discriminate].
    inversion H; subst. simpl. f_equal. now apply IH.
Qed.

Lemma strsplit_first_no_dot (a : string) :
  no_dot a = true -> strsplit_first a = None.
Proof.
  induction a as [|c a IH]; [reflexivity|].
  intros H. cbn [no_dot] in H. apply andb_prop in H. destruct H as [Hc Ha].
  apply negb_true_iff in Hc.
  rewrite strsplit_first_other by assumption. now rewrite IH.
Qed.

Lemma strsplit_first_after_no_dot (a b : string) :
  no_dot a = true ->
  strsplit_first (a ++ ".." ++ b)%string = Some (a, b).
Proof.
  induction a as [|c a IH]; [reflexivity|].
  intros H. cbn [no_dot] in H. apply andb_prop in H. destruct H as [Hc Ha].
  apply negb_true_iff in Hc.
  cbn [String.append].
  rewrite strsplit_first_other by assumption.
  cbn [String.append] in IH. now rewrite IH.
Qed.

(** *** [parse_integer] *)

Lemma read_digits_all (s : string) : forall acc v,
  read_digits acc s = (v, EmptyString) ->
  no_dot s = true
  /\ (s <> EmptyString ->
      exists prefix c d,
        s = (prefix ++ String c EmptyString)%string
        /\ digit_value c = Some d).
Proof.
  induction s as [|c s IH]; intros acc v H.
  - split; [reflexivity|]. intros E. now elim E.
  - simpl in H. destruct (digit_value c) as [d|] eqn:Ed; [|discriminate].
    destruct (IH _ _ H) as [Hn Hl]. split.
    + simpl. rewrite Hn, andb_true_r.
      apply negb_true_iff. apply Ascii.eqb_neq. intros ->. discriminate Ed.
    + intros _. destruct s as [|c2 s2].
      * exists EmptyString, c, d. auto.
      * destruct Hl as (prefix & c' & d' & E & Hd); [discriminate|].
        exists (String c prefix), c', d'. simpl. now rewrite <- E.
Qed.

Lemma skip_spaces_prefix (s : string) :
  exists p,
    s = (p ++ skip_spaces s)%string
    /\ (no_dot (skip_spaces s) = true -> no_dot s = true).
Proof.
  induction s as [|c s (p & E & Hn)].
  - exists EmptyString. auto.
  - simpl. destruct (is_space c) eqn:Es.
    + exists (String c p). simpl. split; [now rewrite <- E|].
      intros H. rewrite (Hn H), andb_true_r.
      apply negb_true_iff. apply Ascii.eqb_neq. intros ->. discriminate Es.
    + exists EmptyString. auto.
Qed.

Lemma strtoll_all (str : string) (v : Z) :
  strtoll str = Some (v, EmptyString) ->
  INT64_MIN <= v <= INT64_MAX
  /\ no_dot str = true
  /\ exists prefix c d,
       str = (prefix ++ String c EmptyString)%string
       /\ digit_value c = Some d.
Proof.
  unfold strtoll. intros H.
  destruct (skip_spaces_prefix str) as (p & Ep & Hn).
  set (s := skip_spaces str) in *.
  assert (Hbody : forall (negative : bool) (body q : string),
    s = (q ++ body)%string ->
    (no_dot body = true -> no_dot s = true) ->
    (if starts_with_digit body
     then let '(magnitude, suffix) := read_digits 0 body in
          let value := if negative then - magnitude else magnitude in
          Some (Z.max INT64_MIN (Z.min INT64_MAX value), suffix)
     else @None (Z * string)) = Some (v, EmptyString) ->
    INT64_MIN <= v <= INT64_MAX
    /\ no_dot str = true
    /\ exists prefix c d,
         str = (prefix ++ String c EmptyString)%string
         /\ digit_value c = Some d).
  { intros negative body q Eq Hq Hb.
    destruct (starts_with_digit body) eqn:Esd; [|discriminate].
    destruct (read_digits 0 body) as [magnitude suffix] eqn:Er.
    cbv zeta in Hb. inversion Hb; subst suffix.
    destruct (read_digits_all _ _ Er) as [Hnd Hlast].
    split; [unfold INT64_MIN, INT64_MAX; lia|].
    split; [auto|].
    destruct Hlast as (prefix & c & d & E & Hd).
    { intros ->. discriminate Esd. }
    exists (p ++ q ++ prefix)%string, c, d. split; [|exact Hd].
    rewrite Ep at 1. rewrite Eq, E. now rewrite !string_app_assoc. }
  destruct s as [|c body] eqn:Es.
  - apply (Hbody false EmptyString EmptyString); auto.
  - destruct (Ascii.eqb c "-") eqn:Em.
    + apply Ascii.eqb_eq in Em. subst c.
      apply (Hbody true body "-"); auto.
    + destruct (Ascii.eqb c "+") eqn:Epl.
      * apply Ascii.eqb_eq in Epl. subst c.
        apply (Hbody false body "+"); auto.
      * apply (Hbody false (String c body) EmptyString); auto.
        apply Ascii.eqb_neq in Em. apply Ascii.eqb_neq in Epl.
        destruct c as [[|] [|] [|] [|] [|] [|] [|] [|]];
          try exact H; congruence.
Qed.

(** X1: [parse_integer] accepts a string only if the number reaches its
    end: the string is not empty and its last character is a decimal digit,
    so anything after the digits, white space included, makes it fail.  On
    success both outputs hold the same value, within the range of
    [int64_t]. *)
Theorem parse_integer_accepts (str : string) (num num_2 : Z) :
  parse_integer str = Some (num, num_2) ->
  num_2 = num
  /\ INT64_MIN <= num <= INT64_MAX
  /\ exists prefix c d,
       str = (prefix ++ String c EmptyString)%string
       /\ digit_value c = Some d.
Proof.
  unfold parse_integer. intros H.
  destruct (strtoll str) as [[v suffix]|] eqn:E; [|discriminate].
  destruct suffix; [|discriminate]. inversion H; subst.
  destruct (strtoll_all _ E) as (Hr & _ & Hl). auto.
Qed.

Lemma parse_integer_accepts_witness :
  parse_integer "-42" = Some (-42, -42)
  /\ (-42 = -42
      /\ INT64_MIN <= -42 <= INT64_MAX
      /\ exists prefix c d,
           "-42" = (prefix ++ String c EmptyString)%string
           /\ digit_value c = Some d).
Proof.
  split; [reflexivity|].
  apply (parse_integer_accepts "-42" (num := -42) (num_2 := -42)).
  reflexivity.
Defined.

Lemma parse_integer_no_dot (str : string) (r : Z * Z) :
  parse_integer str = Some r -> no_dot str = true /\ str <> EmptyString.
Proof.
  unfold parse_integer. intros H.
  destruct (strtoll str) as [[v suffix]|] eqn:E; [|discriminate].
  destruct suffix; [|discriminate].
  destruct (strtoll_all _ E) as (_ & Hn & (p & c & d & Es & _)).
  split; [exact Hn|]. intros ->. destruct p; discriminate Es.
Qed.

(** *** The split at the range separator *)

Lemma strsplit_first_earliest (s l r : string) :
  strsplit_first s = Some (l, r) ->
  strsplit_first (l ++ ".")%string = None.
Proof.
  revert l r. induction s as [|c s IH]; intros l r H; [discriminate|].
  destruct (Ascii.eqb c ".") eqn:Ec.
  - apply Ascii.eqb_eq in Ec. subst c.
    destruct s as [|c2 s2]; [discriminate|].
    destruct (Ascii.eqb c2 ".") eqn:Ec2.
    + apply Ascii.eqb_eq in Ec2. subst c2.
      rewrite strsplit_first_separator in H. inversion H; subst. reflexivity.
    + rewrite strsplit_first_dot_other in H by assumption.
      destruct (strsplit_first (String c2 s2)) as [[l' r']|] eqn:E;
        [|discriminate].
      inversion H; subst l r.
      specialize (IH _ _ eq_refl).
      destruct l' as [|c3 l3].
      * (* the left part cannot be empty: [c2] is not a full stop *)
        apply strsplit_first_join in E. cbn in E. inversion E; subst c2.
        discriminate Ec2.
      * assert (c3 = c2).
        { apply strsplit_first_join in E. cbn in E. now inversion E. }
        subst c3. cbn [String.append].
        rewrite strsplit_first_dot_other by assumption.
        cbn [String.append] in IH. now rewrite IH.
  - rewrite strsplit_first_other in H by assumption.
    destruct (strsplit_first s) as [[l' r']|] eqn:E; [|discriminate].
    inversion H; subst l r. cbn [String.append].
    rewrite strsplit_first_other by assumption.
    now rewrite (IH _ _ eq_refl).
Qed.

(** X2: the split of a word at the separator [..] loses nothing: it gives
    at most two parts, no part at all exactly for the empty word, the parts
    joined by the separator are the word again, and the cut is at the first
    separator of the word (no separator begins inside the left part), so a
    second separator stays in the right part. *)
Theorem g_strsplit_join (s : string) :
  String.concat ".." (g_strsplit s) = s
  /\ (List.length (g_strsplit s) <= 2)%nat
  /\ (g_strsplit s = [] <-> s = EmptyString)
  /\ (forall l r,
         g_strsplit s = [l; r] -> strsplit_first (l ++ ".")%string = None).
Proof.
  unfold g_strsplit. destruct s as [|c s].
  - repeat split; simpl; auto; discriminate.
  - destruct (strsplit_first (String c s)) as [[l r]|] eqn:E.
    + repeat split; simpl; try lia; try discriminate.
      * symmetry. now apply strsplit_first_join.
      * intros l' r' H. inversion H; subst.
        eapply strsplit_first_earliest; eauto.
    + repeat split; simpl; try lia; try discriminate.
Qed.

(** *** When the range parser fails *)

(** X3: for every value parser, the range parser takes the [fail] label
    exactly on the empty word and on a word one of whose non-empty parts the
    value parser rejects; an empty part never makes it fail. *)
Theorem numeric_range_fails_iff
  (parse_value_func : FsearchQueryIntegerParserFunc) (str : string) :
  numeric_range_values parse_value_func str = None
  <-> (str = EmptyString
       \/ exists e,
            In e (g_strsplit str)
            /\ fsearch_string_is_empty e = false
            /\ parse_value_func e = None).
Proof.
  unfold numeric_range_values, g_strsplit.
  destruct str as [|c s].
  { split; auto. }
  destruct (strsplit_first (String c s)) as [[l r]|].
  - destruct (fsearch_string_is_empty l) eqn:El;
      [|destruct (parse_value_func l) as [[a b]|] eqn:Pl];
      (destruct (fsearch_string_is_empty r) eqn:Er;
       [|destruct (parse_value_func r) as [[a' b']|] eqn:Pr]);
      (split;
       [ intros H; try discriminate H; right;
         first [ exists l; split; [now left | split; assumption]
               | exists r; split; [right; now left | split; assumption] ]
       | intros [H|(e & [<-|[<-|[]]] & He & Hp)]; try discriminate H;
         try reflexivity; congruence ]).
  - cbn [fsearch_string_is_empty].
    destruct (parse_value_func (String c s)) as [[a b]|] eqn:P.
    + split; [discriminate|].
      intros [H|(e & [<-|[]] & He & Hp)]; [discriminate | congruence].
    + split; [|reflexivity]. intros _. right.
      exists (String c s). repeat split; auto. now left.
Qed.

(** *** Integer arguments *)

(** X4: a word that [parse_integer] accepts, as the argument of a field
    whose values are integers (depth, childcount and the like), gives the
    node with both bounds that integer and the comparison [Equal]. *)
Theorem integer_field_single_value
  (new_node_func : FsearchQueryComparisonNewNodeFunc)
  (str : string) (flags : FsearchQueryFlags) (num num_2 : Z) :
  parse_integer str = Some (num, num_2) ->
  parse_numeric_field_with_optional_range parse_integer new_node_func
    str flags
  = new_node_func flags num num FSEARCH_QUERY_NODE_COMPARISON_EQUAL.
Proof.
  intros H.
  destruct (parse_integer_no_dot _ H) as [Hn Hne].
  destruct (parse_integer_accepts _ H) as (-> & _).
  unfold parse_numeric_field_with_optional_range, numeric_range_values,
    g_strsplit.
  rewrite (strsplit_first_no_dot _ Hn).
  destruct str as [|c s]; [now elim Hne|].
  cbn [fsearch_string_is_empty]. rewrite H. now rewrite Z.eqb_refl.
Qed.

Lemma integer_field_single_value_witness :
  parse_integer "17" = Some (17, 17)
  /\ parse_numeric_field_with_optional_range parse_integer
       fsearch_query_node_new_childcount "17" 0
     = fsearch_query_node_new_childcount 0 17 17
         FSEARCH_QUERY_NODE_COMPARISON_EQUAL.
Proof.
  split; [reflexivity|].
  apply (integer_field_single_value fsearch_query_node_new_childcount
           "17" 0 (num := 17) (num_2 := 17)).
  reflexivity.
Defined.

(** X5: two words that [parse_integer] accepts, written around the
    separator, give the node from the first integer to the second; the
    comparison is [Range], or [Equal] when both are the same. *)
Theorem integer_field_closed_range
  (new_node_func : FsearchQueryComparisonNewNodeFunc)
  (a b : string) (flags : FsearchQueryFlags) (x x' y y' : Z) :
  parse_integer a = Some (x, x') ->
  parse_integer b = Some (y, y') ->
  parse_numeric_field_with_optional_range parse_integer new_node_func
    (a ++ ".." ++ b)%string flags
  = new_node_func flags x y
      (if x =? y
       then FSEARCH_QUERY_NODE_COMPARISON_EQUAL
       else FSEARCH_QUERY_NODE_COMPARISON_RANGE).
Proof.
  intros Ha Hb.
  destruct (parse_integer_no_dot _ Ha) as [Hn Hne].
  destruct (parse_integer_no_dot _ Hb) as [_ Hbe].
  destruct (parse_integer_accepts _ Hb) as (-> & _).
  unfold parse_numeric_field_with_optional_range, numeric_range_values,
    g_strsplit.
  rewrite (strsplit_first_after_no_dot a b Hn).
  destruct a as [|c s]; [now elim Hne|].
  destruct b as [|c' s']; [now elim Hbe|].
  cbn [String.append fsearch_string_is_empty]. rewrite Ha, Hb.
  reflexivity.
Qed.

Lemma integer_field_closed_range_witness :
  parse_integer "2" = Some (2, 2)
  /\ parse_integer "5" = Some (5, 5)
  /\ parse_numeric_field_with_optional_range parse_integer
       fsearch_query_node_new_depth "2..5" 0
     = fsearch_query_node_new_depth 0 2 5 FSEARCH_QUERY_NODE_COMPARISON_RANGE.
Proof.
  split; [reflexivity|]. split; [reflexivity|].
  apply (integer_field_closed_range fsearch_query_node_new_depth
           "2" "5" 0 (x := 2) (x' := 2) (y := 5) (y' := 5));
    reflexivity.
Defined.

(** X6: an integer with the separator after it is a lower bound: the end is
    [INT32_MAX] and the comparison [GreaterEq] ([Equal] if the integer is
    [INT32_MAX] itself).  With the separator before it, it is the end of a
    [Range] that starts at 0 ([Equal] if the integer is 0). *)
Theorem integer_field_open_range
  (new_node_func : FsearchQueryComparisonNewNodeFunc)
  (a : string) (flags : FsearchQueryFlags) (x x' : Z) :
  parse_integer a = Some (x, x') ->
  parse_numeric_field_with_optional_range parse_integer new_node_func
    (a ++ "..")%string flags
  = new_node_func flags x INT32_MAX
      (if x =? INT32_MAX
       then FSEARCH_QUERY_NODE_COMPARISON_EQUAL
       else FSEARCH_QUERY_NODE_COMPARISON_GREATER_EQ)
  /\ parse_numeric_field_with_optional_range parse_integer new_node_func
       (".." ++ a)%string flags
     = new_node_func flags 0 x
         (if 0 =? x
          then FSEARCH_QUERY_NODE_COMPARISON_EQUAL
          else FSEARCH_QUERY_NODE_COMPARISON_RANGE).
Proof.
  intros Ha.
  destruct (parse_integer_no_dot _ Ha) as [Hn Hne].
  destruct (parse_integer_accepts _ Ha) as (-> & _).
  unfold parse_numeric_field_with_optional_range, numeric_range_values,
    g_strsplit.
  split.
  - pose proof (strsplit_first_after_no_dot a EmptyString Hn) as Hs.
    cbn [String.append] in Hs |- *. 
    destruct a as [|c s]; [now elim Hne|].
    cbn [String.append] in Hs |- *. rewrite Hs.
    cbn [fsearch_string_is_empty]. rewrite Ha. reflexivity.
  - destruct a as [|c s]; [now elim Hne|].
    cbn [String.append]. rewrite strsplit_first_separator.
    cbn [fsearch_string_is_empty]. rewrite Ha. reflexivity.
Qed.

Lemma integer_field_open_range_witness :
  parse_integer "3" = Some (3, 3)
  /\ parse_numeric_field_with_optional_range parse_integer
       fsearch_query_node_new_depth "3.." 0
     = fsearch_query_node_new_depth 0 3 INT32_MAX
         FSEARCH_QUERY_NODE_COMPARISON_GREATER_EQ
  /\ parse_numeric_field_with_optional_range parse_integer
       fsearch_query_node_new_depth "..3" 0
     = fsearch_query_node_new_depth 0 0 3 FSEARCH_QUERY_NODE_COMPARISON_RANGE.
Proof.
  split; [reflexivity|].
  apply (integer_field_open_range fsearch_query_node_new_depth
           "3" 0 (x := 3) (x' := 3)).
  reflexivity.
Defined.

(** ** Fields, modifiers and filter flags *)

Ltac reads_tokens k :=
  eexists _, k;
  split;
  [ cbn; reflexivity
  | split; [lia | intros ?; first [reflexivity | discriminate]] ].

Section FieldProperties.

Context {ext : External}.

Lemma parse_numeric_function_reads is_empty_field flags new_node_func
  parse_value_func ctx :
  exists node k,
    parse_numeric_function is_empty_field flags new_node_func
      parse_value_func ctx
    = Done ([node], with_lexer ctx (skipn k (lexer ctx)))
    /\ (k <= 2)%nat
    /\ (is_empty_field = true -> k = 0%nat).
Proof.
  destruct ctx as [lx st ms mf last].
  destruct is_empty_field.
  { reads_tokens 0%nat. }
  assert (Hcmp : forall comp_type s1 l,
    lx = s1 :: l ->
    exists node k,
      ('(is_word, next_token_value) <- expect_word ;;
       if is_word
       then
         str <- deref next_token_value ;;
         match parse_value_func str with
         | Some (val_1, val_2) =>
             ret (new_list (new_node_func flags val_1 val_2 comp_type))
         | None => ret (new_list fsearch_query_node_new_match_nothing)
         end
       else ret (new_list fsearch_query_node_new_match_nothing))
        {| lexer := l; operator_stack := st; macro_stack := ms;
           macro_filters := mf; last_token := last |}
      = Done ([node],
              with_lexer
                {| lexer := lx; operator_stack := st; macro_stack := ms;
                   macro_filters := mf; last_token := last |}
                (skipn k lx))
      /\ (k <= 2)%nat /\ (false = true -> k = 0%nat)).
  { intros comp_type s1 l ->.
    destruct l as [|[t2 s2] rest].
    - reads_tokens 1%nat.
    - destruct t2;
        try (reads_tokens 2%nat).
      + reads_tokens 1%nat.
      + unfold bind, expect_word, lexer_next, get_ctx, deref. cbn.
        destruct (parse_value_func s2) as [[v1 v2]|];
          reads_tokens 2%nat. }
  destruct lx as [|[t1 s1] l].
  - reads_tokens 0%nat.
  - unfold parse_numeric_function.
    destruct t1;
      try (reads_tokens 1%nat);
      try (reads_tokens 0%nat);
      unfold bind at 1, lexer_next, get_ctx; cbn;
      eapply Hcmp; reflexivity.
Qed.

Lemma string_function_reads (build : string -> FsearchQueryNode) ctx :
  exists node k,
    ('(is_word, token_value) <- expect_word ;;
     if is_word
     then str <- deref token_value ;; ret (new_list (build str))
     else ret (new_list fsearch_query_node_new_match_nothing)) ctx
    = Done ([node], with_lexer ctx (skipn k (lexer ctx)))
    /\ (k <= 2)%nat
    /\ (false = true -> k = 0%nat).
Proof.
  destruct ctx as [lx st ms mf last].
  destruct lx as [|[t1 s1] l].
  - reads_tokens 0%nat.
  - destruct t1;
      try (reads_tokens 1%nat).
    reads_tokens 0%nat.
Qed.

(** X7: every parser of the function table returns, and returns exactly one
    node; it reads at most two tokens of the lexer, none for an empty field,
    and leaves the operator stack, the macro stack and [last_token] as they
    were. *)
Theorem supported_function_one_node
  (field_name : string) (parser : FsearchTokenFunctionParser)
  (is_empty_field : bool) (flags : FsearchQueryFlags)
  (ctx : FsearchQueryParseContext) :
  lookup_function supported_functions field_name = Some parser ->
  exists node k,
    parser is_empty_field flags ctx
    = Done ([node], with_lexer ctx (skipn k (lexer ctx)))
    /\ (k <= 2)%nat
    /\ (is_empty_field = true -> k = 0%nat).
Proof.
  intros Hlook. unfold supported_functions in Hlook. simpl in Hlook.
  repeat match type of Hlook with
         | (if ?b then _ else _) = _ => destruct b
         end;
    inversion Hlook; subst parser;
    try apply parse_numeric_function_reads.
  - unfold parse_function_contenttype. destruct is_empty_field.
    + destruct ctx. reads_tokens 0%nat.
    + apply (string_function_reads
               (fun str => fsearch_query_node_new_contenttype str flags)).
  - destruct ctx. reads_tokens 0%nat.
  - unfold parse_function_extension. destruct is_empty_field.
    + destruct ctx. reads_tokens 0%nat.
    + apply (string_function_reads
               (fun str => fsearch_query_node_new_extension (Some str) flags)).
  - unfold parse_function_parent. destruct is_empty_field.
    + destruct ctx. reads_tokens 0%nat.
    + apply (string_function_reads
               (fun str => fsearch_query_node_new_parent str
                             (flags_add flags QUERY_FLAG_EXACT_MATCH))).
Qed.

(** X8: a field whose name is no macro of the registry, no modifier and no
    function yields the single match-nothing leaf and reads no token,
    whether it came with an argument or not. *)
Theorem unknown_field_matches_nothing
  (fuel : nat) (field_name : string) (is_empty_field : bool)
  (flags : FsearchQueryFlags) (ctx : FsearchQueryParseContext) :
  lookup_macro (macro_filters ctx) 0 field_name = None ->
  lookup_modifier supported_modifiers field_name = None ->
  lookup_function supported_functions field_name = None ->
  parse_field (S (S fuel)) field_name is_empty_field flags ctx
  = Done ([fsearch_query_node_new_match_nothing], ctx).
Proof.
  intros Hm Hmod Hf. cbn [parse_field parse_filter_macros].
  unfold parse_field_body, parse_filter_macros_body, bind, get_ctx.
  rewrite Hm. cbn -[lookup_modifier lookup_function].
  rewrite Hmod, Hf. reflexivity.
Qed.

(** X9: a chain of modifiers in front of a word, none of them shadowed by a
    macro, yields exactly the node of that word; its flags are the caller's
    flags with the flag operations of the chain applied from left to right.
    The chain and the word are read, nothing else of the context changes. *)
Theorem modifier_chain
  (fuel : nat)
  (chain : list (string * (FsearchQueryFlags * FsearchQueryFlagOperation))) :
  forall (field_name : string)
         (modifier : FsearchQueryFlags * FsearchQueryFlagOperation)
         (word : string) (rest : FsearchQueryLexer)
         (flags : FsearchQueryFlags) (ctx : FsearchQueryParseContext),
  Forall (fun entry =>
            lookup_macro (macro_filters ctx) 0 (fst entry) = None
            /\ lookup_modifier supported_modifiers (fst entry)
               = Some (snd entry))
         ((field_name, modifier) :: chain) ->
  parse_field (2 * List.length chain + 3 + fuel) field_name false flags
    (with_lexer ctx
       (map (fun entry => (FSEARCH_QUERY_TOKEN_FIELD, fst entry)) chain
        ++ (FSEARCH_QUERY_TOKEN_WORD, word) :: rest))
  = Done ([fsearch_query_node_new word
             (fold_left modifier_flags (modifier :: map snd chain) flags)],
          with_lexer ctx rest).
Proof.
  induction chain as [|[name' modifier'] chain IH];
    intros field_name modifier word rest flags ctx Hall.
  - inversion Hall as [|x l [Hm Hmod] _]; subst. cbn [fst snd] in *.
    change (2 * List.length
                  (@nil (string
                         * (FsearchQueryFlags * FsearchQueryFlagOperation)))
            + 3 + fuel)%nat
      with (S (S (S fuel))).
    cbn [parse_field parse_filter_macros parse_modifier].
    unfold parse_field_body, parse_filter_macros_body, parse_modifier_body,
      bind, get_ctx.
    cbn [macro_filters with_lexer]. rewrite Hm. cbn -[lookup_modifier].
    rewrite Hmod.
    destruct modifier as [flag [|]]; reflexivity.
  - inversion Hall as [|x l [Hm Hmod] Hall']; subst. cbn [fst snd] in *.
    replace (2 * List.length ((name', modifier') :: chain) + 3 + fuel)%nat
      with (S (S (2 * List.length chain + 3 + fuel)))
      by (cbn [List.length]; lia).
    specialize (IH name' modifier' word rest).
    cbn [parse_field parse_filter_macros parse_modifier].
    unfold parse_field_body at 1, parse_filter_macros_body at 1,
      parse_modifier_body at 1, bind, get_ctx.
    cbn [macro_filters with_lexer]. rewrite Hm.
    cbn -[parse_field parse_expression_loop lookup_modifier]. rewrite Hmod.
    assert (Hin : forall flags',
      parse_modifier_body
        (parse_expression_loop (2 * List.length chain + 3 + fuel))
        (parse_field (2 * List.length chain + 3 + fuel)) false flags'
        (with_lexer ctx
           ((FSEARCH_QUERY_TOKEN_FIELD, name')
            :: map (fun entry => (FSEARCH_QUERY_TOKEN_FIELD, fst entry)) chain
            ++ (FSEARCH_QUERY_TOKEN_WORD, word) :: rest))
      = Done ([fsearch_query_node_new word
                 (fold_left modifier_flags (modifier' :: map snd chain)
                    flags')],
              with_lexer ctx rest)).
    { intros flags'.
      unfold parse_modifier_body, bind, lexer_next, get_ctx, deref.
      cbn -[parse_field parse_expression_loop].
      match goal with
      | |- context [with_lexer (with_lexer ctx ?l1) ?l2] =>
          change (with_lexer (with_lexer ctx l1) l2) with (with_lexer ctx l2)
      end.
      apply (IH flags' ctx Hall'). }
    destruct modifier as [flag [|]]; cbn [map snd fold_left modifier_flags];
      apply Hin.
Qed.

End FieldProperties.

Lemma supported_function_one_node_witness :
  lookup_function (supported_functions (ext := example_external)) "ext"
  = Some parse_function_extension
  /\ exists node k,
       parse_function_extension false 0
         (initial_context [] [(FSEARCH_QUERY_TOKEN_WORD, "pdf")])
       = Done ([node],
               with_lexer
                 (initial_context [] [(FSEARCH_QUERY_TOKEN_WORD, "pdf")])
                 (skipn k
                    (lexer
                       (initial_context []
                          [(FSEARCH_QUERY_TOKEN_WORD, "pdf")]))))
       /\ (k <= 2)%nat
       /\ (false = true -> k = 0%nat).
Proof.
  split; [reflexivity|].
  apply (supported_function_one_node (ext := example_external) "ext"
           false 0
           (initial_context [] [(FSEARCH_QUERY_TOKEN_WORD, "pdf")])).
  reflexivity.
Defined.

Lemma unknown_field_matches_nothing_witness :
  lookup_macro
    (macro_filters (initial_context [] [(FSEARCH_QUERY_TOKEN_WORD, "x")]))
    0 "colour" = None
  /\ lookup_modifier (supported_modifiers (ext := example_external))
       "colour" = None
  /\ lookup_function (supported_functions (ext := example_external))
       "colour" = None
  /\ parse_field (ext := example_external) 2 "colour" false 0
       (initial_context [] [(FSEARCH_QUERY_TOKEN_WORD, "x")])
     = Done ([fsearch_query_node_new_match_nothing],
             initial_context [] [(FSEARCH_QUERY_TOKEN_WORD, "x")]).
Proof.
  split; [reflexivity|]. split; [reflexivity|]. split; [reflexivity|].
  apply (unknown_field_matches_nothing (ext := example_external) 0
           "colour" false 0
           (initial_context [] [(FSEARCH_QUERY_TOKEN_WORD, "x")]));
    reflexivity.
Defined.

Lemma modifier_chain_witness :
  Forall (fun entry =>
            lookup_macro (macro_filters (initial_context [] [])) 0 (fst entry)
            = None
            /\ lookup_modifier (supported_modifiers (ext := example_external))
                 (fst entry)
               = Some (snd entry))
         [("case", (1, ADD_FLAG)); ("nocase", (1, REMOVE_FLAG))]
  /\ parse_field (ext := example_external) 5 "case" false 0
       (with_lexer (initial_context [] [])
          [ (FSEARCH_QUERY_TOKEN_FIELD, "nocase");
            (FSEARCH_QUERY_TOKEN_WORD, "x") ])
     = Done ([fsearch_query_node_new "x" 0],
             with_lexer (initial_context [] []) []).
Proof.
  split; [repeat constructor|].
  apply (@modifier_chain example_external 0
           [("nocase", (1, REMOVE_FLAG))] "case" (1, ADD_FLAG) "x" [] 0
           (initial_context [] [])).
  repeat constructor.
Defined.

Ltac flag_bits :=
  apply Z.bits_inj'; intros n Hn;
  rewrite ?Z.lor_spec, ?Z.land_spec, ?Z.lnot_spec, ?Z.lor_spec,
    ?Z.land_spec by assumption;
  repeat match goal with
         | |- context [Z.testbit ?a n] => destruct (Z.testbit a n)
         end;
  reflexivity.

(** X10: of two flag operations on the same flag the later one decides:
    adding or removing a flag after the same flag was added or removed gives
    what the later operation alone gives. *)
Theorem modifier_flags_last_wins
  (flags flag : FsearchQueryFlags) (op1 op2 : FsearchQueryFlagOperation) :
  modifier_flags (modifier_flags flags (flag, op1)) (flag, op2)
  = modifier_flags flags (flag, op2).
Proof.
  destruct op1, op2; unfold modifier_flags, flags_add, flags_remove;
    flag_bits.
Qed.

Section FilterFlags.

Context {ext : External}.

(** X11: the flags a macro body is parsed under keep every flag of the
    caller, add nothing but [QUERY_FLAG_SEARCH_IN_PATH],
    [QUERY_FLAG_MATCH_CASE] and [QUERY_FLAG_REGEX], are unchanged by a second
    application of the same filter, and are the caller's flags when the
    filter has none of these three. *)
Theorem apply_filter_flags_bounds
  (filter : FsearchFilter) (flags : FsearchQueryFlags) :
  Z.land (apply_filter_flags filter flags) flags = flags
  /\ Z.lor (apply_filter_flags filter flags)
       (Z.lor flags
          (Z.lor QUERY_FLAG_SEARCH_IN_PATH
             (Z.lor QUERY_FLAG_MATCH_CASE QUERY_FLAG_REGEX)))
     = Z.lor flags
         (Z.lor QUERY_FLAG_SEARCH_IN_PATH
            (Z.lor QUERY_FLAG_MATCH_CASE QUERY_FLAG_REGEX))
  /\ apply_filter_flags filter (apply_filter_flags filter flags)
     = apply_filter_flags filter flags
  /\ (Z.land (filter_flags filter)
        (Z.lor QUERY_FLAG_SEARCH_IN_PATH
           (Z.lor QUERY_FLAG_MATCH_CASE QUERY_FLAG_REGEX)) = 0 ->
      apply_filter_flags filter flags = flags).
Proof.
  unfold apply_filter_flags, flags_add.
  repeat split.
  - destruct (flags_test (filter_flags filter) QUERY_FLAG_SEARCH_IN_PATH),
      (flags_test (filter_flags filter) QUERY_FLAG_MATCH_CASE),
      (flags_test (filter_flags filter) QUERY_FLAG_REGEX); flag_bits.
  - destruct (flags_test (filter_flags filter) QUERY_FLAG_SEARCH_IN_PATH),
      (flags_test (filter_flags filter) QUERY_FLAG_MATCH_CASE),
      (flags_test (filter_flags filter) QUERY_FLAG_REGEX); flag_bits.
  - destruct (flags_test (filter_flags filter) QUERY_FLAG_SEARCH_IN_PATH),
      (flags_test (filter_flags filter) QUERY_FLAG_MATCH_CASE),
      (flags_test (filter_flags filter) QUERY_FLAG_REGEX); flag_bits.
  - intros H.
    assert (Hz : forall F,
               Z.land F
                 (Z.lor QUERY_FLAG_SEARCH_IN_PATH
                    (Z.lor QUERY_FLAG_MATCH_CASE QUERY_FLAG_REGEX)) = F ->
               flags_test (filter_flags filter) F = false).
    { intros F HF. unfold flags_test. apply negb_false_iff, Z.eqb_eq.
      rewrite <- HF, Z.land_assoc.
      rewrite (Z.land_comm (filter_flags filter) F), <- Z.land_assoc, H.
      apply Z.land_0_r. }
    rewrite !Hz; [reflexivity | flag_bits | flag_bits | flag_bits].
Qed.

End FilterFlags.

(** ** Single iterations of the main loop, and bracketed expressions *)

Section Steps.

Context {ext : External}.

Lemma implicit_and_effect_none last next_token ctx :
  and_trigger last = false ->
  implicit_and_effect last next_token ctx = ([], ctx).
Proof.
  unfold implicit_and_effect, and_trigger. intros ->. reflexivity.
Qed.

(** One iteration at the end of the stream. *)
Lemma parse_expression_loop_eos fuel b f r n m c :
  at_eos (lexer c) = true ->
  parse_expression_loop (S fuel) b f r n m c
  = Done (flush_operator_stack r (operator_stack c),
          with_operator_stack (with_lexer c (lexer c)) []).
Proof.
  intros E. destruct c as [lx st ms mf last]. cbn in E.
  destruct lx as [|[t s] rest]; [reflexivity|].
  destruct t; try discriminate E. reflexivity.
Qed.

(** X12: from any state of the main loop, an AND, OR or NOT whose next token
    is not an operand, an open bracket or a NOT (the end of the stream
    included) is dropped: the loop goes on as if the operator had not been
    there, with the output, the counters, the operator stack and
    [last_token] untouched. *)
Theorem operator_without_operand_dropped
  (fuel : nat) (b : bool) (f : FsearchQueryFlags)
  (r : list FsearchQueryNode) (n m : Z) (c : FsearchQueryParseContext)
  (op : FsearchQueryToken) (s : string) (rest : FsearchQueryLexer) :
  lexer c = (op, s) :: rest ->
  is_operator_token op = true ->
  (let next_token := fsearch_query_lexer_peek_next_token rest in
   is_operand_token next_token
   || token_eqb next_token FSEARCH_QUERY_TOKEN_BRACKET_OPEN
   || token_eqb next_token FSEARCH_QUERY_TOKEN_NOT) = false ->
  parse_expression_loop (S fuel) b f r n m c
  = parse_expression_loop fuel b f r n m (with_lexer c rest).
Proof.
  intros E Hop Hnext. cbv zeta in Hnext.
  destruct c as [lx st ms mf last]. cbn in E. subst lx.
  apply orb_false_elim in Hnext. destruct Hnext as [Hnext Hnot].
  apply orb_false_elim in Hnext. destruct Hnext as [Hopd Hbo].
  assert (Hf : forall c', lexer c' = rest ->
             is_operator_token_followed_by_operand op c' = Done (false, c')).
  { intros c' El.
    rewrite is_operator_token_followed_by_operand_run by assumption.
    unfold starts_operand. rewrite El, Hopd, Hbo, Hnot.
    now rewrite andb_false_r. }
  cbn [parse_expression_loop].
  unfold parse_expression_iteration, bind at 1, lexer_next, bind, get_ctx.
  destruct op; try discriminate Hop; cbn -[is_operator_token_followed_by_operand].
  - rewrite Hf by reflexivity. reflexivity.
  - rewrite Hf by reflexivity. reflexivity.
  - unfold consume_consecutive_not_token, bind, get_ctx.
    cbn -[is_operator_token_followed_by_operand].
    assert (Hc : consume_consecutive_not_token_loop true rest = (true, rest)).
    { destruct rest as [|[t' s'] rest']; [reflexivity|].
      destruct t'; try reflexivity. discriminate Hnot. }
    rewrite Hc. cbn -[is_operator_token_followed_by_operand].
    rewrite Hf by reflexivity. reflexivity.
Qed.

(** One iteration on a binary operator that is kept. *)
Lemma parse_expression_loop_binary fuel b f r n m c op s rest :
  lexer c = (op, s) :: rest ->
  is_binary_operator_token op = true ->
  starts_operand op (fsearch_query_lexer_peek_next_token rest) = true ->
  parse_expression_loop (S fuel) b f r n m c
  = let '(popped, c1) := parse_operator_effect op (with_lexer c rest) in
    parse_expression_loop fuel b f (r ++ popped) n m c1.
Proof.
  intros E Hop Hnext.
  destruct c as [lx st ms mf last]. cbn in E. subst lx.
  assert (Hop' : is_operator_token op = true)
    by (unfold is_operator_token; now rewrite Hop).
  cbn [parse_expression_loop].
  unfold parse_expression_iteration, bind at 1, lexer_next, bind, get_ctx.
  destruct op; try discriminate Hop.
  all: cbn -[is_operator_token_followed_by_operand parse_operator
             get_implicit_and_if_necessary].
  all: rewrite is_operator_token_followed_by_operand_run by reflexivity.
  all: cbn [lexer with_lexer].
  all: rewrite Hnext.
  all: rewrite parse_operator_run by reflexivity.
  all: unfold parse_operator_effect.
  all: cbn [operator_stack with_lexer with_last_token with_operator_stack
            lexer macro_stack macro_filters last_token].
  all: match goal with
       | |- context [parse_operator_loop ?t [] ?st0] =>
           destruct (parse_operator_loop t [] st0) as [popped st']
       end.
  all: unfold next_iteration, bind.
  all: destruct popped as [|x popped];
    [ cbn; now rewrite app_nil_r
    | rewrite get_implicit_and_if_necessary_run;
      unfold implicit_and_effect;
      cbn [is_operand_token token_eqb orb]; rewrite andb_false_r;
      cbn; now rewrite app_nil_r ].
Qed.

(** One iteration on a NOT that is kept. *)
Lemma parse_expression_loop_not fuel b f r n m c s rest :
  lexer c = (FSEARCH_QUERY_TOKEN_NOT, s) :: rest ->
  starts_operand FSEARCH_QUERY_TOKEN_NOT
    (fsearch_query_lexer_peek_next_token rest) = true ->
  parse_expression_loop (S fuel) b f r n m c
  = let '(implicit_and, c1) :=
      implicit_and_effect (last_token c) FSEARCH_QUERY_TOKEN_NOT
        (with_lexer c rest) in
    let '(popped, c2) := parse_operator_effect FSEARCH_QUERY_TOKEN_NOT c1 in
    parse_expression_loop fuel b f (r ++ implicit_and ++ popped) n m c2.
Proof.
  intros E Hnext.
  destruct c as [lx st ms mf last]. cbn in E. subst lx.
  assert (Hc : consume_consecutive_not_token_loop true rest = (true, rest)).
  { destruct rest as [|[t' s'] rest']; [reflexivity|].
    destruct t'; try reflexivity. discriminate Hnext. }
  unfold with_lexer. ctx_simpl.
  cbn [parse_expression_loop].
  unfold parse_expression_iteration, bind at 1, lexer_next, bind, get_ctx.
  cbn -[is_operator_token_followed_by_operand parse_operator
        get_implicit_and_if_necessary consume_consecutive_not_token].
  unfold consume_consecutive_not_token, bind, get_ctx.
  cbn -[is_operator_token_followed_by_operand parse_operator
        get_implicit_and_if_necessary consume_consecutive_not_token_loop].
  rewrite Hc.
  cbn -[is_operator_token_followed_by_operand parse_operator
        get_implicit_and_if_necessary].
  rewrite is_operator_token_followed_by_operand_run by reflexivity.
  cbn [lexer with_lexer]. rewrite Hnext.
  rewrite get_implicit_and_if_necessary_run.
  unfold with_lexer.
  cbn [lexer operator_stack macro_stack macro_filters last_token].
  match goal with
  | |- context [implicit_and_effect ?l ?t ?x] =>
      destruct (implicit_and_effect l t x) as [implicit_and c1]
  end.
  rewrite parse_operator_run by reflexivity.
  destruct (parse_operator_effect FSEARCH_QUERY_TOKEN_NOT c1)
    as [popped c2] eqn:Ep.
  unfold next_iteration, bind. cbv beta iota.
  destruct (implicit_and ++ popped) as [|x l] eqn:Ea.
  - cbn. now rewrite app_nil_r.
  - cbn.
    assert (El : last_token c2 = FSEARCH_QUERY_TOKEN_NOT).
    { unfold parse_operator_effect in Ep.
      destruct (parse_operator_loop FSEARCH_QUERY_TOKEN_NOT []
                  (operator_stack c1)).
      inversion Ep; subst. reflexivity. }
    destruct c2 as [lx2 st2 ms2 mf2 last2]. cbn in El. subst last2.
    now rewrite app_nil_r.
Qed.

(** One iteration on an open bracket. *)
Lemma parse_expression_loop_open fuel b f r n m c s rest :
  lexer c = (FSEARCH_QUERY_TOKEN_BRACKET_OPEN, s) :: rest ->
  and_trigger (last_token c) = false ->
  parse_expression_loop (S fuel) b f r n m c
  = parse_expression_loop fuel b f r (uint32_incr n) m
      {| lexer := discard_consecutive_binary_operator_tokens_loop rest;
         operator_stack :=
           FSEARCH_QUERY_TOKEN_BRACKET_OPEN :: operator_stack c;
         macro_stack := macro_stack c;
         macro_filters := macro_filters c;
         last_token := FSEARCH_QUERY_TOKEN_BRACKET_OPEN |}.
Proof.
  intros E Hl.
  destruct c as [lx st ms mf last]. cbn in E, Hl. subst lx.
  cbn [parse_expression_loop].
  unfold parse_expression_iteration, bind at 1, lexer_next, bind, get_ctx.
  cbn -[get_implicit_and_if_necessary].
  unfold parse_open_bracket, bind, get_ctx.
  cbn -[get_implicit_and_if_necessary].
  rewrite get_implicit_and_if_necessary_run.
  rewrite implicit_and_effect_none by assumption.
  reflexivity.
Qed.

(** One iteration on a closing bracket that has its open bracket and does
    not end the expression. *)
Lemma parse_expression_loop_close fuel b f r n m c s rest popped stack :
  lexer c = (FSEARCH_QUERY_TOKEN_BRACKET_CLOSE, s) :: rest ->
  m < n ->
  parse_close_bracket_loop [] (operator_stack c) = Some (popped, stack) ->
  b && (uint32_incr m =? n) = false ->
  parse_expression_loop (S fuel) b f r n m c
  = parse_expression_loop fuel b f (r ++ popped) n (uint32_incr m)
      {| lexer := rest;
         operator_stack := stack;
         macro_stack := macro_stack c;
         macro_filters := macro_filters c;
         last_token := FSEARCH_QUERY_TOKEN_BRACKET_CLOSE |}.
Proof.
  intros E Hlt Hp Hb.
  destruct c as [lx st ms mf last]. cbn in E, Hp. subst lx.
  apply Z.ltb_lt in Hlt.
  cbn [parse_expression_loop].
  unfold parse_expression_iteration, bind at 1, lexer_next, bind, get_ctx.
  cbn -[get_implicit_and_if_necessary parse_close_bracket].
  rewrite Hlt.
  unfold parse_close_bracket, bind, get_ctx.
  cbn -[get_implicit_and_if_necessary]. rewrite Hp.
  cbn -[get_implicit_and_if_necessary]. rewrite Hb.
  unfold next_iteration, bind.
  destruct popped as [|x popped].
  - cbn. now rewrite app_nil_r.
  - rewrite get_implicit_and_if_necessary_run.
    unfold implicit_and_effect.
    cbn [is_operand_token token_eqb orb]. rewrite andb_false_r.
    cbn. now rewrite app_nil_r.
Qed.

(** One iteration on the closing bracket that ends a bracketed
    expression. *)
Lemma parse_expression_loop_close_return fuel f r n m c s rest popped stack :
  lexer c = (FSEARCH_QUERY_TOKEN_BRACKET_CLOSE, s) :: rest ->
  m < n ->
  parse_close_bracket_loop [] (operator_stack c) = Some (popped, stack) ->
  uint32_incr m = n ->
  parse_expression_loop (S fuel) true f r n m c
  = Done (r ++ popped,
          {| lexer := rest;
             operator_stack := stack;
             macro_stack := macro_stack c;
             macro_filters := macro_filters c;
             last_token := FSEARCH_QUERY_TOKEN_BRACKET_CLOSE |}).
Proof.
  intros E Hlt Hp Hb.
  destruct c as [lx st ms mf last]. cbn in E, Hp. subst lx.
  apply Z.ltb_lt in Hlt. apply Z.eqb_eq in Hb.
  cbn [parse_expression_loop].
  unfold parse_expression_iteration, bind at 1, lexer_next, bind, get_ctx.
  cbn -[get_implicit_and_if_necessary parse_close_bracket].
  rewrite Hlt.
  unfold parse_close_bracket, bind, get_ctx.
  cbn -[get_implicit_and_if_necessary]. rewrite Hp.
  cbn -[get_implicit_and_if_necessary]. rewrite Hb.
  reflexivity.
Qed.

End Steps.

Ltac ctx_norm :=
  unfold with_operator_stack, with_last_token, with_lexer, with_macro_stack;
  cbn [lexer operator_stack macro_stack macro_filters last_token].

Lemma uint32_incr_small n :
  0 <= n -> n + 1 < 4294967296 -> uint32_incr n = n + 1.
Proof. intros H1 H2. unfold uint32_incr. apply Z.mod_small. lia. Qed.

Lemma expression_tokens_head text e :
  exists t s l,
    expression_tokens text e = (t, s) :: l
    /\ (t = FSEARCH_QUERY_TOKEN_WORD \/ t = FSEARCH_QUERY_TOKEN_BRACKET_OPEN).
Proof. destruct e; cbn; eexists _, _, _; split; eauto. Qed.

Lemma expression_tokens_discard text e rest :
  discard_consecutive_binary_operator_tokens_loop
    (expression_tokens text e ++ rest)
  = expression_tokens text e ++ rest.
Proof.
  destruct (expression_tokens_head text e) as (t & s & l & -> & [-> | ->]);
    reflexivity.
Qed.

Lemma expression_tokens_start text e rest op :
  is_operator_token op = true ->
  starts_operand op
    (fsearch_query_lexer_peek_next_token (expression_tokens text e ++ rest))
  = true.
Proof.
  intros _.
  destruct (expression_tokens_head text e) as (t & s & l & -> & [-> | ->]);
    unfold starts_operand; cbn; now rewrite orb_true_r.
Qed.

Lemma expression_postfix_nonempty flags e : expression_postfix flags e <> [].
Proof.
  destruct e; cbn; try discriminate;
    intros H; apply app_eq_nil in H; destruct H as [_ H];
    try (apply app_eq_nil in H; destruct H as [_ H]); discriminate.
Qed.

Section Expressions.

Context {ext : External}.

Variable text : FsearchQueryToken -> string.

(** The main loop on the bracketed form of an expression, from any state
    in which an operand may start. *)
Lemma parse_expression_loop_expression (e : query_expression) :
  forall fuel b f r n m rest st ms mf last,
  and_trigger last = false ->
  0 <= m -> m <= n -> (b = true -> m < n) ->
  n + Z.of_nat (expression_brackets e) < 4294967296 ->
  parse_expression_loop (expression_steps e + fuel) b f r n m
    {| lexer := expression_tokens text e ++ rest;
       operator_stack := st; macro_stack := ms; macro_filters := mf;
       last_token := last |}
  = parse_expression_loop fuel b f (r ++ expression_postfix f e)
      (n + Z.of_nat (expression_brackets e))
      (m + Z.of_nat (expression_brackets e))
      {| lexer := rest;
         operator_stack := st; macro_stack := ms; macro_filters := mf;
         last_token := expression_last_token e |}.
Proof.
  assert (Hbinary : forall op node e1 e2,
    is_binary_operator_token op = true ->
    get_operator_node_for_query_token op = Some node ->
    (forall fuel b f r n m rest st ms mf last,
        and_trigger last = false ->
        0 <= m -> m <= n -> (b = true -> m < n) ->
        n + Z.of_nat (expression_brackets e1) < 4294967296 ->
        parse_expression_loop (expression_steps e1 + fuel) b f r n m
          {| lexer := expression_tokens text e1 ++ rest;
             operator_stack := st; macro_stack := ms; macro_filters := mf;
             last_token := last |}
        = parse_expression_loop fuel b f (r ++ expression_postfix f e1)
            (n + Z.of_nat (expression_brackets e1))
            (m + Z.of_nat (expression_brackets e1))
            {| lexer := rest;
               operator_stack := st; macro_stack := ms; macro_filters := mf;
               last_token := expression_last_token e1 |}) ->
    (forall fuel b f r n m rest st ms mf last,
        and_trigger last = false ->
        0 <= m -> m <= n -> (b = true -> m < n) ->
        n + Z.of_nat (expression_brackets e2) < 4294967296 ->
        parse_expression_loop (expression_steps e2 + fuel) b f r n m
          {| lexer := expression_tokens text e2 ++ rest;
             operator_stack := st; macro_stack := ms; macro_filters := mf;
             last_token := last |}
        = parse_expression_loop fuel b f (r ++ expression_postfix f e2)
            (n + Z.of_nat (expression_brackets e2))
            (m + Z.of_nat (expression_brackets e2))
            {| lexer := rest;
               operator_stack := st; macro_stack := ms; macro_filters := mf;
               last_token := expression_last_token e2 |}) ->
    forall fuel b f r n m rest st ms mf last,
      and_trigger last = false ->
      0 <= m -> m <= n -> (b = true -> m < n) ->
      n + Z.of_nat (S (expression_brackets e1 + expression_brackets e2))
      < 4294967296 ->
      parse_expression_loop
        (S (expression_steps e1 + S (expression_steps e2 + 1)) + fuel)
        b f r n m
        {| lexer :=
             ((FSEARCH_QUERY_TOKEN_BRACKET_OPEN,
               text FSEARCH_QUERY_TOKEN_BRACKET_OPEN)
              :: expression_tokens text e1
              ++ (op, text op)
              :: expression_tokens text e2
              ++ [(FSEARCH_QUERY_TOKEN_BRACKET_CLOSE,
                   text FSEARCH_QUERY_TOKEN_BRACKET_CLOSE)]) ++ rest;
           operator_stack := st; macro_stack := ms; macro_filters := mf;
           last_token := last |}
      = parse_expression_loop fuel b f
          (r ++ expression_postfix f e1 ++ expression_postfix f e2 ++ [node])
          (n + Z.of_nat (S (expression_brackets e1 + expression_brackets e2)))
          (m + Z.of_nat (S (expression_brackets e1 + expression_brackets e2)))
          {| lexer := rest;
             operator_stack := st; macro_stack := ms; macro_filters := mf;
             last_token := FSEARCH_QUERY_TOKEN_BRACKET_CLOSE |}).
  { intros op node e1 e2 Hop Hnode IH1 IH2
      fuel b f r n m rest st ms mf last Hl Hm Hmn Hb Hn.
    cbn [Nat.add app].
    rewrite <- app_assoc. cbn [app]. rewrite <- app_assoc. cbn [app].
    (* the open bracket *)
    erewrite parse_expression_loop_open by (reflexivity || assumption).
    cbn [operator_stack macro_stack macro_filters].
    rewrite expression_tokens_discard.
    rewrite uint32_incr_small by lia.
    (* the left operand *)
    rewrite <- Nat.add_assoc.
    rewrite IH1 by (reflexivity || lia || (intros; lia)).
    (* the operator *)
    cbn [Nat.add].
    erewrite parse_expression_loop_binary;
      [ | reflexivity | exact Hop
        | cbn [lexer];
          apply expression_tokens_start; unfold is_operator_token;
          now rewrite Hop ].
    unfold parse_operator_effect. ctx_norm.
    cbn [parse_operator_loop].
    assert (Hprec : (get_operator_precedence op
                     <=? get_operator_precedence
                           FSEARCH_QUERY_TOKEN_BRACKET_OPEN) = false).
    { destruct op; try discriminate Hop; reflexivity. }
    rewrite Hprec. unfold push_query_token. ctx_norm. rewrite app_nil_r.
    (* the right operand *)
    rewrite <- Nat.add_assoc.
    rewrite IH2;
      [ | destruct op; try discriminate Hop; reflexivity
        | lia | lia | intros; lia | lia ].
    (* the closing bracket *)
    cbn [Nat.add].
    erewrite parse_expression_loop_close
      with (popped := [node]) (stack := st);
      [ | reflexivity | lia
        | cbn [operator_stack];
          destruct op; try discriminate Hop;
          cbn in Hnode |- *; inversion Hnode; reflexivity
        | rewrite uint32_incr_small by lia;
          destruct b; [|reflexivity];
          cbn [andb]; apply Z.eqb_neq; specialize (Hb eq_refl); lia ].
    cbn [macro_stack macro_filters].
    rewrite uint32_incr_small by lia.
    f_equal; try lia.
    rewrite <- !app_assoc. reflexivity. }
  induction e as [word|e IH|e1 IH1 e2 IH2|e1 IH1 e2 IH2];
    intros fuel b f r n m rest st ms mf last Hl Hm Hmn Hb Hn.
  - (* a word *)
    cbn [expression_steps expression_tokens expression_postfix
         expression_brackets expression_last_token Nat.add app].
    erewrite parse_expression_loop_word by reflexivity.
    cbn [last_token]. rewrite implicit_and_effect_none by assumption.
    ctx_norm.
    rewrite app_nil_r. f_equal; lia.
  - (* a negation *)
    cbn [expression_steps expression_tokens expression_postfix
         expression_brackets expression_last_token Nat.add app] in *.
    rewrite <- app_assoc. cbn [app].
    erewrite parse_expression_loop_open by (reflexivity || assumption).
    cbn [operator_stack macro_stack macro_filters].
    cbn [discard_consecutive_binary_operator_tokens_loop
         is_binary_operator_token token_eqb orb].
    rewrite uint32_incr_small by lia.
    erewrite parse_expression_loop_not;
      [ | reflexivity
        | apply expression_tokens_start; reflexivity ].
    cbn [last_token].
    rewrite implicit_and_effect_none by reflexivity.
    unfold parse_operator_effect. ctx_norm.
    cbn [parse_operator_loop get_operator_precedence Z.leb Z.compare app].
    unfold push_query_token. ctx_norm. rewrite app_nil_r.
    rewrite <- Nat.add_assoc.
    rewrite IH by (reflexivity || lia || (intros; lia)).
    cbn [Nat.add].
    erewrite parse_expression_loop_close
      with (popped := [fsearch_query_node_new_operator
                         FSEARCH_QUERY_NODE_OPERATOR_NOT])
           (stack := st);
      [ | reflexivity | lia | reflexivity
        | rewrite uint32_incr_small by lia;
          destruct b; [|reflexivity];
          cbn [andb]; apply Z.eqb_neq; specialize (Hb eq_refl); lia ].
    cbn [macro_stack macro_filters].
    rewrite uint32_incr_small by lia.
    f_equal; try lia.
    rewrite <- !app_assoc. reflexivity.
  - cbn [expression_steps expression_tokens expression_postfix
         expression_brackets expression_last_token].
    apply (Hbinary FSEARCH_QUERY_TOKEN_AND); auto.
  - cbn [expression_steps expression_tokens expression_postfix
         expression_brackets expression_last_token].
    apply (Hbinary FSEARCH_QUERY_TOKEN_OR); auto.
Qed.

End Expressions.

(** The stack evaluator on a list that continues another. *)
Lemma postfix_depth_app (a b : list FsearchQueryNode) : forall depth,
  postfix_depth (a ++ b) depth
  = match postfix_depth a depth with
    | Some depth' => postfix_depth b depth'
    | None => None
    end.
Proof.
  induction a as [|x a IH]; intros depth; [reflexivity|].
  destruct x as [| | | | | | | | | | | |[| |]]; cbn [app postfix_depth];
    try apply IH;
    destruct depth as [|[|depth]]; try reflexivity; apply IH.
Qed.

Lemma postfix_depth_expression flags e : forall depth,
  postfix_depth (expression_postfix flags e) depth = Some (S depth).
Proof.
  induction e as [word|e IH|e1 IH1 e2 IH2|e1 IH1 e2 IH2]; intros depth;
    cbn [expression_postfix];
    rewrite ?postfix_depth_app, ?IH, ?IH1, ?postfix_depth_app, ?IH2;
    reflexivity.
Qed.

Section ExpressionTheorems.

Context {ext : External}.

Variable text : FsearchQueryToken -> string.

(** X13: the fully bracketed form of an expression over words, with fewer
    than 2^32 bracket pairs, parses at top level to the postfix form of the
    expression with every word under the caller's flags.  The operator stack
    ends empty, and the postfix form leaves exactly one value on the stack
    of the evaluator. *)
Theorem bracketed_expression_parses
  (filters : list FsearchFilter) (flags : FsearchQueryFlags)
  (e : query_expression) :
  Z.of_nat (expression_brackets e) < 4294967296 ->
  fsearch_query_parse filters flags (expression_tokens text e)
  = Done (expression_postfix flags e,
          with_last_token (initial_context filters [])
            (expression_last_token e))
  /\ well_formed_postfix (expression_postfix flags e) = true.
Proof.
  intros Hb. split.
  - apply fsearch_query_parse_any_fuel
      with (fuel := (expression_steps e + 1)%nat).
    unfold initial_context.
    rewrite <- (app_nil_r (expression_tokens text e)).
    rewrite parse_expression_loop_expression
      by (reflexivity || lia || discriminate).
    reflexivity.
  - unfold well_formed_postfix. now rewrite postfix_depth_expression.
Qed.

(** X14: a modifier in front of a bracketed expression applies to the whole
    expression: where no operand precedes the field, the field yields the
    postfix form of the expression with every word under the modified flags,
    reads up to the closing bracket of the group and gives the operator stack
    back as it was. *)
Theorem modifier_scopes_bracketed_expression
  (fuel : nat) (field_name : string)
  (modifier : FsearchQueryFlags * FsearchQueryFlagOperation)
  (e : query_expression) (flags : FsearchQueryFlags)
  (rest : FsearchQueryLexer) (ctx : FsearchQueryParseContext) :
  lookup_macro (macro_filters ctx) 0 field_name = None ->
  lookup_modifier supported_modifiers field_name = Some modifier ->
  and_trigger (last_token ctx) = false ->
  Z.of_nat (expression_brackets e) + 1 < 4294967296 ->
  parse_field (S (S (S (expression_steps e + S fuel)))) field_name false
    flags
    (with_lexer ctx
       ((FSEARCH_QUERY_TOKEN_BRACKET_OPEN,
         text FSEARCH_QUERY_TOKEN_BRACKET_OPEN)
        :: expression_tokens text e
        ++ (FSEARCH_QUERY_TOKEN_BRACKET_CLOSE,
            text FSEARCH_QUERY_TOKEN_BRACKET_CLOSE) :: rest))
  = Done (expression_postfix (modifier_flags flags modifier) e,
          with_last_token (with_lexer ctx rest)
            FSEARCH_QUERY_TOKEN_BRACKET_CLOSE).
Proof.
  intros Hm Hmod Hl Hb.
  destruct ctx as [lx st ms mf last]. cbn in Hm, Hl.
  cbn [parse_field parse_filter_macros parse_modifier].
  unfold parse_field_body at 1, parse_filter_macros_body at 1,
    parse_modifier_body at 1, bind, get_ctx.
  ctx_norm. rewrite Hm.
  cbn -[parse_field parse_expression_loop lookup_modifier]. rewrite Hmod.
  assert (Hin : forall flags',
    parse_modifier_body
      (parse_expression_loop (S (expression_steps e + S fuel)))
      (parse_field (S (expression_steps e + S fuel))) false flags'
      {| lexer := (FSEARCH_QUERY_TOKEN_BRACKET_OPEN,
                   text FSEARCH_QUERY_TOKEN_BRACKET_OPEN)
                  :: expression_tokens text e
                  ++ (FSEARCH_QUERY_TOKEN_BRACKET_CLOSE,
                      text FSEARCH_QUERY_TOKEN_BRACKET_CLOSE) :: rest;
         operator_stack := st; macro_stack := ms; macro_filters := mf;
         last_token := last |}
    = Done (expression_postfix flags' e,
            {| lexer := rest;
               operator_stack := st; macro_stack := ms; macro_filters := mf;
               last_token := FSEARCH_QUERY_TOKEN_BRACKET_CLOSE |})).
  { intros flags'.
    unfold parse_modifier_body, bind at 1, lexer_next, bind, get_ctx.
    cbn -[parse_field parse_expression_loop get_implicit_and_if_necessary].
    unfold parse_open_bracket, bind, get_ctx.
    cbn -[parse_field parse_expression_loop get_implicit_and_if_necessary].
    rewrite get_implicit_and_if_necessary_run.
    rewrite implicit_and_effect_none by assumption.
    cbn -[parse_field parse_expression_loop].
    unfold push_query_token.
    (* the first iteration belongs to the expression *)
    assert (Hloop :
      parse_expression_loop (S (expression_steps e + S fuel)) true flags'
        [] 1 0
        {| lexer := expression_tokens text e
                    ++ (FSEARCH_QUERY_TOKEN_BRACKET_CLOSE,
                        text FSEARCH_QUERY_TOKEN_BRACKET_CLOSE) :: rest;
           operator_stack := FSEARCH_QUERY_TOKEN_BRACKET_OPEN :: st;
           macro_stack := ms; macro_filters := mf;
           last_token := FSEARCH_QUERY_TOKEN_BRACKET_OPEN |}
      = Done (expression_postfix flags' e,
              {| lexer := rest;
                 operator_stack := st; macro_stack := ms;
                 macro_filters := mf;
                 last_token := FSEARCH_QUERY_TOKEN_BRACKET_CLOSE |})).
    { replace (S (expression_steps e + S fuel))
        with (expression_steps e + S (S fuel))%nat by lia.
      rewrite parse_expression_loop_expression
        by (reflexivity || lia || (intros; lia)).
      erewrite parse_expression_loop_close_return
        with (popped := []) (stack := st);
        [ now rewrite app_nil_r
        | reflexivity | lia | reflexivity
        | rewrite uint32_incr_small by lia; lia ]. }
    ctx_norm. rewrite Hloop. reflexivity. }
  destruct modifier as [flag [|]]; cbn [modifier_flags]; apply Hin.
Qed.

(** X15: a macro that is not being expanded already and whose body lexes to
    the bracketed form of an expression expands, where no operand precedes
    the field, to the postfix form of the expression under the caller's
    flags merged with the filter's; the caller gets its lexer, operator stack
    and macro stack back. *)
Theorem macro_expands_bracketed_expression
  (fuel : nat) (name : string) (is_empty_field : bool)
  (flags : FsearchQueryFlags) (ctx : FsearchQueryParseContext)
  (i : nat) (filter : FsearchFilter) (e : query_expression) :
  lookup_macro (macro_filters ctx) 0 name = Some (i, filter) ->
  g_queue_find (macro_stack ctx) i = false ->
  fsearch_string_is_empty (filter_query filter) = false ->
  fsearch_query_lexer_new (filter_query filter) = expression_tokens text e ->
  and_trigger (last_token ctx) = false ->
  Z.of_nat (expression_brackets e) < 4294967296 ->
  parse_field (S (S (expression_steps e + S fuel))) name is_empty_field
    flags ctx
  = Done (expression_postfix (apply_filter_flags filter flags) e,
          with_last_token ctx (expression_last_token e)).
Proof.
  intros Hm Hf He Hlex Hl Hb.
  destruct ctx as [lx st ms mf last].
  cbn [macro_stack macro_filters last_token] in Hm, Hf, Hl.
  cbn [parse_field parse_filter_macros].
  unfold parse_field_body, parse_filter_macros_body, bind at 1, bind at 1,
    get_ctx.
  ctx_norm. rewrite Hm, Hf, He.
  unfold bind, set_macro_stack, set_lexer, set_operator_stack, get_ctx.
  ctx_norm. rewrite Hlex.
  rewrite <- (app_nil_r (expression_tokens text e)).
  rewrite parse_expression_loop_expression
    by (reflexivity || lia || discriminate || assumption).
  rewrite parse_expression_loop_eos by reflexivity.
  ctx_norm. cbn [flush_operator_stack tl].
  destruct (expression_postfix (apply_filter_flags filter flags) e)
    as [|x l] eqn:Ep.
  - now apply expression_postfix_nonempty in Ep.
  - reflexivity.
Qed.

(** X16: [last_token] is shared between a macro body and its caller.  A
    macro whose body is one word expands to that word alone where no operand
    or closing bracket precedes the macro field; where one does, the body's
    word gets an implicit And inside the expansion, pushed onto the body's
    own operator stack and flushed at the end of the body. *)
Theorem macro_body_shares_last_token
  (fuel : nat) (name : string) (is_empty_field : bool)
  (flags : FsearchQueryFlags) (ctx : FsearchQueryParseContext)
  (i : nat) (filter : FsearchFilter) (word : string) :
  lookup_macro (macro_filters ctx) 0 name = Some (i, filter) ->
  g_queue_find (macro_stack ctx) i = false ->
  fsearch_string_is_empty (filter_query filter) = false ->
  fsearch_query_lexer_new (filter_query filter)
  = [(FSEARCH_QUERY_TOKEN_WORD, word)] ->
  parse_field (S (S (S (S fuel)))) name is_empty_field flags ctx
  = Done (fsearch_query_node_new word (apply_filter_flags filter flags)
          :: (if and_trigger (last_token ctx)
              then [fsearch_query_node_new_operator
                      FSEARCH_QUERY_NODE_OPERATOR_AND]
              else []),
          with_last_token ctx FSEARCH_QUERY_TOKEN_WORD).
Proof.
  intros Hm Hf He Hlex.
  destruct ctx as [lx st ms mf last].
  cbn [macro_stack macro_filters last_token] in Hm, Hf.
  cbn [parse_field parse_filter_macros].
  unfold parse_field_body, parse_filter_macros_body, bind at 1, bind at 1,
    get_ctx.
  ctx_norm. rewrite Hm, Hf, He.
  unfold bind, set_macro_stack, set_lexer, set_operator_stack, get_ctx.
  ctx_norm. rewrite Hlex.
  destruct last; reflexivity.
Qed.

(** X17: the macro expander returns for every name, flags and context, and
    whatever budget it returns under, the context it hands back differs from
    the one it was given in [last_token] at most: lexer, operator stack,
    macro stack and registry are restored. *)
Theorem parse_filter_macros_keeps_context
  (name : string) (flags : FsearchQueryFlags)
  (ctx : FsearchQueryParseContext) :
  (exists res ctx',
      parse_filter_macros (macro_budget ctx) name flags ctx
      = Done (res, ctx'))
  /\ forall fuel res ctx',
       parse_filter_macros fuel name flags ctx = Done (res, ctx') ->
       ctx' = with_last_token ctx (last_token ctx').
Proof.
  destruct (parser_total (macro_budget ctx)) as (_ & _ & _ & Hx).
  specialize (Hx name flags ctx (Nat.le_refl _)).
  apply wp_done in Hx. destruct Hx as (res & ctx' & E & R & L).
  split; [eauto|].
  intros fuel res1 ctx1 E1.
  assert (Hmono : forall k fuel0,
             refines (parse_filter_macros fuel0 name flags)
                     (parse_filter_macros (k + fuel0) name flags)).
  { induction k as [|k IH]; intros fuel0; [apply refines_refl|].
    eapply refines_trans; [apply IH|]. apply fuel_step. }
  assert (E2 : parse_filter_macros (fuel + macro_budget ctx) name flags ctx
               = Done (res1, ctx1)).
  { rewrite Nat.add_comm. rewrite (Hmono _ _ ctx); [exact E1|].
    rewrite E1. discriminate. }
  assert (E3 : parse_filter_macros (fuel + macro_budget ctx) name flags ctx
               = Done (res, ctx')).
  { rewrite (Hmono _ _ ctx); [exact E|]. rewrite E. discriminate. }
  rewrite E2 in E3. inversion E3; subst res1 ctx1.
  destruct R as [(F1 & F2 & _) S].
  destruct ctx, ctx'. cbn in *. subst. reflexivity.
Qed.

End ExpressionTheorems.

(** ** Queries without brackets *)

Section Disjunctions.

Context {ext : External}.

Variable text : FsearchQueryToken -> string.

(** A literal after another literal of its conjunction. *)
Lemma parse_expression_loop_literal l fuel f r np ap op rest ms mf :
  parse_expression_loop (literal_steps l + fuel) false f r 0 0
    {| lexer := literal_tokens text l ++ rest;
       operator_stack := pending_operators np ap op;
       macro_stack := ms; macro_filters := mf;
       last_token := FSEARCH_QUERY_TOKEN_WORD |}
  = parse_expression_loop fuel false f
      ((r ++ flush_operator_stack [] (pending_operators np ap false))
       ++ [fsearch_query_node_new (snd l) f]) 0 0
      {| lexer := rest;
         operator_stack := pending_operators (fst l) true op;
         macro_stack := ms; macro_filters := mf;
         last_token := FSEARCH_QUERY_TOKEN_WORD |}.
Proof.
  destruct l as [[|] w], np, ap, op; cbn [literal_steps fst Nat.add];
    cbn; rewrite ?app_nil_r; reflexivity.
Qed.

(** The first literal of the query. *)
Lemma parse_expression_loop_first_literal l fuel f rest ms mf :
  parse_expression_loop (literal_steps l + fuel) false f [] 0 0
    {| lexer := literal_tokens text l ++ rest;
       operator_stack := [];
       macro_stack := ms; macro_filters := mf;
       last_token := FSEARCH_QUERY_TOKEN_NONE |}
  = parse_expression_loop fuel false f
      [fsearch_query_node_new (snd l) f] 0 0
      {| lexer := rest;
         operator_stack := pending_operators (fst l) false false;
         macro_stack := ms; macro_filters := mf;
         last_token := FSEARCH_QUERY_TOKEN_WORD |}.
Proof.
  destruct l as [[|] w]; reflexivity.
Qed.

(** OR and the first literal of the next conjunction. *)
Lemma parse_expression_loop_or_literal l fuel f r np ap op rest ms mf :
  parse_expression_loop (S (literal_steps l + fuel)) false f r 0 0
    {| lexer := (FSEARCH_QUERY_TOKEN_OR, text FSEARCH_QUERY_TOKEN_OR)
                :: literal_tokens text l ++ rest;
       operator_stack := pending_operators np ap op;
       macro_stack := ms; macro_filters := mf;
       last_token := FSEARCH_QUERY_TOKEN_WORD |}
  = parse_expression_loop fuel false f
      ((r ++ flush_operator_stack [] (pending_operators np ap op))
       ++ [fsearch_query_node_new (snd l) f]) 0 0
      {| lexer := rest;
         operator_stack := pending_operators (fst l) false true;
         macro_stack := ms; macro_filters := mf;
         last_token := FSEARCH_QUERY_TOKEN_WORD |}.
Proof.
  destruct l as [[|] w], np, ap, op; cbn [literal_steps fst Nat.add];
    cbn; rewrite ?app_nil_r; reflexivity.
Qed.

Lemma pending_operators_split np ap op :
  flush_operator_stack [] (pending_operators np ap op)
  = flush_operator_stack [] (pending_operators np ap false)
    ++ flush_operator_stack [] (pending_operators false false op).
Proof. destruct np, ap, op; reflexivity. Qed.

Lemma pending_operators_flush r np ap op :
  flush_operator_stack r (pending_operators np ap op)
  = r ++ flush_operator_stack [] (pending_operators np ap op).
Proof. destruct np, ap, op; cbn; rewrite <- ?app_assoc, ?app_nil_r; reflexivity. Qed.

Lemma literal_postfix_pending f l :
  [fsearch_query_node_new (snd l) f]
  ++ flush_operator_stack [] (pending_operators (fst l) true false)
  = literal_postfix f l
    ++ [fsearch_query_node_new_operator FSEARCH_QUERY_NODE_OPERATOR_AND].
Proof. destruct l as [[|] w]; reflexivity. Qed.

Lemma literal_postfix_first f l :
  [fsearch_query_node_new (snd l) f]
  ++ flush_operator_stack [] (pending_operators (fst l) false false)
  = literal_postfix f l.
Proof. destruct l as [[|] w]; reflexivity. Qed.

(** The main loop from between two literals to the end of the query. *)
Lemma parse_expression_loop_disjunction f ms mf
  (groups : list query_conjunction) :
  forall (lits : list query_literal) r np ap op,
  exists fuel ctx',
    parse_expression_loop fuel false f r 0 0
      {| lexer :=
           flat_map (literal_tokens text) lits
           ++ flat_map
                (fun g =>
                   (FSEARCH_QUERY_TOKEN_OR, text FSEARCH_QUERY_TOKEN_OR)
                   :: conjunction_tokens text g)
                groups;
         operator_stack := pending_operators np ap op;
         macro_stack := ms; macro_filters := mf;
         last_token := FSEARCH_QUERY_TOKEN_WORD |}
    = Done
        (r
         ++ flush_operator_stack [] (pending_operators np ap false)
         ++ flat_map
              (fun l =>
                 literal_postfix f l
                 ++ [fsearch_query_node_new_operator
                       FSEARCH_QUERY_NODE_OPERATOR_AND])
              lits
         ++ flush_operator_stack [] (pending_operators false false op)
         ++ flat_map
              (fun g =>
                 conjunction_postfix f g
                 ++ [fsearch_query_node_new_operator
                       FSEARCH_QUERY_NODE_OPERATOR_OR])
              groups,
         ctx')
    /\ operator_stack ctx' = [].
Proof.
  assert (Hlits : forall groups',
    (forall r np ap op,
        exists fuel ctx',
          parse_expression_loop fuel false f r 0 0
            {| lexer :=
                 flat_map
                   (fun g =>
                      (FSEARCH_QUERY_TOKEN_OR, text FSEARCH_QUERY_TOKEN_OR)
                      :: conjunction_tokens text g)
                   groups';
               operator_stack := pending_operators np ap op;
               macro_stack := ms; macro_filters := mf;
               last_token := FSEARCH_QUERY_TOKEN_WORD |}
          = Done
              (r
               ++ flush_operator_stack [] (pending_operators np ap false)
               ++ flush_operator_stack [] (pending_operators false false op)
               ++ flat_map
                    (fun g =>
                       conjunction_postfix f g
                       ++ [fsearch_query_node_new_operator
                             FSEARCH_QUERY_NODE_OPERATOR_OR])
                    groups',
               ctx')
          /\ operator_stack ctx' = []) ->
    forall (lits : list query_literal) r np ap op,
    exists fuel ctx',
      parse_expression_loop fuel false f r 0 0
        {| lexer :=
             flat_map (literal_tokens text) lits
             ++ flat_map
                  (fun g =>
                     (FSEARCH_QUERY_TOKEN_OR, text FSEARCH_QUERY_TOKEN_OR)
                     :: conjunction_tokens text g)
                  groups';
           operator_stack := pending_operators np ap op;
           macro_stack := ms; macro_filters := mf;
           last_token := FSEARCH_QUERY_TOKEN_WORD |}
      = Done
          (r
           ++ flush_operator_stack [] (pending_operators np ap false)
           ++ flat_map
                (fun l =>
                   literal_postfix f l
                   ++ [fsearch_query_node_new_operator
                         FSEARCH_QUERY_NODE_OPERATOR_AND])
                lits
           ++ flush_operator_stack [] (pending_operators false false op)
           ++ flat_map
                (fun g =>
                   conjunction_postfix f g
                   ++ [fsearch_query_node_new_operator
                         FSEARCH_QUERY_NODE_OPERATOR_OR])
                groups',
           ctx')
      /\ operator_stack ctx' = []).
  { intros groups' Hend lits.
    induction lits as [|l lits IH]; intros r np ap op.
    - apply Hend.
    - cbn [flat_map]. rewrite <- app_assoc.
      destruct (IH ((r ++ flush_operator_stack []
                            (pending_operators np ap false))
                    ++ [fsearch_query_node_new (snd l) f])
                  (fst l) true op)
        as (fuel & ctx' & E & Hs).
      exists (literal_steps l + fuel)%nat, ctx'. split; [|exact Hs].
      rewrite parse_expression_loop_literal. rewrite E.
      f_equal. f_equal.
      rewrite <- !app_assoc. f_equal. f_equal.
      rewrite !app_assoc. rewrite literal_postfix_pending.
      reflexivity. }
  induction groups as [|g groups IH]; intros lits; apply Hlits.
  - intros r np ap op. exists 1%nat. eexists. split.
    + cbn [flat_map]. rewrite parse_expression_loop_eos by reflexivity.
      cbn [operator_stack]. rewrite pending_operators_flush.
      rewrite (pending_operators_split np ap op).
      rewrite app_nil_r. reflexivity.
    + reflexivity.
  - intros r np ap op.
    destruct g as [l lits']. cbn [flat_map app].
    unfold conjunction_tokens at 1. cbn [fst snd].
    rewrite <- !app_assoc.
    destruct (IH lits'
                ((r ++ flush_operator_stack [] (pending_operators np ap op))
                 ++ [fsearch_query_node_new (snd l) f])
                (fst l) false true)
      as (fuel & ctx' & E & Hs).
    exists (S (literal_steps l + fuel)), ctx'. split; [|exact Hs].
    cbn [app].
    rewrite parse_expression_loop_or_literal. rewrite E.
    f_equal. f_equal.
    rewrite (pending_operators_split np ap op).
    change (conjunction_postfix f (l, lits'))
      with (literal_postfix f l
            ++ flat_map
                 (fun l0 =>
                    literal_postfix f l0
                    ++ [fsearch_query_node_new_operator
                          FSEARCH_QUERY_NODE_OPERATOR_AND])
                 lits').
    rewrite <- (literal_postfix_first f l).
    rewrite <- !app_assoc. reflexivity.
Qed.

Lemma postfix_depth_literal f l depth :
  postfix_depth (literal_postfix f l) depth = Some (S depth).
Proof. destruct l as [[|] w]; reflexivity. Qed.

Lemma postfix_depth_literals f lits : forall depth,
  postfix_depth
    (flat_map
       (fun l =>
          literal_postfix f l
          ++ [fsearch_query_node_new_operator FSEARCH_QUERY_NODE_OPERATOR_AND])
       lits) (S depth)
  = Some (S depth).
Proof.
  induction lits as [|l lits IH]; intros depth; [reflexivity|].
  cbn [flat_map].
  rewrite !postfix_depth_app, postfix_depth_literal. cbn [postfix_depth].
  apply IH.
Qed.

Lemma postfix_depth_conjunction f g depth :
  postfix_depth (conjunction_postfix f g) depth = Some (S depth).
Proof.
  unfold conjunction_postfix.
  rewrite postfix_depth_app, postfix_depth_literal.
  apply postfix_depth_literals.
Qed.

Lemma postfix_depth_conjunctions f groups : forall depth,
  postfix_depth
    (flat_map
       (fun g =>
          conjunction_postfix f g
          ++ [fsearch_query_node_new_operator FSEARCH_QUERY_NODE_OPERATOR_OR])
       groups) (S depth)
  = Some (S depth).
Proof.
  induction groups as [|g groups IH]; intros depth; [reflexivity|].
  cbn [flat_map].
  rewrite !postfix_depth_app, postfix_depth_conjunction. cbn [postfix_depth].
  apply IH.
Qed.

(** X18: a query without brackets that is a disjunction of conjunctions of
    words and negated words (the literals of a conjunction side by side, OR
    between the conjunctions) parses to the postfix form in which NOT binds
    tighter than the implicit AND, AND tighter than OR, and both associate to
    the left.  The operator stack ends empty and the output leaves exactly
    one value on the stack of the evaluator. *)
Theorem disjunction_of_conjunctions_parses
  (filters : list FsearchFilter) (flags : FsearchQueryFlags)
  (d : query_disjunction) :
  (exists ctx',
      fsearch_query_parse filters flags (disjunction_tokens text d)
      = Done (disjunction_postfix flags d, ctx')
      /\ operator_stack ctx' = [])
  /\ well_formed_postfix (disjunction_postfix flags d) = true.
Proof.
  split.
  2: { unfold well_formed_postfix, disjunction_postfix.
       rewrite postfix_depth_app, postfix_depth_conjunction.
       now rewrite postfix_depth_conjunctions. }
  destruct d as [[l lits] groups].
  destruct (parse_expression_loop_disjunction flags [] filters groups lits
              [fsearch_query_node_new (snd l) flags] (fst l) false false)
    as (fuel & ctx' & E & Hs).
  exists ctx'. split; [|exact Hs].
  apply fsearch_query_parse_any_fuel
    with (fuel := (literal_steps l + fuel)%nat).
  unfold disjunction_tokens, conjunction_tokens, initial_context.
  cbn [fst snd]. rewrite <- app_assoc.
  rewrite parse_expression_loop_first_literal.
  etransitivity; [exact E|].
  f_equal. f_equal.
  unfold disjunction_postfix. cbn [fst snd].
  change (conjunction_postfix flags (l, lits))
    with (literal_postfix flags l
          ++ flat_map
               (fun l0 =>
                  literal_postfix flags l0
                  ++ [fsearch_query_node_new_operator
                        FSEARCH_QUERY_NODE_OPERATOR_AND])
               lits).
  rewrite <- (literal_postfix_first flags l).
  rewrite <- !app_assoc. reflexivity.
Qed.

Lemma discard_consecutive_binary_operator_tokens_loop_app
  (ops rest : FsearchQueryLexer) :
  forallb (fun p => is_binary_operator_token (fst p)) ops = true ->
  discard_consecutive_binary_operator_tokens_loop (ops ++ rest)
  = discard_consecutive_binary_operator_tokens_loop rest.
Proof.
  induction ops as [|[t s] ops IH]; [reflexivity|].
  cbn [forallb fst]. intros H. apply andb_prop in H. destruct H as [Ht H].
  cbn [app discard_consecutive_binary_operator_tokens_loop].
  rewrite Ht. now apply IH.
Qed.

(** X19: from any state of the main loop, the AND and OR tokens that
    directly follow an open bracket are discarded: the loop behaves as if
    the bracket were followed by what comes after them. *)
Theorem operators_after_open_bracket_discarded
  (fuel : nat) (b : bool) (f : FsearchQueryFlags)
  (r : list FsearchQueryNode) (n m : Z) (c : FsearchQueryParseContext)
  (s : string) (ops rest : FsearchQueryLexer) :
  forallb (fun p => is_binary_operator_token (fst p)) ops = true ->
  parse_expression_loop (S fuel) b f r n m
    (with_lexer c ((FSEARCH_QUERY_TOKEN_BRACKET_OPEN, s) :: ops ++ rest))
  = parse_expression_loop (S fuel) b f r n m
      (with_lexer c ((FSEARCH_QUERY_TOKEN_BRACKET_OPEN, s) :: rest)).
Proof.
  intros Hops.
  destruct c as [lx st ms mf last].
  cbn [parse_expression_loop].
  unfold parse_expression_iteration, bind at 1, lexer_next, bind, get_ctx.
  ctx_norm.
  cbn -[get_implicit_and_if_necessary
        discard_consecutive_binary_operator_tokens_loop].
  unfold parse_open_bracket, bind, get_ctx.
  cbn -[get_implicit_and_if_necessary
        discard_consecutive_binary_operator_tokens_loop].
  rewrite !get_implicit_and_if_necessary_run.
  unfold implicit_and_effect, parse_operator_effect. ctx_norm.
  destruct ((is_operand_token last
             || token_eqb last FSEARCH_QUERY_TOKEN_BRACKET_CLOSE)
            && (is_operand_token FSEARCH_QUERY_TOKEN_BRACKET_OPEN
                || token_eqb FSEARCH_QUERY_TOKEN_BRACKET_OPEN
                     FSEARCH_QUERY_TOKEN_BRACKET_OPEN
                || token_eqb FSEARCH_QUERY_TOKEN_BRACKET_OPEN
                     FSEARCH_QUERY_TOKEN_NOT)).
  - destruct (parse_operator_loop FSEARCH_QUERY_TOKEN_AND [] st)
      as [popped st'].
    cbn -[get_implicit_and_if_necessary
          discard_consecutive_binary_operator_tokens_loop].
    unfold discard_consecutive_binary_operator_tokens, bind, get_ctx,
      set_lexer.
    ctx_norm.
    rewrite discard_consecutive_binary_operator_tokens_loop_app
      by assumption.
    reflexivity.
  - cbn -[get_implicit_and_if_necessary
          discard_consecutive_binary_operator_tokens_loop].
    unfold discard_consecutive_binary_operator_tokens, bind, get_ctx,
      set_lexer.
    ctx_norm.
    rewrite discard_consecutive_binary_operator_tokens_loop_app
      by assumption.
    reflexivity.
Qed.

End Disjunctions.

(** ** How a parse ends *)

Lemma ensures_bind {A B : Type} (m : M A) (k : A -> M B) P :
  (forall a, ensures (k a) P) -> ensures (bind m k) P.
Proof.
  intros Hk ctx b ctx'. unfold bind.
  destruct (m ctx) as [[a c1]| |]; try discriminate. apply Hk.
Qed.

(** Reading a token: at the end of the stream, or a token of the
    stream. *)
Lemma ensures_lexer_next {B : Type}
  (k : FsearchQueryToken * option string -> M B) P :
  (forall ctx b ctx',
      at_eos (lexer ctx) = true ->
      k (FSEARCH_QUERY_TOKEN_EOS, None) ctx = Done (b, ctx') ->
      P b ctx') ->
  (forall t s, t <> FSEARCH_QUERY_TOKEN_EOS -> ensures (k (t, Some s)) P) ->
  ensures (bind lexer_next k) P.
Proof.
  intros Heos Htok ctx b ctx' H.
  unfold bind at 1, lexer_next, bind at 1, get_ctx in H.
  destruct (lexer_next_cases (lexer ctx))
    as [[He E]|(t & s & rest & _ & Ht & _ & E)]; rewrite E in H.
  - cbn [set_lexer bind ret] in H. eapply Heos; [|exact H]. exact He.
  - cbn [set_lexer bind ret] in H. eapply Htok; eauto.
Qed.

Section Ends.

Context {ext : External}.

Lemma parse_expression_loop_ends (fuel : nat) : forall f r n m,
  ensures (parse_expression_loop fuel false f r n m) flushed_or_aborted.
Proof.
  induction fuel as [|fuel IH]; intros f r n m; [discriminate|].
  assert (Hnext : forall last token to_append skip n' m',
             ensures (next_iteration (parse_expression_loop fuel) false f r
                        last token to_append skip n' m')
                     flushed_or_aborted).
  { intros. unfold next_iteration. apply ensures_bind. intros r'. apply IH. }
  cbn [parse_expression_loop]. unfold parse_expression_iteration.
  apply ensures_lexer_next.
  - (* the end of the stream *)
    intros ctx nodes ctx' He H. cbn in H. inversion H; subst.
    left. split; [exact He | reflexivity].
  - intros t s Ht. cbv beta iota zeta.
    apply ensures_bind. intros ctx0.
    destruct t; try (now elim Ht);
      repeat first
        [ apply Hnext
        | apply ensures_bind; intros ?
        | match goal with
          | |- ensures (if ?c then _ else _) _ => destruct c
          end ].
    (* a closing bracket without its open bracket *)
    intros c1 nodes c2 H. inversion H; subst. right. reflexivity.
Qed.

(** X20: every top-level parse returns, and it ends in one of two ways: the
    whole stream has been read and the operator stack is empty, or the
    output is the single match-nothing leaf of the abort path. *)
Theorem top_level_parse_ends
  (filters : list FsearchFilter) (flags : FsearchQueryFlags)
  (input : FsearchQueryLexer) :
  exists nodes ctx',
    fsearch_query_parse filters flags input = Done (nodes, ctx')
    /\ ((at_eos (lexer ctx') = true /\ operator_stack ctx' = [])
        \/ nodes = [fsearch_query_node_new_match_nothing]).
Proof.
  destruct (fsearch_query_parse_done filters flags input)
    as (nodes & ctx' & E & _).
  exists nodes, ctx'. split; [exact E|].
  unfold fsearch_query_parse, fsearch_query_parser_parse_expression in E.
  exact (@parse_expression_loop_ends _ _ _ _ _ _ _ _ E).
Qed.

End Ends.

(** ** Streams with balanced brackets *)

Section Balanced.

Context {ext : External}.

Lemma balanced_inv_quiet open n m c c' :
  balanced_inv open n m c -> quiet c c' 0 -> balanced_inv open n m c'.
Proof.
  intros (Hok & Hm & Hd & Hb & Hc) ((F1 & F2 & F3 & F4 & F5) & L & C).
  unfold balanced_inv. rewrite L. repeat split; auto; lia.
Qed.

Lemma balanced_inv_with_lexer open n m c l :
  balanced_inv open n m c ->
  (List.length l <= List.length (lexer c))%nat ->
  balanced_inv open n m (with_lexer c l).
Proof.
  intros (Hok & Hm & Hd & Hb & Hc) Hl.
  unfold balanced_inv. ctx_simpl. repeat split; auto; lia.
Qed.

(** From a state of the top-level loop in which the remaining tokens hold
    no field with an argument, close no bracket that is not open and are too
    few to make a counter wrap around, the loop reads the stream to its end
    and flushes the operator stack. *)
Lemma parse_expression_loop_balanced fuel : forall flags r n m open c,
  (expression_budget c <= fuel)%nat ->
  no_field_token (lexer c) = true ->
  excess_close open (lexer c) = false ->
  balanced_inv open n m c ->
  wp (parse_expression_loop fuel false flags r n m)
     (fun _ c' => at_eos (lexer c') = true /\ operator_stack c' = []) c.
Proof.
  induction fuel as [|fuel IH]; intros flags r n m open c Hb Hnf Hex Hi.
  { unfold expression_budget, macro_budget in Hb. lia. }
  cbn [parse_expression_loop]. unfold parse_expression_iteration.
  apply wp_bind. apply wp_lexer_next.
  { intros He. cbn. split; [exact He | reflexivity]. }
  intros t s rest E Ht.
  assert (Hnf1 : no_field_token rest = true).
  { rewrite E in Hnf. simpl in Hnf. apply andb_prop in Hnf. tauto. }
  assert (Hb1 : forall l,
             (List.length l <= List.length rest)%nat ->
             forall c2,
               frame (with_lexer c l) c2 ->
               (expression_budget c2 <= fuel)%nat).
  { intros l Hl c2 Hf.
    pose proof (expression_budget_frame Hf) as H1.
    pose proof (expression_budget_token c E) as H2.
    pose proof (expression_budget_with_lexer (with_lexer c rest) l Hl) as H3.
    change (with_lexer (with_lexer c rest) l) with (with_lexer c l) in H3.
    lia. }
  (* the next iteration, from a context that reads [l] *)
  assert (Hcont : forall l open' ta skip n' m' c2,
             (List.length l <= List.length rest)%nat ->
             no_field_token l = true ->
             excess_close open' l = false ->
             frame (with_lexer c l) c2 ->
             lexer c2 = l ->
             balanced_inv open' n' m' c2 ->
             wp (next_iteration (parse_expression_loop fuel) false flags r
                   (last_token (with_lexer c rest)) t ta skip n' m')
                (fun _ c' =>
                   at_eos (lexer c') = true /\ operator_stack c' = [])
                c2).
  { intros l open' ta skip n' m' c2 Hl Hnf2 Hex2 Hf El Hi2.
    unfold next_iteration. apply wp_bind.
    assert (Hgo : forall r' c3,
               quiet c2 c3 0 ->
               wp (parse_expression_loop fuel false flags r' n' m')
                  (fun _ c' =>
                     at_eos (lexer c') = true /\ operator_stack c' = [])
                  c3).
    { intros r' c3 Hq3.
      assert (El3 : lexer c3 = l)
        by (rewrite (proj1 (proj2 Hq3)); exact El).
      apply IH with (open := open').
      - apply (Hb1 l Hl). eapply frame_trans; [exact Hf | apply Hq3].
      - now rewrite El3.
      - now rewrite El3.
      - eapply balanced_inv_quiet; eauto. }
    destruct ta as [|x ta]; [apply wp_ret, Hgo, quiet_refl|].
    apply wp_bind.
    assert (Hset : forall ia c3,
               quiet c2 c3 0 ->
               wp (set_last_token t ;;; ret ((r ++ ia) ++ x :: ta))
                  (fun r' c4 =>
                     wp (parse_expression_loop fuel false flags r' n' m')
                        (fun _ c' =>
                           at_eos (lexer c') = true
                           /\ operator_stack c' = [])
                        c4) c3).
    { intros ia c3 Hq3. cbn. apply Hgo.
      replace 0 with (0 + 0) by lia.
      eapply quiet_trans; [exact Hq3 | apply quiet_with_last_token]. }
    destruct skip; [apply wp_ret, Hset, quiet_refl|].
    apply wp_get_implicit_and_if_necessary. intros ia c3 Hq3.
    apply Hset. exact Hq3. }
  assert (Hlen : (List.length (lexer c) = S (List.length rest))%nat)
    by (rewrite E; reflexivity).
  assert (Hi1 : balanced_inv open n m (with_lexer c rest))
    by (apply balanced_inv_with_lexer; [exact Hi | lia]).
  assert (Hquiet : forall c2 d,
             quiet (with_lexer c rest) c2 d ->
             frame (with_lexer c rest) c2 /\ lexer c2 = rest).
  { intros c2 d (Hf & Hl & _). auto. }
  apply wp_get_ctx.
  rewrite E in Hex.
  destruct t; cbn [excess_close] in Hex;
    try (apply (Hcont rest open); auto using frame_refl; fail).
  - now elim Ht.
  - (* FIELD *)
    rewrite E in Hnf. discriminate Hnf.
  - (* FIELD_EMPTY *)
    apply wp_deref. apply wp_bind.
    destruct (parser_total fuel) as (_ & Hfield & _).
    assert (Hw := Hfield s true flags (with_lexer c rest)).
    assert (Hb2 : (expression_budget (with_lexer c rest) + 1 <= fuel)%nat)
      by (pose proof (expression_budget_token c E); lia).
    specialize (Hw Hb2 (proj1 Hi)).
    unfold wp in Hw |- *.
    destruct (parse_field fuel s true flags (with_lexer c rest))
      as [[ta c2]| |] eqn:Ef; try exact Hw.
    apply parse_field_empty_restores in Ef. destruct Ef as [El Es].
    assert (Hq : quiet (with_lexer c rest) c2 0).
    { split; [apply Hw|]. split; [exact El | rewrite Es; lia]. }
    apply (Hcont rest open); auto; [apply Hq|].
    eapply balanced_inv_quiet; eauto.
  - (* AND *)
    apply wp_bind.
    apply wp_is_operator_token_followed_by_operand; [reflexivity|].
    intros [|]; [|apply (Hcont rest open); auto using frame_refl].
    apply wp_bind. apply wp_parse_operator; [reflexivity|].
    intros ta c2 Hq. destruct (Hquiet _ _ Hq).
    apply (Hcont rest open); auto.
    eapply balanced_inv_quiet; eauto.
  - (* OR *)
    apply wp_bind.
    apply wp_is_operator_token_followed_by_operand; [reflexivity|].
    intros [|]; [|apply (Hcont rest open); auto using frame_refl].
    apply wp_bind. apply wp_parse_operator; [reflexivity|].
    intros ta c2 Hq. destruct (Hquiet _ _ Hq).
    apply (Hcont rest open); auto.
    eapply balanced_inv_quiet; eauto.
  - (* NOT *)
    apply wp_bind. apply wp_consume_consecutive_not_token_exact.
    cbn [lexer with_lexer].
    destruct (consume_consecutive_not_token_loop_suffix rest true open)
      as [Hex2 Hnf2].
    destruct (consume_consecutive_not_token_loop true rest) as [uneven l]
      eqn:Ec.
    pose proof (consume_consecutive_not_token_loop_lexer _ _ Ec) as [Hl _].
    cbn [fst snd] in *.
    change (with_lexer (with_lexer c rest) l) with (with_lexer c l).
    assert (Hex3 : excess_close open l = false) by congruence.
    assert (Hi2 : balanced_inv open n m (with_lexer c l))
      by (apply balanced_inv_with_lexer; [exact Hi | lia]).
    destruct uneven;
      [|apply (Hcont l open); auto using frame_refl].
    apply wp_bind.
    apply wp_is_operator_token_followed_by_operand; [reflexivity|].
    intros [|]; [|apply (Hcont l open); auto using frame_refl].
    apply wp_bind. apply wp_get_implicit_and_if_necessary.
    intros ia c3 Hq3.
    apply wp_bind. apply wp_parse_operator; [reflexivity|].
    intros op c4 Hq4.
    pose proof (quiet_trans Hq3 Hq4) as Hq.
    apply (Hcont l open); auto; [apply Hq | apply Hq|].
    eapply balanced_inv_quiet; [|exact Hq]. exact Hi2.
  - (* BRACKET_OPEN *)
    apply wp_bind. apply wp_parse_open_bracket. intros ta c2 Hq.
    apply wp_bind.
    unfold wp at 1, discard_consecutive_binary_operator_tokens, bind,
      get_ctx, set_lexer.
    destruct (Hquiet _ _ Hq) as [Hf Hl2]. rewrite Hl2.
    destruct (discard_consecutive_binary_operator_tokens_loop_suffix
                rest (S open)) as [Hex2 Hnf2].
    destruct (discard_consecutive_binary_operator_tokens_loop_lexer rest)
      as [Hl _].
    set (l := discard_consecutive_binary_operator_tokens_loop rest) in *.
    destruct Hi as (Hok & Hm & Hd & Hbound & Hc).
    destruct Hq as ((F1 & F2 & F3 & F4 & F5) & L & C).
    ctx_simpl.
    assert (Hn : uint32_incr n = n + 1)
      by (apply uint32_incr_small; lia).
    apply (Hcont l (S open)); auto; try congruence.
    + unfold frame. ctx_simpl. repeat split; auto.
    + unfold balanced_inv. ctx_simpl. rewrite Hn.
      repeat split; auto; lia.
  - (* BRACKET_CLOSE *)
    destruct open as [|open']; [discriminate Hex|].
    destruct Hi1 as (Hok & Hm & Hd & Hbound & Hc).
    assert (Elt : (m <? n) = true) by (apply Z.ltb_lt; lia).
    rewrite Elt.
    apply wp_bind. apply wp_parse_close_bracket; [exact Hok | lia |].
    intros ta c2 Hq Hok2. destruct (Hquiet _ _ Hq) as [Hf Hl2].
    cbn [andb].
    assert (Hm' : uint32_incr m = m + 1).
    { apply uint32_incr_small; [lia|].
      pose proof (Nat2Z.is_nonneg (List.length (lexer (with_lexer c rest)))).
      lia. }
    apply (Hcont rest open'); auto.
    destruct Hq as (_ & L & C).
    unfold balanced_inv. rewrite L, Hm'.
    repeat split; auto; lia.
Qed.

(** X23: a stream without fields that take an argument, shorter than 2^32
    tokens, in which no prefix before the end of the stream has more closing
    than opening brackets, is read to its end: the top-level parse returns
    with the lexer at the end of the stream and the operator stack empty. *)
Theorem balanced_stream_is_read_to_its_end
  (filters : list FsearchFilter) (flags : FsearchQueryFlags)
  (input : FsearchQueryLexer) :
  no_field_token input = true ->
  excess_close 0 input = false ->
  Z.of_nat (List.length input) < 4294967296 ->
  exists nodes ctx',
    fsearch_query_parse filters flags input = Done (nodes, ctx')
    /\ at_eos (lexer ctx') = true
    /\ operator_stack ctx' = [].
Proof.
  intros Hnf Hex Hlen.
  unfold fsearch_query_parse, fsearch_query_parser_parse_expression.
  apply (@wp_done _ _
           (fun _ c' => at_eos (lexer c') = true /\ operator_stack c' = [])).
  apply parse_expression_loop_balanced with (open := 0%nat); auto.
  unfold balanced_inv. cbn. repeat split; lia.
Qed.

End Balanced.

Lemma balanced_stream_is_read_to_its_end_witness :
  no_field_token
    [ (FSEARCH_QUERY_TOKEN_BRACKET_OPEN, "(");
      (FSEARCH_QUERY_TOKEN_WORD, "a");
      (FSEARCH_QUERY_TOKEN_BRACKET_CLOSE, ")") ] = true
  /\ excess_close 0
       [ (FSEARCH_QUERY_TOKEN_BRACKET_OPEN, "(");
         (FSEARCH_QUERY_TOKEN_WORD, "a");
         (FSEARCH_QUERY_TOKEN_BRACKET_CLOSE, ")") ] = false
  /\ exists nodes ctx',
       fsearch_query_parse (ext := example_external) [] 0
         [ (FSEARCH_QUERY_TOKEN_BRACKET_OPEN, "(");
           (FSEARCH_QUERY_TOKEN_WORD, "a");
           (FSEARCH_QUERY_TOKEN_BRACKET_CLOSE, ")") ]
       = Done (nodes, ctx')
       /\ at_eos (lexer ctx') = true
       /\ operator_stack ctx' = [].
Proof.
  split; [reflexivity|]. split; [reflexivity|].
  apply (@balanced_stream_is_read_to_its_end example_external [] 0
           [ (FSEARCH_QUERY_TOKEN_BRACKET_OPEN, "(");
             (FSEARCH_QUERY_TOKEN_WORD, "a");
             (FSEARCH_QUERY_TOKEN_BRACKET_CLOSE, ")") ]);
    reflexivity.
Defined.

(** ** The operator stack *)

Lemma parse_operator_loop_order token stack : forall res res' stack',
  parse_operator_loop token res stack = (res', stack') ->
  flush_operator_stack res' stack' = flush_operator_stack res stack
  /\ (stack' = []
      \/ get_operator_precedence (top_query_token stack')
         < get_operator_precedence token).
Proof.
  induction stack as [|top stack IH]; intros res res' stack' H.
  - cbn in H. inversion H; subst. auto.
  - cbn [parse_operator_loop] in H.
    destruct (get_operator_precedence token <=? get_operator_precedence top)
      eqn:E.
    + apply IH in H. exact H.
    + inversion H; subst. split; [reflexivity|]. right.
      apply Z.leb_gt in E. exact E.
Qed.

(** X21: [parse_operator] returns for every operator token.  It records the
    token as [last_token], moves operators from the stack to the output in
    stack order (flushing what it left after what it emitted gives what
    flushing the old stack gives), pops no open bracket, and pushes the
    token onto an entry that binds strictly less tightly, or onto the empty
    stack. *)
Theorem parse_operator_keeps_stack_order
  (token : FsearchQueryToken) (ctx : FsearchQueryParseContext) :
  is_operator_token token = true ->
  exists res stack,
    parse_operator token ctx
    = Done (res,
            with_operator_stack (with_last_token ctx token)
              (token :: stack))
    /\ flush_operator_stack res stack
       = flush_operator_stack [] (operator_stack ctx)
    /\ bracket_count stack = bracket_count (operator_stack ctx)
    /\ (stack = []
        \/ get_operator_precedence (top_query_token stack)
           < get_operator_precedence token).
Proof.
  intros Hop. rewrite (parse_operator_run token ctx Hop).
  unfold parse_operator_effect.
  destruct (parse_operator_loop token [] (operator_stack ctx))
    as [res stack] eqn:E.
  exists res, stack. split; [reflexivity|].
  destruct (parse_operator_loop_order _ _ _ E) as [Hf Ht].
  destruct (@parse_operator_loop_stack token [] (operator_stack ctx) res stack
              Hop E) as [Hc _].
  auto.
Qed.

Lemma parse_operator_keeps_stack_order_witness :
  is_operator_token FSEARCH_QUERY_TOKEN_OR = true
  /\ exists res stack,
       parse_operator FSEARCH_QUERY_TOKEN_OR
         (with_operator_stack (initial_context [] [])
            [ FSEARCH_QUERY_TOKEN_AND; FSEARCH_QUERY_TOKEN_BRACKET_OPEN ])
       = Done (res,
               with_operator_stack
                 (with_last_token
                    (with_operator_stack (initial_context [] [])
                       [ FSEARCH_QUERY_TOKEN_AND;
                         FSEARCH_QUERY_TOKEN_BRACKET_OPEN ])
                    FSEARCH_QUERY_TOKEN_OR)
                 (FSEARCH_QUERY_TOKEN_OR :: stack))
       /\ flush_operator_stack res stack
          = flush_operator_stack []
              (operator_stack
                 (with_operator_stack (initial_context [] [])
                    [ FSEARCH_QUERY_TOKEN_AND;
                      FSEARCH_QUERY_TOKEN_BRACKET_OPEN ]))
       /\ bracket_count stack
          = bracket_count
              (operator_stack
                 (with_operator_stack (initial_context [] [])
                    [ FSEARCH_QUERY_TOKEN_AND;
                      FSEARCH_QUERY_TOKEN_BRACKET_OPEN ]))
       /\ (stack = []
           \/ get_operator_precedence (top_query_token stack)
              < get_operator_precedence FSEARCH_QUERY_TOKEN_OR).
Proof.
  split; [reflexivity|].
  apply (parse_operator_keeps_stack_order FSEARCH_QUERY_TOKEN_OR
           (with_operator_stack (initial_context [] [])
              [ FSEARCH_QUERY_TOKEN_AND; FSEARCH_QUERY_TOKEN_BRACKET_OPEN ])).
  reflexivity.
Defined.

Lemma parse_close_bracket_loop_order stack : forall res,
  stack_ok stack = true ->
  (bracket_count stack = 0 -> parse_close_bracket_loop res stack = None)
  /\ (1 <= bracket_count stack ->
      exists res' stack',
        parse_close_bracket_loop res stack = Some (res', stack')
        /\ bracket_count stack' = bracket_count stack - 1
        /\ flush_operator_stack res' stack'
           = flush_operator_stack res stack).
Proof.
  induction stack as [|t stack IH]; intros res Hok.
  - split; [reflexivity | cbn; lia].
  - cbn [stack_ok forallb] in Hok. apply andb_prop in Hok.
    destruct Hok as [Ht Hok].
    destruct t; try discriminate Ht;
      cbn [parse_close_bracket_loop bracket_count flush_operator_stack];
      try apply (IH _ Hok).
    split.
    + pose proof (bracket_count_nonneg stack). lia.
    + intros _. eexists _, _. split; [reflexivity|].
      split; [lia | reflexivity].
Qed.

Lemma parse_close_bracket_loop_split above : forall res below,
  forallb is_operator_token above = true ->
  parse_close_bracket_loop res
    (above ++ FSEARCH_QUERY_TOKEN_BRACKET_OPEN :: below)
  = Some (flush_operator_stack res above, below).
Proof.
  induction above as [|t above IH]; intros res below Hop; [reflexivity|].
  cbn [forallb] in Hop. apply andb_prop in Hop. destruct Hop as [Ht Hop].
  destruct t; try discriminate Ht;
    cbn [app parse_close_bracket_loop flush_operator_stack];
    apply IH; exact Hop.
Qed.

(** The innermost open bracket of a stack that holds one: what lies above
    it are operators. *)
Lemma innermost_open_bracket stack :
  stack_ok stack = true ->
  1 <= bracket_count stack ->
  exists above below,
    stack = above ++ FSEARCH_QUERY_TOKEN_BRACKET_OPEN :: below
    /\ forallb is_operator_token above = true.
Proof.
  induction stack as [|t stack IH]; intros Hok Hc; [cbn in Hc; lia|].
  cbn [stack_ok forallb] in Hok. apply andb_prop in Hok.
  destruct Hok as [Ht Hok].
  destruct t; try discriminate Ht;
    try (exists [], stack; split; reflexivity);
    cbn [bracket_count] in Hc;
    destruct (IH Hok Hc) as (above & below & -> & Hop);
    eexists (_ :: above), below; (split; [reflexivity|]);
    cbn [forallb]; rewrite Hop; reflexivity.
Qed.

Lemma flush_operator_stack_operators above : forall res,
  forallb is_operator_token above = true ->
  List.length (flush_operator_stack res above)
  = (List.length res + List.length above)%nat.
Proof.
  induction above as [|t above IH]; intros res Hop; cbn; [lia|].
  cbn [forallb] in Hop. apply andb_prop in Hop. destruct Hop as [Ht Hop].
  rewrite (IH _ Hop).
  destruct t; try discriminate Ht; cbn; rewrite length_app; cbn; lia.
Qed.

(** X22: on a stack of operators and open brackets, [parse_close_bracket]
    runs into [g_assert_not_reached] when no open bracket is on the stack.
    With one, the stack splits at its innermost open bracket into the
    operators [above] it and the entries [below] it: the call returns one
    node for each operator of [above], in stack order, leaves exactly
    [below] on the stack, and records [BracketClose] as [last_token]. *)
Theorem parse_close_bracket_needs_open_bracket
  (ctx : FsearchQueryParseContext) :
  stack_ok (operator_stack ctx) = true ->
  (bracket_count (operator_stack ctx) = 0 -> parse_close_bracket ctx = Abort)
  /\ (1 <= bracket_count (operator_stack ctx) ->
      exists above below,
        operator_stack ctx
        = above ++ FSEARCH_QUERY_TOKEN_BRACKET_OPEN :: below
        /\ forallb is_operator_token above = true
        /\ parse_close_bracket ctx
           = Done (flush_operator_stack [] above,
                   with_last_token (with_operator_stack ctx below)
                     FSEARCH_QUERY_TOKEN_BRACKET_CLOSE)
        /\ List.length (flush_operator_stack [] above)
           = List.length above).
Proof.
  intros Hok. split.
  - intros H.
    destruct (parse_close_bracket_loop_order (operator_stack ctx) [] Hok)
      as [Hnone _].
    unfold parse_close_bracket, bind, get_ctx. now rewrite (Hnone H).
  - intros H.
    destruct (innermost_open_bracket (operator_stack ctx) Hok H)
      as (above & below & E & Hop).
    exists above, below. split; [exact E|]. split; [exact Hop|].
    split; [|apply (flush_operator_stack_operators above [] Hop)].
    unfold parse_close_bracket, bind, get_ctx.
    rewrite E, (parse_close_bracket_loop_split above [] below Hop).
    reflexivity.
Qed.

Lemma parse_close_bracket_needs_open_bracket_witness :
  (stack_ok
     (operator_stack
        (with_operator_stack (initial_context [] [])
           [ FSEARCH_QUERY_TOKEN_AND; FSEARCH_QUERY_TOKEN_OR ])) = true
   /\ bracket_count
        (operator_stack
           (with_operator_stack (initial_context [] [])
              [ FSEARCH_QUERY_TOKEN_AND; FSEARCH_QUERY_TOKEN_OR ])) = 0
   /\ parse_close_bracket
        (with_operator_stack (initial_context [] [])
           [ FSEARCH_QUERY_TOKEN_AND; FSEARCH_QUERY_TOKEN_OR ])
      = Abort)
  /\ stack_ok
       (operator_stack
          (with_operator_stack (initial_context [] [])
             [ FSEARCH_QUERY_TOKEN_NOT; FSEARCH_QUERY_TOKEN_AND;
               FSEARCH_QUERY_TOKEN_BRACKET_OPEN; FSEARCH_QUERY_TOKEN_OR;
               FSEARCH_QUERY_TOKEN_BRACKET_OPEN ])) = true
  /\ 1 <= bracket_count
            (operator_stack
               (with_operator_stack (initial_context [] [])
                  [ FSEARCH_QUERY_TOKEN_NOT; FSEARCH_QUERY_TOKEN_AND;
                    FSEARCH_QUERY_TOKEN_BRACKET_OPEN; FSEARCH_QUERY_TOKEN_OR;
                    FSEARCH_QUERY_TOKEN_BRACKET_OPEN ]))
  /\ parse_close_bracket
       (with_operator_stack (initial_context [] [])
          [ FSEARCH_QUERY_TOKEN_NOT; FSEARCH_QUERY_TOKEN_AND;
            FSEARCH_QUERY_TOKEN_BRACKET_OPEN; FSEARCH_QUERY_TOKEN_OR;
            FSEARCH_QUERY_TOKEN_BRACKET_OPEN ])
     = Done ([ fsearch_query_node_new_operator
                 FSEARCH_QUERY_NODE_OPERATOR_NOT;
               fsearch_query_node_new_operator
                 FSEARCH_QUERY_NODE_OPERATOR_AND ],
             with_last_token
               (with_operator_stack (initial_context [] [])
                  [ FSEARCH_QUERY_TOKEN_OR;
                    FSEARCH_QUERY_TOKEN_BRACKET_OPEN ])
               FSEARCH_QUERY_TOKEN_BRACKET_CLOSE).
Proof.
  split; [|split; [reflexivity|split; [cbn; lia|]]].
  - split; [reflexivity|]. split; [reflexivity|].
    apply (parse_close_bracket_needs_open_bracket
             (with_operator_stack (initial_context [] [])
                [ FSEARCH_QUERY_TOKEN_AND; FSEARCH_QUERY_TOKEN_OR ])
             eq_refl).
    reflexivity.
  - destruct (parse_close_bracket_needs_open_bracket
                (with_operator_stack (initial_context [] [])
                   [ FSEARCH_QUERY_TOKEN_NOT; FSEARCH_QUERY_TOKEN_AND;
                     FSEARCH_QUERY_TOKEN_BRACKET_OPEN; FSEARCH_QUERY_TOKEN_OR;
                     FSEARCH_QUERY_TOKEN_BRACKET_OPEN ])
                eq_refl) as [_ H].
    destruct H as (above & below & E & Hop & -> & _); [cbn; lia|].
    cbn [operator_stack with_operator_stack] in E.
    destruct above as [|t0 [|t1 [|t2 above]]]; cbn in E, Hop;
      try discriminate E; try discriminate Hop.
    + inversion E; subst. reflexivity.
    + inversion E; subst. discriminate Hop.
Defined.

(** ** Closed instances *)

Lemma operator_without_operand_dropped_witness :
  lexer
    (with_lexer (initial_context [] [])
       [ (FSEARCH_QUERY_TOKEN_AND, "AND");
         (FSEARCH_QUERY_TOKEN_BRACKET_CLOSE, ")") ])
  = (FSEARCH_QUERY_TOKEN_AND, "AND")
    :: [ (FSEARCH_QUERY_TOKEN_BRACKET_CLOSE, ")") ]
  /\ is_operator_token FSEARCH_QUERY_TOKEN_AND = true
  /\ (let next_token :=
        fsearch_query_lexer_peek_next_token
          [ (FSEARCH_QUERY_TOKEN_BRACKET_CLOSE, ")") ] in
      is_operand_token next_token
      || token_eqb next_token FSEARCH_QUERY_TOKEN_BRACKET_OPEN
      || token_eqb next_token FSEARCH_QUERY_TOKEN_NOT) = false
  /\ parse_expression_loop (ext := example_external) 3 false 0 [] 0 0
       (with_lexer (initial_context [] [])
          [ (FSEARCH_QUERY_TOKEN_AND, "AND");
            (FSEARCH_QUERY_TOKEN_BRACKET_CLOSE, ")") ])
     = parse_expression_loop (ext := example_external) 2 false 0 [] 0 0
         (with_lexer
            (with_lexer (initial_context [] [])
               [ (FSEARCH_QUERY_TOKEN_AND, "AND");
                 (FSEARCH_QUERY_TOKEN_BRACKET_CLOSE, ")") ])
            [ (FSEARCH_QUERY_TOKEN_BRACKET_CLOSE, ")") ]).
Proof.
  split; [reflexivity|]. split; [reflexivity|]. split; [reflexivity|].
  apply (@operator_without_operand_dropped example_external 2 false 0 []
           0 0
           (with_lexer (initial_context [] [])
              [ (FSEARCH_QUERY_TOKEN_AND, "AND");
                (FSEARCH_QUERY_TOKEN_BRACKET_CLOSE, ")") ])
           FSEARCH_QUERY_TOKEN_AND "AND"
           [ (FSEARCH_QUERY_TOKEN_BRACKET_CLOSE, ")") ]);
    reflexivity.
Defined.

Lemma operators_after_open_bracket_discarded_witness :
  forallb (fun p => is_binary_operator_token (fst p))
    [ (FSEARCH_QUERY_TOKEN_OR, "OR") ] = true
  /\ parse_expression_loop (ext := example_external) 4 false 0 [] 0 0
       (with_lexer (initial_context [] [])
          ((FSEARCH_QUERY_TOKEN_BRACKET_OPEN, "(")
           :: [ (FSEARCH_QUERY_TOKEN_OR, "OR") ]
           ++ [ (FSEARCH_QUERY_TOKEN_WORD, "a") ]))
     = parse_expression_loop (ext := example_external) 4 false 0 [] 0 0
         (with_lexer (initial_context [] [])
            ((FSEARCH_QUERY_TOKEN_BRACKET_OPEN, "(")
             :: [ (FSEARCH_QUERY_TOKEN_WORD, "a") ])).
Proof.
  split; [reflexivity|].
  apply (@operators_after_open_bracket_discarded example_external 3 false 0
           [] 0 0 (initial_context [] []) "("
           [ (FSEARCH_QUERY_TOKEN_OR, "OR") ]
           [ (FSEARCH_QUERY_TOKEN_WORD, "a") ]).
  reflexivity.
Defined.

Lemma bracketed_expression_parses_witness :
  Z.of_nat
    (expression_brackets
       (expression_or (expression_word "a")
          (expression_not (expression_word "b")))) < 4294967296
  /\ fsearch_query_parse (ext := example_external) [] 0
       (expression_tokens example_text
          (expression_or (expression_word "a")
             (expression_not (expression_word "b"))))
     = Done ([ fsearch_query_node_new "a" 0;
               fsearch_query_node_new "b" 0;
               fsearch_query_node_new_operator
                 FSEARCH_QUERY_NODE_OPERATOR_NOT;
               fsearch_query_node_new_operator
                 FSEARCH_QUERY_NODE_OPERATOR_OR ],
             with_last_token (initial_context [] [])
               FSEARCH_QUERY_TOKEN_BRACKET_CLOSE).
Proof.
  split; [reflexivity|].
  apply (@bracketed_expression_parses example_external example_text [] 0
           (expression_or (expression_word "a")
              (expression_not (expression_word "b")))).
  reflexivity.
Defined.

Lemma modifier_scopes_bracketed_expression_witness :
  lookup_macro (macro_filters (initial_context [] [])) 0 "case" = None
  /\ lookup_modifier (supported_modifiers (ext := example_external)) "case"
     = Some (1, ADD_FLAG)
  /\ and_trigger (last_token (initial_context [] [])) = false
  /\ Z.of_nat
       (expression_brackets
          (expression_or (expression_word "a") (expression_word "b"))) + 1
     < 4294967296
  /\ parse_field (ext := example_external) 10 "case" false 0
       (with_lexer (initial_context [] [])
          ((FSEARCH_QUERY_TOKEN_BRACKET_OPEN, "(")
           :: expression_tokens example_text
                (expression_or (expression_word "a") (expression_word "b"))
           ++ [ (FSEARCH_QUERY_TOKEN_BRACKET_CLOSE, ")") ]))
     = Done ([ fsearch_query_node_new "a" 1;
               fsearch_query_node_new "b" 1;
               fsearch_query_node_new_operator
                 FSEARCH_QUERY_NODE_OPERATOR_OR ],
             with_last_token (with_lexer (initial_context [] []) [])
               FSEARCH_QUERY_TOKEN_BRACKET_CLOSE).
Proof.
  split; [reflexivity|]. split; [reflexivity|]. split; [reflexivity|].
  split; [reflexivity|].
  apply (@modifier_scopes_bracketed_expression example_external example_text
           1 "case" (1, ADD_FLAG)
           (expression_or (expression_word "a") (expression_word "b"))
           0 [] (initial_context [] []));
    reflexivity.
Defined.

Lemma macro_expands_bracketed_expression_witness :
  lookup_macro
    [ {| filter_macro := "all"; filter_query := "a OR doc: x";
         filter_flags := 0 |};
      {| filter_macro := "doc";
         filter_query := "( report OR ( NOT draft ) )";
         filter_flags := 1 |} ]
    0 "doc"
  = Some (1%nat,
          {| filter_macro := "doc";
             filter_query := "( report OR ( NOT draft ) )";
             filter_flags := 1 |})
  /\ fsearch_query_lexer_new (External := lexing_external)
       "( report OR ( NOT draft ) )"
     = expression_tokens example_text
         (expression_or (expression_word "report")
            (expression_not (expression_word "draft")))
  /\ parse_field (ext := lexing_external) 11 "doc" true 0
       {| lexer := [ (FSEARCH_QUERY_TOKEN_WORD, "x") ];
          operator_stack := [ FSEARCH_QUERY_TOKEN_OR ];
          macro_stack := [ 0%nat ];
          macro_filters :=
            [ {| filter_macro := "all"; filter_query := "a OR doc: x";
                 filter_flags := 0 |};
              {| filter_macro := "doc";
                 filter_query := "( report OR ( NOT draft ) )";
                 filter_flags := 1 |} ];
          last_token := FSEARCH_QUERY_TOKEN_OR |}
     = Done ([ fsearch_query_node_new "report" 1;
               fsearch_query_node_new "draft" 1;
               fsearch_query_node_new_operator
                 FSEARCH_QUERY_NODE_OPERATOR_NOT;
               fsearch_query_node_new_operator
                 FSEARCH_QUERY_NODE_OPERATOR_OR ],
             {| lexer := [ (FSEARCH_QUERY_TOKEN_WORD, "x") ];
                operator_stack := [ FSEARCH_QUERY_TOKEN_OR ];
                macro_stack := [ 0%nat ];
                macro_filters :=
                  [ {| filter_macro := "all"; filter_query := "a OR doc: x";
                       filter_flags := 0 |};
                    {| filter_macro := "doc";
                       filter_query := "( report OR ( NOT draft ) )";
                       filter_flags := 1 |} ];
                last_token := FSEARCH_QUERY_TOKEN_BRACKET_CLOSE |}).
Proof.
  split; [reflexivity|]. split; [reflexivity|].
  apply (@macro_expands_bracketed_expression lexing_external example_text
           0 "doc" true 0
           {| lexer := [ (FSEARCH_QUERY_TOKEN_WORD, "x") ];
              operator_stack := [ FSEARCH_QUERY_TOKEN_OR ];
              macro_stack := [ 0%nat ];
              macro_filters :=
                [ {| filter_macro := "all"; filter_query := "a OR doc: x";
                     filter_flags := 0 |};
                  {| filter_macro := "doc";
                     filter_query := "( report OR ( NOT draft ) )";
                     filter_flags := 1 |} ];
              last_token := FSEARCH_QUERY_TOKEN_OR |}
           1%nat
           {| filter_macro := "doc";
              filter_query := "( report OR ( NOT draft ) )";
              filter_flags := 1 |}
           (expression_or (expression_word "report")
              (expression_not (expression_word "draft"))));
    reflexivity.
Defined.

(** A macro inside a macro, end to end: [all] expands to its body
    [a OR doc: x], and [doc] inside it to the postfix form of its own body
    under its own flag. *)
Example macro_inside_macro :
  parsed_nodes
    (fsearch_query_parse (ext := lexing_external)
       [ {| filter_macro := "all"; filter_query := "a OR doc: x";
            filter_flags := 0 |};
         {| filter_macro := "doc";
            filter_query := "( report OR ( NOT draft ) )";
            filter_flags := 1 |} ]
       0
       [ (FSEARCH_QUERY_TOKEN_FIELD_EMPTY, "all") ])
  = Some [ fsearch_query_node_new "a" 0;
           fsearch_query_node_new "report" 1;
           fsearch_query_node_new "draft" 1;
           fsearch_query_node_new_operator FSEARCH_QUERY_NODE_OPERATOR_NOT;
           fsearch_query_node_new_operator FSEARCH_QUERY_NODE_OPERATOR_OR;
           fsearch_query_node_new "x" 0;
           fsearch_query_node_new_operator FSEARCH_QUERY_NODE_OPERATOR_AND;
           fsearch_query_node_new_operator FSEARCH_QUERY_NODE_OPERATOR_OR ].
Proof. reflexivity. Qed.

Lemma macro_body_shares_last_token_witness :
  lookup_macro
    (macro_filters
       (with_last_token
          (initial_context
             [ {| filter_macro := "doc"; filter_query := "report";
                  filter_flags := 0 |} ] [])
          FSEARCH_QUERY_TOKEN_WORD))
    0 "doc"
  = Some (0%nat,
          {| filter_macro := "doc"; filter_query := "report";
             filter_flags := 0 |})
  /\ parse_field (ext := word_external) 4 "doc" true 0
       (with_last_token
          (initial_context
             [ {| filter_macro := "doc"; filter_query := "report";
                  filter_flags := 0 |} ] [])
          FSEARCH_QUERY_TOKEN_WORD)
     = Done ([ fsearch_query_node_new "report" 0;
               fsearch_query_node_new_operator
                 FSEARCH_QUERY_NODE_OPERATOR_AND ],
             with_last_token
               (with_last_token
                  (initial_context
                     [ {| filter_macro := "doc"; filter_query := "report";
                          filter_flags := 0 |} ] [])
                  FSEARCH_QUERY_TOKEN_WORD)
               FSEARCH_QUERY_TOKEN_WORD).
Proof.
  split; [reflexivity|].
  apply (@macro_body_shares_last_token word_external 0 "doc" true 0
           (with_last_token
              (initial_context
                 [ {| filter_macro := "doc"; filter_query := "report";
                      filter_flags := 0 |} ] [])
              FSEARCH_QUERY_TOKEN_WORD)
           0%nat
           {| filter_macro := "doc"; filter_query := "report";
              filter_flags := 0 |}
           "report");
    reflexivity.
Defined.

(** The query [a report-macro] end to end: the macro body's word gets an
    And of its own because an operand precedes the macro field, and the
    caller adds the And that joins the two operands. *)
Example macro_after_operand :
  parsed_nodes
    (fsearch_query_parse (ext := word_external)
       [ {| filter_macro := "doc"; filter_query := "report";
            filter_flags := 0 |} ]
       0
       [ (FSEARCH_QUERY_TOKEN_WORD, "a");
         (FSEARCH_QUERY_TOKEN_FIELD_EMPTY, "doc") ])
  = Some [ fsearch_query_node_new "a" 0;
           fsearch_query_node_new "report" 0;
           fsearch_query_node_new_operator FSEARCH_QUERY_NODE_OPERATOR_AND;
           fsearch_query_node_new_operator FSEARCH_QUERY_NODE_OPERATOR_AND ].
Proof. reflexivity. Qed.
